(** * Space-to-batch conversion of convolutions

    A model of [tensorflow/compiler/xla/service/space_to_batch_converter.cc]:
    the [ConvolutionVisitor] that rewrites convolutions with a small batch
    into convolutions with batch [kNewBatchSize] by folding a spatial
    dimension into the batch dimension, and propagates the new layout
    through the users of the convolution.

    Conventions of the model.
    - [int64] values are integers of [Z]; every [+], [-], [*] the source
      performs on [int64] is written with its two's complement wrap-around
      ([Int64.add] and friends, scope [%i64]).  [/] and [%] truncate as in
      C++ and fail on a zero divisor.
    - A [HloInstruction*] is an index into the arena of instructions of the
      computation ([InstrId]).
    - A function that can return a [Status], hit a [CHECK] or index past the
      end of a vector returns a [StatusOr]; the [Failure] says which.
    - A [while] loop runs on fuel; [Diverges] says that the fuel did not
      suffice, and is no error status: [TF_CHECK_OK] passes it on. *)

From Stdlib Require Import ZArith List Bool Lia.
From stdpp Require Import base option list gmap.

Local Open Scope Z_scope.

(** ** 64-bit signed integers *)

Module Int64.

Definition min_signed : Z := - 2 ^ 63.
Definition max_signed : Z := 2 ^ 63 - 1.

Definition in_range (z : Z) : Prop := min_signed <= z <= max_signed.

(** Reduction of an integer to its [int64] representative. *)
Definition wrap (z : Z) : Z := (z + 2 ^ 63) mod 2 ^ 64 - 2 ^ 63.

Definition add (a b : Z) : Z := wrap (a + b).
Definition sub (a b : Z) : Z := wrap (a - b).
Definition mul (a b : Z) : Z := wrap (a * b).

(** Values with two bits of headroom: sums of up to three of them, and
    their successors and predecessors, are computed without overflow. *)
Definition safe (z : Z) : Prop := - 2 ^ 61 <= z <= 2 ^ 61.

End Int64.

Declare Scope i64_scope.
Delimit Scope i64_scope with i64.
(* Nested operations stay 64-bit operations. *)
Arguments Int64.add (a b)%_i64_scope.
Arguments Int64.sub (a b)%_i64_scope.
Arguments Int64.mul (a b)%_i64_scope.
Notation "a + b" := (Int64.add a b) : i64_scope.
Notation "a - b" := (Int64.sub a b) : i64_scope.
Notation "a * b" := (Int64.mul a b) : i64_scope.

(** ** Failures *)

Inductive Failure : Set :=
| InvalidArgument   (* a non-OK [Status] returned by a graph builder *)
| CheckFailure      (* [CHECK], [TF_CHECK_OK], [LOG(FATAL)]: the process aborts *)
| OutOfRange        (* an index past the end of a vector or repeated field *)
| DivisionByZero    (* [/] or [%] with a zero divisor *)
| NullPointer       (* a handle that designates no instruction *)
| Diverges.         (* a loop that has not come to its end *)

Inductive StatusOr (A : Type) : Type :=
| OK (a : A)
| Fail (f : Failure).
Arguments OK {A} a.
Arguments Fail {A} f.

Definition bindS {A B} (m : StatusOr A) (k : A -> StatusOr B) : StatusOr B :=
  match m with
  | OK a => k a
  | Fail f => Fail f
  end.

Declare Scope status_scope.
Delimit Scope status_scope with status.
Notation "x <- m ;; k" := (bindS m (fun x => k))
  (at level 100, m at next level, right associativity) : status_scope.

(** [TF_CHECK_OK]: a returned error status aborts. *)
Definition TF_CHECK_OK {A} (m : StatusOr A) : StatusOr A :=
  match m with
  | OK a => OK a
  | Fail Diverges => Fail Diverges
  | Fail _ => Fail CheckFailure
  end.

Definition CHECK (b : bool) : StatusOr unit :=
  if b then OK tt else Fail CheckFailure.

(** [a / b] and [a % b] on [int64]. *)
Definition div64 (a b : Z) : StatusOr Z :=
  if b =? 0 then Fail DivisionByZero else OK (Int64.wrap (Z.quot a b)).

Definition rem64 (a b : Z) : StatusOr Z :=
  if b =? 0 then Fail DivisionByZero else OK (Int64.wrap (Z.rem a b)).

(** [v[i]] for a vector or a repeated field and an [int64] index. *)
Definition at_index {A} (v : list A) (i : Z) : StatusOr A :=
  if i <? 0 then Fail OutOfRange
  else match v !! Z.to_nat i with
       | Some x => OK x
       | None => Fail OutOfRange
       end.

(** [v[i] = x]. *)
Definition set_index {A} (v : list A) (i : Z) (x : A) : StatusOr (list A) :=
  if i <? 0 then Fail OutOfRange
  else if (Z.to_nat i <? length v)%nat then OK (<[Z.to_nat i := x]> v)
  else Fail OutOfRange.

(** ** The host graph: shapes, windows, instructions *)

Inductive PrimitiveType : Set := PRED | S32 | S64 | F16 | BF16 | F32 | F64.

Record Shape : Set := {
  element_type : PrimitiveType;
  dimensions : list Z
}.

Definition rank (s : Shape) : Z := Z.of_nat (length (dimensions s)).

Record WindowDimension : Set := {
  size : Z;
  stride : Z;
  padding_low : Z;
  padding_high : Z;
  window_dilation : Z;
  base_dilation : Z;
  window_reversal : bool
}.

Abbreviation Window := (list WindowDimension) (only parsing).

Record ConvolutionDimensionNumbers : Set := {
  input_batch_dimension : Z;
  input_feature_dimension : Z;
  input_spatial_dimensions : list Z;
  kernel_input_feature_dimension : Z;
  kernel_output_feature_dimension : Z;
  kernel_spatial_dimensions : list Z;
  output_batch_dimension : Z;
  output_feature_dimension : Z;
  output_spatial_dimensions : list Z
}.

Inductive HloOpcode : Set :=
| kAbs | kConvert | kCopy | kExp | kLog | kNegate | kNot | kRsqrt | kSqrt
| kTanh
| kAdd | kAnd | kCompare | kDivide | kMaximum | kMinimum | kMultiply | kOr
| kPower | kSubtract
| kClamp | kSelect
| kBroadcast | kConcatenate | kConstant | kConvolution | kDot | kFusion
| kGetTupleElement | kIota | kPad | kParameter | kReduce | kReduceWindow
| kReshape | kReverse | kRng | kSelectAndScatter | kSlice | kTranspose
| kTuple.

Definition HloOpcode_eq_dec (a b : HloOpcode) : {a = b} + {a <> b}.
Proof. decide equality. Defined.

Definition opcode_eqb (a b : HloOpcode) : bool :=
  if HloOpcode_eq_dec a b then true else false.

Abbreviation InstrId := nat (only parsing).

Inductive ComparisonDirection : Set := kEq | kNe | kGe | kGt | kLe | kLt.

(** The value of a constant: the pass only materializes zeros and rank-1
    predicate masks; any other constant of the input graph is opaque. *)
Inductive Literal : Set :=
| LiteralZero (ty : PrimitiveType)
| LiteralR1 (bits : list bool)
| LiteralOpaque.

Record PaddingConfigDimension : Set := {
  edge_padding_low : Z;
  edge_padding_high : Z;
  interior_padding : Z
}.

Abbreviation PaddingConfig := (list PaddingConfigDimension) (only parsing).

(** The root of a called computation ([to_apply], [select], [scatter]), as
    far as the pattern matcher of the pass looks into it. *)
Inductive CalledRoot : Set :=
| RootParameter (n : Z)
| RootBinary (opc : HloOpcode) (lhs rhs : CalledRoot)
| RootOpaque.

Record HloInstruction : Set := {
  opcode : HloOpcode;
  shape : Shape;
  operands : list InstrId;
  hlo_dimensions : list Z;            (* [dimensions()] *)
  window : Window;
  convolution_dimension_numbers : ConvolutionDimensionNumbers;
  feature_group_count : Z;
  batch_group_count : Z;
  slice_starts : list Z;
  slice_limits : list Z;
  slice_strides : list Z;
  padding_config : PaddingConfig;
  literal : Literal;
  comparison_direction : ComparisonDirection;
  to_apply : CalledRoot;              (* also [select()] *)
  scatter : CalledRoot
}.

Record HloComputation : Set := {
  instructions : list HloInstruction;
  root_instruction : InstrId
}.

(** Dereferencing a handle. *)
Definition instr (computation : HloComputation) (i : InstrId)
  : StatusOr HloInstruction :=
  match instructions computation !! i with
  | Some x => OK x
  | None => Fail NullPointer
  end.

(** [instruction->operand(i)], as a handle. *)
Definition operand (instruction : HloInstruction) (i : Z) : StatusOr InstrId :=
  at_index (operands instruction) i.

(** [instruction->mutable_operand(i)], dereferenced. *)
Definition mutable_operand (computation : HloComputation)
    (instruction : HloInstruction) (i : Z) : StatusOr HloInstruction :=
  (o <- operand instruction i ;; instr computation o)%status.

Definition operand_count (instruction : HloInstruction) : Z :=
  Z.of_nat (length (operands instruction)).

(** Modelled from the spec: [CeilOfRatio] of [xla/util.h] is not under
    [src/]; the spec (4.1, item 6) uses it as the ceiling of the quotient,
    [ceil(spatial_size / num_splits)]. *)
Definition CeilOfRatio (numerator denominator : Z) : Z :=
  - ((- numerator) / denominator).

(** ** Convolution details and the legality check *)

(** [ConvolutionVisitor::ConvDetails]. *)
Record ConvDetails : Set := {
  spatial_dimension_to_split : Z;
  inherent_low_padding : Z;
  inherent_high_padding : Z;
  cd_stride : Z;
  spatial_size : Z;
  base_dilation_factor : Z;
  halo_size : Z;
  high_padding_for_conv : Z;
  low_padding_for_conv : Z;
  kernel_spatial_dim_size : Z;
  input_dim_size : Z
}.

(** We choose the new batch size to be a constant so that space-to-batch
    propagation through several convolutional layers is consistent. *)
Definition kNewBatchSize : Z := 8.

(** Depth for searching reduce window. *)
Definition kReduceWindowSearchDepth : nat := 10.

(** The size of a repeated field is an [int]; no overflow on [- 1]. *)
Definition get_chosen_spatial_dim (convolution : HloInstruction) : Z :=
  Z.of_nat (length (input_spatial_dimensions
                      (convolution_dimension_numbers convolution))) - 1.

Definition DimLookUp (permute_dims : list Z) (id : Z) : StatusOr Z :=
  at_index permute_dims id.

(** [ConvolutionVisitor::GetConvolutionDetails]. *)
Definition GetConvolutionDetails (computation : HloComputation)
    (convolution : HloInstruction) (dim_numbers : ConvolutionDimensionNumbers)
  : StatusOr ConvDetails :=
  (activations <- mutable_operand computation convolution 0 ;;
   kernel <- mutable_operand computation convolution 1 ;;
   let kernel_shape := shape kernel in
   kernel_spatial_dim <-
     at_index (kernel_spatial_dimensions dim_numbers)
              (get_chosen_spatial_dim convolution) ;;
   kernel_spatial_dim_size <-
     at_index (dimensions kernel_shape) kernel_spatial_dim ;;
   spatial_dimension_to_split <-
     at_index (input_spatial_dimensions dim_numbers)
              (get_chosen_spatial_dim convolution) ;;
   input_dim_size <-
     at_index (dimensions (shape activations)) spatial_dimension_to_split ;;
   window_dim <-
     at_index (window convolution) (get_chosen_spatial_dim convolution) ;;
   let inherent_low_padding := padding_low window_dim in
   let inherent_high_padding := padding_high window_dim in
   let stride := stride window_dim in
   let base_dilation_factor := base_dilation window_dim in
   let spatial_size :=
     (input_dim_size
      + (if base_dilation_factor >? 1 then 0 else inherent_low_padding)
      + inherent_high_padding)%i64 in
   let halo_size :=
     Z.max (kernel_spatial_dim_size - stride - (base_dilation_factor - 1))%i64
           0 in
   let high_padding_for_conv :=
     if base_dilation_factor =? 1 then 0
     else if inherent_low_padding =? 0 then (base_dilation_factor - 1)%i64
          else 0 in
   let low_padding_for_conv :=
     if base_dilation_factor =? 1 then 0 else inherent_low_padding in
   OK {| spatial_dimension_to_split := spatial_dimension_to_split;
         inherent_low_padding := inherent_low_padding;
         inherent_high_padding := inherent_high_padding;
         cd_stride := stride;
         spatial_size := spatial_size;
         base_dilation_factor := base_dilation_factor;
         halo_size := halo_size;
         high_padding_for_conv := high_padding_for_conv;
         low_padding_for_conv := low_padding_for_conv;
         kernel_spatial_dim_size := kernel_spatial_dim_size;
         input_dim_size := input_dim_size |})%status.

(** [ConvolutionVisitor::IsConvSuitableForSpaceToBatch]; the member
    [limit_on_batch_size_] is the first argument. *)
Definition IsConvSuitableForSpaceToBatch (limit_on_batch_size_ : Z)
    (computation : HloComputation) (convolution : HloInstruction)
  : StatusOr bool :=
  let dim_numbers := convolution_dimension_numbers convolution in
  (* If there are no spatial dims, we return. *)
  if Z.of_nat (length (input_spatial_dimensions dim_numbers)) <? 1 then OK false
  else
  (* Batch in batch_group_count has different semantics. *)
  if negb (batch_group_count convolution =? 1) then OK false
  else
  (window_dim <-
     at_index (window convolution) (get_chosen_spatial_dim convolution) ;;
   if negb (window_dilation window_dim =? 1) then OK false
   else
   c <- GetConvolutionDetails computation convolution dim_numbers ;;
   let low_pad := padding_low window_dim in
   let batch_and_halo_checks : StatusOr bool :=
     let activations_batch_dim := input_batch_dimension dim_numbers in
     activations <- mutable_operand computation convolution 0 ;;
     old_batch_size <-
       at_index (dimensions (shape activations)) activations_batch_dim ;;
     if old_batch_size >? limit_on_batch_size_ then OK false
     else
     (* We currently only cater to evenly divisible cases. *)
     remainder <- rem64 kNewBatchSize old_batch_size ;;
     if negb (remainder =? 0) then OK false
     else
     num_splits <- div64 kNewBatchSize old_batch_size ;;
     (* If the ratio is not within the 2X range, we can't Halo Pad from
        the next split. *)
     if halo_size c >? CeilOfRatio (spatial_size c) num_splits then OK false
     else OK true in
   if negb (base_dilation_factor c =? 1) then
     if negb (cd_stride c =? 1) then OK false
     else
     (* For low pad of 0, only support a pointwise kernel. *)
     if low_pad =? 0 then
       if negb (kernel_spatial_dim_size c =? 1) then OK false
       else batch_and_halo_checks
     else
       if negb (kernel_spatial_dim_size c =? (base_dilation_factor c + 1)%i64)
          || negb (low_pad =? (base_dilation_factor c - 1)%i64)
       then OK false
       else batch_and_halo_checks
   else batch_and_halo_checks)%status.

(** ** Specification-side vocabulary *)

(** Lookup with an integer index, for statements. *)
Definition lookupZ {A} (v : list A) (i : Z) : option A :=
  if i <? 0 then None else v !! Z.to_nat i.

(** The static attributes of a convolution on its chosen spatial axis (the
    last spatial dimension), as the legality rules of the specification
    name them. *)
Record ConvAttributes : Set := {
  attr_spatial_dims : Z;        (* number of spatial dimensions *)
  attr_batch_group_count : Z;
  attr_window : WindowDimension;  (* window of the chosen spatial axis *)
  attr_kernel_size : Z;         (* kernel extent on the chosen axis *)
  attr_input_size : Z;          (* activations extent on the chosen axis *)
  attr_batch_size : Z           (* activations extent on the batch axis *)
}.

Definition conv_attributes (computation : HloComputation)
    (convolution : HloInstruction) : option ConvAttributes :=
  let dn := convolution_dimension_numbers convolution in
  match length (input_spatial_dimensions dn) with
  | O => None
  | S chosen =>
    lhs_id ← operands convolution !! 0%nat;
    lhs ← instructions computation !! lhs_id;
    rhs_id ← operands convolution !! 1%nat;
    rhs ← instructions computation !! rhs_id;
    wd ← window convolution !! chosen;
    kdim ← kernel_spatial_dimensions dn !! chosen;
    ksize ← lookupZ (dimensions (shape rhs)) kdim;
    sdim ← input_spatial_dimensions dn !! chosen;
    isize ← lookupZ (dimensions (shape lhs)) sdim;
    bsize ← lookupZ (dimensions (shape lhs)) (input_batch_dimension dn);
    Some {| attr_spatial_dims := Z.of_nat (S chosen);
            attr_batch_group_count := batch_group_count convolution;
            attr_window := wd;
            attr_kernel_size := ksize;
            attr_input_size := isize;
            attr_batch_size := bsize |}
  end.

(** The quantities of section 4.2 of the specification. *)
Definition spec_spatial_size (a : ConvAttributes) : Z :=
  attr_input_size a
  + (if base_dilation (attr_window a) >? 1 then 0
     else padding_low (attr_window a))
  + padding_high (attr_window a).

Definition spec_halo_size (a : ConvAttributes) : Z :=
  Z.max (attr_kernel_size a - stride (attr_window a)
         - (base_dilation (attr_window a) - 1)) 0.

(** The legality rules 1 to 6 of section 4.1 of the specification. *)
Definition suitable_for_space_to_batch (limit : Z) (a : ConvAttributes)
  : Prop :=
  let w := attr_window a in
  1 <= attr_spatial_dims a /\
  attr_batch_group_count a = 1 /\
  window_dilation w = 1 /\
  (base_dilation w > 1 ->
     stride w = 1 /\
     ((padding_low w = 0 /\ attr_kernel_size a = 1) \/
      (attr_kernel_size a = base_dilation w + 1 /\
       padding_low w = base_dilation w - 1))) /\
  attr_batch_size a <= limit /\
  (attr_batch_size a | 8) /\
  spec_halo_size a
    <= CeilOfRatio (spec_spatial_size a) (8 / attr_batch_size a).

(** Attributes of a convolution of a verified module: base dilation is at
    least 1, and the sizes leave the headroom of [Int64.safe]. *)
Definition valid_attributes (a : ConvAttributes) : Prop :=
  let w := attr_window a in
  1 <= base_dilation w /\
  Int64.safe (base_dilation w) /\ Int64.safe (stride w) /\
  Int64.safe (padding_low w) /\ Int64.safe (padding_high w) /\
  Int64.safe (attr_kernel_size a) /\ Int64.safe (attr_input_size a) /\
  Int64.safe (attr_batch_size a).

(** ** Building instructions *)

Definition no_dimension_numbers : ConvolutionDimensionNumbers :=
  {| input_batch_dimension := 0; input_feature_dimension := 0;
     input_spatial_dimensions := [];
     kernel_input_feature_dimension := 0;
     kernel_output_feature_dimension := 0;
     kernel_spatial_dimensions := [];
     output_batch_dimension := 0; output_feature_dimension := 0;
     output_spatial_dimensions := [] |}.

(** An instruction with the attributes every opcode has; the others are
    empty. *)
Definition make_instruction (opc : HloOpcode) (s : Shape)
    (ops : list InstrId) : HloInstruction :=
  {| opcode := opc; shape := s; operands := ops;
     hlo_dimensions := []; window := [];
     convolution_dimension_numbers := no_dimension_numbers;
     feature_group_count := 1; batch_group_count := 1;
     slice_starts := []; slice_limits := []; slice_strides := [];
     padding_config := []; literal := LiteralOpaque;
     comparison_direction := kEq;
     to_apply := RootOpaque; scatter := RootOpaque |}.

Definition set_shape (s : Shape) (i : HloInstruction) : HloInstruction :=
  {| opcode := opcode i; shape := s; operands := operands i;
     hlo_dimensions := hlo_dimensions i; window := window i;
     convolution_dimension_numbers := convolution_dimension_numbers i;
     feature_group_count := feature_group_count i;
     batch_group_count := batch_group_count i;
     slice_starts := slice_starts i; slice_limits := slice_limits i;
     slice_strides := slice_strides i;
     padding_config := padding_config i; literal := literal i;
     comparison_direction := comparison_direction i;
     to_apply := to_apply i; scatter := scatter i |}.

Definition set_operands (ops : list InstrId) (i : HloInstruction)
  : HloInstruction :=
  {| opcode := opcode i; shape := shape i; operands := ops;
     hlo_dimensions := hlo_dimensions i; window := window i;
     convolution_dimension_numbers := convolution_dimension_numbers i;
     feature_group_count := feature_group_count i;
     batch_group_count := batch_group_count i;
     slice_starts := slice_starts i; slice_limits := slice_limits i;
     slice_strides := slice_strides i;
     padding_config := padding_config i; literal := literal i;
     comparison_direction := comparison_direction i;
     to_apply := to_apply i; scatter := scatter i |}.

Definition set_dimensions (ds : list Z) (i : HloInstruction)
  : HloInstruction :=
  {| opcode := opcode i; shape := shape i; operands := operands i;
     hlo_dimensions := ds; window := window i;
     convolution_dimension_numbers := convolution_dimension_numbers i;
     feature_group_count := feature_group_count i;
     batch_group_count := batch_group_count i;
     slice_starts := slice_starts i; slice_limits := slice_limits i;
     slice_strides := slice_strides i;
     padding_config := padding_config i; literal := literal i;
     comparison_direction := comparison_direction i;
     to_apply := to_apply i; scatter := scatter i |}.

Definition set_window (w : Window) (i : HloInstruction) : HloInstruction :=
  {| opcode := opcode i; shape := shape i; operands := operands i;
     hlo_dimensions := hlo_dimensions i; window := w;
     convolution_dimension_numbers := convolution_dimension_numbers i;
     feature_group_count := feature_group_count i;
     batch_group_count := batch_group_count i;
     slice_starts := slice_starts i; slice_limits := slice_limits i;
     slice_strides := slice_strides i;
     padding_config := padding_config i; literal := literal i;
     comparison_direction := comparison_direction i;
     to_apply := to_apply i; scatter := scatter i |}.

Definition set_convolution (dn : ConvolutionDimensionNumbers)
    (fgc bgc : Z) (i : HloInstruction) : HloInstruction :=
  {| opcode := opcode i; shape := shape i; operands := operands i;
     hlo_dimensions := hlo_dimensions i; window := window i;
     convolution_dimension_numbers := dn;
     feature_group_count := fgc; batch_group_count := bgc;
     slice_starts := slice_starts i; slice_limits := slice_limits i;
     slice_strides := slice_strides i;
     padding_config := padding_config i; literal := literal i;
     comparison_direction := comparison_direction i;
     to_apply := to_apply i; scatter := scatter i |}.

Definition set_slice (starts limits strides : list Z) (i : HloInstruction)
  : HloInstruction :=
  {| opcode := opcode i; shape := shape i; operands := operands i;
     hlo_dimensions := hlo_dimensions i; window := window i;
     convolution_dimension_numbers := convolution_dimension_numbers i;
     feature_group_count := feature_group_count i;
     batch_group_count := batch_group_count i;
     slice_starts := starts; slice_limits := limits;
     slice_strides := strides;
     padding_config := padding_config i; literal := literal i;
     comparison_direction := comparison_direction i;
     to_apply := to_apply i; scatter := scatter i |}.

Definition set_padding_config (cfg : PaddingConfig) (i : HloInstruction)
  : HloInstruction :=
  {| opcode := opcode i; shape := shape i; operands := operands i;
     hlo_dimensions := hlo_dimensions i; window := window i;
     convolution_dimension_numbers := convolution_dimension_numbers i;
     feature_group_count := feature_group_count i;
     batch_group_count := batch_group_count i;
     slice_starts := slice_starts i; slice_limits := slice_limits i;
     slice_strides := slice_strides i;
     padding_config := cfg; literal := literal i;
     comparison_direction := comparison_direction i;
     to_apply := to_apply i; scatter := scatter i |}.

Definition set_literal (l : Literal) (i : HloInstruction) : HloInstruction :=
  {| opcode := opcode i; shape := shape i; operands := operands i;
     hlo_dimensions := hlo_dimensions i; window := window i;
     convolution_dimension_numbers := convolution_dimension_numbers i;
     feature_group_count := feature_group_count i;
     batch_group_count := batch_group_count i;
     slice_starts := slice_starts i; slice_limits := slice_limits i;
     slice_strides := slice_strides i;
     padding_config := padding_config i; literal := l;
     comparison_direction := comparison_direction i;
     to_apply := to_apply i; scatter := scatter i |}.

Definition set_comparison_direction (d : ComparisonDirection)
    (i : HloInstruction) : HloInstruction :=
  {| opcode := opcode i; shape := shape i; operands := operands i;
     hlo_dimensions := hlo_dimensions i; window := window i;
     convolution_dimension_numbers := convolution_dimension_numbers i;
     feature_group_count := feature_group_count i;
     batch_group_count := batch_group_count i;
     slice_starts := slice_starts i; slice_limits := slice_limits i;
     slice_strides := slice_strides i;
     padding_config := padding_config i; literal := literal i;
     comparison_direction := d;
     to_apply := to_apply i; scatter := scatter i |}.

Definition set_called (apply scat : CalledRoot) (i : HloInstruction)
  : HloInstruction :=
  {| opcode := opcode i; shape := shape i; operands := operands i;
     hlo_dimensions := hlo_dimensions i; window := window i;
     convolution_dimension_numbers := convolution_dimension_numbers i;
     feature_group_count := feature_group_count i;
     batch_group_count := batch_group_count i;
     slice_starts := slice_starts i; slice_limits := slice_limits i;
     slice_strides := slice_strides i;
     padding_config := padding_config i; literal := literal i;
     comparison_direction := comparison_direction i;
     to_apply := apply; scatter := scat |}.

(** ** Example graphs *)

Definition f32 (dims : list Z) : Shape :=
  {| element_type := F32; dimensions := dims |}.

Definition plain_window (sz st lo hi : Z) : WindowDimension :=
  {| size := sz; stride := st; padding_low := lo; padding_high := hi;
     window_dilation := 1; base_dilation := 1; window_reversal := false |}.

(** Dimension numbers of a one-dimensional convolution: activations
    [batch, space, feature], kernel [space, in, out], output
    [batch, space, feature]. *)
Definition dnums_b0f : ConvolutionDimensionNumbers :=
  {| input_batch_dimension := 0; input_feature_dimension := 2;
     input_spatial_dimensions := [1];
     kernel_input_feature_dimension := 1;
     kernel_output_feature_dimension := 2;
     kernel_spatial_dimensions := [0];
     output_batch_dimension := 0; output_feature_dimension := 2;
     output_spatial_dimensions := [1] |}.

(** Scenario (a) of section 8 of the specification: batch 2, spatial
    extent 16, kernel 3, stride 1, no padding. *)
Definition example_convolution : HloInstruction :=
  set_convolution dnums_b0f 1 1
    (set_window [plain_window 3 1 0 0]
       (make_instruction kConvolution (f32 [2; 14; 4]) [0%nat; 1%nat])).

Definition example_computation : HloComputation :=
  {| instructions :=
       [ make_instruction kParameter (f32 [2; 16; 3]) [];
         make_instruction kParameter (f32 [3; 3; 4]) [];
         example_convolution ];
     root_instruction := 2%nat |}.

(** ** State and failure *)

(** A computation over a state [S] that can fail: the members of the
    visitor read and update the visitor, the graph builders the
    computation. *)
Definition State (S A : Type) : Type := S -> StatusOr (A * S).

Definition ret {S A} (a : A) : State S A := fun s => OK (a, s).

Definition bind {S A B} (m : State S A) (k : A -> State S B) : State S B :=
  fun s => match m s with
           | OK (a, s') => k a s'
           | Fail f => Fail f
           end.

(** A [StatusOr] value used in a stateful computation
    ([TF_ASSIGN_OR_RETURN] on a pure expression, or an access that can go
    out of range). *)
Definition lift_status {S A} (m : StatusOr A) : State S A :=
  fun s => match m with
           | OK a => OK (a, s)
           | Fail f => Fail f
           end.

Definition get {S} : State S S := fun s => OK (s, s).
Definition put {S} (s : S) : State S unit := fun _ => OK (tt, s).
Definition gets {S A} (f : S -> A) : State S A := fun s => OK (f s, s).
Definition modify {S} (f : S -> S) : State S unit := fun s => OK (tt, f s).

(** [TF_CHECK_OK (m)]: an error status of [m] aborts. *)
Definition check_ok {S A} (m : State S A) : State S A :=
  fun s => match m s with
           | OK r => OK r
           | Fail Diverges => Fail Diverges
           | Fail _ => Fail CheckFailure
           end.

Declare Scope state_scope.
Delimit Scope state_scope with state.
Notation "x <- m ;; k" := (bind m (fun x => k))
  (at level 100, m at next level, right associativity) : state_scope.
Notation "x <-! m ;; k" := (bind (lift_status m) (fun x => k))
  (at level 100, m at next level, right associativity) : state_scope.
Notation "m ;;; k" := (bind m (fun _ => k))
  (at level 100, right associativity) : state_scope.

(** A loop over the elements of a vector, threading an accumulator. *)
Fixpoint for_each {S A B} (l : list A) (acc : B)
    (body : A -> B -> State S B) : State S B :=
  match l with
  | [] => ret acc
  | x :: l' => bind (body x acc) (fun acc' => for_each l' acc' body)
  end.

(** The integers [0], [1], ..., [n - 1], for [for (i = 0; i < n; ++i)]. *)
Definition range (n : Z) : list Z := map Z.of_nat (seq 0 (Z.to_nat n)).

(** ** Graph primitives of the host *)

(** Modelled from the spec: [HloComputation::AddInstruction] (section 6,
    "create instruction"), not under [src/]: the instruction is appended
    to the arena and its index is its handle. *)
Definition AddInstruction (i : HloInstruction)
  : State HloComputation InstrId :=
  fun c => OK (length (instructions c),
               {| instructions := instructions c ++ [i];
                  root_instruction := root_instruction c |}).

(** [instruction->...] through a handle. *)
Definition deref (i : InstrId) : State HloComputation HloInstruction :=
  fun c => match instr c i with
           | OK x => OK (x, c)
           | Fail f => Fail f
           end.

Definition shape_of (i : InstrId) : State HloComputation Shape :=
  (x <- deref i ;; ret (shape x))%state.

Definition IsScalar (s : Shape) : bool :=
  match dimensions s with [] => true | _ => false end.

Definition PrimitiveType_eq_dec (a b : PrimitiveType) : {a = b} + {a <> b}.
Proof. decide equality. Defined.

Definition same_element_type (a b : Shape) : bool :=
  if PrimitiveType_eq_dec (element_type a) (element_type b)
  then true else false.

Definition dims_eqb (a b : list Z) : bool := bool_decide (a = b).

(** [ShapeUtil::ElementsIn]. *)
Definition ElementsIn (s : Shape) : Z := fold_right Z.mul 1 (dimensions s).

(** [LiteralUtil::Zero] and [LiteralUtil::CreateR1] of a bitmap, wrapped in
    [HloInstruction::CreateConstant]. *)
Definition CreateConstant (l : Literal) : HloInstruction :=
  let s := match l with
           | LiteralZero ty => {| element_type := ty; dimensions := [] |}
           | LiteralR1 bits =>
               {| element_type := PRED;
                  dimensions := [Z.of_nat (length bits)] |}
           | LiteralOpaque => {| element_type := F32; dimensions := [] |}
           end in
  set_literal l (make_instruction kConstant s []).

(** Modelled from the spec: the shape inference of the host for a slice
    (section 6, "shape inference for each newly constructed op"), not under
    [src/].  The rule is that of the HLO slice: one start, limit and
    stride per dimension, [0 <= start <= limit <= extent], [stride > 0],
    and the extent of the result is [ceil ((limit - start) / stride)]. *)
Fixpoint InferSliceDims (dims starts limits strides : list Z)
  : StatusOr (list Z) :=
  match dims, starts, limits, strides with
  | [], [], [], [] => OK []
  | d :: dims', s :: starts', l :: limits', st :: strides' =>
      if (s <? 0) || (l >? d) || (s >? l) || (st <=? 0)
      then Fail InvalidArgument
      else (rest <- InferSliceDims dims' starts' limits' strides' ;;
            OK (((l - s + st - 1) / st) :: rest))%status
  | _, _, _, _ => Fail InvalidArgument
  end.

(** Modelled from the spec: [MakeSliceHlo] of the host (section 6, create
    instruction: slice), not under [src/]. *)
Definition MakeSliceHlo (operand : InstrId)
    (start_indices limit_indices strides : list Z)
  : State HloComputation InstrId :=
  (operand_shape <- shape_of operand ;;
   dims <-! InferSliceDims (dimensions operand_shape) start_indices
              limit_indices strides ;;
   AddInstruction
     (set_slice start_indices limit_indices strides
        (make_instruction kSlice
           {| element_type := element_type operand_shape;
              dimensions := dims |}
           [operand])))%state.

(** [MakeNoPaddingConfig]. *)
Definition no_padding_dimension : PaddingConfigDimension :=
  {| edge_padding_low := 0; edge_padding_high := 0; interior_padding := 0 |}.

Definition MakeNoPaddingConfig (rank : Z) : PaddingConfig :=
  replicate (Z.to_nat rank) no_padding_dimension.

(** [padding_config.mutable_dimensions(d)->set_edge_padding_low(v)]. *)
Definition set_edge_padding_low (cfg : PaddingConfig) (d v : Z)
  : StatusOr PaddingConfig :=
  (p <- at_index cfg d ;;
   set_index cfg d {| edge_padding_low := v;
                      edge_padding_high := edge_padding_high p;
                      interior_padding := interior_padding p |})%status.

Definition set_edge_padding_high (cfg : PaddingConfig) (d v : Z)
  : StatusOr PaddingConfig :=
  (p <- at_index cfg d ;;
   set_index cfg d {| edge_padding_low := edge_padding_low p;
                      edge_padding_high := v;
                      interior_padding := interior_padding p |})%status.

(** Modelled from the spec: the shape inference of the host for a pad
    (section 6), not under [src/].  The rule is that of the HLO pad: one
    configuration per dimension, no negative interior padding, and the
    extent [low + extent + high + max (extent - 1, 0) * interior] must not
    be negative. *)
Fixpoint InferPadDims (dims : list Z) (cfg : PaddingConfig)
  : StatusOr (list Z) :=
  match dims, cfg with
  | [], [] => OK []
  | d :: dims', p :: cfg' =>
      let d' := edge_padding_low p + d + edge_padding_high p
                + Z.max (d - 1) 0 * interior_padding p in
      if (interior_padding p <? 0) || (d' <? 0) then Fail InvalidArgument
      else (rest <- InferPadDims dims' cfg' ;; OK (d' :: rest))%status
  | _, _ => Fail InvalidArgument
  end.

(** Modelled from the spec: [MakePadHlo] of the host (section 6, create
    instruction: pad), not under [src/]; the padding value is a scalar of
    the element type of the operand. *)
Definition MakePadHlo (operand padding_value : InstrId)
    (padding_config : PaddingConfig) : State HloComputation InstrId :=
  (operand_shape <- shape_of operand ;;
   value_shape <- shape_of padding_value ;;
   if negb (IsScalar value_shape)
      || negb (same_element_type operand_shape value_shape)
   then lift_status (Fail InvalidArgument)
   else
   dims <-! InferPadDims (dimensions operand_shape) padding_config ;;
   AddInstruction
     (set_padding_config padding_config
        (make_instruction kPad
           {| element_type := element_type operand_shape;
              dimensions := dims |}
           [operand; padding_value])))%state.

(** Modelled from the spec: the shape inference of the host for a
    concatenation (section 6), not under [src/].  The rule is that of the
    HLO concatenate: at least one operand, the dimension within the rank,
    equal ranks and element types, equal extents off the dimension, and
    the extents along the dimension add up. *)
Definition concat_compatible (dimension : Z) (a b : list Z) : bool :=
  (length a =? length b)%nat
  && forallb (fun i => (i =? dimension)
                       || (nth (Z.to_nat i) a 0 =? nth (Z.to_nat i) b 0))
             (range (Z.of_nat (length a))).

Definition InferConcatOpShape (shapes : list Shape) (dimension : Z)
  : StatusOr Shape :=
  match shapes with
  | [] => Fail InvalidArgument
  | first :: rest =>
      if (dimension <? 0) || (dimension >=? rank first)
      then Fail InvalidArgument
      else if forallb (fun s => same_element_type first s
                                && concat_compatible dimension
                                     (dimensions first) (dimensions s)) rest
      then
        let total :=
          fold_right Z.add 0
            (map (fun s => nth (Z.to_nat dimension) (dimensions s) 0) shapes)
        in
        OK {| element_type := element_type first;
              dimensions :=
                <[Z.to_nat dimension := total]> (dimensions first) |}
      else Fail InvalidArgument
  end.

Fixpoint shapes_of (ids : list InstrId)
  : State HloComputation (list Shape) :=
  match ids with
  | [] => ret []
  | i :: ids' =>
      (s <- shape_of i ;; rest <- shapes_of ids' ;; ret (s :: rest))%state
  end.

(** Modelled from the spec: [MakeConcatHlo] of the host (section 6, create
    instruction: concat), not under [src/]. *)
Definition MakeConcatHlo (operands : list InstrId) (dimension : Z)
  : State HloComputation InstrId :=
  (shapes <- shapes_of operands ;;
   s <-! InferConcatOpShape shapes dimension ;;
   AddInstruction
     (set_dimensions [dimension] (make_instruction kConcatenate s operands))
  )%state.

(** [IsPermutation]: the list holds each of [0 .. n - 1] once. *)
Definition IsPermutation (p : list Z) : bool :=
  forallb (fun i => (count_occ Z.eq_dec p i =? 1)%nat)
          (range (Z.of_nat (length p))).

(** Modelled from the spec: [MakeTransposeHlo] of the host (section 6,
    create instruction: transpose), not under [src/].  The rule is that of
    the HLO transpose: the dimensions are a permutation of the axes of the
    operand and axis [i] of the result is axis [dimensions[i]] of the
    operand. *)
Definition MakeTransposeHlo (operand : InstrId) (dimensions_ : list Z)
  : State HloComputation InstrId :=
  (operand_shape <- shape_of operand ;;
   if negb (IsPermutation dimensions_)
      || negb (length dimensions_ =? length (dimensions operand_shape))%nat
   then lift_status (Fail InvalidArgument)
   else
   AddInstruction
     (set_dimensions dimensions_
        (make_instruction kTranspose
           {| element_type := element_type operand_shape;
              dimensions :=
                map (fun d => nth (Z.to_nat d) (dimensions operand_shape) 0)
                    dimensions_ |}
           [operand])))%state.

(** Modelled from the spec: [MakeReshapeHlo] of the host (section 6,
    create instruction: reshape), not under [src/].  The constructor of a
    reshape checks that the element counts agree and that no extent is
    negative; a violation aborts. *)
Definition MakeReshapeHlo (result_shape_dim_bounds : list Z)
    (operand : InstrId) : State HloComputation InstrId :=
  (operand_shape <- shape_of operand ;;
   let new_shape := {| element_type := element_type operand_shape;
                       dimensions := result_shape_dim_bounds |} in
   lift_status (CHECK (forallb (fun d => 0 <=? d) result_shape_dim_bounds)) ;;;
   lift_status (CHECK (ElementsIn new_shape =? ElementsIn operand_shape)) ;;;
   AddInstruction (make_instruction kReshape new_shape [operand]))%state.

(** Modelled from the spec: [MakeBroadcastHlo] of the host (section 6,
    create instruction: broadcast), not under [src/]; it returns an
    instruction, not a status. *)
Definition MakeBroadcastHlo (operand : InstrId)
    (broadcast_dimensions result_shape_bounds : list Z)
  : State HloComputation InstrId :=
  (operand_shape <- shape_of operand ;;
   AddInstruction
     (set_dimensions broadcast_dimensions
        (make_instruction kBroadcast
           {| element_type := element_type operand_shape;
              dimensions := result_shape_bounds |}
           [operand])))%state.

(** Modelled from the spec: [MakeSelectHlo] of the host (section 6, create
    instruction: select), not under [src/].  A scalar predicate is
    broadcast to the shape of the branches; the branches have one shape
    and the predicate its extents. *)
Definition MakeSelectHlo (pred on_true on_false : InstrId)
  : State HloComputation InstrId :=
  (pred_shape <- shape_of pred ;;
   op_shape <- shape_of on_true ;;
   false_shape <- shape_of on_false ;;
   pred <- (if IsScalar pred_shape && negb (IsScalar op_shape)
            then AddInstruction
                   (make_instruction kBroadcast
                      {| element_type := PRED;
                         dimensions := dimensions op_shape |} [pred])
            else ret pred) ;;
   pred_shape <- shape_of pred ;;
   if negb (same_element_type op_shape false_shape)
      || negb (dims_eqb (dimensions op_shape) (dimensions false_shape))
      || negb (dims_eqb (dimensions pred_shape) (dimensions op_shape))
      || negb (same_element_type pred_shape
                 {| element_type := PRED; dimensions := [] |})
   then lift_status (Fail InvalidArgument)
   else AddInstruction
          (make_instruction kSelect op_shape [pred; on_true; on_false])
  )%state.

(** Modelled from the spec: [MakeCompareHlo] and [MakeBinaryHlo] of the
    host (section 6, create instruction: compare, binary op), not under
    [src/]; the operands have one shape. *)
Definition MakeBinaryHlo (opc : HloOpcode) (lhs rhs : InstrId)
  : State HloComputation InstrId :=
  (lhs_shape <- shape_of lhs ;;
   rhs_shape <- shape_of rhs ;;
   if negb (same_element_type lhs_shape rhs_shape)
      || negb (dims_eqb (dimensions lhs_shape) (dimensions rhs_shape))
   then lift_status (Fail InvalidArgument)
   else AddInstruction (make_instruction opc lhs_shape [lhs; rhs]))%state.

Definition MakeCompareHlo (direction : ComparisonDirection)
    (lhs rhs : InstrId) : State HloComputation InstrId :=
  (lhs_shape <- shape_of lhs ;;
   rhs_shape <- shape_of rhs ;;
   if negb (same_element_type lhs_shape rhs_shape)
      || negb (dims_eqb (dimensions lhs_shape) (dimensions rhs_shape))
   then lift_status (Fail InvalidArgument)
   else AddInstruction
          (set_comparison_direction direction
             (make_instruction kCompare
                {| element_type := PRED;
                   dimensions := dimensions lhs_shape |}
                [lhs; rhs])))%state.

(** ** Halo duplication and masking *)

(** A loop over the elements of a vector in [StatusOr]. *)
Fixpoint fold_status {A B} (l : list A) (acc : B)
    (body : A -> B -> StatusOr B) : StatusOr B :=
  match l with
  | [] => OK acc
  | x :: l' => bindS (body x acc) (fun acc' => fold_status l' acc' body)
  end.

(** [ConvolutionVisitor::HaloDuplicateWithSlice]: duplicates elements at
    boundaries.  [pad_val] is [None] for the default [nullptr]. *)
Definition HaloDuplicateWithSlice (activations : InstrId)
    (spatial_dimension_to_split activations_batch_dim old_batch_size
     low_padding high_padding halo_size original_split_dim_size : Z)
    (pad_val : option InstrId) : State HloComputation InstrId :=
  (activations_shape <- shape_of activations ;;
   let activations_rank := rank activations_shape in
   spatial_split_size <-!
     at_index (dimensions activations_shape) spatial_dimension_to_split ;;
   batch_size <-!
     at_index (dimensions activations_shape) activations_batch_dim ;;
   lift_status
     (CHECK (Int64.wrap (Z.abs (halo_size - low_padding)%i64)
             <=? spatial_split_size)) ;;;
   let strides := replicate (Z.to_nat activations_rank) 1 in
   padding <-
     match pad_val with
     | None => AddInstruction
                 (CreateConstant
                    (LiteralZero (element_type activations_shape)))
     | Some p => ret p
     end ;;
   first_slice <-
     (if low_padding >? 0 then
        let start_indices := replicate (Z.to_nat activations_rank) 0 in
        let end_indices := dimensions activations_shape in
        start_indices <-!
          set_index start_indices spatial_dimension_to_split
            (spatial_split_size - low_padding)%i64 ;;
        end_indices <-!
          set_index end_indices activations_batch_dim (batch_size - 1)%i64 ;;
        end_indices <-!
          set_index end_indices spatial_dimension_to_split
            spatial_split_size ;;
        first_slice <-
          MakeSliceHlo activations start_indices end_indices strides ;;
        first_slice_shape <- shape_of first_slice ;;
        let padding_config :=
          MakeNoPaddingConfig (rank first_slice_shape) in
        padding_config <-!
          set_edge_padding_low padding_config activations_batch_dim 1 ;;
        first_slice <- MakePadHlo first_slice padding padding_config ;;
        ret (Some first_slice)
      else ret None) ;;
   halo_region <-
     (if (halo_size - low_padding)%i64 >? 0 then
        let start_indices_halo := replicate (Z.to_nat activations_rank) 0 in
        let end_indices_halo := dimensions activations_shape in
        start_indices_halo <-!
          set_index start_indices_halo activations_batch_dim 1 ;;
        end_indices_halo <-!
          set_index end_indices_halo spatial_dimension_to_split
            (halo_size - low_padding)%i64 ;;
        halo_region <-
          MakeSliceHlo activations start_indices_halo end_indices_halo
            strides ;;
        halo_region_shape <- shape_of halo_region ;;
        let padding_config_halo :=
          MakeNoPaddingConfig (rank halo_region_shape) in
        padding_config_halo <-!
          set_edge_padding_high padding_config_halo activations_batch_dim 1 ;;
        halo_region <- MakePadHlo halo_region padding padding_config_halo ;;
        ret (Some halo_region)
      else ret None) ;;
   activations <-
     (if (halo_size =? 0) && negb (low_padding =? 0) then
        let start_indices_activations_cut := replicate (Z.to_nat activations_rank) 0 in
        let end_indices_activations_cut := dimensions activations_shape in
        (* When no halo is needed, we must slice out activations. *)
        cut <-!
          (if low_padding >? 0 then
             bindS (set_index end_indices_activations_cut
                      spatial_dimension_to_split
                      (spatial_split_size - low_padding)%i64)
                   (fun e => OK (start_indices_activations_cut, e))
           else
             bindS (set_index start_indices_activations_cut
                      spatial_dimension_to_split (0 - low_padding)%i64)
                   (fun s =>
                      bindS (set_index end_indices_activations_cut
                               spatial_dimension_to_split spatial_split_size)
                            (fun e => OK (s, e)))) ;;
        MakeSliceHlo activations (fst cut) (snd cut) strides
      else ret activations) ;;
   activations <-
     match first_slice with
     | Some first_slice =>
         MakeConcatHlo [first_slice; activations] spatial_dimension_to_split
     | None => ret activations
     end ;;
   activations <-
     match halo_region with
     | Some halo_region =>
         MakeConcatHlo [activations; halo_region] spatial_dimension_to_split
     | None => ret activations
     end ;;
   ret activations)%state.

(** The loop of [SelectValidPortion] that fills the bitmap: bit [k] is set
    when the cell is within the pre-padding extent of its split.  [k] is
    an [int] in the source. *)
Definition fill_slice_mask (new_batch_size new_space_size num_splits
                            old_space_size : Z) : StatusOr (list bool) :=
  let n := (new_batch_size * new_space_size)%i64 in
  fold_status (range n) (replicate (Z.to_nat n) false)
    (fun k b =>
       (space_index <- rem64 k new_space_size ;;
        row <- div64 k new_space_size ;;
        batch_index <- rem64 row num_splits ;;
        if (batch_index * new_space_size + space_index)%i64 <? old_space_size
        then OK (<[Z.to_nat k := true]> b)
        else OK (<[Z.to_nat k := false]> b))%status).

(** [ConvolutionVisitor::SelectValidPortion]: generates masked output with
    valid data. *)
Definition SelectValidPortion (new_instr old_instr select_val : InstrId)
    (new_batch_dim new_space_dim old_batch_dim old_space_dim : Z)
  : State HloComputation InstrId :=
  (new_shape <- shape_of new_instr ;;
   old_shape <- shape_of old_instr ;;
   new_batch_size <-! at_index (dimensions new_shape) new_batch_dim ;;
   new_space_size <-! at_index (dimensions new_shape) new_space_dim ;;
   old_batch_size <-! at_index (dimensions old_shape) old_batch_dim ;;
   old_space_size <-! at_index (dimensions old_shape) old_space_dim ;;
   remainder <-! rem64 new_batch_size old_batch_size ;;
   lift_status (CHECK (remainder =? 0)) ;;;
   num_splits <-! div64 new_batch_size old_batch_size ;;
   (* Build a constant PRED to decide which elements in the split
      dimension are from halo. *)
   b <-! fill_slice_mask new_batch_size new_space_size num_splits
           old_space_size ;;
   slice_mask <- AddInstruction (CreateConstant (LiteralR1 b)) ;;
   let slice_mask_reshape_dims := [new_batch_size; new_space_size] in
   slice_mask_reshaped <-
     MakeReshapeHlo slice_mask_reshape_dims slice_mask ;;
   (* Broadcast the mask in all dimensions of the activations. *)
   shape_mask <-
     MakeBroadcastHlo slice_mask_reshaped [new_batch_dim; new_space_dim]
       (dimensions new_shape) ;;
   zeroes <- MakeBroadcastHlo select_val [] (dimensions new_shape) ;;
   new_instr <- MakeSelectHlo shape_mask new_instr zeroes ;;
   ret new_instr)%state.

(** ** The values of the instructions the pass builds *)

(** An element of a tensor: a predicate or a number.  The pass moves and
    selects elements; the numbers stand for any numeric element type. *)
Inductive Scalar : Set :=
| SPred (b : bool)
| SNum (x : Z).

(** A tensor value, as the function from a multi-index to its element. *)
Definition Tensor : Type := list Z -> Scalar.

Definition literal_tensor (l : Literal) : option Tensor :=
  match l with
  | LiteralZero PRED => Some (fun _ => SPred false)
  | LiteralZero _ => Some (fun _ => SNum 0)
  | LiteralR1 bits =>
      Some (fun idx => match idx with
                       | [k] => SPred (nth (Z.to_nat k) bits false)
                       | _ => SPred false
                       end)
  | LiteralOpaque => None
  end.

(** Element [idx] of a slice is element [start + idx * stride] of the
    operand. *)
Fixpoint slice_index (idx starts strides : list Z) : list Z :=
  match idx, starts, strides with
  | i :: idx', s :: starts', st :: strides' =>
      (s + i * st) :: slice_index idx' starts' strides'
  | _, _, _ => []
  end.

(** The index into the operand of a pad, when [idx] is not in the padding:
    low padding shifts, interior padding spreads. *)
Fixpoint pad_index (idx dims : list Z) (cfg : PaddingConfig)
  : option (list Z) :=
  match idx, dims, cfg with
  | [], [], [] => Some []
  | i :: idx', d :: dims', p :: cfg' =>
      let j := i - edge_padding_low p in
      let step := interior_padding p + 1 in
      if (0 <=? j) && (j mod step =? 0) && (j / step <? d)
      then rest ← pad_index idx' dims' cfg'; Some ((j / step) :: rest)
      else None
  | _, _, _ => None
  end.

(** Element [idx] of a concatenation along [dimension]: walk the pieces,
    each with its extent along the dimension. *)
Fixpoint concat_pick (pieces : list (Tensor * Z)) (dimension : nat)
    (idx : list Z) : Scalar :=
  match pieces with
  | [] => SNum 0
  | (t, extent) :: rest =>
      let i := nth dimension idx 0 in
      if i <? extent then t idx
      else concat_pick rest dimension (<[dimension := i - extent]> idx)
  end.

(** Row-major linear index of a multi-index, and back. *)
Fixpoint linearize (dims idx : list Z) (acc : Z) : Z :=
  match dims, idx with
  | d :: dims', i :: idx' => linearize dims' idx' (acc * d + i)
  | _, _ => acc
  end.

Fixpoint delinearize (dims : list Z) (l : Z) : list Z :=
  match dims with
  | [] => []
  | d :: dims' =>
      let inner := fold_right Z.mul 1 dims' in
      (l / inner) :: delinearize dims' (l mod inner)
  end.

(** Axis [i] of the result of a transpose is axis [perm[i]] of the operand:
    the operand index has, at position [perm[i]], coordinate [i] of the
    result index. *)
Definition transpose_index (perm idx : list Z) : list Z :=
  map (fun axis =>
         match list_find (fun p => p = axis) perm with
         | Some (i, _) => nth i idx 0
         | None => 0
         end)
      (range (Z.of_nat (length perm))).

Fixpoint all_some {A} (l : list (option A)) : option (list A) :=
  match l with
  | [] => Some []
  | Some x :: l' => rest ← all_some l'; Some (x :: rest)
  | None :: _ => None
  end.

(** One level of evaluation; [rec] evaluates the operands. *)
Definition interp (rec : InstrId -> option Tensor) (c : HloComputation)
    (inst : HloInstruction) : option Tensor :=
  let operand_dims (o : InstrId) : option (list Z) :=
    i ← instructions c !! o; Some (dimensions (shape i)) in
  match opcode inst, operands inst with
  | kConstant, [] => literal_tensor (literal inst)
  | kSlice, [x] =>
      t ← rec x;
      Some (fun idx => t (slice_index idx (slice_starts inst)
                                      (slice_strides inst)))
  | kPad, [x; v] =>
      t ← rec x; tv ← rec v; dims ← operand_dims x;
      Some (fun idx => match pad_index idx dims (padding_config inst) with
                       | Some idx' => t idx'
                       | None => tv []
                       end)
  | kConcatenate, ops =>
      match hlo_dimensions inst with
      | [dimension] =>
          pieces ← all_some
            (map (fun o => t ← rec o; dims ← operand_dims o;
                           Some (t, nth (Z.to_nat dimension) dims 0)) ops);
          Some (concat_pick pieces (Z.to_nat dimension))
      | _ => None
      end
  | kReshape, [x] =>
      t ← rec x; dims ← operand_dims x;
      Some (fun idx =>
              t (delinearize dims
                   (linearize (dimensions (shape inst)) idx 0)))
  | kBroadcast, [x] =>
      t ← rec x;
      Some (fun idx =>
              t (map (fun d => nth (Z.to_nat d) idx 0) (hlo_dimensions inst)))
  | kSelect, [p; a; b] =>
      tp ← rec p; ta ← rec a; tb ← rec b;
      Some (fun idx => match tp idx with
                       | SPred true => ta idx
                       | _ => tb idx
                       end)
  | kTranspose, [x] =>
      t ← rec x;
      Some (fun idx => t (transpose_index (hlo_dimensions inst) idx))
  | _, _ => None
  end.

(** The value of an instruction, given the values [env] of instructions
    that are taken as inputs; the others are evaluated, [fuel] levels
    deep. *)
Definition eval_step (rec : InstrId -> option Tensor) (c : HloComputation)
    (env : InstrId -> option Tensor) (i : InstrId) : option Tensor :=
  match env i with
  | Some t => Some t
  | None => inst ← instructions c !! i; interp rec c inst
  end.

Fixpoint eval (fuel : nat) (c : HloComputation)
    (env : InstrId -> option Tensor) (i : InstrId) : option Tensor :=
  match fuel with
  | O => env i
  | S fuel' => eval_step (eval fuel' c env) c env i
  end.

(** A multi-index within the extents [dims]. *)
Definition valid_index (dims idx : list Z) : Prop :=
  Forall2 (fun d i => 0 <= i < d) dims idx.

(** The computation [c] with the instructions [news] appended. *)
Definition extend (c : HloComputation) (news : list HloInstruction)
  : HloComputation :=
  {| instructions := instructions c ++ news;
     root_instruction := root_instruction c |}.

(** The output of the convolution of scenario (a), its rewritten
    counterpart with batch 8 and split extent 4, and a zero. *)
Definition example_masking : HloComputation :=
  {| instructions :=
       [ make_instruction kParameter (f32 [2; 14; 4]) [];
         make_instruction kParameter (f32 [8; 4; 4]) [];
         CreateConstant (LiteralZero F32) ];
     root_instruction := 1%nat |}.

(** Instruction [i] of [c] evaluates, [fuel] levels deep, to a tensor that
    is [F] on the indices within [dims]. *)
Definition has_value (fuel : nat) (c : HloComputation)
    (env : InstrId -> option Tensor) (i : InstrId) (dims : list Z)
    (F : list Z -> Scalar) : Prop :=
  exists T, eval fuel c env i = Some T /\
            forall idx, valid_index dims idx -> T idx = F idx.

(** Instruction [i] of [c] has element type [ty] and extents [dims]. *)
Definition has_shape (c : HloComputation) (i : InstrId)
    (ty : PrimitiveType) (dims : list Z) : Prop :=
  exists x, instructions c !! i = Some x /\
            element_type (shape x) = ty /\ dimensions (shape x) = dims.

(** The three pieces of section 4.4 of the specification, for activations
    [A] of extents [dims] with batch axis [bd] (extent [B]) and space axis
    [sd] (extent [S]), and padding element [P]:
    - the first slice, present iff [low_padding > 0]: the last
      [low_padding] positions of the previous batch row, batch row 0
      padded;
    - the activations, trimmed by [|low_padding|] iff [halo_size = 0] and
      [low_padding <> 0] (at the end for a positive, at the start for a
      negative low padding);
    - the halo region, present iff [halo_size > low_padding]: the first
      [halo_size - low_padding] positions of the next batch row, the last
      batch row padded. *)
Definition first_slice_extent (low_padding : Z) : Z :=
  if low_padding >? 0 then low_padding else 0.

Definition halo_region_extent (low_padding halo_size : Z) : Z :=
  if halo_size - low_padding >? 0 then halo_size - low_padding else 0.

Definition activations_trimmed (low_padding halo_size : Z) : bool :=
  (halo_size =? 0) && negb (low_padding =? 0).

Definition activations_extent (S low_padding halo_size : Z) : Z :=
  if activations_trimmed low_padding halo_size
  then S - Z.abs low_padding else S.

Definition halo_duplicated (bd sd : nat) (B S low_padding halo_size : Z)
    (A : Tensor) (P : Scalar) (idx : list Z) : Scalar :=
  let b := nth bd idx 0 in
  let s := nth sd idx 0 in
  let L := first_slice_extent low_padding in
  let M := activations_extent S low_padding halo_size in
  let skipped :=
    if activations_trimmed low_padding halo_size && (low_padding <? 0)
    then - low_padding else 0 in
  if s <? L then
    if b =? 0 then P
    else A (<[sd := S - low_padding + s]> (<[bd := b - 1]> idx))
  else if s <? L + M then A (<[sd := s - L + skipped]> idx)
  else
    if b =? B - 1 then P
    else A (<[sd := s - L - M]> (<[bd := b + 1]> idx)).

(** The element the pieces are padded with: the value of [pad_val], or
    the zero of the element type for the default. *)
Definition padding_value (pad_val : option InstrId) (ty : PrimitiveType)
    (env : InstrId -> option Tensor) : option Tensor :=
  match pad_val with
  | Some p => env p
  | None => literal_tensor (LiteralZero ty)
  end.

(** What an environment provides to the graph that
    [HaloDuplicateWithSlice] extends: the value of the activations, the
    value of the padding scalar, and nothing for the instructions that
    are still to be created. *)
Definition halo_env (c : HloComputation) (a p : InstrId)
    (env : InstrId -> option Tensor) (A P : Tensor) : Prop :=
  env a = Some A /\
  (forall fuel, (1 <= fuel)%nat -> eval fuel c env p = Some P) /\
  (forall i, (length (instructions c) <= i)%nat -> env i = None).

(** Activations f32[2,4,3] with batch axis 0 and space axis 1, and the same
    with no batch row. *)
Definition example_activations : HloComputation :=
  {| instructions := [ make_instruction kParameter (f32 [2; 4; 3]) [] ];
     root_instruction := 0%nat |}.

Definition example_empty_batch : HloComputation :=
  {| instructions := [ make_instruction kParameter (f32 [0; 4; 3]) [] ];
     root_instruction := 0%nat |}.


(** ** The visitor and its tables *)

(** The data members of [ConvolutionVisitor]. *)
Record ConvolutionVisitor : Type := {
  computation_ : HloComputation;
  convs_to_visit_ : gset nat;
  conv_visitor_list_ : list nat;
  non_propagatable_instrs_ : gset nat;
  (* from a spaced-to-batch instruction to its batched-to-space version *)
  batch_to_space_map_ : gmap nat nat;
  (* from old instructions to space-to-batch'ed instructions *)
  old_to_new_instrs_ : gmap nat nat;
  (* from an old instruction to its (batch, space) dimensions *)
  instr_to_dim_map_ : gmap nat (Z * Z);
  (* from a space-to-batch'ed instruction to its permute dims *)
  instr_to_dim_permute_map_ : gmap nat (list Z);
  changed_ : bool;
  limit_on_batch_size_ : Z
}.

Definition set_computation (c : HloComputation) (v : ConvolutionVisitor)
  : ConvolutionVisitor :=
  {| computation_ := c;
     convs_to_visit_ := convs_to_visit_ v;
     conv_visitor_list_ := conv_visitor_list_ v;
     non_propagatable_instrs_ := non_propagatable_instrs_ v;
     batch_to_space_map_ := batch_to_space_map_ v;
     old_to_new_instrs_ := old_to_new_instrs_ v;
     instr_to_dim_map_ := instr_to_dim_map_ v;
     instr_to_dim_permute_map_ := instr_to_dim_permute_map_ v;
     changed_ := changed_ v;
     limit_on_batch_size_ := limit_on_batch_size_ v |}.

Definition set_non_propagatable_instrs (s : gset nat)
    (v : ConvolutionVisitor) : ConvolutionVisitor :=
  {| computation_ := computation_ v;
     convs_to_visit_ := convs_to_visit_ v;
     conv_visitor_list_ := conv_visitor_list_ v;
     non_propagatable_instrs_ := s;
     batch_to_space_map_ := batch_to_space_map_ v;
     old_to_new_instrs_ := old_to_new_instrs_ v;
     instr_to_dim_map_ := instr_to_dim_map_ v;
     instr_to_dim_permute_map_ := instr_to_dim_permute_map_ v;
     changed_ := changed_ v;
     limit_on_batch_size_ := limit_on_batch_size_ v |}.

Definition set_batch_to_space_map (m : gmap nat nat)
    (v : ConvolutionVisitor) : ConvolutionVisitor :=
  {| computation_ := computation_ v;
     convs_to_visit_ := convs_to_visit_ v;
     conv_visitor_list_ := conv_visitor_list_ v;
     non_propagatable_instrs_ := non_propagatable_instrs_ v;
     batch_to_space_map_ := m;
     old_to_new_instrs_ := old_to_new_instrs_ v;
     instr_to_dim_map_ := instr_to_dim_map_ v;
     instr_to_dim_permute_map_ := instr_to_dim_permute_map_ v;
     changed_ := changed_ v;
     limit_on_batch_size_ := limit_on_batch_size_ v |}.

Definition set_old_to_new_instrs (m : gmap nat nat)
    (v : ConvolutionVisitor) : ConvolutionVisitor :=
  {| computation_ := computation_ v;
     convs_to_visit_ := convs_to_visit_ v;
     conv_visitor_list_ := conv_visitor_list_ v;
     non_propagatable_instrs_ := non_propagatable_instrs_ v;
     batch_to_space_map_ := batch_to_space_map_ v;
     old_to_new_instrs_ := m;
     instr_to_dim_map_ := instr_to_dim_map_ v;
     instr_to_dim_permute_map_ := instr_to_dim_permute_map_ v;
     changed_ := changed_ v;
     limit_on_batch_size_ := limit_on_batch_size_ v |}.

Definition set_instr_to_dim_map (m : gmap nat (Z * Z))
    (v : ConvolutionVisitor) : ConvolutionVisitor :=
  {| computation_ := computation_ v;
     convs_to_visit_ := convs_to_visit_ v;
     conv_visitor_list_ := conv_visitor_list_ v;
     non_propagatable_instrs_ := non_propagatable_instrs_ v;
     batch_to_space_map_ := batch_to_space_map_ v;
     old_to_new_instrs_ := old_to_new_instrs_ v;
     instr_to_dim_map_ := m;
     instr_to_dim_permute_map_ := instr_to_dim_permute_map_ v;
     changed_ := changed_ v;
     limit_on_batch_size_ := limit_on_batch_size_ v |}.

Definition set_instr_to_dim_permute_map (m : gmap nat (list Z))
    (v : ConvolutionVisitor) : ConvolutionVisitor :=
  {| computation_ := computation_ v;
     convs_to_visit_ := convs_to_visit_ v;
     conv_visitor_list_ := conv_visitor_list_ v;
     non_propagatable_instrs_ := non_propagatable_instrs_ v;
     batch_to_space_map_ := batch_to_space_map_ v;
     old_to_new_instrs_ := old_to_new_instrs_ v;
     instr_to_dim_map_ := instr_to_dim_map_ v;
     instr_to_dim_permute_map_ := m;
     changed_ := changed_ v;
     limit_on_batch_size_ := limit_on_batch_size_ v |}.

Definition set_changed (b : bool) (v : ConvolutionVisitor)
  : ConvolutionVisitor :=
  {| computation_ := computation_ v;
     convs_to_visit_ := convs_to_visit_ v;
     conv_visitor_list_ := conv_visitor_list_ v;
     non_propagatable_instrs_ := non_propagatable_instrs_ v;
     batch_to_space_map_ := batch_to_space_map_ v;
     old_to_new_instrs_ := old_to_new_instrs_ v;
     instr_to_dim_map_ := instr_to_dim_map_ v;
     instr_to_dim_permute_map_ := instr_to_dim_permute_map_ v;
     changed_ := b;
     limit_on_batch_size_ := limit_on_batch_size_ v |}.

(** A graph builder or query run on the computation of the visitor. *)
Definition on_graph {A} (m : State HloComputation A)
  : State ConvolutionVisitor A :=
  fun v => match m (computation_ v) with
           | OK (a, c) => OK (a, set_computation c v)
           | Fail f => Fail f
           end.

(** [instr_to_dim_map_.contains(k)] and [instr_to_dim_map_[k]]:
    [operator[]] of a hash map inserts a value-initialized entry for a key
    that is missing. *)
Definition dim_map_contains (k : InstrId) : State ConvolutionVisitor bool :=
  gets (fun v => bool_decide (is_Some (instr_to_dim_map_ v !! k))).

Definition dim_map_index (k : InstrId) : State ConvolutionVisitor (Z * Z) :=
  fun v => match instr_to_dim_map_ v !! k with
           | Some p => OK (p, v)
           | None =>
               OK ((0, 0),
                   set_instr_to_dim_map (<[k := (0, 0)]> (instr_to_dim_map_ v))
                                        v)
           end.

Definition permute_map_contains (k : InstrId)
  : State ConvolutionVisitor bool :=
  gets (fun v => bool_decide (is_Some (instr_to_dim_permute_map_ v !! k))).

Definition permute_map_index (k : InstrId)
  : State ConvolutionVisitor (list Z) :=
  fun v => match instr_to_dim_permute_map_ v !! k with
           | Some p => OK (p, v)
           | None =>
               OK ([],
                   set_instr_to_dim_permute_map
                     (<[k := []]> (instr_to_dim_permute_map_ v)) v)
           end.

(** [old_to_new_instrs_.contains(k)] and [old_to_new_instrs_[k]].  For a
    missing key [operator[]] yields a null pointer, which every use in the
    source dereferences at once. *)
Definition old_to_new_contains (k : InstrId)
  : State ConvolutionVisitor bool :=
  gets (fun v => bool_decide (is_Some (old_to_new_instrs_ v !! k))).

Definition old_to_new_index (k : InstrId)
  : State ConvolutionVisitor InstrId :=
  fun v => match old_to_new_instrs_ v !! k with
           | Some n => OK (n, v)
           | None => Fail NullPointer
           end.

(** [absl::c_linear_search]. *)
Definition c_linear_search (l : list Z) (x : Z) : bool :=
  existsb (Z.eqb x) l.

(** A loop whose body can [return false]: the body answers whether to go
    on; the loop answers whether it ran to its end. *)
Fixpoint loop_while {S A} (l : list A) (body : A -> State S bool)
  : State S bool :=
  match l with
  | [] => ret true
  | x :: l' =>
      bind (body x) (fun go_on => if go_on then loop_while l' body
                                  else ret false)
  end.

(** ** Readiness checks of the propagation *)

(** Modelled from the spec: [HloInstruction::IsElementwise] of the host
    (section 4.6, opcode class "Elementwise (incl. binary)"), not under
    [src/]: the unary, binary and ternary elementwise opcodes, and the
    constants, iotas and random number generators that
    [IsTrivialElementwise] has to exclude by hand.  A fusion is opaque. *)
Definition IsElementwise (hlo : HloInstruction) : bool :=
  match opcode hlo with
  | kAbs | kConvert | kCopy | kExp | kLog | kNegate | kNot | kRsqrt | kSqrt
  | kTanh => true
  | kAdd | kAnd | kCompare | kDivide | kMaximum | kMinimum | kMultiply | kOr
  | kPower | kSubtract => true
  | kClamp | kSelect => true
  | kConstant | kIota | kRng => true
  | _ => false
  end.

(** Modelled from the spec: [HloInstruction::IsElementwiseBinary] of the
    host, not under [src/]: elementwise with two operands. *)
Definition IsElementwiseBinary (hlo : HloInstruction) : bool :=
  IsElementwise hlo && (operand_count hlo =? 2).

Definition IsTrivialElementwise (hlo : HloInstruction) : bool :=
  if opcode_eqb (opcode hlo) kFusion || opcode_eqb (opcode hlo) kRng
     || opcode_eqb (opcode hlo) kCopy || opcode_eqb (opcode hlo) kConstant
     || opcode_eqb (opcode hlo) kIota
  then false
  else IsElementwise hlo.

(** [ConvolutionVisitor::IsBroadcastPropagatable]. *)
Definition IsBroadcastPropagatable (broadcast old_other_op : InstrId)
  : State ConvolutionVisitor bool :=
  (b <- on_graph (deref broadcast) ;;
   lift_status (CHECK (opcode_eqb (opcode b) kBroadcast)) ;;;
   known <- dim_map_contains old_other_op ;;
   lift_status (CHECK known) ;;;
   result <- dim_map_index old_other_op ;;
   let batch_dim := fst result in
   let space_dim := snd result in
   let broadcast_dims := hlo_dimensions b in
   ret (negb (c_linear_search broadcast_dims batch_dim)
        && negb (c_linear_search broadcast_dims space_dim)))%state.

(** [ConvolutionVisitor::SupportedOpForPropagation]. *)
Definition SupportedOpForPropagation (consumer producer : InstrId)
  : State ConvolutionVisitor bool :=
  (c <- on_graph (deref consumer) ;;
   if IsTrivialElementwise c then
     loop_while (operands c)
       (fun o =>
          x <- on_graph (deref o) ;;
          if opcode_eqb (opcode x) kBroadcast
          then IsBroadcastPropagatable o producer
          else ret true)
   else if opcode_eqb (opcode c) kConvolution then ret true
   else if opcode_eqb (opcode c) kReduce then
     (* Support only the trivial case where both batch and split spatial
        dim are being reduced *)
     let reduce_dims := hlo_dimensions c in
     first_operand <-! operand c 0 ;;
     result <- dim_map_index first_operand ;;
     let batch_dim := fst result in
     let space_dim := snd result in
     ret (c_linear_search reduce_dims batch_dim
          && c_linear_search reduce_dims space_dim)
   else if opcode_eqb (opcode c) kReduceWindow
           || opcode_eqb (opcode c) kSelectAndScatter then
     first_operand <-! operand c 0 ;;
     let window := window c in
     known <- dim_map_contains first_operand ;;
     if negb known then ret false else
     (* Disallow windowing on on the batch dim *)
     result <- dim_map_index first_operand ;;
     let old_batch_dim := fst result in
     let old_space_dim := snd result in
     batch_window <-! at_index window old_batch_dim ;;
     if negb (size batch_window =? 1) then ret false else
     (* Only allow no-low-padding cases. *)
     space_window <-! at_index window old_space_dim ;;
     if negb (padding_low space_window =? 0) then ret false else
     (* Only allow small high pads. *)
     if padding_high space_window >? size space_window then ret false else
     (* Operand 0 must have been propagated through *)
     rewritten <- old_to_new_contains first_operand ;;
     if negb rewritten then ret false else
     new_operand <- old_to_new_index first_operand ;;
     permute_dims <- permute_map_index new_operand ;;
     new_space_dim <-! DimLookUp permute_dims old_space_dim ;;
     (* Make sure that the stride lines up. *)
     if negb (size space_window =? 1) then
       new_operand_shape <- on_graph (shape_of new_operand) ;;
       extent <-! at_index (dimensions new_operand_shape) new_space_dim ;;
       r <-! rem64 extent (stride space_window) ;;
       if negb (r =? 0) then ret false else ret true
     else ret true
   else ret false)%state.

(** The loop of [CanPropagate] over the operands of an elementwise
    consumer; [pivot_operand] is the first operand found rewritten. *)
Fixpoint elementwise_operands_ready (c : HloInstruction) (producer : InstrId)
    (ops : list InstrId) (pivot_operand : option InstrId)
  : State ConvolutionVisitor bool :=
  match ops with
  | [] => ret true
  | old_producer :: rest =>
      (op <- on_graph (deref old_producer) ;;
       broadcast_or_constant <-
         (if opcode_eqb (opcode op) kConstant then ret true
          else if opcode_eqb (opcode op) kBroadcast
               then IsBroadcastPropagatable old_producer producer
               else ret false) ;;
       rewritten <- old_to_new_contains old_producer ;;
       if negb rewritten && negb broadcast_or_constant then ret false
       else if broadcast_or_constant
       then elementwise_operands_ready c producer rest pivot_operand
       else
         rewritten <- old_to_new_contains old_producer ;;
         lift_status (CHECK rewritten) ;;;
         known <- dim_map_contains old_producer ;;
         lift_status (CHECK known) ;;;
         match pivot_operand with
         | None =>
             elementwise_operands_ready c producer rest (Some old_producer)
         | Some pivot =>
             pivot_dim_map <- dim_map_index pivot ;;
             dim_map <- dim_map_index old_producer ;;
             if negb (bool_decide (pivot_dim_map = dim_map)) then ret false
             else
             pivot_new_instr <- old_to_new_index pivot ;;
             pivot_permute_dims <- permute_map_index pivot_new_instr ;;
             new_instr <- old_to_new_index old_producer ;;
             permute_dims <- permute_map_index new_instr ;;
             same <-
               loop_while (range (Z.of_nat (length pivot_permute_dims)))
                 (fun j =>
                    pivot_j <-! at_index pivot_permute_dims j ;;
                    permute_j <-! at_index permute_dims j ;;
                    (* Ensure the dimension mapping is the same. *)
                    if negb (pivot_j =? permute_j) then ret false else
                    (* Make sure all other dimensions are of the same
                       size. *)
                    pivot_shape <- on_graph (shape_of pivot_new_instr) ;;
                    new_shape <- on_graph (shape_of new_instr) ;;
                    pivot_extent <-! at_index (dimensions pivot_shape) j ;;
                    new_extent <-! at_index (dimensions new_shape) j ;;
                    if negb (pivot_extent =? new_extent) then
                      if IsElementwiseBinary c then
                        pivot_dim_map <- dim_map_index pivot ;;
                        ret (j =? snd pivot_dim_map)
                      else ret false
                    else ret true) ;;
             if negb same then ret false
             else elementwise_operands_ready c producer rest pivot_operand
         end)%state
  end.

(** [for (i = 0; i < operand_count; ++i)
       if (i < n && !old_to_new_instrs_.contains(operand(i))) return false;] *)
Definition first_operands_rewritten (c : HloInstruction) (n : Z)
  : State ConvolutionVisitor bool :=
  loop_while (range (operand_count c))
    (fun i =>
       old_producer <-! operand c i ;;
       rewritten <- old_to_new_contains old_producer ;;
       ret (negb ((i <? n) && negb rewritten)))%state.

(** [Match(root, m::AddAnyOrder(m::Parameter(0), m::Parameter(1)))]. *)
Definition MatchAddOfParameters (root : CalledRoot) : bool :=
  match root with
  | RootBinary kAdd (RootParameter 0) (RootParameter 1) => true
  | RootBinary kAdd (RootParameter 1) (RootParameter 0) => true
  | _ => false
  end.

(** [ConvolutionVisitor::CanPropagate]. *)
Definition CanPropagate (consumer producer : InstrId)
  : State ConvolutionVisitor bool :=
  (c <- on_graph (deref consumer) ;;
   elementwise_ready <-
     (if IsTrivialElementwise c
      then elementwise_operands_ready c producer (operands c) None
      else ret true) ;;
   if negb elementwise_ready then ret false else
   if opcode_eqb (opcode c) kConvolution then
     limit <- gets limit_on_batch_size_ ;;
     computation <- gets computation_ ;;
     suitable <-! IsConvSuitableForSpaceToBatch limit computation c ;;
     if suitable then first_operands_rewritten c 1
     else
       (* Check for space-to-depth readiness here. *)
       (* We currently only support stride of 1. *)
       spatial_window <-! at_index (window c) (get_chosen_spatial_dim c) ;;
       if negb (stride spatial_window =? 1) then ret false else
       (* All operands must be space-to-batched. *)
       batched <-
         loop_while (operands c)
           (fun old_producer =>
              rewritten <- old_to_new_contains old_producer ;;
              if negb rewritten then ret false else
              new_producer <- old_to_new_index old_producer ;;
              permute_map_contains new_producer) ;;
       if negb batched then ret false else
       operand_0 <-! operand c 0 ;;
       first_operand <- old_to_new_index operand_0 ;;
       dim_map_val_op_0 <- dim_map_index operand_0 ;;
       operand_1 <-! operand c 1 ;;
       second_operand <- old_to_new_index operand_1 ;;
       dim_map_val_op_1 <- dim_map_index operand_1 ;;
       permute_dims_first_operand <- permute_map_index first_operand ;;
       permute_dims_second_operand <- permute_map_index second_operand ;;
       new_batch_dim_operand_0 <-!
         DimLookUp permute_dims_first_operand (fst dim_map_val_op_0) ;;
       new_space_dim_operand_0 <-!
         DimLookUp permute_dims_first_operand (snd dim_map_val_op_0) ;;
       new_batch_dim_operand_1 <-!
         DimLookUp permute_dims_second_operand (fst dim_map_val_op_1) ;;
       new_space_dim_operand_1 <-!
         DimLookUp permute_dims_second_operand (snd dim_map_val_op_1) ;;
       first_shape <- on_graph (shape_of first_operand) ;;
       second_shape <- on_graph (shape_of second_operand) ;;
       first_batch <-!
         at_index (dimensions first_shape) new_batch_dim_operand_0 ;;
       second_batch <-!
         at_index (dimensions second_shape) new_batch_dim_operand_1 ;;
       if negb (first_batch =? second_batch) then ret false else
       let rhs_dilation := window_dilation spatial_window in
       first_space <-!
         at_index (dimensions first_shape) new_space_dim_operand_0 ;;
       second_space <-!
         at_index (dimensions second_shape) new_space_dim_operand_1 ;;
       if negb (first_space =? (rhs_dilation * second_space)%i64)
       then ret false
       else ret true
   else
   reduce_ready <-
     (if opcode_eqb (opcode c) kReduceWindow || opcode_eqb (opcode c) kReduce
      then first_operands_rewritten c 1
      else ret true) ;;
   if negb reduce_ready then ret false else
   if opcode_eqb (opcode c) kSelectAndScatter then
     (* We currently only support adds in the scatter. *)
     if negb (MatchAddOfParameters (scatter c)) then ret false else
     rewritten <- first_operands_rewritten c 2 ;;
     if negb rewritten then ret false else
     operand_0 <-! operand c 0 ;;
     first_operand <- old_to_new_index operand_0 ;;
     dim_map_val_op_0 <- dim_map_index operand_0 ;;
     operand_1 <-! operand c 1 ;;
     second_operand <- old_to_new_index operand_1 ;;
     permute_dims_first_operand <- permute_map_index first_operand ;;
     permute_dims_second_operand <- permute_map_index second_operand ;;
     (* The permuting must match. *)
     if negb (bool_decide (permute_dims_first_operand
                           = permute_dims_second_operand))
     then ret false else
     let old_batch_dim := fst dim_map_val_op_0 in
     let old_space_dim := snd dim_map_val_op_0 in
     new_batch_dim <-! DimLookUp permute_dims_first_operand old_batch_dim ;;
     new_space_dim <-! DimLookUp permute_dims_first_operand old_space_dim ;;
     first_shape <- on_graph (shape_of first_operand) ;;
     second_shape <- on_graph (shape_of second_operand) ;;
     first_batch <-! at_index (dimensions first_shape) new_batch_dim ;;
     second_batch <-! at_index (dimensions second_shape) new_batch_dim ;;
     if negb (first_batch =? second_batch) then ret false else
     space_window <-! at_index (window c) old_space_dim ;;
     let stride := stride space_window in
     let pad_high := padding_high space_window in
     let pad_low := padding_low space_window in
     first_space <-! at_index (dimensions first_shape) new_space_dim ;;
     second_space <-! at_index (dimensions second_shape) new_space_dim ;;
     quotient <-! div64 (first_space + pad_high + pad_low)%i64 stride ;;
     if negb (quotient =? second_space) then ret false
     else ret true
   else ret true)%state.

(** ** The readiness conditions, as the specification words them *)

(** The rewritten version of operand [i] of [c], and the tracked axes of
    that operand. *)
Definition rewritten_operand (v : ConvolutionVisitor) (c : HloInstruction)
    (i : nat) : option InstrId :=
  o ← operands c !! i; old_to_new_instrs_ v !! o.

Definition operand_dim_map (v : ConvolutionVisitor) (c : HloInstruction)
    (i : nat) : option (Z * Z) :=
  o ← operands c !! i; instr_to_dim_map_ v !! o.

(** The axis of the rewritten instruction [n] that the PermuteMap assigns
    to an axis of the original, and the extent of an axis of [n]. *)
Definition new_axis (v : ConvolutionVisitor) (n : InstrId) (old_axis : Z)
  : option Z :=
  p ← instr_to_dim_permute_map_ v !! n; lookupZ p old_axis.

Definition extent_of (v : ConvolutionVisitor) (n : InstrId) (axis : Z)
  : option Z :=
  x ← instructions (computation_ v) !! n; lookupZ (dimensions (shape x)) axis.

(** Section 4.5, as worded: operand 0 rewritten and with a DimMap entry,
    window of size 1 on the batch axis, no low padding on the space axis,
    a high padding of at most the window size, and a stride that divides
    the space extent of the rewritten operand. *)
Definition window_ready_as_stated (v : ConvolutionVisitor)
    (c : HloInstruction) : Prop :=
  exists new_operand bd sd wb ws new_sd extent,
    rewritten_operand v c 0 = Some new_operand /\
    operand_dim_map v c 0 = Some (bd, sd) /\
    lookupZ (window c) bd = Some wb /\ size wb = 1 /\
    lookupZ (window c) sd = Some ws /\
    padding_low ws = 0 /\ padding_high ws <= size ws /\
    new_axis v new_operand sd = Some new_sd /\
    extent_of v new_operand new_sd = Some extent /\
    stride ws <> 0 /\ Z.rem extent (stride ws) = 0.

(** The same, the stride being looked at only for a window of a size
    other than 1 on the space axis. *)
Definition window_ready (v : ConvolutionVisitor) (c : HloInstruction)
  : Prop :=
  exists new_operand bd sd wb ws new_sd,
    rewritten_operand v c 0 = Some new_operand /\
    operand_dim_map v c 0 = Some (bd, sd) /\
    lookupZ (window c) bd = Some wb /\ size wb = 1 /\
    lookupZ (window c) sd = Some ws /\
    padding_low ws = 0 /\ padding_high ws <= size ws /\
    new_axis v new_operand sd = Some new_sd /\
    (size ws <> 1 ->
     exists extent,
       extent_of v new_operand new_sd = Some extent /\
       stride ws <> 0 /\ Z.rem extent (stride ws) = 0).

(** What a select-and-scatter needs in addition: a scatter that adds its
    two parameters, operands 0 and 1 rewritten with one permutation and
    one batch extent, and (space extent + pads) / stride equal to the
    space extent of operand 1. *)
Definition scatter_ready (v : ConvolutionVisitor) (c : HloInstruction)
  : Prop :=
  MatchAddOfParameters (scatter c) = true /\
  exists new_0 new_1 bd sd perm new_bd new_sd ws batch_extent
         space_extent_0 space_extent_1,
    rewritten_operand v c 0 = Some new_0 /\
    rewritten_operand v c 1 = Some new_1 /\
    operand_dim_map v c 0 = Some (bd, sd) /\
    instr_to_dim_permute_map_ v !! new_0 = Some perm /\
    instr_to_dim_permute_map_ v !! new_1 = Some perm /\
    lookupZ perm bd = Some new_bd /\ lookupZ perm sd = Some new_sd /\
    extent_of v new_0 new_bd = Some batch_extent /\
    extent_of v new_1 new_bd = Some batch_extent /\
    lookupZ (window c) sd = Some ws /\
    extent_of v new_0 new_sd = Some space_extent_0 /\
    extent_of v new_1 new_sd = Some space_extent_1 /\
    stride ws <> 0 /\
    Z.quot (space_extent_0 + padding_high ws + padding_low ws) (stride ws)
    = space_extent_1.

(** Windows and shapes whose values leave the headroom of [Int64.safe]. *)
Definition window_values_safe (c : HloInstruction) : Prop :=
  Forall (fun w => Int64.safe (stride w) /\ Int64.safe (padding_low w) /\
                   Int64.safe (padding_high w))
         (window c).

Definition extents_safe (g : HloComputation) : Prop :=
  Forall (fun x => Forall Int64.safe (dimensions (shape x)))
         (instructions g).

(** ** Example states of the visitor *)

(** A visitor over [computation] with empty tables. *)
Definition new_visitor (limit_on_batch_size : Z) (computation : HloComputation)
  : ConvolutionVisitor :=
  {| computation_ := computation;
     convs_to_visit_ := ∅;
     conv_visitor_list_ := [];
     non_propagatable_instrs_ := ∅;
     batch_to_space_map_ := ∅;
     old_to_new_instrs_ := ∅;
     instr_to_dim_map_ := ∅;
     instr_to_dim_permute_map_ := ∅;
     changed_ := false;
     limit_on_batch_size_ := limit_on_batch_size |}.

(** An instruction f32[2,16,3] (0) rewritten to f32[8,4,3] (1), batch axis
    0 and space axis 1, no axis permuted, and a reduce-window (2) of it
    with a window of [size] and [stride] on the space axis. *)
Definition example_reduce_window (sz st : Z) : HloInstruction :=
  set_window [plain_window 1 1 0 0; plain_window sz st 0 0;
              plain_window 1 1 0 0]
    (make_instruction kReduceWindow (f32 [2; 6; 3]) [0%nat; 3%nat]).

Definition example_windowed (sz st : Z) : ConvolutionVisitor :=
  set_instr_to_dim_permute_map {[ 1%nat := [0; 1; 2] ]}
    (set_instr_to_dim_map {[ 0%nat := (0, 1) ]}
       (set_old_to_new_instrs {[ 0%nat := 1%nat ]}
          (new_visitor 8
             {| instructions :=
                  [ make_instruction kParameter (f32 [2; 16; 3]) [];
                    make_instruction kParameter (f32 [8; 4; 3]) [];
                    example_reduce_window sz st;
                    CreateConstant (LiteralZero F32) ];
                root_instruction := 2%nat |}))).


(** ** More graph primitives of the host *)

(** Modelled from the spec: the user list of an instruction (section 3,
    "user (fan-out) list"), not under [src/]: the instructions that have
    [i] among their operands, in the order of the arena.  A loop over the
    users reads the list when it starts. *)
Definition is_user (c : HloComputation) (i u : InstrId) : bool :=
  match instructions c !! u with
  | Some x => existsb (Nat.eqb i) (operands x)
  | None => false
  end.

Definition users (c : HloComputation) (i : InstrId) : list InstrId :=
  List.filter (is_user c i) (seq 0 (length (instructions c))).

Definition user_count (c : HloComputation) (i : InstrId) : Z :=
  Z.of_nat (length (users c i)).

(** The arena with instruction [i] replaced. *)
Definition update_instruction (i : InstrId) (x : HloInstruction)
    (c : HloComputation) : HloComputation :=
  {| instructions := <[i := x]> (instructions c);
     root_instruction := root_instruction c |}.

(** Modelled from the spec: [HloInstruction::Clone] followed by
    [AddInstruction] (section 6, "clone instruction"), not under [src/]:
    a new instruction with the attributes and operands of the original. *)
Definition CloneInstruction (i : InstrId) : State HloComputation InstrId :=
  (x <- deref i ;; AddInstruction x)%state.

(** Modelled from the spec: [ReplaceOperandWithDifferentShape] of the host
    (section 6, "replace one operand (possibly changing shape)"), not under
    [src/]: operand [operand_num] of [user] becomes [new_operand]; an
    operand number out of range is an error status. *)
Definition ReplaceOperandWithDifferentShape (user : InstrId)
    (operand_num : Z) (new_operand : InstrId) : State HloComputation unit :=
  (x <- deref user ;;
   if (operand_num <? 0) || (operand_count x <=? operand_num)
   then lift_status (Fail InvalidArgument)
   else
     modify (update_instruction user
               (set_operands (<[Z.to_nat operand_num := new_operand]>
                                (operands x)) x)))%state.

Definition is_floating_point (ty : PrimitiveType) : bool :=
  match ty with
  | F16 | BF16 | F32 | F64 => true
  | _ => false
  end.

(** [ShapeUtil::Compatible] and [ShapeUtil::CompatibleIgnoringFpPrecision]
    on array shapes: the extents agree, and the element types agree, for
    the second up to the precision of floating point types. *)
Definition Compatible (a b : Shape) : bool :=
  same_element_type a b && dims_eqb (dimensions a) (dimensions b).

Definition CompatibleIgnoringFpPrecision (a b : Shape) : bool :=
  (same_element_type a b
   || (is_floating_point (element_type a)
       && is_floating_point (element_type b)))
  && dims_eqb (dimensions a) (dimensions b).

(** Modelled from the spec: [HloInstruction::ReplaceOperandWith] of the
    host (section 6, "replace one operand"), not under [src/]: as above,
    for a new operand of the shape of the old one; another shape is an
    error status. *)
Definition ReplaceOperandWith (user : InstrId) (operand_num : Z)
    (new_operand : InstrId) : State HloComputation unit :=
  (x <- deref user ;;
   if (operand_num <? 0) || (operand_count x <=? operand_num)
   then lift_status (Fail InvalidArgument)
   else
     old_operand <-! operand x operand_num ;;
     old_shape <- shape_of old_operand ;;
     new_shape <- shape_of new_operand ;;
     if negb (CompatibleIgnoringFpPrecision old_shape new_shape)
     then lift_status (Fail InvalidArgument)
     else ReplaceOperandWithDifferentShape user operand_num new_operand
  )%state.

(** Modelled from the spec: [HloComputation::ReplaceInstruction] of the
    host (section 6, "replace an entire instruction (rewiring all
    users)"), not under [src/]: every instruction other than the new one
    that has the old one as an operand gets the new one instead, and a
    root that was the old instruction becomes the new one; a new
    instruction of another shape is an error status.  The arena keeps the
    replaced instruction, without users. *)
Definition rewire (old_instruction new_instruction : InstrId)
    (u : nat) (x : HloInstruction) : HloInstruction :=
  if (u =? new_instruction)%nat then x
  else set_operands
         (map (fun o => if (o =? old_instruction)%nat then new_instruction
                        else o)
              (operands x)) x.

Definition ReplaceInstruction (old_instruction new_instruction : InstrId)
  : State HloComputation unit :=
  (old_shape <- shape_of old_instruction ;;
   new_shape <- shape_of new_instruction ;;
   if negb (Compatible old_shape new_shape)
   then lift_status (Fail InvalidArgument)
   else
     modify (fun c =>
       {| instructions :=
            imap (rewire old_instruction new_instruction) (instructions c);
          root_instruction :=
            if (root_instruction c =? old_instruction)%nat
            then new_instruction else root_instruction c |}))%state.

(** [window_util::DilatedBound] and [window_util::StridedBound]. *)
Definition DilatedBound (bound dilation : Z) : Z :=
  if bound =? 0 then 0 else (bound - 1) * dilation + 1.

Definition StridedBound (bound window_size stride : Z) : Z :=
  if (bound =? 0) || (window_size >? bound) then 0
  else (bound - window_size) / stride + 1.

(** Modelled from the spec: the window part of the shape inference of the
    host (section 6, "shape inference for each newly constructed op"), not
    under [src/]: one window dimension per axis, positive sizes and
    strides, dilations of at least 1, no negative padding unless allowed;
    the output extent of an axis is the strided bound of its padded
    dilated extent. *)
Fixpoint InferWindowOutputDims (dims : list Z) (window : list WindowDimension)
    (allow_negative_padding : bool) : StatusOr (list Z) :=
  match dims, window with
  | [], [] => OK []
  | d :: dims', w :: window' =>
      if (size w <=? 0) || (stride w <=? 0)
         || (negb allow_negative_padding
             && ((padding_low w <? 0) || (padding_high w <? 0)))
         || (base_dilation w <? 1) || (window_dilation w <? 1)
      then Fail InvalidArgument
      else
        let dilated_base := DilatedBound d (base_dilation w) in
        let padded_dilated_base :=
          padding_low w + dilated_base + padding_high w in
        let dilated_window := DilatedBound (size w) (window_dilation w) in
        (rest <- InferWindowOutputDims dims' window' allow_negative_padding ;;
         OK (StridedBound padded_dilated_base dilated_window (stride w)
             :: rest))%status
  | _, _ => Fail InvalidArgument
  end.

(** Lookups of the shape inference: a miss is an error status. *)
Definition infer_index {A} (v : list A) (i : Z) : StatusOr A :=
  match lookupZ v i with
  | Some x => OK x
  | None => Fail InvalidArgument
  end.

(** The axes a convolution assigns to one of its operands or to its
    output: all within the rank, no axis twice. *)
Definition valid_axes (num_dims : nat) (axes : list Z) : bool :=
  (length axes =? num_dims)%nat && IsPermutation axes.

(** Modelled from the spec: the shape inference of the host for a
    convolution (section 6, "shape inference for each newly constructed
    op"), not under [src/].  The rule is that of the HLO convolution:
    operands of rank 2 + number of spatial dimensions, one window dimension
    of the size of the kernel per spatial dimension, group counts that
    divide the feature and batch extents; the output has the batch extent
    divided by the batch group count, the output features of the kernel,
    and the window output extent on every spatial axis. *)
Definition InferConvolveDims (lhs rhs : Shape)
    (feature_group_count batch_group_count : Z)
    (window : list WindowDimension) (dnums : ConvolutionDimensionNumbers)
  : StatusOr (list Z) :=
  let num_spatial := length (input_spatial_dimensions dnums) in
  let num_dims := (num_spatial + 2)%nat in
  if (feature_group_count <=? 0) || (batch_group_count <=? 0)
     || ((batch_group_count >? 1) && (feature_group_count >? 1))
  then Fail InvalidArgument
  else if negb (length (dimensions lhs) =? num_dims)%nat
          || negb (length (dimensions rhs) =? num_dims)%nat
          || negb (length window =? num_spatial)%nat
          || negb (valid_axes num_dims
                     (input_batch_dimension dnums
                      :: input_feature_dimension dnums
                      :: input_spatial_dimensions dnums))
          || negb (valid_axes num_dims
                     (kernel_input_feature_dimension dnums
                      :: kernel_output_feature_dimension dnums
                      :: kernel_spatial_dimensions dnums))
          || negb (valid_axes num_dims
                     (output_batch_dimension dnums
                      :: output_feature_dimension dnums
                      :: output_spatial_dimensions dnums))
  then Fail InvalidArgument
  else
  (input_batch <- infer_index (dimensions lhs) (input_batch_dimension dnums) ;;
   input_features <-
     infer_index (dimensions lhs) (input_feature_dimension dnums) ;;
   kernel_input_features <-
     infer_index (dimensions rhs) (kernel_input_feature_dimension dnums) ;;
   kernel_output_features <-
     infer_index (dimensions rhs) (kernel_output_feature_dimension dnums) ;;
   if negb (kernel_output_features mod batch_group_count =? 0)
      || negb (input_features mod feature_group_count =? 0)
      || negb (input_features / feature_group_count =? kernel_input_features)
      || negb (kernel_output_features mod feature_group_count =? 0)
      || negb (input_batch mod batch_group_count =? 0)
   then Fail InvalidArgument
   else
   base <- fold_status (input_spatial_dimensions dnums) []
             (fun axis acc =>
                d <- infer_index (dimensions lhs) axis ;; OK (acc ++ [d])) ;;
   kernel <- fold_status (kernel_spatial_dimensions dnums) []
               (fun axis acc =>
                  d <- infer_index (dimensions rhs) axis ;; OK (acc ++ [d])) ;;
   if negb (bool_decide (map size window = kernel))
   then Fail InvalidArgument
   else
   window_output <- InferWindowOutputDims base window true ;;
   let out := replicate num_dims 0 in
   let out := <[Z.to_nat (output_batch_dimension dnums) :=
                  input_batch / batch_group_count]> out in
   let out := <[Z.to_nat (output_feature_dimension dnums) :=
                  kernel_output_features]> out in
   OK (fold_left (fun acc p => <[Z.to_nat (fst p) := snd p]> acc)
                 (zip (output_spatial_dimensions dnums) window_output)
                 out))%status.

(** Modelled from the spec: [MakeConvolveHlo] of the host (section 6,
    create instruction: convolution), not under [src/]; the element type
    is the preferred one. *)
Definition MakeConvolveHlo (lhs rhs : InstrId)
    (feature_group_count batch_group_count : Z)
    (window : list WindowDimension) (dnums : ConvolutionDimensionNumbers)
    (preferred_element_type : PrimitiveType) : State HloComputation InstrId :=
  (lhs_shape <- shape_of lhs ;;
   rhs_shape <- shape_of rhs ;;
   dims <-! InferConvolveDims lhs_shape rhs_shape feature_group_count
              batch_group_count window dnums ;;
   AddInstruction
     (set_convolution dnums feature_group_count batch_group_count
        (set_window window
           (make_instruction kConvolution
              {| element_type := preferred_element_type;
                 dimensions := dims |}
              [lhs; rhs]))))%state.

(** Modelled from the spec: [ShapeInference::InferReduceWindowShape] and
    [HloInstruction::CreateReduceWindow] of the host (section 6, create
    instruction: reduce-window, and its shape inference), not under
    [src/]. *)
Definition InferReduceWindowShape (operand_shape init_value_shape : Shape)
    (window : list WindowDimension) : StatusOr Shape :=
  (dims <- InferWindowOutputDims (dimensions operand_shape) window false ;;
   OK {| element_type := element_type init_value_shape;
         dimensions := dims |})%status.

Definition CreateReduceWindow (s : Shape) (operand init_value : InstrId)
    (window : list WindowDimension) (reduce_computation : CalledRoot)
  : HloInstruction :=
  set_called reduce_computation RootOpaque
    (set_window window
       (make_instruction kReduceWindow s [operand; init_value])).

(** Modelled from the spec: [ShapeInference::InferSelectAndScatterShape]
    and [HloInstruction::CreateSelectAndScatter] of the host (section 6,
    create instruction: select-and-scatter, and its shape inference), not
    under [src/]: the source has the shape of the windows of the operand,
    and the result the shape of the operand. *)
Definition InferSelectAndScatterShape (operand_shape : Shape)
    (window : list WindowDimension) (source_shape init_value_shape : Shape)
  : StatusOr Shape :=
  (dims <- InferWindowOutputDims (dimensions operand_shape) window false ;;
   if negb (CompatibleIgnoringFpPrecision source_shape
              {| element_type := element_type operand_shape;
                 dimensions := dims |})
   then Fail InvalidArgument
   else OK operand_shape)%status.

Definition CreateSelectAndScatter (s : Shape) (operand : InstrId)
    (select : CalledRoot) (window : list WindowDimension)
    (source init_value : InstrId) (scatter_computation : CalledRoot)
  : HloInstruction :=
  set_called select scatter_computation
    (set_window window
       (make_instruction kSelectAndScatter s [operand; source; init_value])).

(** ** Dimension numbers *)

(** The setters of [ConvolutionDimensionNumbers]. *)
Definition set_input_batch_dimension (v : Z)
    (d : ConvolutionDimensionNumbers) : ConvolutionDimensionNumbers :=
  {| input_batch_dimension := v;
     input_feature_dimension := input_feature_dimension d;
     input_spatial_dimensions := input_spatial_dimensions d;
     kernel_input_feature_dimension := kernel_input_feature_dimension d;
     kernel_output_feature_dimension := kernel_output_feature_dimension d;
     kernel_spatial_dimensions := kernel_spatial_dimensions d;
     output_batch_dimension := output_batch_dimension d;
     output_feature_dimension := output_feature_dimension d;
     output_spatial_dimensions := output_spatial_dimensions d |}.

Definition set_input_feature_dimension (v : Z)
    (d : ConvolutionDimensionNumbers) : ConvolutionDimensionNumbers :=
  {| input_batch_dimension := input_batch_dimension d;
     input_feature_dimension := v;
     input_spatial_dimensions := input_spatial_dimensions d;
     kernel_input_feature_dimension := kernel_input_feature_dimension d;
     kernel_output_feature_dimension := kernel_output_feature_dimension d;
     kernel_spatial_dimensions := kernel_spatial_dimensions d;
     output_batch_dimension := output_batch_dimension d;
     output_feature_dimension := output_feature_dimension d;
     output_spatial_dimensions := output_spatial_dimensions d |}.

Definition with_input_spatial_dimensions (l : list Z)
    (d : ConvolutionDimensionNumbers) : ConvolutionDimensionNumbers :=
  {| input_batch_dimension := input_batch_dimension d;
     input_feature_dimension := input_feature_dimension d;
     input_spatial_dimensions := l;
     kernel_input_feature_dimension := kernel_input_feature_dimension d;
     kernel_output_feature_dimension := kernel_output_feature_dimension d;
     kernel_spatial_dimensions := kernel_spatial_dimensions d;
     output_batch_dimension := output_batch_dimension d;
     output_feature_dimension := output_feature_dimension d;
     output_spatial_dimensions := output_spatial_dimensions d |}.

Definition set_kernel_input_feature_dimension (v : Z)
    (d : ConvolutionDimensionNumbers) : ConvolutionDimensionNumbers :=
  {| input_batch_dimension := input_batch_dimension d;
     input_feature_dimension := input_feature_dimension d;
     input_spatial_dimensions := input_spatial_dimensions d;
     kernel_input_feature_dimension := v;
     kernel_output_feature_dimension := kernel_output_feature_dimension d;
     kernel_spatial_dimensions := kernel_spatial_dimensions d;
     output_batch_dimension := output_batch_dimension d;
     output_feature_dimension := output_feature_dimension d;
     output_spatial_dimensions := output_spatial_dimensions d |}.

Definition set_kernel_output_feature_dimension (v : Z)
    (d : ConvolutionDimensionNumbers) : ConvolutionDimensionNumbers :=
  {| input_batch_dimension := input_batch_dimension d;
     input_feature_dimension := input_feature_dimension d;
     input_spatial_dimensions := input_spatial_dimensions d;
     kernel_input_feature_dimension := kernel_input_feature_dimension d;
     kernel_output_feature_dimension := v;
     kernel_spatial_dimensions := kernel_spatial_dimensions d;
     output_batch_dimension := output_batch_dimension d;
     output_feature_dimension := output_feature_dimension d;
     output_spatial_dimensions := output_spatial_dimensions d |}.

Definition with_kernel_spatial_dimensions (l : list Z)
    (d : ConvolutionDimensionNumbers) : ConvolutionDimensionNumbers :=
  {| input_batch_dimension := input_batch_dimension d;
     input_feature_dimension := input_feature_dimension d;
     input_spatial_dimensions := input_spatial_dimensions d;
     kernel_input_feature_dimension := kernel_input_feature_dimension d;
     kernel_output_feature_dimension := kernel_output_feature_dimension d;
     kernel_spatial_dimensions := l;
     output_batch_dimension := output_batch_dimension d;
     output_feature_dimension := output_feature_dimension d;
     output_spatial_dimensions := output_spatial_dimensions d |}.

Definition set_output_batch_dimension (v : Z)
    (d : ConvolutionDimensionNumbers) : ConvolutionDimensionNumbers :=
  {| input_batch_dimension := input_batch_dimension d;
     input_feature_dimension := input_feature_dimension d;
     input_spatial_dimensions := input_spatial_dimensions d;
     kernel_input_feature_dimension := kernel_input_feature_dimension d;
     kernel_output_feature_dimension := kernel_output_feature_dimension d;
     kernel_spatial_dimensions := kernel_spatial_dimensions d;
     output_batch_dimension := v;
     output_feature_dimension := output_feature_dimension d;
     output_spatial_dimensions := output_spatial_dimensions d |}.

Definition set_output_feature_dimension (v : Z)
    (d : ConvolutionDimensionNumbers) : ConvolutionDimensionNumbers :=
  {| input_batch_dimension := input_batch_dimension d;
     input_feature_dimension := input_feature_dimension d;
     input_spatial_dimensions := input_spatial_dimensions d;
     kernel_input_feature_dimension := kernel_input_feature_dimension d;
     kernel_output_feature_dimension := kernel_output_feature_dimension d;
     kernel_spatial_dimensions := kernel_spatial_dimensions d;
     output_batch_dimension := output_batch_dimension d;
     output_feature_dimension := v;
     output_spatial_dimensions := output_spatial_dimensions d |}.

Definition with_output_spatial_dimensions (l : list Z)
    (d : ConvolutionDimensionNumbers) : ConvolutionDimensionNumbers :=
  {| input_batch_dimension := input_batch_dimension d;
     input_feature_dimension := input_feature_dimension d;
     input_spatial_dimensions := input_spatial_dimensions d;
     kernel_input_feature_dimension := kernel_input_feature_dimension d;
     kernel_output_feature_dimension := kernel_output_feature_dimension d;
     kernel_spatial_dimensions := kernel_spatial_dimensions d;
     output_batch_dimension := output_batch_dimension d;
     output_feature_dimension := output_feature_dimension d;
     output_spatial_dimensions := l |}.

(** [set_..._spatial_dimensions(j, v)] on a repeated field. *)
Definition set_input_spatial_dimensions (j v : Z)
    (d : ConvolutionDimensionNumbers)
  : StatusOr ConvolutionDimensionNumbers :=
  (l <- set_index (input_spatial_dimensions d) j v ;;
   OK (with_input_spatial_dimensions l d))%status.

Definition set_kernel_spatial_dimensions (j v : Z)
    (d : ConvolutionDimensionNumbers)
  : StatusOr ConvolutionDimensionNumbers :=
  (l <- set_index (kernel_spatial_dimensions d) j v ;;
   OK (with_kernel_spatial_dimensions l d))%status.

Definition set_output_spatial_dimensions (j v : Z)
    (d : ConvolutionDimensionNumbers)
  : StatusOr ConvolutionDimensionNumbers :=
  (l <- set_index (output_spatial_dimensions d) j v ;;
   OK (with_output_spatial_dimensions l d))%status.

(** The setters of a window dimension. *)
Definition set_window_padding (lo hi : Z) (w : WindowDimension)
  : WindowDimension :=
  {| size := size w; stride := stride w;
     padding_low := lo; padding_high := hi;
     window_dilation := window_dilation w;
     base_dilation := base_dilation w;
     window_reversal := window_reversal w |}.

Definition set_window_size (sz : Z) (w : WindowDimension) : WindowDimension :=
  {| size := sz; stride := stride w;
     padding_low := padding_low w; padding_high := padding_high w;
     window_dilation := window_dilation w;
     base_dilation := base_dilation w;
     window_reversal := window_reversal w |}.

(** ** Bringing the space dimension next to the batch dimension *)

(** The variables of the loop of [BringSpaceNextToBatch];
    [new_batch_dim] and [new_spatial_dim] start uninitialized. *)
Record BringSpaceLoop : Set := {
  pushed_counter : Z;
  transpose_dims : list Z;
  new_batch_dim : option Z;
  new_spatial_dim : option Z;
  new_dim_numbers : ConvolutionDimensionNumbers
}.

(** The first [j] with [i == input_spatial_dimensions(j)]. *)
Fixpoint find_spatial_dimension (i : Z) (l : list Z) (j : Z) : option Z :=
  match l with
  | [] => None
  | x :: l' => if i =? x then Some j else find_spatial_dimension i l' (j + 1)
  end.

(** [ConvolutionVisitor::BringSpaceNextToBatch]; the three reference
    parameters are returned with the activations. *)
Definition BringSpaceNextToBatch (activations : InstrId)
    (dim_numbers : ConvolutionDimensionNumbers)
    (spatial_dimension_to_split activations_batch_dim : Z)
  : State HloComputation
      (InstrId * ConvolutionDimensionNumbers * Z * Z) :=
  (r <-
     (if negb (spatial_dimension_to_split =? (activations_batch_dim + 1)%i64)
      then
        activations_shape <- shape_of activations ;;
        final <-!
          fold_status (range (rank activations_shape))
            {| pushed_counter := 0; transpose_dims := [];
               new_batch_dim := None; new_spatial_dim := None;
               new_dim_numbers := dim_numbers |}
            (fun i st =>
               if i =? activations_batch_dim then OK st
               else
                 let st :=
                   if i =? spatial_dimension_to_split then
                     {| pushed_counter := (pushed_counter st + 1)%i64;
                        transpose_dims :=
                          transpose_dims st ++ [activations_batch_dim];
                        new_batch_dim := Some (pushed_counter st);
                        new_spatial_dim :=
                          Some (pushed_counter st + 1)%i64;
                        new_dim_numbers := new_dim_numbers st |}
                   else st in
                 (numbers <-
                    (if i =? input_feature_dimension dim_numbers then
                       OK (set_input_feature_dimension (pushed_counter st)
                             (new_dim_numbers st))
                     else
                       match find_spatial_dimension i
                               (input_spatial_dimensions dim_numbers) 0 with
                       | Some j =>
                           set_input_spatial_dimensions j (pushed_counter st)
                             (new_dim_numbers st)
                       | None => OK (new_dim_numbers st)
                       end) ;;
                  OK {| pushed_counter := (pushed_counter st + 1)%i64;
                        transpose_dims := transpose_dims st ++ [i];
                        new_batch_dim := new_batch_dim st;
                        new_spatial_dim := new_spatial_dim st;
                        new_dim_numbers := numbers |})%status) ;;
        (* reading a variable that was never assigned is a failure *)
        batch_dim <-!
          match new_batch_dim final with
          | Some d => OK d
          | None => Fail CheckFailure
          end ;;
        spatial_dim <-!
          match new_spatial_dim final with
          | Some d => OK d
          | None => Fail CheckFailure
          end ;;
        activations <- MakeTransposeHlo activations (transpose_dims final) ;;
        ret (activations, new_dim_numbers final, spatial_dim, batch_dim)
      else
        ret (activations, dim_numbers, spatial_dimension_to_split,
             activations_batch_dim)) ;;
   let '(activations, numbers, spatial_dim, batch_dim) := r in
   ret (activations, set_input_batch_dimension batch_dim numbers,
        spatial_dim, batch_dim))%state.

(** ** Propagation into a convolution *)

(** [CeilOfRatio] with the check of the divisor. *)
Definition ceil_of_ratio (numerator denominator : Z) : StatusOr Z :=
  if denominator =? 0 then Fail DivisionByZero
  else OK (Int64.wrap (CeilOfRatio numerator denominator)).

(** [while (f (s) < 0) s += step;] on fuel. *)
Fixpoint while_negative (fuel : nat) (f : Z -> Z) (step s : Z) : StatusOr Z :=
  if f s <? 0 then
    match fuel with
    | O => Fail Diverges
    | S fuel' => while_negative fuel' f step (s + step)%i64
    end
  else OK s.

(** As many iterations as a loop needs that comes to its end without
    overflow: every iteration raises [f] by at least 1. *)
Definition grow_until_covered (f : Z -> Z) (step s : Z) : StatusOr Z :=
  while_negative (Z.to_nat (- f s)) f step s.

(** [dim_map[k] = v] on a [std::map]: the entries stay sorted by key. *)
Fixpoint map_assign (k v : Z) (m : list (Z * Z)) : list (Z * Z) :=
  match m with
  | [] => [(k, v)]
  | (k', v') :: m' =>
      if k <? k' then (k, v) :: m
      else if k =? k' then (k, v) :: m'
      else (k', v') :: map_assign k v m'
  end.

(** "We will generate output such that batch is followed by the split
    spatial dimension": the loop of [PerformSpaceToBatchOnConvolution] and
    of [PropagateOnConv] over the output spatial dimensions, and the
    transpose dims read off the [std::map].  It returns the new dimension
    numbers and [transpose_dims]. *)
Definition output_batch_next_to_space (convolution : HloInstruction)
    (dim_numbers new_dim_numbers : ConvolutionDimensionNumbers)
  : StatusOr (ConvolutionDimensionNumbers * list Z) :=
  let output_rank := rank (shape convolution) in
  (r <-
     fold_status
       (range (Z.of_nat (length (output_spatial_dimensions dim_numbers))))
       (0, [], new_dim_numbers)
       (fun j st =>
          let '(dim_count, dim_map, numbers) := st in
          let '(dim_count, dim_map, numbers) :=
            if j =? get_chosen_spatial_dim convolution then
              ((dim_count + 1)%i64,
               map_assign (output_batch_dimension dim_numbers) dim_count
                 dim_map,
               set_output_batch_dimension dim_count numbers)
            else (dim_count, dim_map, numbers) in
          spatial <- at_index (output_spatial_dimensions dim_numbers) j ;;
          numbers <- set_output_spatial_dimensions j dim_count numbers ;;
          OK ((dim_count + 1)%i64, map_assign spatial dim_count dim_map,
              numbers)) ;;
   let '(dim_count, dim_map, numbers) := r in
   let dim_map :=
     map_assign (output_feature_dimension dim_numbers) dim_count dim_map in
   let numbers := set_output_feature_dimension dim_count numbers in
   transpose_dims <-
     fold_status (zip (range (Z.of_nat (length dim_map))) dim_map)
       (replicate (Z.to_nat output_rank) 0)
       (fun entry dims => set_index dims (fst entry) (snd (snd entry))) ;;
   OK (numbers, transpose_dims))%status.

(** [new_window]: the window of the convolution with the padding of its
    chosen spatial dimension replaced. *)
Definition window_with_padding (convolution : HloInstruction) (lo hi : Z)
  : StatusOr (list WindowDimension) :=
  (w <- at_index (window convolution) (get_chosen_spatial_dim convolution) ;;
   set_index (window convolution) (get_chosen_spatial_dim convolution)
     (set_window_padding lo hi w))%status.

(** The low padding [PropagateOnConv] passes to the halo duplication. *)
Definition propagated_low_padding (c : ConvDetails) : Z :=
  if negb (base_dilation_factor c =? 1)
     && negb (inherent_low_padding c =? 0)
  then (base_dilation_factor c - 1)%i64
  else inherent_low_padding c.

(** [ConvolutionVisitor::PropagateOnConv]. *)
Definition PropagateOnConv (convolution : InstrId)
  : State ConvolutionVisitor unit :=
  (conv <- on_graph (deref convolution) ;;
   activations_old <-! operand conv 0 ;;
   rewritten <- old_to_new_contains activations_old ;;
   lift_status (CHECK rewritten) ;;;
   activations_new <- old_to_new_index activations_old ;;
   permute_dims <- permute_map_index activations_new ;;
   let original_conv_dims := convolution_dimension_numbers conv in
   old_space_dim <-!
     at_index (input_spatial_dimensions original_conv_dims)
       (get_chosen_spatial_dim conv) ;;
   old_shape <- on_graph (shape_of activations_old) ;;
   old_split_dim_size <-! at_index (dimensions old_shape) old_space_dim ;;
   activations_batch_dim <-!
     DimLookUp permute_dims (input_batch_dimension original_conv_dims) ;;
   activations_feature_dim <-!
     DimLookUp permute_dims (input_feature_dimension original_conv_dims) ;;
   let permuted_conv_dims_numbers :=
     set_input_feature_dimension activations_feature_dim
       (set_input_batch_dimension activations_batch_dim
          original_conv_dims) in
   permuted_conv_dims_numbers <-!
     fold_status
       (range (Z.of_nat
                 (length (input_spatial_dimensions original_conv_dims))))
       permuted_conv_dims_numbers
       (fun i numbers =>
          (spatial <-
             at_index (input_spatial_dimensions original_conv_dims) i ;;
           permuted <- DimLookUp permute_dims spatial ;;
           set_input_spatial_dimensions i permuted numbers)%status) ;;
   let old_batch_dim := input_batch_dimension original_conv_dims in
   old_batch_size <-! at_index (dimensions old_shape) old_batch_dim ;;
   computation <- gets computation_ ;;
   c <-! GetConvolutionDetails computation conv permuted_conv_dims_numbers ;;
   brought <-
     on_graph (BringSpaceNextToBatch activations_new
                 permuted_conv_dims_numbers (spatial_dimension_to_split c)
                 activations_batch_dim) ;;
   let '(activations_new, permuted_conv_dims_numbers,
         spatial_dimension_to_split, activations_batch_dim) := brought in
   new_shape <- on_graph (shape_of activations_new) ;;
   select_val <-
     on_graph (AddInstruction
                 (CreateConstant (LiteralZero (element_type new_shape)))) ;;
   activations_new <-
     on_graph (SelectValidPortion activations_new activations_old select_val
                 activations_batch_dim spatial_dimension_to_split
                 old_batch_dim old_space_dim) ;;
   (* Create the new convolution dim numbers. *)
   let new_dim_numbers := permuted_conv_dims_numbers in
   num_splits <-! div64 kNewBatchSize old_batch_size ;;
   output_spatial_dim <-!
     at_index (output_spatial_dimensions permuted_conv_dims_numbers)
       (get_chosen_spatial_dim conv) ;;
   output_offsets <-! at_index (dimensions (shape conv)) output_spatial_dim ;;
   output_offsets_per_split <-! ceil_of_ratio output_offsets num_splits ;;
   per_dilation <-!
     ceil_of_ratio output_offsets_per_split (base_dilation_factor c) ;;
   let spatial_split_size := (per_dilation * cd_stride c)%i64 in
   (* Keep increasing the split size so that overall size isn't smaller
      than the original spatial dimension. *)
   spatial_split_size <-!
     grow_until_covered
       (fun s => (s * num_splits + halo_size c - spatial_size c)%i64)
       (cd_stride c) spatial_split_size ;;
   let slice_size := (spatial_split_size + halo_size c)%i64 in
   new_shape <- on_graph (shape_of activations_new) ;;
   new_batch_size <-! at_index (dimensions new_shape) activations_batch_dim ;;
   new_space_size <-!
     at_index (dimensions new_shape) spatial_dimension_to_split ;;
   (* In the below case, we cannot use the activations directly for Halo
      Duplication. We must reshape them. *)
   activations_new <-
     (if spatial_split_size >? new_space_size then
        let new_dimensions := dimensions new_shape in
        quotient <-!
          div64 (new_space_size * new_batch_size)%i64 old_batch_size ;;
        let reshaped_space_size := quotient in
        new_dimensions <-!
          set_index new_dimensions spatial_dimension_to_split
            reshaped_space_size ;;
        new_dimensions <-!
          set_index new_dimensions activations_batch_dim old_batch_size ;;
        (* Reshape the output of the new conv into the old convolutions
           shape. *)
        reshaped_activations <-
          on_graph (MakeReshapeHlo new_dimensions activations_new) ;;
        reshaped_shape <- on_graph (shape_of reshaped_activations) ;;
        padding_config <-!
          set_edge_padding_high (MakeNoPaddingConfig (rank reshaped_shape))
            spatial_dimension_to_split
            (spatial_split_size * new_batch_size - reshaped_space_size)%i64 ;;
        padding_config <-!
          set_edge_padding_low padding_config spatial_dimension_to_split 0 ;;
        padding <-
          on_graph (AddInstruction
                      (CreateConstant
                         (LiteralZero (element_type reshaped_shape)))) ;;
        reshaped_activations <-
          on_graph (MakePadHlo reshaped_activations padding padding_config) ;;
        padded_shape <- on_graph (shape_of reshaped_activations) ;;
        reshape_back_dims <-!
          set_index (dimensions padded_shape) spatial_dimension_to_split
            spatial_split_size ;;
        reshape_back_dims <-!
          set_index reshape_back_dims activations_batch_dim new_batch_size ;;
        reshaped_activations <-
          on_graph (MakeReshapeHlo reshape_back_dims reshaped_activations) ;;
        on_graph (HaloDuplicateWithSlice reshaped_activations
                    spatial_dimension_to_split activations_batch_dim
                    old_batch_size (propagated_low_padding c)
                    (inherent_high_padding c)
                    (slice_size - spatial_split_size)%i64
                    old_split_dim_size None)
      else
        (* If the ideal spatial_split_size was smaller than the incoming
           spatial dimension size, we don't need reshaping. *)
        sizes <-!
          (if spatial_split_size <? new_space_size then
             (additional_space_present <-
                rem64 spatial_split_size (cd_stride c) ;;
              OK (new_space_size,
                  (new_space_size
                   + Z.max (kernel_spatial_dim_size c - cd_stride c
                            - additional_space_present)%i64
                           0)%i64))%status
           else OK (spatial_split_size, slice_size)) ;;
        let spatial_split_size := fst sizes in
        let slice_size := snd sizes in
        on_graph (HaloDuplicateWithSlice activations_new
                    spatial_dimension_to_split activations_batch_dim
                    old_batch_size (propagated_low_padding c)
                    (inherent_high_padding c)
                    (slice_size - spatial_split_size)%i64
                    old_split_dim_size None)) ;;
   (* We will generate output such that batch is followed by the split
      spatial dimension. *)
   layout <-!
     output_batch_next_to_space conv permuted_conv_dims_numbers
       new_dim_numbers ;;
   let new_dim_numbers := fst layout in
   let transpose_dims := snd layout in
   new_window <-!
     window_with_padding conv (low_padding_for_conv c)
       (high_padding_for_conv c) ;;
   kernel <-! operand conv 1 ;;
   new_conv <-
     on_graph (MakeConvolveHlo activations_new kernel
                 (feature_group_count conv) (batch_group_count conv)
                 new_window new_dim_numbers
                 (element_type (shape conv))) ;;
   modify (fun v =>
     set_old_to_new_instrs
       (<[convolution := new_conv]> (old_to_new_instrs_ v)) v) ;;;
   output_space_dim <-!
     at_index (output_spatial_dimensions original_conv_dims)
       (get_chosen_spatial_dim conv) ;;
   modify (fun v =>
     set_instr_to_dim_map
       (<[convolution :=
            (output_batch_dimension original_conv_dims, output_space_dim)]>
          (instr_to_dim_map_ v)) v) ;;;
   modify (fun v =>
     set_instr_to_dim_permute_map
       (<[new_conv := transpose_dims]> (instr_to_dim_permute_map_ v)) v) ;;;
   modify (fun v =>
     {| computation_ := computation_ v;
        convs_to_visit_ := convs_to_visit_ v ∖ {[ convolution ]};
        conv_visitor_list_ := conv_visitor_list_ v;
        non_propagatable_instrs_ := non_propagatable_instrs_ v;
        batch_to_space_map_ := batch_to_space_map_ v;
        old_to_new_instrs_ := old_to_new_instrs_ v;
        instr_to_dim_map_ := instr_to_dim_map_ v;
        instr_to_dim_permute_map_ := instr_to_dim_permute_map_ v;
        changed_ := changed_ v;
        limit_on_batch_size_ := limit_on_batch_size_ v |}))%state.

(** ** Propagation into a backprop filter convolution *)

(** [v.back()] and [v.erase(v.begin() + i)]. *)
Definition back {A} (v : list A) : StatusOr A :=
  match last v with
  | Some x => OK x
  | None => Fail OutOfRange
  end.

Definition erase_index {A} (v : list A) (i : Z) : StatusOr (list A) :=
  if (i <? 0) || (Z.of_nat (length v) <=? i) then Fail OutOfRange
  else OK (delete (Z.to_nat i) v).

(** A window dimension as [add_dimensions] and the setters of the source
    leave it: "a vanilla window". *)
Definition vanilla_window_dimension : WindowDimension :=
  {| size := 1; stride := 1; padding_low := 0; padding_high := 0;
     window_dilation := 1; base_dilation := 1; window_reversal := false |}.

(** [ConvolutionVisitor::PropagateOnBackpropFilterConv]. *)
Definition PropagateOnBackpropFilterConv (convolution : InstrId)
  : State ConvolutionVisitor unit :=
  (conv <- on_graph (deref convolution) ;;
   activations_old <-! operand conv 0 ;;
   rewritten <- old_to_new_contains activations_old ;;
   lift_status (CHECK rewritten) ;;;
   activations_new <- old_to_new_index activations_old ;;
   new_shape <- on_graph (shape_of activations_new) ;;
   let new_spatial_dimension := rank new_shape in
   kernel_old <-! operand conv 1 ;;
   rewritten <- old_to_new_contains kernel_old ;;
   lift_status (CHECK rewritten) ;;;
   kernel_new <- old_to_new_index kernel_old ;;
   permute_dims <- permute_map_index activations_new ;;
   let original_conv_dims := convolution_dimension_numbers conv in
   let chosen := get_chosen_spatial_dim conv in
   old_space_dim <-!
     at_index (input_spatial_dimensions original_conv_dims) chosen ;;
   old_shape <- on_graph (shape_of activations_old) ;;
   old_split_dim_size <-! at_index (dimensions old_shape) old_space_dim ;;
   old_kernel_space_dim <-!
     at_index (kernel_spatial_dimensions original_conv_dims) chosen ;;
   old_kernel_shape <- on_graph (shape_of kernel_old) ;;
   old_kernel_split_dim_size <-!
     at_index (dimensions old_kernel_shape) old_kernel_space_dim ;;
   let permuted_conv_dims_numbers := original_conv_dims in
   (* Note the inversion here : batch and feature are inverted in backprop
      filters. *)
   activations_batch_dim <-!
     DimLookUp permute_dims (input_feature_dimension original_conv_dims) ;;
   activations_feature_dim <-!
     DimLookUp permute_dims (input_batch_dimension original_conv_dims) ;;
   let previous_spatial_dim_count :=
     Z.of_nat (length (input_spatial_dimensions original_conv_dims)) in
   permuted_conv_dims_numbers <-!
     fold_status (range previous_spatial_dim_count)
       permuted_conv_dims_numbers
       (fun i numbers =>
          (spatial <-
             at_index (input_spatial_dimensions original_conv_dims) i ;;
           permuted <- DimLookUp permute_dims spatial ;;
           numbers <- set_input_spatial_dimensions i permuted numbers ;;
           kernel_spatial <-
             at_index (kernel_spatial_dimensions original_conv_dims) i ;;
           permuted <- DimLookUp permute_dims kernel_spatial ;;
           set_kernel_spatial_dimensions i permuted numbers)%status) ;;
   let permuted_conv_dims_numbers :=
     with_output_spatial_dimensions
       (output_spatial_dimensions permuted_conv_dims_numbers
        ++ [new_spatial_dimension])
       (with_kernel_spatial_dimensions
          (kernel_spatial_dimensions permuted_conv_dims_numbers
           ++ [new_spatial_dimension])
          (with_input_spatial_dimensions
             (input_spatial_dimensions permuted_conv_dims_numbers
              ++ [new_spatial_dimension])
             permuted_conv_dims_numbers)) in
   (* For the output, make the last dimension size 1. *)
   previous_chosen_spatial_dim_in_output <-!
     at_index (output_spatial_dimensions permuted_conv_dims_numbers) chosen ;;
   permuted_conv_dims_numbers <-!
     set_output_spatial_dimensions chosen new_spatial_dimension
       permuted_conv_dims_numbers ;;
   permuted_conv_dims_numbers <-!
     set_output_spatial_dimensions previous_spatial_dim_count
       previous_chosen_spatial_dim_in_output permuted_conv_dims_numbers ;;
   kernel_input_feature_dim <-!
     DimLookUp permute_dims
       (kernel_input_feature_dimension original_conv_dims) ;;
   kernel_output_feature_dim <-!
     DimLookUp permute_dims
       (kernel_output_feature_dimension original_conv_dims) ;;
   let permuted_conv_dims_numbers :=
     set_kernel_output_feature_dimension kernel_output_feature_dim
       (set_kernel_input_feature_dimension kernel_input_feature_dim
          permuted_conv_dims_numbers) in
   spatial_dimension_to_split <-!
     at_index (input_spatial_dimensions permuted_conv_dims_numbers) chosen ;;
   kernel_spatial_dimension_to_split <-!
     at_index (kernel_spatial_dimensions permuted_conv_dims_numbers) chosen ;;
   let old_batch_dim := input_feature_dimension original_conv_dims in
   old_batch_size <-! at_index (dimensions old_shape) old_batch_dim ;;
   new_split_dim_size <-!
     at_index (dimensions new_shape) spatial_dimension_to_split ;;
   let permuted_conv_dims_numbers :=
     set_input_feature_dimension activations_batch_dim
       (set_input_batch_dimension activations_feature_dim
          permuted_conv_dims_numbers) in
   brought <-
     on_graph (BringSpaceNextToBatch activations_new
                 permuted_conv_dims_numbers spatial_dimension_to_split
                 activations_batch_dim) ;;
   let '(activations_new, permuted_conv_dims_numbers,
         spatial_dimension_to_split, activations_batch_dim) := brought in
   (* Need to set batch dimension again because BringSpaceNextToBatch
      changes it. *)
   let permuted_conv_dims_numbers :=
     set_input_batch_dimension activations_feature_dim
       permuted_conv_dims_numbers in
   new_shape <- on_graph (shape_of activations_new) ;;
   select_val <-
     on_graph (AddInstruction
                 (CreateConstant (LiteralZero (element_type new_shape)))) ;;
   (* Select activations correctly by masking additional space. *)
   activations_new <-
     on_graph (SelectValidPortion activations_new activations_old select_val
                 activations_batch_dim spatial_dimension_to_split
                 old_batch_dim old_space_dim) ;;
   (* Select kernel correctly by masking additional space. *)
   kernel_new <-
     on_graph (SelectValidPortion kernel_new kernel_old select_val
                 kernel_input_feature_dim kernel_spatial_dimension_to_split
                 (kernel_input_feature_dimension original_conv_dims)
                 old_kernel_space_dim) ;;
   (* Create the new convolution dim numbers. *)
   let new_dim_numbers := permuted_conv_dims_numbers in
   chosen_window <-! at_index (window conv) chosen ;;
   let inherent_low_padding := padding_low chosen_window in
   let inherent_high_padding := padding_high chosen_window in
   let rhs_dilation := window_dilation chosen_window in
   (* Insert slices for low padding. *)
   activations_chunks <-
     for_each (range inherent_low_padding) []
       (fun i activations_chunks =>
          activations_to_use <-!
            (if i =? 0 then OK activations_new
             else back activations_chunks) ;;
          activations_slice <-
            on_graph (HaloDuplicateWithSlice activations_to_use
                        spatial_dimension_to_split activations_batch_dim
                        old_batch_size 1 0 0 old_split_dim_size None) ;;
          ret (activations_chunks ++ [activations_slice])) ;;
   let expanded_kernel :=
     (old_kernel_split_dim_size * rhs_dilation - (rhs_dilation - 1))%i64 in
   let overlap_count :=
     (old_split_dim_size - expanded_kernel + 1
      + (if inherent_low_padding <? 0 then inherent_low_padding else 0)
      + (if inherent_high_padding <? 0 then inherent_high_padding else 0)
     )%i64 in
   (* Insert original activations. *)
   activations_chunks <-
     for_each (range overlap_count) activations_chunks
       (fun i activations_chunks =>
          activations_slice <-
            (if i =? 0 then
               if inherent_low_padding <? 0 then
                 on_graph (HaloDuplicateWithSlice activations_new
                             spatial_dimension_to_split activations_batch_dim
                             old_batch_size inherent_low_padding 0 0
                             old_split_dim_size None)
               else ret activations_new
             else
               activations_to_use <-! back activations_chunks ;;
               on_graph (HaloDuplicateWithSlice activations_to_use
                           spatial_dimension_to_split activations_batch_dim
                           old_batch_size (-1) 0 0 old_split_dim_size
                           None)) ;;
          ret (activations_chunks ++ [activations_slice])) ;;
   (* Insert slices for high padding. *)
   activations_chunks <-
     for_each (range inherent_high_padding) activations_chunks
       (fun i activations_chunks =>
          activations_to_use <-! back activations_chunks ;;
          activations_slice <-
            on_graph (HaloDuplicateWithSlice activations_to_use
                        spatial_dimension_to_split activations_batch_dim
                        old_batch_size (-1) 0 0 old_split_dim_size None) ;;
          ret (activations_chunks ++ [activations_slice])) ;;
   activations_chunks <-
     for_each activations_chunks []
       (fun chunk reshaped =>
          chunk_shape <- on_graph (shape_of chunk) ;;
          (* Insert 1-sized dimension at the end *)
          let input_sizes := dimensions chunk_shape ++ [1] in
          chunk <- on_graph (MakeReshapeHlo input_sizes chunk) ;;
          ret (reshaped ++ [chunk])) ;;
   activations_new <-
     on_graph (MakeConcatHlo activations_chunks new_spatial_dimension) ;;
   (* Reshape the kernel with additional spatial dim. *)
   kernel_shape <- on_graph (shape_of kernel_new) ;;
   let kernel_sizes := dimensions kernel_shape ++ [1] in
   kernel_new <- on_graph (MakeReshapeHlo kernel_sizes kernel_new) ;;
   window_size <-! div64 new_split_dim_size rhs_dilation ;;
   new_window <-!
     set_index (window conv) chosen
       (set_window_size window_size
          (set_window_padding 0 (- (rhs_dilation - 1))%i64 chosen_window)) ;;
   (* Set the window for the additional spatial dim. This is a vanilla
      window. *)
   let new_window := new_window ++ [vanilla_window_dimension] in
   new_conv <-
     on_graph (MakeConvolveHlo activations_new kernel_new
                 (feature_group_count conv) (batch_group_count conv)
                 new_window new_dim_numbers (element_type (shape conv))) ;;
   new_conv_shape <- on_graph (shape_of new_conv) ;;
   erased_dim <-!
     at_index (output_spatial_dimensions new_dim_numbers) chosen ;;
   output_sizes <-! erase_index (dimensions new_conv_shape) erased_dim ;;
   new_conv <- on_graph (MakeReshapeHlo output_sizes new_conv) ;;
   modify (fun v =>
     set_old_to_new_instrs
       (<[convolution := new_conv]> (old_to_new_instrs_ v)) v) ;;;
   output_space_dim <-!
     at_index (output_spatial_dimensions original_conv_dims) chosen ;;
   modify (fun v =>
     set_instr_to_dim_map
       (<[convolution :=
            (output_batch_dimension original_conv_dims, output_space_dim)]>
          (instr_to_dim_map_ v)) v)
   (* We do not set instr_to_dim_permute_map_ here because no further
      propagation is needed here. *))%state.

(** ** Propagation into a consumer *)

(** [a > b] on vectors: the lexicographic order. *)
Fixpoint dims_gtb (a b : list Z) : bool :=
  match a, b with
  | [], _ => false
  | _ :: _, [] => true
  | x :: a', y :: b' =>
      if x >? y then true else if x <? y then false else dims_gtb a' b'
  end.

(** [*(instr->mutable_shape()) = s] and [*(instr->mutable_dimensions()) =
    dims] on the instruction with handle [i]. *)
Definition assign_shape (i : InstrId) (s : Shape)
  : State HloComputation unit :=
  (x <- deref i ;; modify (update_instruction i (set_shape s x)))%state.

Definition assign_dimensions (i : InstrId) (dims : list Z)
  : State HloComputation unit :=
  (x <- deref i ;; modify (update_instruction i (set_dimensions dims x)))%state.

(** The writes of a rewrite site to the tables. *)
Definition record_old_to_new (old_instr new_instr : InstrId)
  : State ConvolutionVisitor unit :=
  modify (fun v =>
    set_old_to_new_instrs (<[old_instr := new_instr]> (old_to_new_instrs_ v))
                          v).

Definition record_dim_map (old_instr : InstrId) (dims : Z * Z)
  : State ConvolutionVisitor unit :=
  modify (fun v =>
    set_instr_to_dim_map (<[old_instr := dims]> (instr_to_dim_map_ v)) v).

Definition record_permute_map (new_instr : InstrId) (permute_dims : list Z)
  : State ConvolutionVisitor unit :=
  modify (fun v =>
    set_instr_to_dim_permute_map
      (<[new_instr := permute_dims]> (instr_to_dim_permute_map_ v)) v).

(** The choice of the producer for a binary elementwise consumer: "choose
    the larger shape to be used as the producer". *)
Definition choose_producer (c : HloInstruction) (producer : InstrId)
  : State ConvolutionVisitor InstrId :=
  (operand_0 <-! operand c 0 ;;
   x0 <- on_graph (deref operand_0) ;;
   if opcode_eqb (opcode x0) kBroadcast then ret producer else
   rewritten <- old_to_new_contains operand_0 ;;
   lift_status (CHECK rewritten) ;;;
   operand_1 <-! operand c 1 ;;
   x1 <- on_graph (deref operand_1) ;;
   if opcode_eqb (opcode x1) kBroadcast then ret producer else
   rewritten <- old_to_new_contains operand_1 ;;
   lift_status (CHECK rewritten) ;;;
   new_0 <- old_to_new_index operand_0 ;;
   shape_0 <- on_graph (shape_of new_0) ;;
   new_1 <- old_to_new_index operand_1 ;;
   shape_1 <- on_graph (shape_of new_1) ;;
   if dims_gtb (dimensions shape_0) (dimensions shape_1)
   then ret operand_0
   else ret operand_1)%state.

(** The rewrite of operand [i] of an elementwise consumer. *)
Definition propagate_elementwise_operand (c : HloInstruction)
    (new_consumer producer : InstrId) (i : Z)
  : State ConvolutionVisitor unit :=
  (operand_i <-! operand c i ;;
   x <- on_graph (deref operand_i) ;;
   if opcode_eqb (opcode x) kBroadcast then
     rewritten <- old_to_new_contains producer ;;
     lift_status (CHECK rewritten) ;;;
     new_producer <- old_to_new_index producer ;;
     permute_dims <- permute_map_index new_producer ;;
     broadcast_dims <-!
       fold_status (hlo_dimensions x) []
         (fun j dims =>
            (d <- DimLookUp permute_dims j ;; OK (dims ++ [d]))%status) ;;
     broadcast_operand <-! operand x 0 ;;
     new_producer_shape <- on_graph (shape_of new_producer) ;;
     new_broadcast <-
       on_graph (MakeBroadcastHlo broadcast_operand broadcast_dims
                   (dimensions new_producer_shape)) ;;
     check_ok (on_graph (ReplaceOperandWithDifferentShape new_consumer i
                           new_broadcast))
   else
     rewritten <- old_to_new_contains operand_i ;;
     lift_status (CHECK rewritten) ;;;
     result <- dim_map_index producer ;;
     let old_batch_dim := fst result in
     let old_space_dim := snd result in
     producer_shape <- on_graph (shape_of producer) ;;
     old_batch_size <-! at_index (dimensions producer_shape) old_batch_dim ;;
     new_instr <- old_to_new_index operand_i ;;
     pivot_new_instr <- old_to_new_index producer ;;
     permute_dims <- permute_map_index new_instr ;;
     batch_dim <-! DimLookUp permute_dims old_batch_dim ;;
     space_dim <-! DimLookUp permute_dims old_space_dim ;;
     new_shape <- on_graph (shape_of new_instr) ;;
     batch_size <-! at_index (dimensions new_shape) batch_dim ;;
     pivot_shape <- on_graph (shape_of pivot_new_instr) ;;
     new_space <-! at_index (dimensions new_shape) space_dim ;;
     pivot_space <-! at_index (dimensions pivot_shape) space_dim ;;
     operand_to_use <-
       (if negb (new_space =? pivot_space) then
          (* Because we do not propagate through transposes, the batch
             should always be followed by the split space dimension. *)
          lift_status (CHECK ((batch_dim + 1)%i64 =? space_dim)) ;;;
          (* Reshape to 1D, pad to the producer's size, reshape back to
             2D. *)
          ratio <-! div64 batch_size old_batch_size ;;
          let reshaped_space := (new_space * ratio)%i64 in
          new_dimensions <-!
            set_index (dimensions new_shape) space_dim reshaped_space ;;
          new_dimensions <-!
            set_index new_dimensions batch_dim old_batch_size ;;
          reshape <- on_graph (MakeReshapeHlo new_dimensions new_instr) ;;
          pivot_space_size <-!
            div64 (pivot_space * batch_size)%i64 old_batch_size ;;
          reshaped_space <-! at_index new_dimensions space_dim ;;
          lift_status (CHECK (pivot_space_size >? reshaped_space)) ;;;
          reshape_shape <- on_graph (shape_of reshape) ;;
          padding_config <-!
            set_edge_padding_high
              (MakeNoPaddingConfig (rank reshape_shape)) space_dim
              (pivot_space_size - reshaped_space)%i64 ;;
          padding_config <-!
            set_edge_padding_low padding_config space_dim 0 ;;
          padding <-
            on_graph (AddInstruction
                        (CreateConstant
                           (LiteralZero (element_type reshape_shape)))) ;;
          padded_operand <-
            on_graph (MakePadHlo reshape padding padding_config) ;;
          on_graph (MakeReshapeHlo (dimensions pivot_shape) padded_operand)
        else old_to_new_index operand_i) ;;
     check_ok (on_graph (ReplaceOperandWithDifferentShape new_consumer i
                           operand_to_use)))%state.

(** The rewrite of an elementwise consumer. *)
Definition propagate_elementwise (consumer producer : InstrId)
    (c : HloInstruction) : State ConvolutionVisitor bool :=
  (dim_map_val <- dim_map_index producer ;;
   new_consumer <- on_graph (CloneInstruction consumer) ;;
   producer <-
     (if IsElementwiseBinary c then choose_producer c producer
      else ret producer) ;;
   for_each (range (operand_count c)) tt
     (fun i _ => propagate_elementwise_operand c new_consumer producer i) ;;;
   new_consumer_shape <- on_graph (shape_of new_consumer) ;;
   let old_type := element_type new_consumer_shape in
   new_producer <- old_to_new_index producer ;;
   new_producer_shape <- on_graph (shape_of new_producer) ;;
   (* The element type needs to be retained. *)
   on_graph (assign_shape new_consumer
               {| element_type := old_type;
                  dimensions := dimensions new_producer_shape |}) ;;;
   record_old_to_new consumer new_consumer ;;;
   record_dim_map consumer dim_map_val ;;;
   new_producer <- old_to_new_index producer ;;
   known <- permute_map_contains new_producer ;;
   lift_status (CHECK known) ;;;
   permute_dims <- permute_map_index new_producer ;;
   record_permute_map new_consumer permute_dims ;;;
   ret true)%state.

(** The rewrite of a reduce. *)
Definition propagate_reduce (consumer : InstrId) (c : HloInstruction)
  : State ConvolutionVisitor bool :=
  (new_consumer <- on_graph (CloneInstruction consumer) ;;
   operand_0 <-! operand c 0 ;;
   first_operand <- old_to_new_index operand_0 ;;
   dim_map_val <- dim_map_index operand_0 ;;
   let old_batch_dim := fst dim_map_val in
   let old_space_dim := snd dim_map_val in
   permute_dims <- permute_map_index first_operand ;;
   new_batch_dim <-! DimLookUp permute_dims old_batch_dim ;;
   new_space_dim <-! DimLookUp permute_dims old_space_dim ;;
   operand_1 <-! operand c 1 ;;
   first_operand <-
     on_graph (SelectValidPortion first_operand operand_0 operand_1
                 new_batch_dim new_space_dim old_batch_dim old_space_dim) ;;
   changed_dims <-!
     fold_status (hlo_dimensions c) []
       (fun d dims =>
          (d' <- DimLookUp permute_dims d ;; OK (dims ++ [d']))%status) ;;
   on_graph (assign_dimensions new_consumer changed_dims) ;;;
   (* Replace operand 0. *)
   check_ok (on_graph (ReplaceOperandWithDifferentShape new_consumer 0
                         first_operand)) ;;;
   (* We do not set instr_to_dim_permute_map_ here because no further
      propagation is needed here. *)
   record_old_to_new consumer new_consumer ;;;
   record_dim_map consumer dim_map_val ;;;
   (* Since the resultant ordering of dimension is the same as before, no
      further propagation is needed. *)
   ret false)%state.

(** The bitmap of the select-and-scatter rewrite: bit [k] is set iff its
    batch index is below 1 or its space index at least [halo_size]. *)
Definition fill_boundary_mask (batch_size extent halo_size : Z)
  : StatusOr (list bool) :=
  let n := (batch_size * extent)%i64 in
  fold_status (range n) (replicate (Z.to_nat n) false)
    (fun k b =>
       (space_index <- rem64 k extent ;;
        batch_index <- div64 k extent ;;
        if (batch_index <? 1) || (space_index >=? halo_size)
        then OK (<[Z.to_nat k := true]> b)
        else OK (<[Z.to_nat k := false]> b))%status).

(** "If the window size was larger than the stride, there could be
    overlaps. Such cases require updates from both overlaps to be
    applied." *)
Definition reconcile_overlaps (new_consumer init_val : InstrId)
    (new_batch_dim new_space_dim new_space_size halo_size : Z)
  : State HloComputation InstrId :=
  (consumer_shape <- shape_of new_consumer ;;
   let consumer_rank := rank consumer_shape in
   batch_size <-! at_index (dimensions consumer_shape) new_batch_dim ;;
   let start_indices := replicate (Z.to_nat consumer_rank) 0 in
   let end_indices := dimensions consumer_shape in
   let strides := replicate (Z.to_nat consumer_rank) 1 in
   start_indices <-! set_index start_indices new_space_dim new_space_size ;;
   end_indices <-!
     set_index end_indices new_space_dim (new_space_size + halo_size)%i64 ;;
   end_indices <-! set_index end_indices new_batch_dim (batch_size - 1)%i64 ;;
   (* This is the slice from halo padding. *)
   bottom <- MakeSliceHlo new_consumer start_indices end_indices strides ;;
   let start_indices_top := replicate (Z.to_nat consumer_rank) 0 in
   let end_indices_top := dimensions consumer_shape in
   end_indices_top <-! set_index end_indices_top new_space_dim halo_size ;;
   (* The first batch has correct data. *)
   start_indices_top <-! set_index start_indices_top new_batch_dim 1 ;;
   (* This is the original area from where halo pad was extracted. *)
   top <- MakeSliceHlo new_consumer start_indices_top end_indices_top
            strides ;;
   top_shape <- shape_of top ;;
   default_fill <- MakeBroadcastHlo init_val [] (dimensions top_shape) ;;
   (* Compare to see if the bottom area was changed. *)
   bottom_compare <- MakeCompareHlo kNe bottom default_fill ;;
   (* Take out only the changed values. *)
   bottom_taken <- MakeSelectHlo bottom_compare bottom default_fill ;;
   (* Compare to see if the top area was changed. *)
   top_compare <- MakeCompareHlo kNe top default_fill ;;
   (* Take out only the changed values. *)
   top_taken <- MakeSelectHlo top_compare top bottom_taken ;;
   (* This makes checks if the area was updated by both overlaps. *)
   both_compare <- MakeBinaryHlo kAnd top_compare bottom_compare ;;
   (* If it was, add them up. *)
   both_added <- MakeBinaryHlo kAdd top bottom ;;
   (* Pad the final result to the original shape. *)
   final_selection <- MakeSelectHlo both_compare both_added top_taken ;;
   final_shape <- shape_of final_selection ;;
   padding_config <-!
     set_edge_padding_low (MakeNoPaddingConfig (rank final_shape))
       new_batch_dim 1 ;;
   padding_config <-!
     set_edge_padding_high padding_config new_space_dim new_space_size ;;
   padding <-
     AddInstruction (CreateConstant (LiteralZero (element_type final_shape))) ;;
   final_selection <- MakePadHlo final_selection padding padding_config ;;
   b <-! fill_boundary_mask batch_size (new_space_size + halo_size)%i64
           halo_size ;;
   slice_mask <- AddInstruction (CreateConstant (LiteralR1 b)) ;;
   let slice_mask_reshape_dims :=
     [batch_size; (new_space_size + halo_size)%i64] in
   slice_mask_reshaped <- MakeReshapeHlo slice_mask_reshape_dims slice_mask ;;
   (* Broadcast the mask in all dimensions. *)
   final_shape <- shape_of final_selection ;;
   shape_mask <-
     MakeBroadcastHlo slice_mask_reshaped [new_batch_dim; new_space_dim]
       (dimensions final_shape) ;;
   MakeSelectHlo shape_mask new_consumer final_selection)%state.

(** The window of the rewritten reduce-window or select-and-scatter. *)
Definition permuted_window (c : HloInstruction) (permute_dims : list Z)
    (old_space_dim : Z) : StatusOr (list WindowDimension) :=
  fold_status (range (Z.of_nat (length (window c)))) []
    (fun i new_win =>
       (dim <- DimLookUp permute_dims i ;;
        w <- at_index (window c) dim ;;
        OK (new_win
            ++ [ {| size := size w; stride := stride w;
                    padding_low :=
                      if i =? old_space_dim then 0 else padding_low w;
                    padding_high :=
                      if i =? old_space_dim then 0 else padding_high w;
                    window_dilation := window_dilation w;
                    base_dilation := base_dilation w;
                    window_reversal := window_reversal w |} ]))%status).

(** The rewrite of a reduce-window or select-and-scatter. *)
Definition propagate_windowed (consumer : InstrId) (c : HloInstruction)
  : State ConvolutionVisitor bool :=
  (let is_select_and_scatter := opcode_eqb (opcode c) kSelectAndScatter in
   operand_0 <-! operand c 0 ;;
   first_operand <- old_to_new_index operand_0 ;;
   init_val <-! operand c (if is_select_and_scatter then 2 else 1) ;;
   dim_map_val <- dim_map_index operand_0 ;;
   let old_batch_dim := fst dim_map_val in
   let old_space_dim := snd dim_map_val in
   permute_dims <- permute_map_index first_operand ;;
   new_batch_dim <-! DimLookUp permute_dims old_batch_dim ;;
   new_space_dim <-! DimLookUp permute_dims old_space_dim ;;
   first_operand <-
     on_graph (SelectValidPortion first_operand operand_0 init_val
                 new_batch_dim new_space_dim old_batch_dim old_space_dim) ;;
   (* Calculate the required halo size *)
   new_shape <- on_graph (shape_of first_operand) ;;
   new_batch_size <-! at_index (dimensions new_shape) new_batch_dim ;;
   new_space_size <-! at_index (dimensions new_shape) new_space_dim ;;
   space_window <-! at_index (window c) old_space_dim ;;
   let stride := stride space_window in
   let window_size := size space_window in
   steps <-! div64 (new_space_size - 1)%i64 stride ;;
   let last_overlap_point := (steps * stride)%i64 in
   let halo_size :=
     (last_overlap_point + window_size - new_space_size)%i64 in
   first_operand <-
     (if halo_size >? 0 then
        on_graph (HaloDuplicateWithSlice first_operand new_space_dim
                    new_batch_dim new_batch_size 0 0 halo_size
                    new_space_size (Some init_val))
      else ret first_operand) ;;
   new_win <-! permuted_window c permute_dims old_space_dim ;;
   new_shape <- on_graph (shape_of first_operand) ;;
   init_shape <- on_graph (shape_of init_val) ;;
   new_consumer <-
     (if is_select_and_scatter then
        operand_1 <-! operand c 1 ;;
        second_operand <- old_to_new_index operand_1 ;;
        second_shape <- on_graph (shape_of second_operand) ;;
        new_select_and_scatter_shape <-!
          InferSelectAndScatterShape new_shape new_win second_shape
            init_shape ;;
        new_consumer <-
          on_graph (AddInstruction
                      (CreateSelectAndScatter new_select_and_scatter_shape
                         first_operand (to_apply c) new_win second_operand
                         init_val (scatter c))) ;;
        (* Replace operand 0. *)
        check_ok (on_graph (ReplaceOperandWithDifferentShape new_consumer 0
                              first_operand)) ;;;
        (* Replace operand 1. *)
        check_ok (on_graph (ReplaceOperandWithDifferentShape new_consumer 1
                              second_operand)) ;;;
        new_consumer <-
          (if halo_size >? 0 then
             on_graph (reconcile_overlaps new_consumer init_val
                         new_batch_dim new_space_dim new_space_size
                         halo_size)
           else ret new_consumer) ;;
        previous <- old_to_new_index operand_0 ;;
        previous_shape <- on_graph (shape_of previous) ;;
        let start_indices := replicate (Z.to_nat (rank previous_shape)) 0 in
        let end_indices := dimensions previous_shape in
        let strides := replicate (Z.to_nat (rank previous_shape)) 1 in
        on_graph (MakeSliceHlo new_consumer start_indices end_indices
                    strides)
      else
        new_reduce_window_shape <-!
          InferReduceWindowShape new_shape init_shape new_win ;;
        new_consumer <-
          on_graph (AddInstruction
                      (CreateReduceWindow new_reduce_window_shape
                         first_operand init_val new_win (to_apply c))) ;;
        (* Replace operand 0. *)
        check_ok (on_graph (ReplaceOperandWithDifferentShape new_consumer 0
                              first_operand)) ;;;
        ret new_consumer) ;;
   record_old_to_new consumer new_consumer ;;;
   record_dim_map consumer dim_map_val ;;;
   previous <- old_to_new_index operand_0 ;;
   permute_dims <- permute_map_index previous ;;
   record_permute_map new_consumer permute_dims ;;;
   ret true)%state.

(** [ConvolutionVisitor::Propagate]: propagates space-to-batch on the op,
    and returns a bool that indicates if the users of the op need to be
    propagated through. *)
Definition Propagate (consumer producer : InstrId)
  : State ConvolutionVisitor bool :=
  (c <- on_graph (deref consumer) ;;
   if IsTrivialElementwise c then propagate_elementwise consumer producer c
   else if opcode_eqb (opcode c) kConvolution then
     limit <- gets limit_on_batch_size_ ;;
     computation <- gets computation_ ;;
     suitable <-! IsConvSuitableForSpaceToBatch limit computation c ;;
     if suitable then
       check_ok (PropagateOnConv consumer) ;;; ret true
     else
       check_ok (PropagateOnBackpropFilterConv consumer) ;;; ret false
   else if opcode_eqb (opcode c) kReduce then propagate_reduce consumer c
   else if opcode_eqb (opcode c) kReduceWindow
           || opcode_eqb (opcode c) kSelectAndScatter
   then propagate_windowed consumer c
   else
     (* Trying to propagate through an unsupported instruction *)
     lift_status (Fail CheckFailure))%state.

(** ** Back to space *)

Definition record_batch_to_space (old_instr new_instr : InstrId)
  : State ConvolutionVisitor unit :=
  modify (fun v =>
    set_batch_to_space_map
      (<[old_instr := new_instr]> (batch_to_space_map_ v)) v).

(** [ConvolutionVisitor::BatchToSpace]: converts the spaced-to-batch shape
    back to the original. *)
Definition BatchToSpace (old_instr : InstrId)
  : State ConvolutionVisitor InstrId :=
  (cached <- gets (fun v => batch_to_space_map_ v !! old_instr) ;;
   match cached with
   | Some batch_to_space => ret batch_to_space
   | None =>
     result <- dim_map_index old_instr ;;
     let old_batch_dim := fst result in
     let old_space_dim := snd result in
     old_shape <- on_graph (shape_of old_instr) ;;
     old_batch_size <-! at_index (dimensions old_shape) old_batch_dim ;;
     rewritten <- old_to_new_contains old_instr ;;
     lift_status (CHECK rewritten) ;;;
     new_instr <- old_to_new_index old_instr ;;
     known <- permute_map_contains new_instr ;;
     lift_status (CHECK known) ;;;
     permute_dims <- permute_map_index new_instr ;;
     batch_dim <-! DimLookUp permute_dims old_batch_dim ;;
     space_dim <-! DimLookUp permute_dims old_space_dim ;;
     new_shape <- on_graph (shape_of new_instr) ;;
     batch_size <-! at_index (dimensions new_shape) batch_dim ;;
     let new_dimensions := dimensions new_shape in
     space_size <-! at_index new_dimensions space_dim ;;
     ratio <-! div64 batch_size old_batch_size ;;
     new_dimensions <-!
       set_index new_dimensions space_dim (space_size * ratio)%i64 ;;
     new_dimensions <-! set_index new_dimensions batch_dim old_batch_size ;;
     (* Reshape the output of the new conv into the old convolutions
        shape. *)
     reshape <- on_graph (MakeReshapeHlo new_dimensions new_instr) ;;
     let old_rank := rank old_shape in
     let start_indices := replicate (Z.to_nat old_rank) 0 in
     let strides := replicate (Z.to_nat old_rank) 1 in
     old_space_size <-! at_index (dimensions old_shape) old_space_dim ;;
     end_indices <-! set_index new_dimensions space_dim old_space_size ;;
     (* This slicing is getting rid of the padding we added to evenly
        divide space. *)
     output_slice <-
       on_graph (MakeSliceHlo reshape start_indices end_indices strides) ;;
     let transpose_dims := permute_dims in
     output_transpose <-
       on_graph (MakeTransposeHlo output_slice transpose_dims) ;;
     record_batch_to_space old_instr output_transpose ;;;
     ret output_transpose
   end)%state.

(** ** Propagation on the users *)

(** [non_propagatable_instrs_.erase(i)] and [.insert(i)]. *)
Definition erase_non_propagatable (i : InstrId)
  : State ConvolutionVisitor unit :=
  modify (fun v =>
    set_non_propagatable_instrs (non_propagatable_instrs_ v ∖ {[ i ]}) v).

Definition insert_non_propagatable (i : InstrId)
  : State ConvolutionVisitor unit :=
  modify (fun v =>
    set_non_propagatable_instrs (non_propagatable_instrs_ v ∪ {[ i ]}) v).

(** The body of the loop of [PropagateOnUsers] over the users of [node]:
    an unsupported user gets the batch-to-space of [node] in the place of
    [node]; a supported user is enqueued when it is ready, and marked as
    non-propagatable when not. *)
Definition propagate_to_user (node user : InstrId)
    (propagation_worklist : list (InstrId * InstrId))
  : State ConvolutionVisitor (list (InstrId * InstrId)) :=
  (supported <- SupportedOpForPropagation user node ;;
   if negb supported then
     batch_to_space <- BatchToSpace node ;;
     u <- on_graph (deref user) ;;
     for_each (range (operand_count u)) tt
       (fun i _ =>
          u <- on_graph (deref user) ;;
          operand_i <-! operand u i ;;
          if (operand_i =? node)%nat
          then check_ok (on_graph (ReplaceOperandWith user i batch_to_space))
          else ret tt) ;;;
     ret propagation_worklist
   else
     (* If the instruction is ready for propagation, add it to the
        queue. *)
     ready <- CanPropagate user node ;;
     if ready then
       erase_non_propagatable user ;;;
       ret (propagation_worklist ++ [(user, node)])
     else
       (* Mark it as non-propagatable for now, for later revisiting. *)
       insert_non_propagatable user ;;;
       ret propagation_worklist)%state.

(** The [while] loop of [PropagateOnUsers] over the worklist, on fuel. *)
Fixpoint propagation_loop (fuel : nat)
    (propagation_worklist : list (InstrId * InstrId))
    (iteration_count : Z) : State ConvolutionVisitor unit :=
  match propagation_worklist with
  | [] => ret tt
  | (node, parent) :: propagation_worklist =>
    match fuel with
    | O => lift_status (Fail Diverges)
    | S fuel =>
      (rewritten <- old_to_new_contains node ;;
       (* Don't work on the same node again. *)
       if rewritten && negb (iteration_count =? 0)
       then propagation_loop fuel propagation_worklist iteration_count
       else
       needs_further_propagation <-
         (if negb (iteration_count =? 0)
          then
            (* Do the space-to-batch propagation on this node. *)
            Propagate node parent
          else ret true) ;;
       let iteration_count := (iteration_count + 1)%i64 in
       root <- gets (fun v => root_instruction (computation_ v)) ;;
       (* If this is the root, no room for further propagation. *)
       if (root =? node)%nat then
         (* The below case does not need going back to space. *)
         if negb needs_further_propagation then
           new_node <- old_to_new_index node ;;
           check_ok (on_graph (ReplaceInstruction node new_node)) ;;;
           propagation_loop fuel propagation_worklist iteration_count
         else
           batch_to_space <- BatchToSpace node ;;
           check_ok (on_graph (ReplaceInstruction node batch_to_space)) ;;;
           propagation_loop fuel propagation_worklist iteration_count
       else
         if negb needs_further_propagation then
           new_node <- old_to_new_index node ;;
           check_ok (on_graph (ReplaceInstruction node new_node)) ;;;
           propagation_loop fuel propagation_worklist iteration_count
         else
           (* Insert all users into the queue, as long as the ops are
              supported and the op is ready for propagation. *)
           node_users <- gets (fun v => users (computation_ v) node) ;;
           propagation_worklist <-
             for_each node_users propagation_worklist
               (propagate_to_user node) ;;
           propagation_loop fuel propagation_worklist iteration_count)%state
    end
  end.

(** [ConvolutionVisitor::PropagateOnUsers]: once a convolution has been
    space-to-batch'ed, this function will transitively propagate the
    space-to-batch-ness on rest of the graph. *)
Definition PropagateOnUsers (fuel : nat) (old_conv : InstrId)
  : State ConvolutionVisitor unit :=
  (count <- gets (fun v => user_count (computation_ v) old_conv) ;;
   if count =? 0 then
     batch_to_space <- BatchToSpace old_conv ;;
     check_ok (on_graph (ReplaceInstruction old_conv batch_to_space)) ;;;
     ret tt
   else
     conv <- on_graph (deref old_conv) ;;
     operand_0 <-! operand conv 0 ;;
     propagation_loop fuel [(old_conv, operand_0)] 0)%state.

(** ** The rewrite of a convolution and the pass *)

(** [ConvolutionVisitor::DoesConvolutionFeedReduceWindow]: the first
    reduce-window found among the users, searched to a depth. *)
Fixpoint DoesConvolutionFeedReduceWindow (depth : nat) (c : HloComputation)
    (i : InstrId) : option InstrId :=
  match depth with
  | O => None
  | S depth' =>
      (fix search (us : list InstrId) : option InstrId :=
         match us with
         | [] => None
         | user :: us' =>
             match instructions c !! user with
             | None => search us'
             | Some u =>
                 if opcode_eqb (opcode u) kReduceWindow then Some user
                 (* Stop the search if these ops are encountered. *)
                 else if opcode_eqb (opcode u) kConvolution
                         || opcode_eqb (opcode u) kPad
                         || opcode_eqb (opcode u) kTranspose
                 then search us'
                 else
                   match DoesConvolutionFeedReduceWindow depth' c user with
                   | Some r => Some r
                   | None => search us'
                   end
             end
         end) (users c i)
  end.

(** [while ((s / stride) % red_win_stride != 0) s += stride;] on fuel. *)
Fixpoint while_misaligned (fuel : nat) (stride red_win_stride s : Z)
  : StatusOr Z :=
  (q <- div64 s stride ;;
   r <- rem64 q red_win_stride ;;
   if negb (r =? 0) then
     match fuel with
     | O => Fail Diverges
     | S fuel' =>
         while_misaligned fuel' stride red_win_stride (s + stride)%i64
     end
   else OK s)%status.

(** The first part of
    [ConvolutionVisitor::PerformSpaceToBatchOnConvolution], up to the
    entries of the tables for the convolution: the convolution is
    rewritten with a larger batch. *)
Definition space_to_batch_convolution (convolution : InstrId)
  : State ConvolutionVisitor unit :=
  (modify (set_changed false) ;;;
   conv <- on_graph (deref convolution) ;;
   let dim_numbers := convolution_dimension_numbers conv in
   computation <- gets computation_ ;;
   c <-! GetConvolutionDetails computation conv dim_numbers ;;
   let activations_batch_dim := input_batch_dimension dim_numbers in
   activations <-! operand conv 0 ;;
   activations_shape <- on_graph (shape_of activations) ;;
   old_batch_size <-!
     at_index (dimensions activations_shape) activations_batch_dim ;;
   let inherent_padding_needed :=
     negb (inherent_low_padding c =? 0)
     || negb (inherent_high_padding c =? 0) in
   num_splits <-! div64 kNewBatchSize old_batch_size ;;
   let original_conv := convolution in
   (* We'd need transposition of activations here such that batch and
      space dim that is being split are adjacent (in that order). *)
   brought <-
     on_graph (BringSpaceNextToBatch activations dim_numbers
                 (spatial_dimension_to_split c) activations_batch_dim) ;;
   let '(activations, dim_numbers, spatial_dimension_to_split,
         activations_batch_dim) := brought in
   (* Create the new convolution dim numbers. *)
   let new_dim_numbers := dim_numbers in
   output_spatial_dim <-!
     at_index (output_spatial_dimensions dim_numbers)
       (get_chosen_spatial_dim conv) ;;
   output_offsets <-! at_index (dimensions (shape conv)) output_spatial_dim ;;
   output_offsets_per_split <-! ceil_of_ratio output_offsets num_splits ;;
   per_dilation <-!
     ceil_of_ratio output_offsets_per_split (base_dilation_factor c) ;;
   let spatial_split_size := (per_dilation * cd_stride c)%i64 in
   (* Keep increasing the split size so that overall size isn't smaller
      than the original spatial dimension. *)
   spatial_split_size <-!
     grow_until_covered
       (fun s => (s * num_splits - spatial_size c)%i64)
       (cd_stride c) spatial_split_size ;;
   computation <- gets computation_ ;;
   spatial_split_size <-!
     match DoesConvolutionFeedReduceWindow kReduceWindowSearchDepth
             computation convolution with
     | Some reduce_window =>
         (* Take into account the stride of the reduce window while
            choosing the spatial_split_size. *)
         (rw <- instr computation reduce_window ;;
          rw_window <- at_index (window rw) output_spatial_dim ;;
          let red_win_stride := stride rw_window in
          while_misaligned (Z.to_nat (Z.abs red_win_stride)) (cd_stride c)
            red_win_stride spatial_split_size)%status
     | None => OK spatial_split_size
     end ;;
   let slice_size := (spatial_split_size + halo_size c)%i64 in
   (* Pad spatial dim. *)
   let pad_size := (spatial_split_size * num_splits - spatial_size c)%i64 in
   (* Because we are splitting the spatial dimension, if convolution
      needed padding in the spatial dimension, we materialize it. *)
   activations <-
     (if negb (pad_size =? 0) || inherent_padding_needed then
        activations_shape <- on_graph (shape_of activations) ;;
        padding_config <-!
          set_edge_padding_high
            (MakeNoPaddingConfig (rank activations_shape))
            spatial_dimension_to_split
            (inherent_high_padding c + pad_size)%i64 ;;
        padding_config <-!
          set_edge_padding_low padding_config spatial_dimension_to_split
            (if base_dilation_factor c =? 1 then inherent_low_padding c
             else 0) ;;
        padding <-
          on_graph (AddInstruction
                      (CreateConstant
                         (LiteralZero (element_type activations_shape)))) ;;
        on_graph (MakePadHlo activations padding padding_config)
      else ret activations) ;;
   (* Now we reorganize the activations. *)
   activations_shape <- on_graph (shape_of activations) ;;
   reshape_dimensions <-!
     set_index (dimensions activations_shape) spatial_dimension_to_split
       spatial_split_size ;;
   reshape_dimensions <-!
     set_index reshape_dimensions activations_batch_dim
       (num_splits * old_batch_size)%i64 ;;
   batch_increased_reshape <-
     on_graph (MakeReshapeHlo reshape_dimensions activations) ;;
   activations <-
     on_graph (HaloDuplicateWithSlice batch_increased_reshape
                 spatial_dimension_to_split activations_batch_dim
                 old_batch_size 0 0 (halo_size c) (input_dim_size c) None) ;;
   (* Now, we rewrite the convolution with a larger batch. *)
   (* We will generate output such that batch is followed by the split
      spatial dimension. *)
   layout <-! output_batch_next_to_space conv dim_numbers new_dim_numbers ;;
   let new_dim_numbers := fst layout in
   let transpose_dims := snd layout in
   new_window <-!
     window_with_padding conv (low_padding_for_conv c)
       (high_padding_for_conv c) ;;
   kernel <-! operand conv 1 ;;
   new_conv <-
     on_graph (MakeConvolveHlo activations kernel
                 (feature_group_count conv) (batch_group_count conv)
                 new_window new_dim_numbers (element_type (shape conv))) ;;
   output_split_spatial_dim <-!
     at_index (output_spatial_dimensions new_dim_numbers)
       (get_chosen_spatial_dim conv) ;;
   let output_batch_dim := output_batch_dimension new_dim_numbers in
   new_conv_shape <- on_graph (shape_of new_conv) ;;
   select_val <-
     on_graph (AddInstruction
                 (CreateConstant
                    (LiteralZero (element_type new_conv_shape)))) ;;
   old_output_spatial_dim <-!
     at_index (output_spatial_dimensions dim_numbers)
       (get_chosen_spatial_dim conv) ;;
   new_conv <-
     on_graph (SelectValidPortion new_conv original_conv select_val
                 output_batch_dim output_split_spatial_dim
                 (output_batch_dimension dim_numbers)
                 old_output_spatial_dim) ;;
   record_old_to_new original_conv new_conv ;;;
   record_dim_map original_conv
     (output_batch_dimension dim_numbers, old_output_spatial_dim) ;;;
   record_permute_map new_conv transpose_dims)%state.

(** [ConvolutionVisitor::PerformSpaceToBatchOnConvolution]: top-level
    function to begin space-to-batch conversion. *)
Definition PerformSpaceToBatchOnConvolution (fuel : nat)
    (convolution : InstrId) : State ConvolutionVisitor unit :=
  (space_to_batch_convolution convolution ;;;
   check_ok (PropagateOnUsers fuel convolution) ;;;
   modify (set_changed true))%state.

(** The instructions of the computation that are in a set, in the order of
    the arena. *)
Definition members_in_order (s : gset nat) (c : HloComputation)
  : list InstrId :=
  List.filter (fun i => bool_decide (i ∈ s)) (seq 0 (length (instructions c))).

(** The clean-up of [Run] for an instruction that could not be propagated
    through: its rewritten operands are turned from batch to space. *)
Definition restore_operands (i : InstrId) : State ConvolutionVisitor unit :=
  (x <- on_graph (deref i) ;;
   operand_map <-
     for_each (range (operand_count x)) []
       (fun k operand_map =>
          operand_k <-! operand x k ;;
          rewritten <- old_to_new_contains operand_k ;;
          if rewritten then
            batch_to_space <- BatchToSpace operand_k ;;
            ret (operand_map ++ [(k, batch_to_space)])
          else ret operand_map) ;;
   for_each operand_map tt
     (fun entry _ =>
        check_ok (on_graph (ReplaceOperandWith i (fst entry) (snd entry)))))%state.

(** [ConvolutionVisitor::Run]: runs the visitor on a computation. *)
Definition Run (fuel : nat) : State ConvolutionVisitor bool :=
  (convs <- gets conv_visitor_list_ ;;
   for_each convs tt
     (fun conv _ =>
        to_visit <- gets (fun v => bool_decide (conv ∈ convs_to_visit_ v)) ;;
        if to_visit
        then check_ok (PerformSpaceToBatchOnConvolution fuel conv)
        else ret tt) ;;;
   modify (fun v =>
     {| computation_ := computation_ v;
        convs_to_visit_ := ∅;
        conv_visitor_list_ := [];
        non_propagatable_instrs_ := non_propagatable_instrs_ v;
        batch_to_space_map_ := batch_to_space_map_ v;
        old_to_new_instrs_ := old_to_new_instrs_ v;
        instr_to_dim_map_ := instr_to_dim_map_ v;
        instr_to_dim_permute_map_ := instr_to_dim_permute_map_ v;
        changed_ := changed_ v;
        limit_on_batch_size_ := limit_on_batch_size_ v |}) ;;;
   (* Iterate through all instructions that we could not propagate
      through, and turn their operands from batch-to-space as needed. *)
   pending <-
     gets (fun v =>
             members_in_order (non_propagatable_instrs_ v)
                              (computation_ v)) ;;
   for_each pending tt (fun i _ => restore_operands i) ;;;
   modify (set_non_propagatable_instrs ∅) ;;;
   gets changed_)%state.

(** The constructor of [ConvolutionVisitor]: the convolutions of the
    computation that pass the legality checks are to be visited. *)
Definition make_visitor (limit_on_batch_size : Z)
    (computation : HloComputation) : StatusOr ConvolutionVisitor :=
  fold_status (seq 0 (length (instructions computation)))
    (new_visitor limit_on_batch_size computation)
    (fun i v =>
       (inst <- instr computation i ;;
        if negb (opcode_eqb (opcode inst) kConvolution) then OK v else
        (* Perform legality checks. *)
        suitable <-
          IsConvSuitableForSpaceToBatch limit_on_batch_size computation inst ;;
        if negb suitable then OK v
        else
          OK {| computation_ := computation_ v;
                convs_to_visit_ := convs_to_visit_ v ∪ {[ i ]};
                conv_visitor_list_ := conv_visitor_list_ v ++ [i];
                non_propagatable_instrs_ := non_propagatable_instrs_ v;
                batch_to_space_map_ := batch_to_space_map_ v;
                old_to_new_instrs_ := old_to_new_instrs_ v;
                instr_to_dim_map_ := instr_to_dim_map_ v;
                instr_to_dim_permute_map_ := instr_to_dim_permute_map_ v;
                changed_ := changed_ v;
                limit_on_batch_size_ := limit_on_batch_size_ v |})%status).

(** The body of the loop of [ConvolutionSpaceToBatchConverter::Run] for
    one computation: a visitor is made and run; the flag says whether a
    convolution was rewritten. *)
Definition run_visitor (limit_on_batch_size : Z) (fuel : nat)
    (computation : HloComputation) : StatusOr (bool * ConvolutionVisitor) :=
  (visitor <- make_visitor limit_on_batch_size computation ;;
   Run fuel visitor)%status.

(** ** Example computations *)

(** The convolution of scenario (a), feeding operand 1 of a variadic reduce
    over the batch and space dimensions; operand 0 of the reduce is a
    parameter (3) that no convolution feeds. *)
Definition example_variadic_reduce : HloComputation :=
  {| instructions :=
       [ make_instruction kParameter (f32 [2; 16; 3]) [];
         make_instruction kParameter (f32 [3; 3; 4]) [];
         example_convolution;
         make_instruction kParameter (f32 [2; 14; 4]) [];
         CreateConstant (LiteralZero F32);
         set_dimensions [0; 1]
           (make_instruction kReduce (f32 [4])
              [3%nat; 2%nat; 4%nat; 4%nat]) ];
     root_instruction := 5%nat |}.

(** Scenario (e) of section 8 of the specification: the convolution of
    scenario (a) feeds a transpose (3), which the propagation does not
    support, and a negation (4). *)
Definition example_unsupported_user : HloComputation :=
  {| instructions :=
       [ make_instruction kParameter (f32 [2; 16; 3]) [];
         make_instruction kParameter (f32 [3; 3; 4]) [];
         example_convolution;
         make_instruction kTranspose (f32 [14; 2; 4]) [2%nat];
         make_instruction kNegate (f32 [2; 14; 4]) [2%nat];
         make_instruction kTuple (f32 []) [3%nat; 4%nat] ];
     root_instruction := 5%nat |}.

(** An instruction f32[2,16,3] (0) rewritten to f32[8,4,3] (1), batch axis
    0 and space axis 1, no axis permuted; a subtraction (2) of the
    instruction from itself, a transpose (3) of it, which the propagation
    does not support, and a tuple of both. *)
Definition example_transposed : ConvolutionVisitor :=
  set_instr_to_dim_permute_map {[ 1%nat := [0; 1; 2] ]}
    (set_instr_to_dim_map {[ 0%nat := (0, 1) ]}
       (set_old_to_new_instrs {[ 0%nat := 1%nat ]}
          (new_visitor 8
             {| instructions :=
                  [ make_instruction kParameter (f32 [2; 16; 3]) [];
                    make_instruction kParameter (f32 [8; 4; 3]) [];
                    make_instruction kSubtract (f32 [2; 16; 3])
                      [0%nat; 0%nat];
                    set_dimensions [1; 0; 2]
                      (make_instruction kTranspose (f32 [16; 2; 3])
                         [0%nat]);
                    make_instruction kTuple (f32 []) [2%nat; 3%nat] ];
                root_instruction := 4%nat |}))).

(** ** Properties of runs *)

(** Every successful run of [m] relates the state before to the state
    after by [R]. *)
Definition respects {S A} (R : S -> S -> Prop) (m : State S A) : Prop :=
  forall s a s', m s = OK (a, s') -> R s s'.

(** The computation after is the computation before with new instructions
    at its end. *)
Definition grows (c c' : HloComputation) : Prop :=
  exists news, c' = extend c news.

(** What a step of the propagation leaves alone: the computation up to
    [G], the rewritten instructions, the instructions marked as
    non-propagatable, and the (batch, space) dimensions recorded for the
    instructions outside [K]. *)
Definition frame_but (G : HloComputation -> HloComputation -> Prop)
    (K : InstrId -> Prop) (v v' : ConvolutionVisitor) : Prop :=
  G (computation_ v) (computation_ v') /\
  old_to_new_instrs_ v' = old_to_new_instrs_ v /\
  non_propagatable_instrs_ v' = non_propagatable_instrs_ v /\
  forall k, ~ K k -> instr_to_dim_map_ v' !! k = instr_to_dim_map_ v !! k.

(** Operand [o] of a user after the replacement of [node] by
    [replacement]. *)
Definition redirected (node replacement o : InstrId) : InstrId :=
  if (o =? node)%nat then replacement else o.

(** A two-dimensional convolution in the layout [batch, feature, height,
    width] (kernel [out, in, height, width]) of f32[2,3,18,18] by a 3x3
    kernel, and a reduce-window (4) of its result f32[2,4,16,16] with a
    2x2 window of stride 2 on height and width, the root. *)
Definition dnums_bf01 : ConvolutionDimensionNumbers :=
  {| input_batch_dimension := 0; input_feature_dimension := 1;
     input_spatial_dimensions := [2; 3];
     kernel_input_feature_dimension := 1;
     kernel_output_feature_dimension := 0;
     kernel_spatial_dimensions := [2; 3];
     output_batch_dimension := 0; output_feature_dimension := 1;
     output_spatial_dimensions := [2; 3] |}.

Definition example_pooling : HloComputation :=
  {| instructions :=
       [ make_instruction kParameter (f32 [2; 3; 18; 18]) [];
         make_instruction kParameter (f32 [4; 3; 3; 3]) [];
         set_convolution dnums_bf01 1 1
           (set_window [plain_window 3 1 0 0; plain_window 3 1 0 0]
              (make_instruction kConvolution (f32 [2; 4; 16; 16])
                 [0%nat; 1%nat]));
         CreateConstant (LiteralZero F32);
         set_window [plain_window 1 1 0 0; plain_window 1 1 0 0;
                     plain_window 2 2 0 0; plain_window 2 2 0 0]
           (make_instruction kReduceWindow (f32 [2; 4; 8; 8])
              [2%nat; 3%nat]) ];
     root_instruction := 4%nat |}.

(** The extents of an instruction of a computation. *)
Definition extents (c : HloComputation) (i : InstrId) : option (list Z) :=
  x ← instructions c !! i; Some (dimensions (shape x)).

(** ** The instructions the propagation makes *)

(** The opcodes for which [CanPropagate] asks for a rewritten operand 0. *)
Definition reads_first_operand (u : HloInstruction) : bool :=
  opcode_eqb (opcode u) kConvolution || opcode_eqb (opcode u) kReduce
  || opcode_eqb (opcode u) kReduceWindow
  || opcode_eqb (opcode u) kSelectAndScatter.

(** An instruction that the propagation can never find ready, when the
    instructions from [n0] on are those the pass has made: an elementwise
    one has operands made by the pass only, a convolution, reduce,
    reduce-window or select-and-scatter has an operand 0 made by the
    pass. *)
Definition guarded (n0 : nat) (u : HloInstruction) : bool :=
  (negb (IsTrivialElementwise u) || forallb (Nat.leb n0) (operands u))
  && (negb (reads_first_operand u)
      || match operands u with
         | o :: _ => (n0 <=? o)%nat
         | [] => false
         end).

(** The state of the visitor during the propagation, for a computation
    that had [n0] instructions when the visitor was made: the
    instructions made since are guarded, the rewritten instructions are
    among the first [n0], and their rewritten and batch-to-space forms
    are not. *)
Definition propagation_invariant (n0 : nat) (v : ConvolutionVisitor) : bool :=
  (n0 <=? length (instructions (computation_ v)))%nat
  && forallb (guarded n0) (drop n0 (instructions (computation_ v)))
  && forallb (fun e => (fst e <? n0)%nat && (n0 <=? snd e)%nat)
       (map_to_list (old_to_new_instrs_ v))
  && forallb (fun e => (n0 <=? snd e)%nat)
       (map_to_list (batch_to_space_map_ v)).

(** Every successful run of [m] from a state with [P] ends in a state
    with [Q] of its result. *)
Definition hoare {S A} (P : S -> Prop) (m : State S A) (Q : A -> S -> Prop)
  : Prop :=
  forall s a s', P s -> m s = OK (a, s') -> Q a s'.

(** [m] keeps [I], and its result has [post]. *)
Definition keeps {S A} (I : S -> Prop) (m : State S A) (post : A -> Prop)
  : Prop :=
  hoare I m (fun a s => I s /\ post a).

(** The invariant of the computation with the instructions in [X] exempt,
    and with a property [F] of the computation that new instructions at
    its end do not break. *)
Definition graph_invariant (n0 : nat) (X : InstrId -> Prop)
    (F : HloComputation -> Prop) (c : HloComputation) : Prop :=
  (n0 <= length (instructions c))%nat /\
  (forall i u, (n0 <= i)%nat -> ~ X i -> instructions c !! i = Some u ->
               guarded n0 u = true) /\
  F c.

Definition visitor_invariant (n0 : nat) (X : InstrId -> Prop)
    (F : HloComputation -> Prop) (v : ConvolutionVisitor) : Prop :=
  graph_invariant n0 X F (computation_ v) /\
  (forall k n, old_to_new_instrs_ v !! k = Some n ->
               (k < n0)%nat /\ (n0 <= n)%nat) /\
  (forall k b, batch_to_space_map_ v !! k = Some b -> (n0 <= b)%nat).

Definition stable (F : HloComputation -> Prop) : Prop :=
  forall c news, F c -> F (extend c news).

Definition update_stable (F : HloComputation -> Prop) : Prop :=
  forall c i x x', F c -> instructions c !! i = Some x ->
    opcode x' = opcode x -> operands x' = operands x ->
    F (update_instruction i x' c).

(** The clone [new_consumer] of a consumer while its operands are being
    replaced: it has the opcode of the consumer and as many operands, of
    which the first [k] have been made by the pass. *)
Definition tracks (n0 : nat) (new_consumer : InstrId) (opc : HloOpcode)
    (count k : nat) (c : HloComputation) : Prop :=
  exists u, instructions c !! new_consumer = Some u /\
            opcode u = opc /\ length (operands u) = count /\
            forall j o, (j < k)%nat -> operands u !! j = Some o ->
                        (n0 <= o)%nat.

(** The exempt instructions [X] and the clone [nc]. *)
Definition or_clone (X : InstrId -> Prop) (nc : InstrId) : InstrId -> Prop :=
  fun i => X i \/ i = nc.

Definition operand_stable (F : HloComputation -> Prop) : Prop :=
  forall c i x ops, F c -> instructions c !! i = Some x ->
    F (update_instruction i (set_operands ops x) c).

(** The instructions of [c0] are in [c], with their opcodes. *)
Definition same_opcodes (c0 c : HloComputation) : Prop :=
  forall i x, instructions c0 !! i = Some x ->
    exists y, instructions c !! i = Some y /\ opcode y = opcode x.

(** The rewritten instructions of [v] are rewritten in [v']. *)
Definition more_rewritten (v v' : ConvolutionVisitor) : Prop :=
  dom (old_to_new_instrs_ v) ⊆ dom (old_to_new_instrs_ v').

(** ** The worklist loop, iteration by iteration *)

(** One iteration of the [while] loop of [PropagateOnUsers]: [node] and
    [parent] are the entry popped from the worklist; the worklist and the
    iteration count after the iteration are returned. *)
Definition propagation_step (node parent : InstrId)
    (propagation_worklist : list (InstrId * InstrId)) (iteration_count : Z)
  : State ConvolutionVisitor (list (InstrId * InstrId) * Z) :=
  (rewritten <- old_to_new_contains node ;;
   (* Don't work on the same node again. *)
   if rewritten && negb (iteration_count =? 0)
   then ret (propagation_worklist, iteration_count)
   else
   needs_further_propagation <-
     (if negb (iteration_count =? 0)
      then
        (* Do the space-to-batch propagation on this node. *)
        Propagate node parent
      else ret true) ;;
   let iteration_count := (iteration_count + 1)%i64 in
   root <- gets (fun v => root_instruction (computation_ v)) ;;
   (* If this is the root, no room for further propagation. *)
   if (root =? node)%nat then
     (* The below case does not need going back to space. *)
     if negb needs_further_propagation then
       new_node <- old_to_new_index node ;;
       check_ok (on_graph (ReplaceInstruction node new_node)) ;;;
       ret (propagation_worklist, iteration_count)
     else
       batch_to_space <- BatchToSpace node ;;
       check_ok (on_graph (ReplaceInstruction node batch_to_space)) ;;;
       ret (propagation_worklist, iteration_count)
   else
     if negb needs_further_propagation then
       new_node <- old_to_new_index node ;;
       check_ok (on_graph (ReplaceInstruction node new_node)) ;;;
       ret (propagation_worklist, iteration_count)
     else
       (* Insert all users into the queue, as long as the ops are
          supported and the op is ready for propagation. *)
       node_users <- gets (fun v => users (computation_ v) node) ;;
       propagation_worklist <-
         for_each node_users propagation_worklist
           (propagate_to_user node) ;;
       ret (propagation_worklist, iteration_count))%state.

(** The [while] loop of [PropagateOnUsers] as iterations of
    [propagation_step]: [None] when the fuel does not suffice for the loop
    to come to its end, and the outcome of the loop when it does. *)
Fixpoint propagation_run (fuel : nat)
    (propagation_worklist : list (InstrId * InstrId))
    (iteration_count : Z) (v : ConvolutionVisitor)
  : option (StatusOr (unit * ConvolutionVisitor)) :=
  match propagation_worklist with
  | [] => Some (OK (tt, v))
  | (node, parent) :: propagation_worklist =>
    match fuel with
    | O => None
    | S fuel =>
      match propagation_step node parent propagation_worklist
              iteration_count v with
      | OK ((propagation_worklist, iteration_count), v) =>
          propagation_run fuel propagation_worklist iteration_count v
      | Fail f => Some (Fail f)
      end
    end
  end.


(** ** The convolutions the visitor collects *)

(** Instruction [i] of the computation is a convolution that
    [IsConvSuitableForSpaceToBatch] accepts. *)
Definition is_suitable_convolution (limit_on_batch_size : Z)
    (computation : HloComputation) (i : InstrId) : bool :=
  match instructions computation !! i with
  | Some inst =>
      opcode_eqb (opcode inst) kConvolution
      && match IsConvSuitableForSpaceToBatch limit_on_batch_size computation
                 inst with
         | OK suitable => suitable
         | Fail _ => false
         end
  | None => false
  end.


(** ** Chains of users *)

(** [path] goes from a user of [i] on, every instruction of it a user of
    the one before. *)
Fixpoint user_chain (c : HloComputation) (i : InstrId) (path : list InstrId)
  : Prop :=
  match path with
  | [] => True
  | x :: rest => In x (users c i) /\ user_chain c x rest
  end.

(** An instruction through which [DoesConvolutionFeedReduceWindow] goes on
    with its search. *)
Definition searched_through (c : HloComputation) (x : InstrId) : Prop :=
  exists u, instructions c !! x = Some u /\
            opcode_eqb (opcode u) kReduceWindow = false /\
            opcode_eqb (opcode u) kConvolution = false /\
            opcode_eqb (opcode u) kPad = false /\
            opcode_eqb (opcode u) kTranspose = false.

(** ** The flag of the visitor *)

(** The flag [changed_] is in [v'] as it is in [v]. *)
Definition same_flag (v v' : ConvolutionVisitor) : Prop :=
  changed_ v' = changed_ v.

(** ** Example states *)

(** The state a run ends in, and the given one for a run that fails. *)
Definition final_state {S A} (r : StatusOr (A * S)) (s : S) : S :=
  match r with
  | OK (_, s') => s'
  | Fail _ => s
  end.

(** The visitor of a computation after the first part of
    [PerformSpaceToBatchOnConvolution] for one of its convolutions. *)
Definition visitor_after_rewrite (limit_on_batch_size : Z)
    (computation : HloComputation) (convolution : InstrId)
  : ConvolutionVisitor :=
  match make_visitor limit_on_batch_size computation with
  | OK v => final_state (space_to_batch_convolution convolution v) v
  | Fail _ => new_visitor limit_on_batch_size computation
  end.

(** The computation of scenario (e) with its convolution (2) rewritten. *)
Definition example_rewritten : ConvolutionVisitor :=
  visitor_after_rewrite 8 example_unsupported_user 2.

(** The convolution of scenario (a) added to a constant of its shape. *)
Definition example_constant_operand : HloComputation :=
  {| instructions :=
       [ make_instruction kParameter (f32 [2; 16; 3]) [];
         make_instruction kParameter (f32 [3; 3; 4]) [];
         example_convolution;
         make_instruction kConstant (f32 [2; 14; 4]) [];
         make_instruction kAdd (f32 [2; 14; 4]) [2%nat; 3%nat] ];
     root_instruction := 4%nat |}.

(** ** The instructions a rewrite leaves alone *)

(** The computation [c] has the root of [c0] and every instruction of [c0]
    as it is in [c0]. *)
Definition kept_graph (c0 c : HloComputation) : Prop :=
  root_instruction c = root_instruction c0 /\
  forall i x, instructions c0 !! i = Some x -> instructions c !! i = Some x.

Definition kept (c0 : HloComputation) (v : ConvolutionVisitor) : Prop :=
  kept_graph c0 (computation_ v).

(** The computation of [v'] is the computation of [v] with new
    instructions at its end. *)
Definition grown (v v' : ConvolutionVisitor) : Prop :=
  grows (computation_ v) (computation_ v').

(** ** The convolutions to visit *)

(** From [v] to [v'] no rewritten instruction is lost, and a convolution
    that is no longer to be visited is rewritten. *)
Definition more_visited (v v' : ConvolutionVisitor) : Prop :=
  dom (old_to_new_instrs_ v) ⊆ dom (old_to_new_instrs_ v') /\
  convs_to_visit_ v ⊆ convs_to_visit_ v' ∪ dom (old_to_new_instrs_ v').

(** [v] has the rewritten instructions and the convolutions to visit of
    [v0]. *)
Definition same_tables (v0 v : ConvolutionVisitor) : Prop :=
  old_to_new_instrs_ v = old_to_new_instrs_ v0 /\
  convs_to_visit_ v = convs_to_visit_ v0.


(** * Properties *)

(** ** Arithmetic on [int64] without overflow *)

Lemma wrap_in_range z : Int64.in_range z -> Int64.wrap z = z.
Proof.
  unfold Int64.in_range, Int64.min_signed, Int64.max_signed, Int64.wrap.
  intros H. rewrite Z.mod_small by lia. lia.
Qed.

Lemma wrap_range z : Int64.in_range (Int64.wrap z).
Proof.
  unfold Int64.in_range, Int64.min_signed, Int64.max_signed, Int64.wrap.
  pose proof (Z.mod_pos_bound (z + 2 ^ 63) (2 ^ 64) ltac:(lia)). lia.
Qed.

Lemma add_exact a b : Int64.in_range (a + b) -> Int64.add a b = a + b.
Proof. apply wrap_in_range. Qed.

Lemma sub_exact a b : Int64.in_range (a - b) -> Int64.sub a b = a - b.
Proof. apply wrap_in_range. Qed.

Lemma mul_exact a b : Int64.in_range (a * b) -> Int64.mul a b = a * b.
Proof. apply wrap_in_range. Qed.

Lemma safe_in_range z : Int64.safe z -> Int64.in_range z.
Proof.
  unfold Int64.safe, Int64.in_range, Int64.min_signed, Int64.max_signed. lia.
Qed.

(** Discharges the side condition of the [_exact] lemmas from bounds in the
    context. *)
Ltac in_range_tac :=
  unfold Int64.in_range, Int64.min_signed, Int64.max_signed, Int64.safe in *;
  first [lia | nia].

Ltac exact64 :=
  repeat match goal with
         | |- context [Int64.add ?a ?b] =>
             rewrite (add_exact a b) by in_range_tac
         | |- context [Int64.sub ?a ?b] =>
             rewrite (sub_exact a b) by in_range_tac
         | |- context [Int64.mul ?a ?b] =>
             rewrite (mul_exact a b) by in_range_tac
         | |- context [Int64.wrap ?a] =>
             rewrite (wrap_in_range a) by in_range_tac
         end.

(** ** Opcodes *)

Lemma opcode_eqb_eq a b : opcode_eqb a b = true <-> a = b.
Proof. unfold opcode_eqb. destruct (HloOpcode_eq_dec a b); split; congruence. Qed.

(** ** Indexing *)

Lemma at_index_OK {A} (v : list A) i x :
  at_index v i = OK x <-> 0 <= i /\ v !! Z.to_nat i = Some x.
Proof.
  unfold at_index. destruct (Z.ltb_spec i 0).
  - split; [discriminate | lia].
  - destruct (v !! Z.to_nat i) eqn:E; split.
    + intros [= ->]. auto.
    + intros [_ [= ->]]. reflexivity.
    + discriminate.
    + intros [_ ?]. discriminate.
Qed.

Lemma at_index_of_nat {A} (v : list A) (n : nat) :
  at_index v (Z.of_nat n) =
  match v !! n with Some x => OK x | None => Fail OutOfRange end.
Proof.
  unfold at_index. destruct (Z.ltb_spec (Z.of_nat n) 0); [lia |].
  now rewrite Nat2Z.id.
Qed.

Lemma at_index_lookupZ {A} (v : list A) i :
  at_index v i =
  match lookupZ v i with Some x => OK x | None => Fail OutOfRange end.
Proof.
  unfold at_index, lookupZ. destruct (i <? 0); [reflexivity |].
  destruct (v !! Z.to_nat i); reflexivity.
Qed.

Lemma bindS_OK {A B} (m : StatusOr A) (k : A -> StatusOr B) b :
  bindS m k = OK b <-> exists a, m = OK a /\ k a = OK b.
Proof.
  destruct m; simpl; split.
  - eauto.
  - intros (a' & [= ->] & H). exact H.
  - discriminate.
  - intros (a' & [=] & _).
Qed.

(** ** The convolution details (section 4.2) *)

(** The value of [GetConvolutionDetails] when every lookup succeeds. *)
Lemma GetConvolutionDetails_value
    (computation : HloComputation) (convolution : HloInstruction)
    (dim_numbers : ConvolutionDimensionNumbers)
    (activations kernel : HloInstruction) (wd : WindowDimension)
    (kdim sdim ksize isize : Z) :
  let chosen := get_chosen_spatial_dim convolution in
  mutable_operand computation convolution 0 = OK activations ->
  mutable_operand computation convolution 1 = OK kernel ->
  at_index (window convolution) chosen = OK wd ->
  at_index (kernel_spatial_dimensions dim_numbers) chosen = OK kdim ->
  at_index (dimensions (shape kernel)) kdim = OK ksize ->
  at_index (input_spatial_dimensions dim_numbers) chosen = OK sdim ->
  at_index (dimensions (shape activations)) sdim = OK isize ->
  Int64.safe ksize -> Int64.safe isize ->
  Int64.safe (stride wd) -> Int64.safe (base_dilation wd) ->
  Int64.safe (padding_low wd) -> Int64.safe (padding_high wd) ->
  GetConvolutionDetails computation convolution dim_numbers =
  OK {| spatial_dimension_to_split := sdim;
        inherent_low_padding := padding_low wd;
        inherent_high_padding := padding_high wd;
        cd_stride := stride wd;
        spatial_size :=
          isize + (if base_dilation wd >? 1 then 0 else padding_low wd)
          + padding_high wd;
        base_dilation_factor := base_dilation wd;
        halo_size := Z.max (ksize - stride wd - (base_dilation wd - 1)) 0;
        high_padding_for_conv :=
          if base_dilation wd =? 1 then 0
          else if padding_low wd =? 0 then base_dilation wd - 1 else 0;
        low_padding_for_conv :=
          if base_dilation wd =? 1 then 0 else padding_low wd;
        kernel_spatial_dim_size := ksize;
        input_dim_size := isize |}.
Proof.
  intros chosen Ha Hk Hw Hkd Hks Hsd His Sk Si Ss Sb Sl Sh.
  unfold GetConvolutionDetails. fold chosen.
  rewrite Ha, Hk. simpl. rewrite Hkd. simpl. rewrite Hks. simpl.
  rewrite Hsd. simpl. rewrite His. simpl. rewrite Hw. simpl.
  destruct (base_dilation wd >? 1) eqn:Ebd;
    destruct (base_dilation wd =? 1) eqn:Eb1;
    destruct (padding_low wd =? 0) eqn:El0;
    exact64; reflexivity.
Qed.


(** C2: for a convolution whose operands, window and dimension numbers
    designate the chosen spatial axis, [GetConvolutionDetails] returns the
    record of the exact integer quantities
    [spatial_size = input_dim_size + (base_dilation > 1 ? 0 : low) + high],
    [halo_size = max (kernel - stride - (base_dilation - 1), 0)],
    [high_padding_for_conv = base_dilation = 1 ? 0 : (low = 0 ?
    base_dilation - 1 : 0)] and
    [low_padding_for_conv = base_dilation = 1 ? 0 : low], the attributes
    leaving the headroom in which [int64] does not overflow. *)
Theorem GetConvolutionDetails_exact
    (computation : HloComputation) (convolution : HloInstruction)
    (dim_numbers : ConvolutionDimensionNumbers)
    (activations kernel : HloInstruction) (wd : WindowDimension)
    (kdim sdim ksize isize : Z) :
  let chosen := get_chosen_spatial_dim convolution in
  mutable_operand computation convolution 0 = OK activations ->
  mutable_operand computation convolution 1 = OK kernel ->
  at_index (window convolution) chosen = OK wd ->
  at_index (kernel_spatial_dimensions dim_numbers) chosen = OK kdim ->
  at_index (dimensions (shape kernel)) kdim = OK ksize ->
  at_index (input_spatial_dimensions dim_numbers) chosen = OK sdim ->
  at_index (dimensions (shape activations)) sdim = OK isize ->
  Int64.safe ksize -> Int64.safe isize ->
  Int64.safe (stride wd) -> Int64.safe (base_dilation wd) ->
  Int64.safe (padding_low wd) -> Int64.safe (padding_high wd) ->
  GetConvolutionDetails computation convolution dim_numbers =
  OK {| spatial_dimension_to_split := sdim;
        inherent_low_padding := padding_low wd;
        inherent_high_padding := padding_high wd;
        cd_stride := stride wd;
        spatial_size :=
          isize + (if base_dilation wd >? 1 then 0 else padding_low wd)
          + padding_high wd;
        base_dilation_factor := base_dilation wd;
        halo_size := Z.max (ksize - stride wd - (base_dilation wd - 1)) 0;
        high_padding_for_conv :=
          if base_dilation wd =? 1 then 0
          else if padding_low wd =? 0 then base_dilation wd - 1 else 0;
        low_padding_for_conv :=
          if base_dilation wd =? 1 then 0 else padding_low wd;
        kernel_spatial_dim_size := ksize;
        input_dim_size := isize |}.
Proof. apply GetConvolutionDetails_value. Qed.

Lemma GetConvolutionDetails_exact_witness :
  GetConvolutionDetails example_computation example_convolution dnums_b0f =
  OK {| spatial_dimension_to_split := 1;
        inherent_low_padding := 0; inherent_high_padding := 0;
        cd_stride := 1; spatial_size := 16; base_dilation_factor := 1;
        halo_size := 2; high_padding_for_conv := 0;
        low_padding_for_conv := 0;
        kernel_spatial_dim_size := 3; input_dim_size := 16 |}.
Proof.
  apply (GetConvolutionDetails_exact example_computation example_convolution
           dnums_b0f
           (make_instruction kParameter (f32 [2; 16; 3]) [])
           (make_instruction kParameter (f32 [3; 3; 4]) [])
           (plain_window 3 1 0 0) 0 1 3 16);
    first [ reflexivity | unfold Int64.safe; simpl; lia ].
Defined.

(** ** The legality check (section 4.1) *)

Arguments Int64.add : simpl never.
Arguments Int64.sub : simpl never.
Arguments Int64.mul : simpl never.
Arguments Int64.wrap : simpl never.
Arguments CeilOfRatio : simpl never.
Arguments Z.mul : simpl never.
Arguments Z.add : simpl never.
Arguments Z.sub : simpl never.
Arguments Z.quot : simpl never.
Arguments Z.rem : simpl never.
Arguments Z.div : simpl never.

Lemma divide_8_rem (b : Z) : (b | 8) <-> b <> 0 /\ Z.rem 8 b = 0.
Proof.
  split.
  - intros [k Hk]. split; [intros ->; lia |].
    rewrite Hk. apply Z.rem_mul. intros ->. lia.
  - intros [Hb Hr]. exists (Z.quot 8 b).
    pose proof (Z.quot_rem' 8 b). lia.
Qed.

Lemma divide_8_quot (b : Z) : (b | 8) -> Z.quot 8 b = 8 / b.
Proof.
  intros [k Hk]. assert (b <> 0) by (intros ->; lia).
  rewrite Hk, Z.quot_mul, Z.div_mul by assumption. reflexivity.
Qed.

Lemma divide_8_bound (b : Z) : b <> 0 -> -8 <= Z.quot 8 b <= 8 /\ -8 <= Z.rem 8 b <= 8.
Proof.
  intros Hb. pose proof (Z.quot_rem' 8 b).
  destruct (Z.lt_trichotomy b 0) as [Hn | [-> | Hp]]; [| lia |].
  - pose proof (Z.rem_bound_pos 8 (- b) ltac:(lia) ltac:(lia)).
    rewrite Z.rem_opp_r in H0 by lia.
    assert (Z.quot 8 b <= 0).
    { rewrite <- (Z.opp_involutive b), Z.quot_opp_r by lia.
      pose proof (Z.quot_pos 8 (- b) ltac:(lia) ltac:(lia)). lia. }
    nia.
  - pose proof (Z.rem_bound_pos 8 b ltac:(lia) ltac:(lia)).
    pose proof (Z.quot_pos 8 b ltac:(lia) ltac:(lia)). nia.
Qed.

(** A run of the legality check in which a lookup fails does not return
    [true]: walk down the head of the hypothesis. *)
Ltac never_true H :=
  repeat (simpl in H; rewrite ?at_index_lookupZ in H;
          repeat match goal with
                 | E : _ = None |- _ => rewrite E in H
                 | E : _ = Some _ |- _ => rewrite E in H
                 end;
          simpl in H;
          lazymatch type of H with
          | OK _ = OK _ => discriminate H
          | Fail _ = _ => discriminate H
          | (if ?b then _ else _) = _ => destruct b
          | bindS (if ?b then _ else _) _ = _ => destruct b
          | bindS (match ?x with _ => _ end) _ = _ => destruct x eqn:?
          | bindS (rem64 _ _) _ = _ => unfold rem64 in H
          | bindS (div64 _ _) _ = _ => unfold div64 in H
          | bindS (bindS _ _) _ = _ => unfold bindS at 1 in H  
          end).

Ltac missing :=
  simpl in *; split;
  [ let H := fresh "H" in intro H; exfalso; never_true H
  | intros (? & [=] & _) ].

(** The legality check returns [true] exactly when the attributes of the
    convolution exist and satisfy the rules of the specification. *)
Lemma IsConvSuitableForSpaceToBatch_spec limit computation convolution :
  (forall a, conv_attributes computation convolution = Some a ->
             valid_attributes a) ->
  (IsConvSuitableForSpaceToBatch limit computation convolution = OK true <->
   exists a, conv_attributes computation convolution = Some a /\
             suitable_for_space_to_batch limit a).
Proof.
  intros Hvalid.
  unfold IsConvSuitableForSpaceToBatch, GetConvolutionDetails,
    mutable_operand, operand, instr, get_chosen_spatial_dim in *.
  unfold conv_attributes in *.
  destruct (length (input_spatial_dimensions
                      (convolution_dimension_numbers convolution))) as [|chosen] eqn:En.
  { simpl. split; [discriminate | intros (a & [=] & _)]. }
  replace (Z.of_nat (S chosen) - 1) with (Z.of_nat chosen) by lia.
  destruct (Z.ltb_spec (Z.of_nat (S chosen)) 1) as [? | _]; [lia |].
  rewrite !at_index_of_nat, !at_index_lookupZ.
  change (lookupZ (operands convolution) 0) with (operands convolution !! 0%nat).
  change (lookupZ (operands convolution) 1) with (operands convolution !! 1%nat).
  destruct (operands convolution !! 0%nat) as [lhs_id|] eqn:E0; [| missing].
  simpl in *.
  destruct (instructions computation !! lhs_id) as [lhs|] eqn:E1; [| missing].
  simpl in *.
  destruct (operands convolution !! 1%nat) as [rhs_id|] eqn:E2; [| missing].
  simpl in *.
  destruct (instructions computation !! rhs_id) as [rhs|] eqn:E3; [| missing].
  simpl in *.
  destruct (window convolution !! chosen) as [wd|] eqn:E4; [| missing].
  simpl in *.
  destruct (kernel_spatial_dimensions _ !! chosen) as [kdim|] eqn:E5; [| missing].
  simpl in *.
  destruct (lookupZ (dimensions (shape rhs)) kdim) as [ksize|] eqn:E6; [| missing].
  simpl in *.
  destruct (input_spatial_dimensions _ !! chosen) as [sdim|] eqn:E7; [| missing].
  simpl in *.
  destruct (lookupZ (dimensions (shape lhs)) sdim) as [isize|] eqn:E8; [| missing].
  simpl in *.
  destruct (lookupZ (dimensions (shape lhs)) (input_batch_dimension _)) as [bsize|] eqn:E9;
    [| missing].
  simpl in *.
  specialize (Hvalid _ eq_refl).
  rewrite !at_index_lookupZ, E6, E8, E9. simpl.
  destruct Hvalid as (Hbd & Sbd & Sst & Slo & Shi & Sk & Si & Sb).
  simpl in *.
  unfold rem64, div64, kNewBatchSize.
  assert (Hsp : (isize + (if base_dilation wd >? 1 then 0 else padding_low wd)
                 + padding_high wd)%i64
                = isize + (if base_dilation wd >? 1 then 0 else padding_low wd)
                  + padding_high wd).
  { destruct (base_dilation wd >? 1); exact64; reflexivity. }
  rewrite Hsp. exact64. clear Hsp.
  set (halo := Z.max (ksize - stride wd - (base_dilation wd - 1)) 0).
  set (spatial := isize + (if base_dilation wd >? 1 then 0 else padding_low wd)
                  + padding_high wd).
  match goal with
  | |- context [if negb (base_dilation wd =? 1) then _ else ?t] =>
      set (tail := t)
  end.
  assert (Htail : tail = OK true <->
                  bsize <= limit /\ (bsize | 8) /\
                  halo <= CeilOfRatio spatial (8 / bsize)).
  { subst tail. rewrite divide_8_rem.
    destruct (Z.gtb_spec bsize limit); [split; [discriminate | lia] |].
    destruct (Z.eqb_spec bsize 0); simpl; [split; [discriminate | tauto] |].
    destruct (divide_8_bound bsize ltac:(assumption)) as [Hq Hr].
    rewrite !wrap_in_range by in_range_tac.
    destruct (Z.eqb_spec (Z.rem 8 bsize) 0) as [Hrem | Hrem]; simpl;
      [| split; [discriminate | tauto] ].
    rewrite divide_8_quot by (apply divide_8_rem; tauto).
    destruct (Z.gtb_spec halo (CeilOfRatio spatial (8 / bsize)));
      split; try discriminate; try tauto; try lia. }
  clearbody tail.
  assert (Hex :
             (exists a, Some {| attr_spatial_dims := Z.of_nat (S chosen);
                                attr_batch_group_count := batch_group_count convolution;
                                attr_window := wd; attr_kernel_size := ksize;
                                attr_input_size := isize; attr_batch_size := bsize |}
                        = Some a /\ suitable_for_space_to_batch limit a)
             <-> (batch_group_count convolution = 1 /\
                  window_dilation wd = 1 /\
                  (base_dilation wd > 1 ->
                   stride wd = 1 /\
                   (padding_low wd = 0 /\ ksize = 1 \/
                    ksize = base_dilation wd + 1 /\
                    padding_low wd = base_dilation wd - 1)) /\
                  tail = OK true)).
  { rewrite Htail. unfold suitable_for_space_to_batch, spec_halo_size,
      spec_spatial_size. split.
    - intros (a & [= <-] & Hs). simpl in Hs. tauto.
    - intros Hs. eexists. split; [reflexivity |]. simpl.
      repeat split; try tauto; lia. }
  rewrite Hex. clear Hex Htail.
  destruct (Z.eqb_spec (batch_group_count convolution) 1); simpl;
    [| split; [discriminate | tauto] ].
  destruct (Z.eqb_spec (window_dilation wd) 1); simpl;
    [| split; [discriminate | tauto] ].
  destruct (Z.eqb_spec (base_dilation wd) 1) as [Hb1 | Hb1]; simpl.
  { split; [intros; repeat split; try assumption; lia | tauto]. }
  destruct (Z.eqb_spec (stride wd) 1); simpl;
    [| split; [discriminate | intros (_ & _ & Hd & _); lia] ].
  destruct (Z.eqb_spec (padding_low wd) 0); simpl.
  - destruct (Z.eqb_spec ksize 1); simpl.
    + split; [intros; repeat split; try assumption; tauto | tauto].
    + split; [discriminate | intros (_ & _ & Hd & _); lia].
  - destruct (Z.eqb_spec ksize (base_dilation wd + 1));
      destruct (Z.eqb_spec (padding_low wd) (base_dilation wd - 1)); simpl;
      try (split; [discriminate | intros (_ & _ & Hd & _); lia]).
    split; [intros; repeat split; try assumption; tauto | tauto].
Qed.

(** The first two checks decide before any attribute of the window or of
    the operands is read. *)
Lemma IsConvSuitableForSpaceToBatch_no_spatial limit computation convolution :
  input_spatial_dimensions (convolution_dimension_numbers convolution) = [] ->
  IsConvSuitableForSpaceToBatch limit computation convolution = OK false.
Proof. intros H. unfold IsConvSuitableForSpaceToBatch. now rewrite H. Qed.

Lemma IsConvSuitableForSpaceToBatch_batch_group limit computation convolution :
  batch_group_count convolution <> 1 ->
  IsConvSuitableForSpaceToBatch limit computation convolution = OK true ->
  False.
Proof.
  intros Hb. unfold IsConvSuitableForSpaceToBatch.
  destruct (_ <? 1); [discriminate |].
  destruct (Z.eqb_spec (batch_group_count convolution) 1); [contradiction |].
  discriminate.
Qed.

(** C1: [IsConvSuitableForSpaceToBatch] returns [true] if and only if the
    convolution has at least one spatial dimension, [batch_group_count] is
    1, the window dilation of the chosen spatial axis is 1, a base dilation
    above 1 comes with stride 1 and either (low padding 0 and kernel size
    1) or (kernel size = base dilation + 1 and low padding = base dilation
    - 1), the batch size is at most the limit and divides 8, and the halo
    size is at most [ceil (spatial_size / (8 / batch size))]; a missing
    spatial dimension or a batch group count other than 1 rejects before
    anything else is read.  The function is pure: it has no state to
    change.  Attributes are those of a verified module ([valid_attributes]:
    base dilation at least 1, where the test [!= 1] of the source is the
    test [> 1] of the claim). *)
Theorem IsConvSuitableForSpaceToBatch_iff limit computation convolution :
  (forall a, conv_attributes computation convolution = Some a ->
             valid_attributes a) ->
  (IsConvSuitableForSpaceToBatch limit computation convolution = OK true <->
   exists a, conv_attributes computation convolution = Some a /\
             suitable_for_space_to_batch limit a) /\
  (input_spatial_dimensions (convolution_dimension_numbers convolution) = [] ->
   IsConvSuitableForSpaceToBatch limit computation convolution = OK false) /\
  (input_spatial_dimensions (convolution_dimension_numbers convolution) <> [] ->
   batch_group_count convolution <> 1 ->
   IsConvSuitableForSpaceToBatch limit computation convolution = OK false).
Proof.
  intros Hvalid. split; [| split].
  - now apply IsConvSuitableForSpaceToBatch_spec.
  - apply IsConvSuitableForSpaceToBatch_no_spatial.
  - intros Hn Hb. unfold IsConvSuitableForSpaceToBatch.
    destruct (input_spatial_dimensions _); [contradiction |].
    destruct (Z.ltb_spec (Z.of_nat (length (z :: l))) 1);
      [simpl length in *; lia |].
    destruct (Z.eqb_spec (batch_group_count convolution) 1);
      [contradiction | reflexivity].
Qed.

Lemma IsConvSuitableForSpaceToBatch_iff_witness :
  exists a, conv_attributes example_computation example_convolution = Some a /\
            suitable_for_space_to_batch 8 a.
Proof.
  apply (proj1 (IsConvSuitableForSpaceToBatch_iff 8 example_computation
                  example_convolution
                  ltac:(intros a [= <-]; unfold valid_attributes, Int64.safe;
                        simpl; lia))).
  reflexivity.
Defined.


(** ** Running the graph builders *)

Lemma bind_OK {S A B} (m : State S A) (k : A -> State S B) s a s' :
  m s = OK (a, s') -> bind m k s = k a s'.
Proof. intros H. unfold bind. now rewrite H. Qed.

Lemma bind_lift_OK {S A B} (a : A) (k : A -> State S B) s :
  bind (lift_status (OK a)) k s = k a s.
Proof. reflexivity. Qed.

Lemma bind_inv {S A B} (m : State S A) (k : A -> State S B) s b s'' :
  bind m k s = OK (b, s'') ->
  exists a s', m s = OK (a, s') /\ k a s' = OK (b, s'').
Proof.
  unfold bind. destruct (m s) as [[a s'] | f]; [eauto | discriminate].
Qed.

Lemma shape_of_OK c i x :
  instructions c !! i = Some x -> shape_of i c = OK (shape x, c).
Proof. intros H. unfold shape_of, bind, deref, instr. now rewrite H. Qed.

Lemma deref_OK c i x :
  instructions c !! i = Some x -> deref i c = OK (x, c).
Proof. intros H. unfold deref, instr. now rewrite H. Qed.

Lemma AddInstruction_extend c i :
  AddInstruction i c = OK (length (instructions c), extend c [i]).
Proof. reflexivity. Qed.

Lemma extend_extend c l1 l2 : extend (extend c l1) l2 = extend c (l1 ++ l2).
Proof. unfold extend. simpl. now rewrite <- app_assoc. Qed.

Lemma extend_lookup_old c news i x :
  instructions c !! i = Some x -> instructions (extend c news) !! i = Some x.
Proof. intros H. simpl. now apply lookup_app_l_Some. Qed.

Lemma extend_lookup_new c news (k : nat) :
  instructions (extend c news) !! (length (instructions c) + k)%nat
  = news !! k.
Proof.
  simpl. rewrite lookup_app_r by lia. f_equal. lia.
Qed.

(** ** The mask of [SelectValidPortion] *)

(** Truncating division and remainder of non-negative numbers. *)
Lemma rem64_nonneg a b :
  0 <= a -> 0 < b -> Int64.in_range a -> rem64 a b = OK (a mod b).
Proof.
  intros Ha Hb Hr. unfold rem64. destruct (Z.eqb_spec b 0); [lia |].
  rewrite Z.rem_mod_nonneg by lia.
  rewrite wrap_in_range; [reflexivity |].
  pose proof (Z.mod_pos_bound a b Hb).
  pose proof (Z.mod_le a b Ha Hb). in_range_tac.
Qed.

Lemma div64_nonneg a b :
  0 <= a -> 0 < b -> Int64.in_range a -> div64 a b = OK (a / b).
Proof.
  intros Ha Hb Hr. unfold div64. destruct (Z.eqb_spec b 0); [lia |].
  rewrite Z.quot_div_nonneg by lia.
  rewrite wrap_in_range; [reflexivity |].
  pose proof (Z.div_pos a b Ha Hb).
  assert (a / b <= a) by (apply Z.div_le_upper_bound; nia).
  in_range_tac.
Qed.

(** The bit the loop writes at position [k]. *)
Lemma mask_body_value ns splits os k (b : list bool) :
  0 < ns -> 0 < splits -> 0 <= k -> Int64.in_range k ->
  Int64.in_range (splits * ns) ->
  (space_index <- rem64 k ns ;;
   row <- div64 k ns ;;
   batch_index <- rem64 row splits ;;
   if (batch_index * ns + space_index)%i64 <? os
   then OK (<[Z.to_nat k := true]> b)
   else OK (<[Z.to_nat k := false]> b))%status
  = OK (<[Z.to_nat k := ((k / ns) mod splits) * ns + k mod ns <? os]> b).
Proof.
  intros Hns Hsp Hk Hr Hrs.
  rewrite rem64_nonneg, div64_nonneg by assumption. simpl.
  pose proof (Z.div_pos k ns Hk Hns).
  assert (k / ns <= k) by (apply Z.div_le_upper_bound; nia).
  rewrite rem64_nonneg by (try lia; in_range_tac). simpl.
  pose proof (Z.mod_pos_bound (k / ns) splits Hsp).
  pose proof (Z.mod_pos_bound k ns Hns).
  set (x := (k / ns) mod splits) in *. set (y := k mod ns) in *.
  assert (0 <= x * ns) by nia.
  assert (x * ns + ns <= splits * ns) by nia.
  exact64. destruct (x * ns + y <? os); reflexivity.
Qed.

(** The loop over [start], ..., [start + len - 1] writes these positions
    and no other. *)
Lemma fill_loop ns splits os (len start : nat) (b : list bool) :
  0 < ns -> 0 < splits -> Int64.in_range (splits * ns) ->
  Int64.in_range (Z.of_nat (start + len)) ->
  (start + len <= length b)%nat ->
  exists b',
    fold_status (map Z.of_nat (seq start len)) b
      (fun k b =>
         (space_index <- rem64 k ns ;;
          row <- div64 k ns ;;
          batch_index <- rem64 row splits ;;
          if (batch_index * ns + space_index)%i64 <? os
          then OK (<[Z.to_nat k := true]> b)
          else OK (<[Z.to_nat k := false]> b))%status) = OK b' /\
    length b' = length b /\
    forall j : nat,
      b' !! j =
      if (start <=? j)%nat && (j <? start + len)%nat
      then (if (j <? length b)%nat
            then Some (((Z.of_nat j / ns) mod splits) * ns + Z.of_nat j mod ns
                       <? os)
            else None)
      else b !! j.
Proof.
  intros Hns Hsp Hrs. revert start b.
  induction len as [| len IH]; intros start b Hr Hlen.
  - exists b. simpl. split; [reflexivity |]. split; [reflexivity |].
    intros j. destruct (start <=? j)%nat eqn:E1; simpl; [| reflexivity].
    destruct (Nat.ltb_spec j (start + 0)); [| reflexivity].
    apply Nat.leb_le in E1. lia.
  - simpl.
    rewrite mask_body_value by (try assumption; try lia; in_range_tac).
    simpl.
    destruct (IH (S start)
                (<[Z.to_nat (Z.of_nat start) :=
                     ((Z.of_nat start / ns) mod splits) * ns
                     + Z.of_nat start mod ns <? os]> b))
      as (b' & Hrun & Hl & Hj).
    { replace (S start + len)%nat with (start + S len)%nat by lia. exact Hr. }
    { rewrite length_insert. lia. }
    exists b'. split; [exact Hrun |].
    rewrite length_insert in Hl. split; [exact Hl |].
    intros j. rewrite Hj. rewrite Nat2Z.id, length_insert.
    destruct (decide (j = start)) as [-> | Hne];
      [rewrite ?list_lookup_insert_eq by lia
      | rewrite ?list_lookup_insert_ne by lia];
      repeat match goal with
             | |- context [(?a <=? ?b)%nat] => destruct (Nat.leb_spec a b)
             | |- context [(?a <? ?b)%nat] => destruct (Nat.ltb_spec a b)
             end; simpl; try lia; try reflexivity.
Qed.

(** The bitmap of [SelectValidPortion]: bit [k] says whether cell [k] of
    the row-major [new_batch x new_space] plane is within the old extent
    of its split. *)
Lemma fill_slice_mask_value nb ns splits os :
  0 <= nb -> 0 <= ns -> Int64.in_range (nb * ns) ->
  (0 < nb * ns -> 0 < splits <= nb) ->
  exists bits,
    fill_slice_mask nb ns splits os = OK bits /\
    length bits = Z.to_nat (nb * ns) /\
    forall k, 0 <= k < nb * ns ->
      bits !! Z.to_nat k
      = Some (((k / ns) mod splits) * ns + k mod ns <? os).
Proof.
  intros Hnb Hns Hr Hsp. unfold fill_slice_mask.
  rewrite mul_exact by assumption. unfold range.
  destruct (Z.eq_dec (nb * ns) 0) as [E0 | E0].
  - rewrite E0. simpl. exists []. repeat split; try reflexivity.
    intros k Hk. lia.
  - assert (Hpos : 0 < nb * ns) by nia.
    destruct (Hsp Hpos) as [Hs1 Hs2].
    assert (0 < ns) by nia.
    destruct (fill_loop ns splits os (Z.to_nat (nb * ns)) 0
                (replicate (Z.to_nat (nb * ns)) false))
      as (b' & Hrun & Hl & Hj); try assumption.
    { assert (0 <= splits * ns <= nb * ns) by nia. in_range_tac. }
    { simpl. rewrite Z2Nat.id by lia. assumption. }
    { rewrite length_replicate. lia. }
    exists b'. split; [exact Hrun |]. rewrite length_replicate in Hl.
    split; [exact Hl |].
    intros k Hk. rewrite Hj. rewrite length_replicate. simpl.
    destruct (Nat.ltb_spec (Z.to_nat k) (Z.to_nat (nb * ns))); [| lia].
    rewrite Z2Nat.id by lia. reflexivity.
Qed.

(** ** The builders, run on a computation *)

Lemma extend_length c news :
  length (instructions (extend c news))
  = (length (instructions c) + length news)%nat.
Proof. simpl. apply length_app. Qed.

Lemma extend_nil c : extend c [] = c.
Proof. destruct c. unfold extend. simpl. now rewrite app_nil_r. Qed.

Lemma shape_of_new c news (k : nat) x :
  news !! k = Some x ->
  shape_of (length (instructions c) + k)%nat (extend c news)
  = OK (shape x, extend c news).
Proof. intros H. apply shape_of_OK. now rewrite extend_lookup_new. Qed.

Lemma shape_of_old c news i x :
  instructions c !! i = Some x ->
  shape_of i (extend c news) = OK (shape x, extend c news).
Proof. intros H. apply shape_of_OK. now apply extend_lookup_old. Qed.

Lemma AddInstruction_run c news i :
  AddInstruction i (extend c news)
  = OK ((length (instructions c) + length news)%nat, extend c (news ++ [i])).
Proof.
  rewrite AddInstruction_extend, extend_extend, extend_length. reflexivity.
Qed.

Lemma MakeReshapeHlo_run c dims operand x :
  instructions c !! operand = Some x ->
  forallb (fun d => 0 <=? d) dims = true ->
  ElementsIn {| element_type := element_type (shape x); dimensions := dims |}
  = ElementsIn (shape x) ->
  MakeReshapeHlo dims operand c
  = OK (length (instructions c),
        extend c [make_instruction kReshape
                    {| element_type := element_type (shape x);
                       dimensions := dims |} [operand]]).
Proof.
  intros Hx Hd He. unfold MakeReshapeHlo.
  rewrite (bind_OK _ _ _ _ _ (shape_of_OK _ _ _ Hx)).
  rewrite Hd. simpl. unfold bind at 1. simpl.
  rewrite He, Z.eqb_refl. simpl. unfold bind at 1. simpl. reflexivity.
Qed.

Lemma MakeBroadcastHlo_run c operand bdims bounds x :
  instructions c !! operand = Some x ->
  MakeBroadcastHlo operand bdims bounds c
  = OK (length (instructions c),
        extend c [set_dimensions bdims
                    (make_instruction kBroadcast
                       {| element_type := element_type (shape x);
                          dimensions := bounds |} [operand])]).
Proof.
  intros Hx. unfold MakeBroadcastHlo.
  rewrite (bind_OK _ _ _ _ _ (shape_of_OK _ _ _ Hx)). reflexivity.
Qed.

Lemma same_element_type_true a b :
  element_type a = element_type b -> same_element_type a b = true.
Proof.
  intros H. unfold same_element_type.
  destruct (PrimitiveType_eq_dec _ _); [reflexivity | contradiction].
Qed.

Lemma dims_eqb_refl a : dims_eqb a a = true.
Proof. unfold dims_eqb. now apply bool_decide_eq_true. Qed.

(** [MakeSelectHlo] with a predicate that has the shape of the branches. *)
Lemma MakeSelectHlo_run c pred on_true on_false p t f :
  instructions c !! pred = Some p ->
  instructions c !! on_true = Some t ->
  instructions c !! on_false = Some f ->
  element_type (shape p) = PRED ->
  dimensions (shape p) = dimensions (shape t) ->
  dimensions (shape f) = dimensions (shape t) ->
  element_type (shape f) = element_type (shape t) ->
  dimensions (shape t) <> [] ->
  MakeSelectHlo pred on_true on_false c
  = OK (length (instructions c),
        extend c [make_instruction kSelect (shape t)
                    [pred; on_true; on_false]]).
Proof.
  intros Hp Ht Hf Ep Dp Df Ef Hne. unfold MakeSelectHlo.
  rewrite (bind_OK _ _ _ _ _ (shape_of_OK _ _ _ Hp)).
  rewrite (bind_OK _ _ _ _ _ (shape_of_OK _ _ _ Ht)).
  rewrite (bind_OK _ _ _ _ _ (shape_of_OK _ _ _ Hf)).
  assert (IsScalar (shape p) = false) as ->.
  { unfold IsScalar. rewrite Dp. now destruct (dimensions (shape t)). }
  simpl. unfold bind at 1. simpl.
  rewrite (bind_OK _ _ _ _ _ (shape_of_OK _ _ _ Hp)).
  rewrite same_element_type_true by congruence.
  rewrite Df, Dp, !dims_eqb_refl.
  rewrite same_element_type_true by (simpl; congruence).
  reflexivity.
Qed.

(** ** [SelectValidPortion] *)

Lemma at_index_in_range {A} (v : list A) i x :
  at_index v i = OK x -> 0 <= i /\ (Z.to_nat i < length v)%nat.
Proof.
  intros H. apply at_index_OK in H as [H1 H2]. split; [exact H1 |].
  eapply lookup_lt_Some; eauto.
Qed.

(** The instructions [SelectValidPortion] appends, and its result. *)
Lemma SelectValidPortion_run c new_instr old_instr select_val
    nbd nsd obd osd new_i old_i val_i nb ns ob os :
  instructions c !! new_instr = Some new_i ->
  instructions c !! old_instr = Some old_i ->
  instructions c !! select_val = Some val_i ->
  at_index (dimensions (shape new_i)) nbd = OK nb ->
  at_index (dimensions (shape new_i)) nsd = OK ns ->
  at_index (dimensions (shape old_i)) obd = OK ob ->
  at_index (dimensions (shape old_i)) osd = OK os ->
  0 <= nb -> 0 <= ns -> 0 < ob -> (ob | nb) ->
  Int64.in_range nb -> Int64.in_range (nb * ns) ->
  element_type (shape val_i) = element_type (shape new_i) ->
  exists bits,
    fill_slice_mask nb ns (nb / ob) os = OK bits /\
    length bits = Z.to_nat (nb * ns) /\
    let n := length (instructions c) in
    SelectValidPortion new_instr old_instr select_val nbd nsd obd osd c
    = OK ((n + 4)%nat,
          extend c
            [ CreateConstant (LiteralR1 bits);
              make_instruction kReshape
                {| element_type := PRED; dimensions := [nb; ns] |} [n];
              set_dimensions [nbd; nsd]
                (make_instruction kBroadcast
                   {| element_type := PRED;
                      dimensions := dimensions (shape new_i) |} [(n + 1)%nat]);
              set_dimensions []
                (make_instruction kBroadcast
                   {| element_type := element_type (shape val_i);
                      dimensions := dimensions (shape new_i) |} [select_val]);
              make_instruction kSelect (shape new_i)
                [(n + 2)%nat; new_instr; (n + 3)%nat] ]).
Proof.
  intros Hnew Hold Hval Hnb Hns Hob Hos Pnb Pns Pob Hdiv Hrb Hr Hty.
  assert (Hq : 0 <= nb / ob <= nb).
  { destruct Hdiv as [q ->]. rewrite Z.div_mul by lia. nia. }
  destruct (fill_slice_mask_value nb ns (nb / ob) os) as (bits & Hfill & Hlen & Hbits);
    try assumption.
  { intros Hpos. destruct Hdiv as [q ->]. rewrite Z.div_mul in * by lia. nia. }
  exists bits. split; [exact Hfill |]. split; [exact Hlen |].
  intros n. unfold SelectValidPortion.
  rewrite (bind_OK _ _ _ _ _ (shape_of_OK _ _ _ Hnew)).
  rewrite (bind_OK _ _ _ _ _ (shape_of_OK _ _ _ Hold)).
  rewrite Hnb, Hns, Hob, Hos. rewrite !bind_lift_OK.
  rewrite rem64_nonneg by assumption.
  replace (nb mod ob) with 0
    by (destruct Hdiv as [q ->]; now rewrite Z.mod_mul by lia).
  rewrite bind_lift_OK. simpl (CHECK _). unfold bind at 1. simpl lift_status.
  cbv iota beta.
  rewrite div64_nonneg by assumption. rewrite bind_lift_OK.
  rewrite Hfill, bind_lift_OK.
  rewrite <- (extend_nil c) at 1.
  rewrite (bind_OK _ _ _ _ _ (AddInstruction_run _ _ _)).
  simpl length. rewrite Nat.add_0_r. fold n. simpl app.
  assert (Hlookup : forall k x news,
             news !! k = Some x ->
             instructions (extend c news) !! (n + k)%nat = Some x).
  { intros k x news Hk. subst n. now rewrite extend_lookup_new. }
  erewrite bind_OK;
    [| apply MakeReshapeHlo_run with (x := CreateConstant (LiteralR1 bits));
       [ rewrite <- (Nat.add_0_r n); now apply Hlookup
       | simpl; destruct (Z.leb_spec 0 nb); destruct (Z.leb_spec 0 ns);
         try lia; reflexivity
       | unfold ElementsIn; simpl; rewrite Hlen; lia ] ].
  rewrite extend_extend, extend_length. simpl app. simpl length. fold n.
  erewrite bind_OK;
    [| apply MakeBroadcastHlo_run; now apply (Hlookup 1%nat) ].
  rewrite extend_extend, extend_length. simpl app. simpl length. fold n.
  erewrite bind_OK;
    [| apply MakeBroadcastHlo_run; apply extend_lookup_old; exact Hval ].
  rewrite extend_extend, extend_length. simpl app. simpl length. fold n.
  destruct (at_index_in_range _ _ _ Hnb) as [_ Hnbl].
  erewrite bind_OK;
    [| eapply MakeSelectHlo_run;
       [ now apply (Hlookup 2%nat)
       | apply extend_lookup_old; exact Hnew
       | now apply (Hlookup 3%nat)
       | reflexivity | reflexivity | reflexivity | simpl; exact Hty
       | intros E; rewrite E in Hnbl; simpl in Hnbl; lia ] ].
  rewrite extend_extend, extend_length. simpl app. simpl length. fold n.
  reflexivity.
Qed.

(** ** Evaluation *)

Lemma eval_env fuel c env i t :
  env i = Some t -> eval fuel c env i = Some t.
Proof.
  intros H. destruct fuel; simpl; [exact H |]. unfold eval_step. now rewrite H.
Qed.

Lemma eval_S fuel c env i inst :
  env i = None -> instructions c !! i = Some inst ->
  eval (S fuel) c env i = interp (eval fuel c env) c inst.
Proof. intros He Hi. simpl. unfold eval_step. now rewrite He, Hi. Qed.

Lemma valid_index_lookup dims idx d extent :
  valid_index dims idx -> at_index dims d = OK extent ->
  0 <= nth (Z.to_nat d) idx 0 < extent.
Proof.
  intros Hv Hd. apply at_index_OK in Hd as [_ Hd].
  destruct (Forall2_lookup_l _ _ _ _ _ Hv Hd) as (i & Hi & Hb).
  rewrite (nth_lookup_Some _ _ _ _ Hi). exact Hb.
Qed.

(** The result of [SelectValidPortion] and its value. *)
Lemma SelectValidPortion_value c new_instr old_instr select_val
    nbd nsd obd osd new_i old_i val_i nb ns ob os :
  instructions c !! new_instr = Some new_i ->
  instructions c !! old_instr = Some old_i ->
  instructions c !! select_val = Some val_i ->
  at_index (dimensions (shape new_i)) nbd = OK nb ->
  at_index (dimensions (shape new_i)) nsd = OK ns ->
  at_index (dimensions (shape old_i)) obd = OK ob ->
  at_index (dimensions (shape old_i)) osd = OK os ->
  0 <= nb -> 0 <= ns -> 0 < ob -> (ob | nb) ->
  Int64.in_range nb -> Int64.in_range (nb * ns) ->
  element_type (shape val_i) = element_type (shape new_i) ->
  exists c' r mask zeroes sel,
    SelectValidPortion new_instr old_instr select_val nbd nsd obd osd c
    = OK (r, c') /\
    (* the result is select (mask, new_instr, broadcast (select_val)) *)
    instructions c' !! r = Some sel /\
    opcode sel = kSelect /\ operands sel = [mask; new_instr; zeroes] /\
    shape sel = shape new_i /\
    (exists z, instructions c' !! zeroes = Some z /\
               opcode z = kBroadcast /\ operands z = [select_val] /\
               hlo_dimensions z = []) /\
    (* the graph is extended, by a constant and the four instructions of
       the result *)
    (exists news, c' = extend c news /\
                  map opcode news
                  = [kConstant; kReshape; kBroadcast; kBroadcast; kSelect]) /\
    (* the value: cells within the old extent of their split keep their
       element, the others take the fill value *)
    forall env T F,
      env new_instr = Some T -> env select_val = Some F ->
      (forall i, (length (instructions c) <= i)%nat -> env i = None) ->
      exists R, eval 4 c' env r = Some R /\
        forall idx, valid_index (dimensions (shape new_i)) idx ->
          let b := nth (Z.to_nat nbd) idx 0 in
          let s := nth (Z.to_nat nsd) idx 0 in
          R idx = if (b mod (nb / ob)) * ns + s <? os then T idx else F [].
Proof.
  intros Hnew Hold Hval Hnb Hns Hob Hos Pnb Pns Pob Hdiv Hrb Hr Hty.
  destruct (SelectValidPortion_run c new_instr old_instr select_val
              nbd nsd obd osd new_i old_i val_i nb ns ob os)
    as (bits & Hfill & Hlen & Hrun); try assumption.
  cbv zeta in Hrun. set (n := length (instructions c)) in *.
  eexists _, _, _, _, _. split; [exact Hrun |].
  assert (Hlookup : forall k x news,
             news !! k = Some x ->
             instructions (extend c news) !! (n + k)%nat = Some x).
  { intros k x news Hk. subst n. now rewrite extend_lookup_new. }
  split; [now apply (Hlookup 4%nat) |].
  split; [reflexivity |]. split; [reflexivity |]. split; [reflexivity |].
  split. { eexists. split; [now apply (Hlookup 3%nat) |]. now repeat split. }
  split. { eexists. split; [reflexivity | reflexivity]. }
  intros env T F HT HF Hfresh.
  assert (Hnone : forall k, env (n + k)%nat = None)
    by (intros k; apply Hfresh; lia).
  match type of Hrun with _ = OK (_, extend c ?l) => set (news := l) in * end.
  assert (L0 : instructions (extend c news) !! n
               = Some (CreateConstant (LiteralR1 bits))).
  { rewrite <- (Nat.add_0_r n). now apply Hlookup. }
  pose proof (Hlookup 1%nat _ news eq_refl) as L1.
  pose proof (Hlookup 2%nat _ news eq_refl) as L2.
  pose proof (Hlookup 3%nat _ news eq_refl) as L3.
  pose proof (Hlookup 4%nat _ news eq_refl) as L4.
  assert (N0 : env n = None) by (apply Hfresh; lia).
  rewrite (eval_S _ _ _ _ _ (Hnone _) L4).
  unfold interp at 1. cbn [opcode operands make_instruction].
  rewrite (eval_S _ _ _ _ _ (Hnone _) L2).
  unfold interp at 1.
  cbn [opcode operands make_instruction set_dimensions hlo_dimensions].
  rewrite (eval_S _ _ _ _ _ (Hnone _) L1).
  unfold interp at 1.
  cbn [opcode operands make_instruction set_dimensions hlo_dimensions shape].
  rewrite (eval_S _ _ _ _ _ N0 L0).
  unfold interp at 1.
  cbn [opcode operands make_instruction CreateConstant set_literal literal
       literal_tensor].
  rewrite L0. cbn [mbind option_bind].
  rewrite (eval_env _ _ _ _ _ HT).
  rewrite (eval_S _ _ _ _ _ (Hnone _) L3).
  unfold interp at 1.
  cbn [opcode operands make_instruction set_dimensions hlo_dimensions].
  rewrite (eval_env _ _ _ _ _ HF). cbn [mbind option_bind].
  eexists. split; [reflexivity |].
  intros idx Hv.
  pose proof (valid_index_lookup _ _ _ _ Hv Hnb) as Hb.
  pose proof (valid_index_lookup _ _ _ _ Hv Hns) as Hs.
  set (b := nth (Z.to_nat nbd) idx 0) in *.
  set (s := nth (Z.to_nat nsd) idx 0) in *.
  cbn [map dimensions shape CreateConstant set_literal make_instruction
       linearize delinearize fold_right].
  assert (Hpos : 0 < nb * ns) by nia.
  destruct (fill_slice_mask_value nb ns (nb / ob) os)
    as (bits' & Hfill' & _ & Hbits); try assumption.
  { intros _. destruct Hdiv as [q ->]. rewrite Z.div_mul in * by lia. nia. }
  rewrite Hfill in Hfill'. injection Hfill' as <-.
  replace ((0 * nb + b) * ns + s) with (b * ns + s) by lia.
  rewrite Z.div_1_r.
  assert (Hk : 0 <= b * ns + s < nb * ns) by nia.
  rewrite (nth_lookup_Some _ _ _ _ (Hbits _ Hk)).
  replace ((b * ns + s) / ns) with b
    by (rewrite Z.div_add_l by lia; rewrite Z.div_small by lia; lia).
  replace ((b * ns + s) mod ns) with s
    by (rewrite Z.add_comm, Z.mod_add by lia; now rewrite Z.mod_small by lia).
  destruct (b mod (nb / ob) * ns + s <? os); reflexivity.
Qed.




(** ** Evaluation is stable under more fuel and more instructions *)

Lemma all_some_mono {A B} (f g : A -> option B) (l : list A) r :
  (forall a b, f a = Some b -> g a = Some b) ->
  all_some (map f l) = Some r -> all_some (map g l) = Some r.
Proof.
  intros Hfg. revert r. induction l as [| a l IH]; intros r; simpl; [auto |].
  destruct (f a) as [b |] eqn:Ea; [| discriminate].
  rewrite (Hfg _ _ Ea).
  destruct (all_some (map f l)) as [r' |]; [| discriminate].
  rewrite (IH _ eq_refl). auto.
Qed.

Lemma interp_mono (rec rec' : nat -> option Tensor) c c' inst T :
  (forall o t, rec o = Some t -> rec' o = Some t) ->
  (forall o x, instructions c !! o = Some x ->
               instructions c' !! o = Some x) ->
  interp rec c inst = Some T -> interp rec' c' inst = Some T.
Proof.
  intros Hrec Hc. unfold interp.
  assert (Hdims : forall o d,
             (instructions c !! o ≫= fun i => Some (dimensions (shape i)))
             = Some d ->
             (instructions c' !! o ≫= fun i => Some (dimensions (shape i)))
             = Some d).
  { intros o d. destruct (instructions c !! o) as [x |] eqn:E; [| discriminate].
    now rewrite (Hc _ _ E). }
  destruct (opcode inst); try discriminate;
    try (destruct (operands inst) as [| o1 [| o2 [| o3 [| o4 ops]]]];
         try discriminate; try exact (fun H => H);
         repeat match goal with
                | |- context [rec ?o] =>
                    let E := fresh "E" in
                    destruct (rec o) eqn:E; [| discriminate];
                    rewrite (Hrec _ _ E); simpl
                | |- context [instructions c !! ?o] =>
                    let E := fresh "E" in
                    destruct (instructions c !! o) eqn:E; [| discriminate];
                    rewrite (Hc _ _ E); simpl
                end; exact (fun H => H)).
  (* kConcatenate *)
  destruct (hlo_dimensions inst) as [| d [| ? ?]]; try discriminate.
  intros H.
  destruct (all_some _) as [pieces |] eqn:Ep in H; [| discriminate].
  erewrite all_some_mono; [exact H | | exact Ep].
  intros o [t e]. simpl.
  destruct (rec o) as [t' |] eqn:E; [| discriminate]. rewrite (Hrec _ _ E).
  simpl. destruct (instructions c !! o) as [x |] eqn:Ex; [| discriminate].
  now rewrite (Hc _ _ Ex).
Qed.

Lemma eval_step_mono (rec rec' : nat -> option Tensor) c c' env i T :
  (forall o t, rec o = Some t -> rec' o = Some t) ->
  (forall o x, instructions c !! o = Some x ->
               instructions c' !! o = Some x) ->
  eval_step rec c env i = Some T -> eval_step rec' c' env i = Some T.
Proof.
  intros Hrec Hc. unfold eval_step. destruct (env i); [auto |].
  destruct (instructions c !! i) as [x |] eqn:E; [| discriminate].
  rewrite (Hc _ _ E). simpl. now apply interp_mono.
Qed.

(** More fuel and more instructions do not change a value. *)
Lemma eval_mono fuel : forall fuel' c c' env i T,
  (fuel <= fuel')%nat ->
  (forall o x, instructions c !! o = Some x ->
               instructions c' !! o = Some x) ->
  eval fuel c env i = Some T -> eval fuel' c' env i = Some T.
Proof.
  induction fuel as [| fuel IH]; intros fuel' c c' env i T Hle Hc H.
  - simpl in H. now apply eval_env.
  - destruct fuel' as [| fuel']; [lia |]. simpl in *.
    eapply eval_step_mono; [| exact Hc | exact H].
    intros o t Ho. eapply IH; [lia | exact Hc | exact Ho].
Qed.

Lemma eval_extend fuel fuel' c news env i T :
  (fuel <= fuel')%nat ->
  eval fuel c env i = Some T -> eval fuel' (extend c news) env i = Some T.
Proof.
  intros Hle. apply eval_mono; [exact Hle |].
  intros o x. apply extend_lookup_old.
Qed.

(** ** Slices, pads and concatenations on the batch and space axes *)

Lemma set_index_OK {A} (v : list A) i x :
  0 <= i -> (Z.to_nat i < length v)%nat ->
  set_index v i x = OK (<[Z.to_nat i := x]> v).
Proof.
  intros H0 Hl. unfold set_index.
  destruct (Z.ltb_spec i 0); [lia |].
  destruct (Nat.ltb_spec (Z.to_nat i) (length v)); [reflexivity | lia].
Qed.

(** Unit strides: the extents of a slice are the differences. *)
Lemma InferSliceDims_unit dims : forall starts limits,
  length starts = length dims -> length limits = length dims ->
  (forall i d s l, dims !! i = Some d -> starts !! i = Some s ->
                   limits !! i = Some l -> 0 <= s /\ s <= l /\ l <= d) ->
  InferSliceDims dims starts limits (replicate (length dims) 1)
  = OK (zip_with Z.sub limits starts).
Proof.
  induction dims as [| d dims IH]; intros [| s starts] [| l limits] Hs Hl H;
    try discriminate; [reflexivity |].
  simpl. destruct (H 0%nat d s l eq_refl eq_refl eq_refl) as (H1 & H2 & H3).
  destruct (Z.ltb_spec s 0); [lia |].
  destruct (Z.gtb_spec l d); [lia |].
  destruct (Z.gtb_spec s l); [lia |]. simpl.
  rewrite IH; simpl in *; try lia.
  - simpl. do 2 f_equal. replace (l - s + 1 - 1) with (l - s) by lia.
    apply Z.div_1_r.
  - intros i d' s' l' Hd' Hs' Hl'. exact (H (S i) d' s' l' Hd' Hs' Hl').
Qed.

Lemma slice_index_unit idx : forall starts,
  length starts = length idx ->
  slice_index idx starts (replicate (length idx) 1)
  = zip_with Z.add starts idx.
Proof.
  induction idx as [| i idx IH]; intros [| s starts] H; try discriminate;
    [reflexivity |].
  simpl. rewrite IH by (simpl in H; lia). f_equal. lia.
Qed.

Lemma zip_with_sub_zeros (l : list Z) :
  zip_with Z.sub l (replicate (length l) 0) = l.
Proof. induction l as [| x l IH]; simpl; [reflexivity |]. rewrite IH. f_equal. lia. Qed.

Lemma zip_with_add_zeros (l : list Z) :
  zip_with Z.add (replicate (length l) 0) l = l.
Proof. induction l as [| x l IH]; simpl; [reflexivity |]. now rewrite IH. Qed.

Section two_axes.

Variables (dims : list Z) (bd sd : nat) (B S : Z).
Hypothesis Hbd : dims !! bd = Some B.
Hypothesis Hsd : dims !! sd = Some S.
Hypothesis Hne : bd <> sd.
Hypothesis Hpos : Forall (fun d => 0 <= d) dims.

Let zeros := replicate (length dims) 0.
Let ones := replicate (length dims) 1.

Lemma bd_lt : (bd < length dims)%nat.
Proof. eapply lookup_lt_Some; eauto. Qed.

Lemma sd_lt : (sd < length dims)%nat.
Proof. eapply lookup_lt_Some; eauto. Qed.

(** A slice that restricts the batch axis to [lb, hb) and the space axis
    to [ls, hs). *)
Lemma InferSliceDims_two_axes lb hb ls hs :
  0 <= lb -> lb <= hb -> hb <= B -> 0 <= ls -> ls <= hs -> hs <= S ->
  InferSliceDims dims (<[sd := ls]> (<[bd := lb]> zeros))
    (<[sd := hs]> (<[bd := hb]> dims)) ones
  = OK (<[sd := hs - ls]> (<[bd := hb - lb]> dims)).
Proof.
  intros. pose proof bd_lt. pose proof sd_lt.
  unfold ones. rewrite InferSliceDims_unit.
  - rewrite <- !insert_zip_with. unfold zeros.
    now rewrite zip_with_sub_zeros.
  - unfold zeros. now rewrite !length_insert, length_replicate.
  - now rewrite !length_insert.
  - intros i d s l Hd Hs Hl.
    destruct (decide (i = sd)) as [-> | Hi1].
    + rewrite list_lookup_insert_eq in Hs, Hl
        by (unfold zeros; rewrite ?length_insert, ?length_replicate; lia).
      rewrite Hsd in Hd. simplify_eq. lia.
    + rewrite list_lookup_insert_ne in Hs, Hl by congruence.
      destruct (decide (i = bd)) as [-> | Hi2].
      * rewrite list_lookup_insert_eq in Hs, Hl
          by (unfold zeros; rewrite ?length_replicate; lia).
        rewrite Hbd in Hd. simplify_eq. lia.
      * rewrite list_lookup_insert_ne in Hs, Hl by congruence.
        unfold zeros in Hs. apply lookup_replicate_1 in Hs as [-> _].
        rewrite Hd in Hl. simplify_eq.
        rewrite Forall_lookup in Hpos. specialize (Hpos _ _ Hd). lia.
Qed.

Lemma slice_index_two_axes idx lb ls :
  length idx = length dims ->
  slice_index idx (<[sd := ls]> (<[bd := lb]> zeros)) ones
  = <[sd := ls + nth sd idx 0]> (<[bd := lb + nth bd idx 0]> idx).
Proof.
  intros Hlen. pose proof bd_lt. pose proof sd_lt.
  unfold ones, zeros. rewrite <- Hlen.
  rewrite slice_index_unit by now rewrite !length_insert, length_replicate.
  assert (Hb : idx !! bd = Some (nth bd idx 0)).
  { destruct (lookup_lt_is_Some_2 idx bd ltac:(lia)) as [x Hx].
    now rewrite (nth_lookup_Some _ _ _ _ Hx). }
  assert (Hs : idx !! sd = Some (nth sd idx 0)).
  { destruct (lookup_lt_is_Some_2 idx sd ltac:(lia)) as [x Hx].
    now rewrite (nth_lookup_Some _ _ _ _ Hx). }
  set (ib := nth bd idx 0) in *. set (isp := nth sd idx 0) in *.
  symmetry. rewrite <- (zip_with_add_zeros idx) at 1.
  rewrite !insert_zip_with.
  rewrite (list_insert_id idx bd _ Hb), (list_insert_id idx sd _ Hs).
  reflexivity.
Qed.

End two_axes.

(** Edge padding only: each extent grows by the low and high padding. *)
Lemma InferPadDims_edge dims : forall cfg : list PaddingConfigDimension,
  length cfg = length dims ->
  (forall i d p, dims !! i = Some d -> cfg !! i = Some p ->
                 interior_padding p = 0 /\
                 0 <= edge_padding_low p + d + edge_padding_high p) ->
  InferPadDims dims cfg
  = OK (zip_with (fun d p => edge_padding_low p + d + edge_padding_high p)
                 dims cfg).
Proof.
  induction dims as [| d dims IH]; intros [| p cfg] Hl H; try discriminate;
    [reflexivity |].
  simpl. destruct (H 0%nat d p eq_refl eq_refl) as [Hi Hd]. rewrite Hi.
  rewrite Z.mul_0_r, Z.add_0_r.
  destruct (Z.ltb_spec 0 0); [lia |].
  destruct (Z.ltb_spec (edge_padding_low p + d + edge_padding_high p) 0);
    [lia |]. simpl.
  rewrite IH; [reflexivity | simpl in Hl; lia |].
  intros i d' p' Hd' Hp'. exact (H (S i) d' p' Hd' Hp').
Qed.

(** An index into an edge-padded tensor that is in no padding. *)
Lemma pad_index_inside idx : forall dims (cfg : list PaddingConfigDimension),
  length dims = length idx -> length cfg = length idx ->
  (forall i x d p, idx !! i = Some x -> dims !! i = Some d ->
                   cfg !! i = Some p ->
                   interior_padding p = 0 /\
                   0 <= x - edge_padding_low p < d) ->
  pad_index idx dims cfg
  = Some (zip_with (fun x p => x - edge_padding_low p) idx cfg).
Proof.
  induction idx as [| x idx IH]; intros [| d dims] [| p cfg] Hd Hc H;
    try discriminate; [reflexivity |].
  simpl. destruct (H 0%nat x d p eq_refl eq_refl eq_refl) as [Hi Hx].
  rewrite Hi. simpl. rewrite Z.mod_1_r, Z.div_1_r.
  destruct (Z.leb_spec 0 (x - edge_padding_low p)); [| lia].
  destruct (Z.ltb_spec (x - edge_padding_low p) d); [| lia]. simpl.
  rewrite IH; [reflexivity | simpl in *; lia | simpl in *; lia |].
  intros i x' d' p' Hx' Hd' Hp'. exact (H (S i) x' d' p' Hx' Hd' Hp').
Qed.

(** An index into an edge-padded tensor that is in the padding of some
    axis. *)
Lemma pad_index_outside idx : forall dims (cfg : list PaddingConfigDimension)
    i x d p,
  idx !! i = Some x -> dims !! i = Some d -> cfg !! i = Some p ->
  interior_padding p = 0 ->
  ~ (0 <= x - edge_padding_low p < d) ->
  pad_index idx dims cfg = None.
Proof.
  induction idx as [| y idx IH]; intros [| e dims] [| q cfg] i x d p Hx Hd Hp Hi Hout;
    try discriminate.
  destruct i as [| i]; simpl in Hx, Hd, Hp.
  - simplify_eq. simpl. rewrite Hi. simpl. rewrite Z.mod_1_r, Z.div_1_r.
    destruct (Z.leb_spec 0 (x - edge_padding_low p));
      destruct (Z.ltb_spec (x - edge_padding_low p) d); try lia; reflexivity.
  - simpl. rewrite (IH dims cfg i x d p Hx Hd Hp Hi Hout).
    destruct (_ && _); reflexivity.
Qed.

Lemma zip_with_no_padding (dims : list Z) :
  zip_with (fun d p => edge_padding_low p + d + edge_padding_high p) dims
    (replicate (length dims) no_padding_dimension) = dims.
Proof.
  induction dims as [| d dims IH]; simpl; [reflexivity |].
  rewrite IH. f_equal. lia.
Qed.

Lemma zip_with_no_padding_index (idx : list Z) :
  zip_with (fun x p => x - edge_padding_low p) idx
    (replicate (length idx) no_padding_dimension) = idx.
Proof.
  induction idx as [| d idx IH]; simpl; [reflexivity |].
  rewrite IH. f_equal. lia.
Qed.

Lemma valid_index_length dims idx :
  valid_index dims idx -> length idx = length dims.
Proof. intros H. symmetry. exact (Forall2_length _ _ _ H). Qed.

Lemma valid_index_nth dims idx i d :
  valid_index dims idx -> dims !! i = Some d ->
  idx !! i = Some (nth i idx 0) /\ 0 <= nth i idx 0 < d.
Proof.
  intros Hv Hd. destruct (Forall2_lookup_l _ _ _ _ _ Hv Hd) as (x & Hx & Hb).
  rewrite (nth_lookup_Some _ _ _ _ Hx). auto.
Qed.

Lemma valid_index_insert dims idx i d x :
  valid_index dims idx -> 0 <= x < d ->
  valid_index (<[i := d]> dims) (<[i := x]> idx).
Proof.
  intros Hv Hx. unfold valid_index. revert i.
  induction Hv as [| d' x' dims idx Hd Hv IH]; intros [| i]; simpl;
    constructor; auto.
Qed.

Section batch_padding.

Variables (dims : list Z) (bd : nat) (B' pl ph : Z).
Hypothesis Hbd : dims !! bd = Some B'.
Hypothesis Hpos : Forall (fun d => 0 <= d) dims.

Let cfg : list PaddingConfigDimension :=
  <[bd := {| edge_padding_low := pl; edge_padding_high := ph;
             interior_padding := 0 |}]>
    (replicate (length dims) no_padding_dimension).

Lemma cfg_lookup i p :
  cfg !! i = Some p ->
  interior_padding p = 0 /\
  (i = bd /\ edge_padding_low p = pl /\ edge_padding_high p = ph \/
   i <> bd /\ edge_padding_low p = 0 /\ edge_padding_high p = 0).
Proof.
  unfold cfg. intros H. apply list_lookup_insert_Some in H.
  destruct H as [(-> & <- & _) | (Hi & H)]; simpl; [auto |].
  apply lookup_replicate_1 in H as [-> _]. simpl. auto.
Qed.

Lemma InferPadDims_batch :
  0 <= pl + B' + ph ->
  InferPadDims dims cfg = OK (<[bd := pl + B' + ph]> dims).
Proof.
  intros H. rewrite InferPadDims_edge.
  - unfold cfg. f_equal.
    rewrite <- (list_insert_id dims bd _ Hbd) at 1.
    rewrite <- insert_zip_with. now rewrite zip_with_no_padding.
  - unfold cfg. now rewrite length_insert, length_replicate.
  - intros i d p Hd Hp. destruct (cfg_lookup _ _ Hp) as (Hi & Hc).
    split; [exact Hi |].
    destruct Hc as [(-> & -> & ->) | (_ & -> & ->)].
    + rewrite Hbd in Hd. simplify_eq. lia.
    + rewrite Forall_lookup in Hpos. specialize (Hpos _ _ Hd). lia.
Qed.

(** The index into the operand: the batch coordinate shifts by the low
    padding, and falls in the padding below [pl] and from [pl + B']. *)
Lemma pad_index_batch idx :
  valid_index (<[bd := pl + B' + ph]> dims) idx ->
  pad_index idx dims cfg
  = if (0 <=? nth bd idx 0 - pl) && (nth bd idx 0 - pl <? B')
    then Some (<[bd := nth bd idx 0 - pl]> idx) else None.
Proof.
  intros Hv. pose proof (valid_index_length _ _ Hv) as Hlen.
  rewrite length_insert in Hlen.
  assert (Hlt : (bd < length dims)%nat) by (eapply lookup_lt_Some; eauto).
  assert (Hib : idx !! bd = Some (nth bd idx 0)).
  { destruct (lookup_lt_is_Some_2 idx bd ltac:(lia)) as [x Hx].
    now rewrite (nth_lookup_Some _ _ _ _ Hx). }
  set (ib := nth bd idx 0) in *.
  destruct (Z.leb_spec 0 (ib - pl)); destruct (Z.ltb_spec (ib - pl) B');
    simpl.
  - rewrite pad_index_inside.
    + f_equal. unfold cfg.
      rewrite <- (list_insert_id idx bd _ Hib) at 1.
      rewrite <- insert_zip_with. simpl. rewrite <- Hlen.
      now rewrite zip_with_no_padding_index.
    + lia.
    + unfold cfg. rewrite length_insert, length_replicate. lia.
    + intros i x d p Hx Hd Hp. destruct (cfg_lookup _ _ Hp) as (Hi & Hc).
      split; [exact Hi |].
      destruct Hc as [(-> & -> & _) | (Hne & -> & _)].
      * rewrite Hbd in Hd. rewrite Hib in Hx. simplify_eq. lia.
      * assert (Hd' : <[bd := pl + B' + ph]> dims !! i = Some d)
          by now rewrite list_lookup_insert_ne.
        destruct (valid_index_nth _ _ _ _ Hv Hd') as [Hx' Hb].
        rewrite Hx' in Hx. simplify_eq. lia.
  - eapply (pad_index_outside idx dims cfg bd ib B');
      [ exact Hib | exact Hbd
      | unfold cfg; apply list_lookup_insert_eq; now rewrite length_replicate
      | reflexivity | simpl; lia ].
  - eapply (pad_index_outside idx dims cfg bd ib B');
      [ exact Hib | exact Hbd
      | unfold cfg; apply list_lookup_insert_eq; now rewrite length_replicate
      | reflexivity | simpl; lia ].
  - eapply (pad_index_outside idx dims cfg bd ib B');
      [ exact Hib | exact Hbd
      | unfold cfg; apply list_lookup_insert_eq; now rewrite length_replicate
      | reflexivity | simpl; lia ].
Qed.

End batch_padding.

Lemma set_edge_padding_low_OK (r : nat) d v :
  0 <= d -> (Z.to_nat d < r)%nat ->
  set_edge_padding_low (MakeNoPaddingConfig (Z.of_nat r)) d v
  = OK (<[Z.to_nat d := {| edge_padding_low := v; edge_padding_high := 0;
                           interior_padding := 0 |}]>
          (replicate r no_padding_dimension)).
Proof.
  intros H0 Hl. unfold set_edge_padding_low, MakeNoPaddingConfig.
  rewrite Nat2Z.id. unfold at_index.
  destruct (Z.ltb_spec d 0); [lia |].
  rewrite lookup_replicate_2 by lia. simpl.
  apply set_index_OK; [lia | now rewrite length_replicate].
Qed.

Lemma set_edge_padding_high_OK (r : nat) d v :
  0 <= d -> (Z.to_nat d < r)%nat ->
  set_edge_padding_high (MakeNoPaddingConfig (Z.of_nat r)) d v
  = OK (<[Z.to_nat d := {| edge_padding_low := 0; edge_padding_high := v;
                           interior_padding := 0 |}]>
          (replicate r no_padding_dimension)).
Proof.
  intros H0 Hl. unfold set_edge_padding_high, MakeNoPaddingConfig.
  rewrite Nat2Z.id. unfold at_index.
  destruct (Z.ltb_spec d 0); [lia |].
  rewrite lookup_replicate_2 by lia. simpl.
  apply set_index_OK; [lia | now rewrite length_replicate].
Qed.

(** ** Running the slice, pad and concatenate builders *)

Lemma MakeSliceHlo_run c operand starts limits strides x dims' :
  instructions c !! operand = Some x ->
  InferSliceDims (dimensions (shape x)) starts limits strides = OK dims' ->
  MakeSliceHlo operand starts limits strides c
  = OK (length (instructions c),
        extend c [set_slice starts limits strides
                    (make_instruction kSlice
                       {| element_type := element_type (shape x);
                          dimensions := dims' |} [operand])]).
Proof.
  intros Hx Hd. unfold MakeSliceHlo.
  rewrite (bind_OK _ _ _ _ _ (shape_of_OK _ _ _ Hx)).
  rewrite Hd, bind_lift_OK. reflexivity.
Qed.

Lemma MakePadHlo_run c operand padding_value cfg x v dims' :
  instructions c !! operand = Some x ->
  instructions c !! padding_value = Some v ->
  dimensions (shape v) = [] ->
  element_type (shape v) = element_type (shape x) ->
  InferPadDims (dimensions (shape x)) cfg = OK dims' ->
  MakePadHlo operand padding_value cfg c
  = OK (length (instructions c),
        extend c [set_padding_config cfg
                    (make_instruction kPad
                       {| element_type := element_type (shape x);
                          dimensions := dims' |}
                       [operand; padding_value])]).
Proof.
  intros Hx Hv Hs Ht Hd. unfold MakePadHlo.
  rewrite (bind_OK _ _ _ _ _ (shape_of_OK _ _ _ Hx)).
  rewrite (bind_OK _ _ _ _ _ (shape_of_OK _ _ _ Hv)).
  unfold IsScalar. rewrite Hs.
  rewrite same_element_type_true by congruence. simpl.
  rewrite Hd, bind_lift_OK. reflexivity.
Qed.

Lemma concat_compatible_insert (dims : list Z) (d : nat) e1 e2 :
  concat_compatible (Z.of_nat d) (<[d := e1]> dims) (<[d := e2]> dims) = true.
Proof.
  unfold concat_compatible. rewrite !length_insert, Nat.eqb_refl. simpl.
  apply forallb_forall. intros i Hi. unfold range in Hi.
  apply in_map_iff in Hi as (k & <- & Hk).
  destruct (Z.eqb_spec (Z.of_nat k) (Z.of_nat d)); [reflexivity |]. simpl.
  rewrite Nat2Z.id. apply Z.eqb_eq.
  rewrite !nth_lookup, !list_lookup_insert_ne by lia. reflexivity.
Qed.

Lemma shapes_of_two c o1 o2 x1 x2 :
  instructions c !! o1 = Some x1 ->
  instructions c !! o2 = Some x2 ->
  shapes_of [o1; o2] c = OK ([shape x1; shape x2], c).
Proof.
  intros H1 H2. unfold shapes_of, bind.
  rewrite (shape_of_OK _ _ _ H1), (shape_of_OK _ _ _ H2). reflexivity.
Qed.

(** The concatenation, along an axis, of two tensors that differ in the
    extent of this axis only. *)
Lemma MakeConcatHlo_run c o1 o2 x1 x2 (dims : list Z) (d : nat) e1 e2 :
  instructions c !! o1 = Some x1 ->
  instructions c !! o2 = Some x2 ->
  element_type (shape x1) = element_type (shape x2) ->
  dimensions (shape x1) = <[d := e1]> dims ->
  dimensions (shape x2) = <[d := e2]> dims ->
  (d < length dims)%nat ->
  MakeConcatHlo [o1; o2] (Z.of_nat d) c
  = OK (length (instructions c),
        extend c [set_dimensions [Z.of_nat d]
                    (make_instruction kConcatenate
                       {| element_type := element_type (shape x1);
                          dimensions := <[d := e1 + e2]> dims |}
                       [o1; o2])]).
Proof.
  intros H1 H2 Ht D1 D2 Hd. unfold MakeConcatHlo.
  rewrite (bind_OK _ _ _ _ _ (shapes_of_two _ _ _ _ _ H1 H2)).
  unfold InferConcatOpShape, rank. rewrite D1, length_insert.
  destruct (Z.ltb_spec (Z.of_nat d) 0); [lia |].
  destruct (Z.geb_spec (Z.of_nat d) (Z.of_nat (length dims))); [lia |].
  simpl orb. cbv iota. simpl forallb. simpl map.
  rewrite same_element_type_true by exact Ht.
  rewrite D1, D2, concat_compatible_insert. simpl andb. cbv iota.
  rewrite bind_lift_OK.
  rewrite Nat2Z.id, !nth_lookup, !list_lookup_insert_eq by lia.
  simpl. rewrite list_insert_insert_eq.
  replace (e1 + (e2 + 0)) with (e1 + e2) by lia. reflexivity.
Qed.

(** ** The values of slices, pads and concatenations *)

Lemma has_value_extend fuel fuel' c news env i dims F :
  (fuel <= fuel')%nat ->
  has_value fuel c env i dims F ->
  has_value fuel' (extend c news) env i dims F.
Proof.
  intros Hle (T & HT & HF). exists T. split; [| exact HF].
  now apply eval_extend with (fuel := fuel).
Qed.

Lemma has_value_fuel fuel fuel' c env i dims F :
  (fuel <= fuel')%nat ->
  has_value fuel c env i dims F -> has_value fuel' c env i dims F.
Proof.
  intros Hle (T & HT & HF). exists T. split; [| exact HF].
  eapply eval_mono; [exact Hle | | exact HT]. auto.
Qed.

Lemma has_value_ext fuel c env i dims F G :
  (forall idx, valid_index dims idx -> F idx = G idx) ->
  has_value fuel c env i dims F -> has_value fuel c env i dims G.
Proof.
  intros HFG (T & HT & HF). exists T. split; [exact HT |].
  intros idx Hv. rewrite HF by exact Hv. now apply HFG.
Qed.

Lemma has_shape_extend c news i ty dims :
  has_shape c i ty dims -> has_shape (extend c news) i ty dims.
Proof.
  intros (x & Hx & H). exists x. split; [| exact H].
  now apply extend_lookup_old.
Qed.

Lemma eval_slice c env i x st li sr sh fuel t :
  instructions c !! i
  = Some (set_slice st li sr (make_instruction kSlice sh [x])) ->
  env i = None -> eval fuel c env x = Some t ->
  eval (S fuel) c env i = Some (fun idx => t (slice_index idx st sr)).
Proof.
  intros Hi He Hx. rewrite (eval_S _ _ _ _ _ He Hi). unfold interp. simpl.
  now rewrite Hx.
Qed.

Lemma eval_pad c env i x v cfg sh fuel t tv xi :
  instructions c !! i
  = Some (set_padding_config cfg (make_instruction kPad sh [x; v])) ->
  env i = None ->
  eval fuel c env x = Some t -> eval fuel c env v = Some tv ->
  instructions c !! x = Some xi ->
  eval (S fuel) c env i
  = Some (fun idx => match pad_index idx (dimensions (shape xi)) cfg with
                     | Some idx' => t idx'
                     | None => tv []
                     end).
Proof.
  intros Hi He Hx Hv Hxi. rewrite (eval_S _ _ _ _ _ He Hi). unfold interp.
  simpl. rewrite Hx, Hv. simpl. now rewrite Hxi.
Qed.

Lemma eval_concat2 c env i o1 o2 d sh fuel t1 t2 x1 x2 :
  instructions c !! i
  = Some (set_dimensions [d] (make_instruction kConcatenate sh [o1; o2])) ->
  env i = None ->
  eval fuel c env o1 = Some t1 -> eval fuel c env o2 = Some t2 ->
  instructions c !! o1 = Some x1 -> instructions c !! o2 = Some x2 ->
  eval (S fuel) c env i
  = Some (concat_pick
            [(t1, nth (Z.to_nat d) (dimensions (shape x1)) 0);
             (t2, nth (Z.to_nat d) (dimensions (shape x2)) 0)]
            (Z.to_nat d)).
Proof.
  intros Hi He H1 H2 Hx1 Hx2. rewrite (eval_S _ _ _ _ _ He Hi).
  unfold interp. simpl. rewrite H1, H2. simpl. rewrite Hx1, Hx2. reflexivity.
Qed.

Lemma valid_index_reinsert dims idx (i : nat) e e' :
  valid_index (<[i := e]> dims) idx -> (i < length dims)%nat ->
  0 <= nth i idx 0 < e' ->
  valid_index (<[i := e']> dims) idx.
Proof.
  intros Hv Hlt Hx.
  assert (Hl := valid_index_length _ _ Hv). rewrite length_insert in Hl.
  assert (Hi : idx !! i = Some (nth i idx 0)).
  { destruct (lookup_lt_is_Some_2 idx i ltac:(lia)) as [x Hx'].
    now rewrite (nth_lookup_Some _ _ _ _ Hx'). }
  rewrite <- (list_insert_id idx i _ Hi).
  rewrite <- (list_insert_insert_eq dims i e' e).
  now apply valid_index_insert.
Qed.

(** The value of a concatenation of two pieces along axis [d]. *)
Lemma has_value_concat c env i o1 o2 (d : nat) sh fuel dims e1 e2 F1 F2 ty :
  instructions c !! i
  = Some (set_dimensions [Z.of_nat d]
            (make_instruction kConcatenate sh [o1; o2])) ->
  env i = None ->
  has_shape c o1 ty (<[d := e1]> dims) ->
  has_shape c o2 ty (<[d := e2]> dims) ->
  has_value fuel c env o1 (<[d := e1]> dims) F1 ->
  has_value fuel c env o2 (<[d := e2]> dims) F2 ->
  (d < length dims)%nat -> 0 <= e1 ->
  has_value (S fuel) c env i (<[d := e1 + e2]> dims)
    (fun idx => if nth d idx 0 <? e1 then F1 idx
                else F2 (<[d := nth d idx 0 - e1]> idx)).
Proof.
  intros Hi He (x1 & Hx1 & _ & D1) (x2 & Hx2 & _ & D2)
         (T1 & HT1 & HF1) (T2 & HT2 & HF2) Hd He1.
  eexists. split.
  { eapply eval_concat2; eauto. }
  intros idx Hv. rewrite Nat2Z.id, D1, D2.
  rewrite !nth_lookup, !list_lookup_insert_eq by lia. simpl.
  rewrite <- !nth_lookup.
  assert (Hx : 0 <= nth d idx 0 < e1 + e2).
  { eapply valid_index_nth; [exact Hv |].
    apply list_lookup_insert_eq. lia. }
  destruct (Z.ltb_spec (nth d idx 0) e1).
  - apply HF1. eapply valid_index_reinsert; eauto. lia.
  - rewrite nth_lookup.
    assert (Hl := valid_index_length _ _ Hv). rewrite length_insert in Hl.
    rewrite list_lookup_insert_eq by lia. simpl.
    destruct (Z.ltb_spec (nth d idx 0 - e1) e2); [| lia].
    apply HF2.
    rewrite <- (list_insert_insert_eq dims d e2 (e1 + e2)).
    apply valid_index_insert; [exact Hv | lia].
Qed.

Lemma insert_nth_id (l : list Z) (i : nat) :
  (i < length l)%nat -> <[i := nth i l 0]> l = l.
Proof.
  intros H. apply list_insert_id.
  destruct (lookup_lt_is_Some_2 l i H) as [x Hx].
  now rewrite (nth_lookup_Some _ _ _ _ Hx).
Qed.

Lemma nth_insert_eq (l : list Z) (i : nat) x :
  (i < length l)%nat -> nth i (<[i := x]> l) 0 = x.
Proof. intros H. now rewrite nth_lookup, list_lookup_insert_eq. Qed.

Lemma nth_insert_ne (l : list Z) (i j : nat) x :
  i <> j -> nth j (<[i := x]> l) 0 = nth j l 0.
Proof. intros H. now rewrite !nth_lookup, list_lookup_insert_ne. Qed.

Section halo_pieces.

Variables (D : list Z) (bd sd : nat) (B Sz : Z).
Hypothesis Hbd : D !! bd = Some B.
Hypothesis Hsd : D !! sd = Some Sz.
Hypothesis Hne : bd <> sd.
Hypothesis Hpos : Forall (fun d => 0 <= d) D.

Variables (c : HloComputation) (env : nat -> option Tensor).
Variables (a p : nat) (A P : Tensor).
Hypothesis HA : env a = Some A.
Hypothesis HP : forall fuel, (1 <= fuel)%nat -> eval fuel c env p = Some P.

Let zeros := replicate (length D) 0.
Let ones := replicate (length D) 1.

(** A slice of the activations on the batch and space axes. *)
Lemma slice_value i lb ls limits sh fuel dims :
  instructions c !! i
  = Some (set_slice (<[sd := ls]> (<[bd := lb]> zeros)) limits ones
            (make_instruction kSlice sh [a])) ->
  env i = None -> length dims = length D ->
  has_value (S fuel) c env i dims
    (fun idx => A (<[sd := ls + nth sd idx 0]>
                     (<[bd := lb + nth bd idx 0]> idx))).
Proof.
  intros Hi He Hl. eexists. split.
  { eapply eval_slice; [exact Hi | exact He | apply eval_env; exact HA]. }
  intros idx Hv. simpl. f_equal.
  apply (slice_index_two_axes D bd sd B Sz Hbd Hsd Hne).
  rewrite (valid_index_length _ _ Hv). exact Hl.
Qed.

(** The first slice: the tail of the previous batch row, row 0 padded. *)
Lemma first_slice_value i_s i_p low limits sh_s sh_p :
  instructions c !! i_s
  = Some (set_slice (<[sd := Sz - low]> (<[bd := 0]> zeros)) limits ones
            (make_instruction kSlice sh_s [a])) ->
  dimensions sh_s = <[sd := low]> (<[bd := B - 1]> D) ->
  instructions c !! i_p
  = Some (set_padding_config
            (<[bd := {| edge_padding_low := 1; edge_padding_high := 0;
                        interior_padding := 0 |}]>
               (replicate (length D) no_padding_dimension))
            (make_instruction kPad sh_p [i_s; p])) ->
  env i_s = None -> env i_p = None -> 1 <= B -> 0 <= low ->
  has_value 2 c env i_p (<[sd := low]> D)
    (fun idx => if nth bd idx 0 =? 0 then P []
                else A (<[sd := Sz - low + nth sd idx 0]>
                          (<[bd := nth bd idx 0 - 1]> idx))).
Proof.
  intros Hs Hds Hp Hes Hep HB Hlow.
  pose proof (bd_lt _ _ _ Hbd) as Hbl. pose proof (bd_lt _ _ _ Hsd) as Hsl.
  eexists. split.
  { eapply eval_pad; [exact Hp | exact Hep | | apply HP; lia | exact Hs].
    eapply eval_slice; [exact Hs | exact Hes | apply eval_env; exact HA]. }
  intros idx Hv. cbn [shape make_instruction set_slice]. rewrite Hds.
  assert (Hlen := valid_index_length _ _ Hv). rewrite length_insert in Hlen.
  assert (Hib : 0 <= nth bd idx 0 < B).
  { eapply valid_index_nth; [exact Hv |].
    now rewrite list_lookup_insert_ne. }
  replace (length D) with (length (<[sd := low]> (<[bd := B - 1]> D)))
    by now rewrite !length_insert.
  rewrite (pad_index_batch _ bd (B - 1) 1 0).
  - destruct (Z.leb_spec 0 (nth bd idx 0 - 1));
      destruct (Z.ltb_spec (nth bd idx 0 - 1) (B - 1));
      destruct (Z.eqb_spec (nth bd idx 0) 0); try lia; simpl;
      try reflexivity.
    f_equal. unfold zeros, ones.
    rewrite (slice_index_two_axes D bd sd B Sz Hbd Hsd Hne)
      by (rewrite length_insert; lia).
    rewrite nth_insert_eq, nth_insert_ne by lia.
    rewrite list_insert_insert_eq. repeat (f_equal; try lia).
  - rewrite list_lookup_insert_ne by congruence.
    apply list_lookup_insert_eq. lia.
  - replace (1 + (B - 1) + 0) with B by lia.
    rewrite list_insert_insert_ne by congruence.
    rewrite list_insert_insert_eq, (list_insert_id D bd B Hbd). exact Hv.
Qed.

(** The halo region: the head of the next batch row, the last row
    padded. *)
Lemma halo_region_value i_s i_p h limits sh_s sh_p :
  instructions c !! i_s
  = Some (set_slice (<[sd := 0]> (<[bd := 1]> zeros)) limits ones
            (make_instruction kSlice sh_s [a])) ->
  dimensions sh_s = <[sd := h]> (<[bd := B - 1]> D) ->
  instructions c !! i_p
  = Some (set_padding_config
            (<[bd := {| edge_padding_low := 0; edge_padding_high := 1;
                        interior_padding := 0 |}]>
               (replicate (length D) no_padding_dimension))
            (make_instruction kPad sh_p [i_s; p])) ->
  env i_s = None -> env i_p = None -> 1 <= B -> 0 <= h ->
  has_value 2 c env i_p (<[sd := h]> D)
    (fun idx => if nth bd idx 0 =? B - 1 then P []
                else A (<[sd := nth sd idx 0]>
                          (<[bd := nth bd idx 0 + 1]> idx))).
Proof.
  intros Hs Hds Hp Hes Hep HB Hh.
  pose proof (bd_lt _ _ _ Hbd) as Hbl. pose proof (bd_lt _ _ _ Hsd) as Hsl.
  eexists. split.
  { eapply eval_pad; [exact Hp | exact Hep | | apply HP; lia | exact Hs].
    eapply eval_slice; [exact Hs | exact Hes | apply eval_env; exact HA]. }
  intros idx Hv. cbn [shape make_instruction set_slice]. rewrite Hds.
  assert (Hlen := valid_index_length _ _ Hv). rewrite length_insert in Hlen.
  assert (Hib : 0 <= nth bd idx 0 < B).
  { eapply valid_index_nth; [exact Hv |].
    now rewrite list_lookup_insert_ne. }
  replace (length D) with (length (<[sd := h]> (<[bd := B - 1]> D)))
    by now rewrite !length_insert.
  rewrite (pad_index_batch _ bd (B - 1) 0 1).
  - destruct (Z.leb_spec 0 (nth bd idx 0 - 0));
      destruct (Z.ltb_spec (nth bd idx 0 - 0) (B - 1));
      destruct (Z.eqb_spec (nth bd idx 0) (B - 1)); try lia; simpl;
      try reflexivity.
    f_equal. unfold zeros, ones.
    rewrite (slice_index_two_axes D bd sd B Sz Hbd Hsd Hne)
      by (rewrite length_insert; lia).
    rewrite nth_insert_eq, nth_insert_ne by lia.
    rewrite list_insert_insert_eq. repeat (f_equal; try lia).
  - rewrite list_lookup_insert_ne by congruence.
    apply list_lookup_insert_eq. lia.
  - replace (0 + (B - 1) + 1) with B by lia.
    rewrite list_insert_insert_ne by congruence.
    rewrite list_insert_insert_eq, (list_insert_id D bd B Hbd). exact Hv.
Qed.

End halo_pieces.


(** ** The phases of [HaloDuplicateWithSlice] *)

Lemma extend_lookup_0 c x l :
  instructions (extend c (x :: l)) !! length (instructions c) = Some x.
Proof.
  rewrite <- (Nat.add_0_r (length (instructions c))).
  now rewrite extend_lookup_new.
Qed.

Lemma extend_lookup_1 c x y l :
  instructions (extend c (x :: y :: l)) !! S (length (instructions c))
  = Some y.
Proof.
  replace (S (length (instructions c)))
    with (length (instructions c) + 1)%nat by lia.
  now rewrite extend_lookup_new.
Qed.

Lemma halo_env_extend c news a p env A P :
  halo_env c a p env A P -> halo_env (extend c news) a p env A P.
Proof.
  intros (HA & HP & Hfresh). split; [exact HA | split].
  - intros fuel Hf. apply eval_extend with (fuel := fuel); auto.
  - intros i Hi. apply Hfresh. rewrite extend_length in Hi. lia.
Qed.

Section halo_phases.

Variables (c : HloComputation) (a p : InstrId) (act pv : HloInstruction).
Variables (ty : PrimitiveType) (D : list Z) (bd sd B Sz : Z).

Hypothesis Ha : instructions c !! a = Some act.
Hypothesis Hact : shape act = {| element_type := ty; dimensions := D |}.
Hypothesis Hp : instructions c !! p = Some pv.
Hypothesis Hpv : shape pv = {| element_type := ty; dimensions := [] |}.
Hypothesis Hbd0 : 0 <= bd.
Hypothesis Hsd0 : 0 <= sd.
Hypothesis Hbd : D !! Z.to_nat bd = Some B.
Hypothesis Hsd : D !! Z.to_nat sd = Some Sz.
Hypothesis Hne : Z.to_nat bd <> Z.to_nat sd.
Hypothesis Hpos : Forall (fun d => 0 <= d) D.
Hypothesis HB : 1 <= B.
Hypothesis SB : Int64.safe B.
Hypothesis SS : Int64.safe Sz.

Let n := length (instructions c).
Let zeros := replicate (length D) 0.
Let ones := replicate (length D) 1.

Lemma first_slice_phase low :
  0 < low -> low <= Sz -> Int64.safe low ->
  exists sl pd,
    (start_indices <-! set_index zeros sd (Sz - low)%i64 ;;
     end_indices <-! set_index D bd (B - 1)%i64 ;;
     end_indices <-! set_index end_indices sd Sz ;;
     first_slice <- MakeSliceHlo a start_indices end_indices ones ;;
     first_slice_shape <- shape_of first_slice ;;
     padding_config <-!
       set_edge_padding_low (MakeNoPaddingConfig (rank first_slice_shape))
         bd 1 ;;
     first_slice <- MakePadHlo first_slice p padding_config ;;
     ret (Some first_slice))%state c
    = OK (Some (S n), extend c [sl; pd]) /\
    has_shape (extend c [sl; pd]) (S n) ty (<[Z.to_nat sd := low]> D) /\
    forall env A P, halo_env c a p env A P ->
      has_value 2 (extend c [sl; pd]) env (S n) (<[Z.to_nat sd := low]> D)
        (fun idx =>
           if nth (Z.to_nat bd) idx 0 =? 0 then P []
           else A (<[Z.to_nat sd := Sz - low + nth (Z.to_nat sd) idx 0]>
                     (<[Z.to_nat bd := nth (Z.to_nat bd) idx 0 - 1]> idx))).
Proof.
  intros Hl0 Hl1 Sl.
  pose proof (bd_lt _ _ _ Hbd) as Hbl. pose proof (bd_lt _ _ _ Hsd) as Hsl.
  assert (HSz : 0 <= Sz) by (rewrite Forall_lookup in Hpos; eauto).
  eexists _, _.
  rewrite (sub_exact Sz low), (sub_exact B 1) by in_range_tac.
  repeat (rewrite set_index_OK
            by (rewrite ?length_insert; subst zeros;
                rewrite ?length_replicate; lia);
          rewrite bind_lift_OK).
  assert (Hz : <[Z.to_nat sd := Sz - low]> zeros
               = <[Z.to_nat sd := Sz - low]> (<[Z.to_nat bd := 0]> zeros)).
  { f_equal. symmetry. apply list_insert_id. subst zeros.
    now apply lookup_replicate_2. }
  rewrite Hz.
  erewrite bind_OK.
  2:{ eapply MakeSliceHlo_run; [exact Ha |]. rewrite Hact. cbn [dimensions].
      apply (InferSliceDims_two_axes D _ _ B Sz Hbd Hsd Hne Hpos); lia. }
  fold n.
  erewrite bind_OK.
  2:{ apply shape_of_OK, extend_lookup_0. }
  cbn [shape set_slice make_instruction dimensions rank].
  rewrite Hact. cbn [element_type].
  replace (Sz - (Sz - low)) with low by lia.
  replace (B - 1 - 0) with (B - 1) by lia.
  set (sdims := <[Z.to_nat sd := low]> (<[Z.to_nat bd := B - 1]> D)).
  assert (Hlen : length sdims = length D)
    by (subst sdims; now rewrite !length_insert).
  unfold rank; cbn [dimensions]. rewrite Hlen.
  rewrite set_edge_padding_low_OK, bind_lift_OK by lia.
  assert (Hsb : sdims !! Z.to_nat bd = Some (B - 1)).
  { subst sdims. rewrite list_lookup_insert_ne by auto.
    apply list_lookup_insert_eq. lia. }
  assert (Hspos : Forall (fun d => 0 <= d) sdims).
  { subst sdims. apply Forall_insert; [apply Forall_insert |]; auto; lia. }
  erewrite bind_OK.
  2:{ eapply MakePadHlo_run.
      - apply extend_lookup_0.
      - apply extend_lookup_old. exact Hp.
      - rewrite Hpv. reflexivity.
      - rewrite Hpv. reflexivity.
      - cbn [shape set_slice make_instruction dimensions]. fold sdims.
        rewrite <- Hlen.
        apply (InferPadDims_batch sdims _ (B - 1) 1 0 Hsb Hspos). lia. }
  rewrite extend_extend, extend_length. cbn [length app].
  rewrite Nat.add_1_r. fold n.
  cbn [shape set_slice make_instruction element_type].
  assert (Hd : <[Z.to_nat bd := 1 + (B - 1) + 0]> sdims
               = <[Z.to_nat sd := low]> D).
  { subst sdims. rewrite list_insert_insert_ne by auto.
    rewrite list_insert_insert_eq. f_equal. apply list_insert_id.
    rewrite Hbd. f_equal. lia. }
  rewrite Hd.
  split; [reflexivity | split].
  - eexists. split; [apply extend_lookup_1 |]. split; reflexivity.
  - intros env A P (HA & HP & Hfresh).
    eapply first_slice_value with (i_s := n) (p := p) (B := B);
      [exact Hbd | exact Hsd | exact Hne | exact HA | | | | | | | | ].
    + intros fuel Hf. apply eval_extend with (fuel := fuel); auto.
    + apply extend_lookup_0.
    + reflexivity.
    + apply extend_lookup_1.
    + apply Hfresh. unfold n. lia.
    + apply Hfresh. unfold n. lia.
    + lia.
    + lia.
Qed.

Lemma halo_region_phase h :
  0 < h -> h <= Sz ->
  exists sl pd,
    (start_indices_halo <-! set_index zeros bd 1 ;;
     end_indices_halo <-! set_index D sd h ;;
     halo_region <-
       MakeSliceHlo a start_indices_halo end_indices_halo ones ;;
     halo_region_shape <- shape_of halo_region ;;
     padding_config_halo <-!
       set_edge_padding_high (MakeNoPaddingConfig (rank halo_region_shape))
         bd 1 ;;
     halo_region <- MakePadHlo halo_region p padding_config_halo ;;
     ret (Some halo_region))%state c
    = OK (Some (S n), extend c [sl; pd]) /\
    has_shape (extend c [sl; pd]) (S n) ty (<[Z.to_nat sd := h]> D) /\
    forall env A P, halo_env c a p env A P ->
      has_value 2 (extend c [sl; pd]) env (S n) (<[Z.to_nat sd := h]> D)
        (fun idx =>
           if nth (Z.to_nat bd) idx 0 =? B - 1 then P []
           else A (<[Z.to_nat sd := nth (Z.to_nat sd) idx 0]>
                     (<[Z.to_nat bd := nth (Z.to_nat bd) idx 0 + 1]> idx))).
Proof.
  intros Hh0 Hh1.
  pose proof (bd_lt _ _ _ Hbd) as Hbl. pose proof (bd_lt _ _ _ Hsd) as Hsl.
  eexists _, _.
  repeat (rewrite set_index_OK
            by (rewrite ?length_insert; subst zeros;
                rewrite ?length_replicate; lia);
          rewrite bind_lift_OK).
  assert (Hz : <[Z.to_nat bd := 1]> zeros
               = <[Z.to_nat sd := 0]> (<[Z.to_nat bd := 1]> zeros)).
  { symmetry. apply list_insert_id.
    rewrite list_lookup_insert_ne by auto. subst zeros.
    now apply lookup_replicate_2. }
  assert (Hl : <[Z.to_nat sd := h]> D
               = <[Z.to_nat sd := h]> (<[Z.to_nat bd := B]> D)).
  { f_equal. symmetry. now apply list_insert_id. }
  rewrite Hz, Hl.
  erewrite bind_OK.
  2:{ eapply MakeSliceHlo_run; [exact Ha |]. rewrite Hact. cbn [dimensions].
      apply (InferSliceDims_two_axes D _ _ B Sz Hbd Hsd Hne Hpos); lia. }
  fold n.
  erewrite bind_OK.
  2:{ apply shape_of_OK, extend_lookup_0. }
  cbn [shape set_slice make_instruction dimensions rank].
  rewrite Hact. cbn [element_type].
  replace (h - 0) with h by lia.
  set (sdims := <[Z.to_nat sd := h]> (<[Z.to_nat bd := B - 1]> D)).
  assert (Hlen : length sdims = length D)
    by (subst sdims; now rewrite !length_insert).
  unfold rank; cbn [dimensions]. rewrite Hlen.
  rewrite set_edge_padding_high_OK, bind_lift_OK by lia.
  assert (Hsb : sdims !! Z.to_nat bd = Some (B - 1)).
  { subst sdims. rewrite list_lookup_insert_ne by auto.
    apply list_lookup_insert_eq. lia. }
  assert (Hspos : Forall (fun d => 0 <= d) sdims).
  { subst sdims. apply Forall_insert; [apply Forall_insert |]; auto; lia. }
  erewrite bind_OK.
  2:{ eapply MakePadHlo_run.
      - apply extend_lookup_0.
      - apply extend_lookup_old. exact Hp.
      - rewrite Hpv. reflexivity.
      - rewrite Hpv. reflexivity.
      - cbn [shape set_slice make_instruction dimensions]. fold sdims.
        rewrite <- Hlen.
        apply (InferPadDims_batch sdims _ (B - 1) 0 1 Hsb Hspos). lia. }
  rewrite extend_extend, extend_length. cbn [length app].
  rewrite Nat.add_1_r. fold n.
  cbn [shape set_slice make_instruction element_type].
  assert (Hd : <[Z.to_nat bd := 0 + (B - 1) + 1]> sdims
               = <[Z.to_nat sd := h]> D).
  { subst sdims. rewrite list_insert_insert_ne by auto.
    rewrite list_insert_insert_eq. f_equal. apply list_insert_id.
    rewrite Hbd. f_equal. lia. }
  rewrite Hd, <- Hl.
  split; [reflexivity | split].
  - eexists. split; [apply extend_lookup_1 |]. split; reflexivity.
  - intros env A P (HA & HP & Hfresh).
    eapply halo_region_value with (i_s := n) (p := p) (B := B) (Sz := Sz);
      [exact Hbd | exact Hsd | exact Hne | exact HA | | | | | | | | ].
    + intros fuel Hf. apply eval_extend with (fuel := fuel); auto.
    + apply extend_lookup_0.
    + reflexivity.
    + apply extend_lookup_1.
    + apply Hfresh. unfold n. lia.
    + apply Hfresh. unfold n. lia.
    + lia.
    + lia.
Qed.

Lemma activations_cut_phase low halo :
  Z.abs (halo - low) <= Sz -> low <= Sz -> Int64.safe low ->
  exists m news,
    (if (halo =? 0) && negb (low =? 0) then
       cut <-!
         (if low >? 0 then
            bindS (set_index D sd (Sz - low)%i64)
                  (fun e => OK (zeros, e))
          else
            bindS (set_index zeros sd (0 - low)%i64)
                  (fun s => bindS (set_index D sd Sz)
                                  (fun e => OK (s, e)))) ;;
       MakeSliceHlo a (fst cut) (snd cut) ones
     else ret a)%state c
    = OK (m, extend c news) /\
    has_shape (extend c news) m ty
      (<[Z.to_nat sd := activations_extent Sz low halo]> D) /\
    forall env A P, halo_env c a p env A P ->
      has_value 2 (extend c news) env m
        (<[Z.to_nat sd := activations_extent Sz low halo]> D)
        (fun idx =>
           A (<[Z.to_nat sd :=
                 nth (Z.to_nat sd) idx 0
                 + (if activations_trimmed low halo && (low <? 0)
                    then - low else 0)]> idx)).
Proof.
  intros Hpre Hl1 Sl.
  pose proof (bd_lt _ _ _ Hbd) as Hbl. pose proof (bd_lt _ _ _ Hsd) as Hsl.
  assert (HSz : 0 <= Sz) by (rewrite Forall_lookup in Hpos; eauto).
  unfold activations_extent, activations_trimmed.
  destruct ((halo =? 0) && negb (low =? 0)) eqn:Ht.
  - apply andb_true_iff in Ht as [Hh Hl0].
    apply Z.eqb_eq in Hh. subst halo.
    apply negb_true_iff, Z.eqb_neq in Hl0.
    assert (Hz : forall s, <[Z.to_nat sd := s]> zeros
                 = <[Z.to_nat sd := s]> (<[Z.to_nat bd := 0]> zeros)).
    { intros s. f_equal. symmetry. apply list_insert_id. subst zeros.
      now apply lookup_replicate_2. }
    assert (Hl : forall e, <[Z.to_nat sd := e]> D
                 = <[Z.to_nat sd := e]> (<[Z.to_nat bd := B]> D)).
    { intros e. f_equal. symmetry. now apply list_insert_id. }
    destruct (Z.gtb_spec low 0) as [Hgt | Hle].
    + destruct (Z.ltb_spec low 0); [lia |]. cbn [andb].
      rewrite (sub_exact Sz low) by in_range_tac.
      rewrite set_index_OK by lia. cbn [bindS]. rewrite bind_lift_OK.
      cbn [fst snd].
      eexists _, _. split; [| split].
      * eapply MakeSliceHlo_run; [exact Ha |]. rewrite Hact. cbn [dimensions].
        rewrite <- (list_insert_id zeros (Z.to_nat sd) 0)
          by (subst zeros; now apply lookup_replicate_2).
        rewrite Hz, (Hl (Sz - low)).
        apply (InferSliceDims_two_axes D _ _ B Sz Hbd Hsd Hne Hpos); lia.
      * eexists. split; [apply extend_lookup_0 |].
        cbn [shape set_slice make_instruction element_type dimensions].
        rewrite Hact. cbn [element_type]. split; [reflexivity |].
        rewrite (list_insert_id D (Z.to_nat bd)) by (rewrite Hbd; f_equal; lia).
        f_equal. lia.
      * intros env A P (HA & HP & Hfresh).
        eapply has_value_ext; cycle 1.
        { eapply slice_value with (a := a) (A := A) (lb := 0) (ls := 0)
                                  (bd := Z.to_nat bd) (sd := Z.to_nat sd);
            [exact Hbd | exact Hsd | exact Hne | exact HA | | | ].
          - rewrite <- Hz.
            rewrite (list_insert_id zeros (Z.to_nat sd) 0)
              by (subst zeros; now apply lookup_replicate_2).
            apply extend_lookup_0.
          - apply Hfresh. lia.
          - now rewrite length_insert. }
        intros idx Hv. cbv beta.
        apply valid_index_length in Hv. rewrite length_insert in Hv.
        replace (0 + nth (Z.to_nat bd) idx 0) with (nth (Z.to_nat bd) idx 0)
          by lia.
        rewrite (insert_nth_id idx (Z.to_nat bd)) by lia.
        f_equal. f_equal. lia.
    + destruct (Z.ltb_spec low 0); [| lia]. cbn [andb].
      rewrite (sub_exact 0 low) by in_range_tac.
      rewrite !set_index_OK
        by (subst zeros; rewrite ?length_replicate; lia).
      cbn [bindS]. rewrite bind_lift_OK. cbn [fst snd].
      eexists _, _. split; [| split].
      * eapply MakeSliceHlo_run; [exact Ha |]. rewrite Hact. cbn [dimensions].
        rewrite Hz, (Hl Sz).
        apply (InferSliceDims_two_axes D _ _ B Sz Hbd Hsd Hne Hpos); lia.
      * eexists. split; [apply extend_lookup_0 |].
        cbn [shape set_slice make_instruction element_type dimensions].
        rewrite Hact. cbn [element_type]. split; [reflexivity |].
        rewrite (list_insert_id D (Z.to_nat bd)) by (rewrite Hbd; f_equal; lia).
        f_equal. lia.
      * intros env A P (HA & HP & Hfresh).
        eapply has_value_ext; cycle 1.
        { eapply slice_value with (a := a) (A := A) (lb := 0) (ls := 0 - low)
                                  (bd := Z.to_nat bd) (sd := Z.to_nat sd);
            [exact Hbd | exact Hsd | exact Hne | exact HA | | | ].
          - rewrite <- Hz. apply extend_lookup_0.
          - apply Hfresh. lia.
          - now rewrite length_insert. }
        intros idx Hv. cbv beta.
        apply valid_index_length in Hv. rewrite length_insert in Hv.
        replace (0 + nth (Z.to_nat bd) idx 0) with (nth (Z.to_nat bd) idx 0)
          by lia.
        rewrite (insert_nth_id idx (Z.to_nat bd)) by lia.
        f_equal. f_equal. lia.
  - cbn [andb]. exists a, []. rewrite extend_nil.
    split; [reflexivity | split].
    + exists act. split; [exact Ha |]. rewrite Hact. split; [reflexivity |].
      cbn [dimensions]. symmetry. now apply list_insert_id.
    + intros env A P (HA & HP & Hfresh).
      rewrite (list_insert_id D) by exact Hsd.
      exists A. split; [apply eval_env; exact HA |].
      intros idx Hv. apply valid_index_length in Hv.
      rewrite Z.add_0_r. now rewrite insert_nth_id by lia.
Qed.

End halo_phases.

Lemma concat_phase c o1 o2 ty (dims : list Z) (d : Z) e1 e2 :
  0 <= d -> (Z.to_nat d < length dims)%nat -> 0 <= e1 ->
  has_shape c o1 ty (<[Z.to_nat d := e1]> dims) ->
  has_shape c o2 ty (<[Z.to_nat d := e2]> dims) ->
  exists x,
    MakeConcatHlo [o1; o2] d c
    = OK (length (instructions c), extend c [x]) /\
    has_shape (extend c [x]) (length (instructions c)) ty
      (<[Z.to_nat d := e1 + e2]> dims) /\
    forall env fuel F1 F2,
      env (length (instructions c)) = None ->
      has_value fuel c env o1 (<[Z.to_nat d := e1]> dims) F1 ->
      has_value fuel c env o2 (<[Z.to_nat d := e2]> dims) F2 ->
      has_value (S fuel) (extend c [x]) env (length (instructions c))
        (<[Z.to_nat d := e1 + e2]> dims)
        (fun idx =>
           if nth (Z.to_nat d) idx 0 <? e1 then F1 idx
           else F2 (<[Z.to_nat d := nth (Z.to_nat d) idx 0 - e1]> idx)).
Proof.
  intros Hd0 Hdl He1 S1 S2.
  pose proof S1 as (x1 & L1 & T1 & D1). pose proof S2 as (x2 & L2 & T2 & D2).
  eexists. split; [| split].
  - rewrite <- (Z2Nat.id d) at 1 by lia.
    eapply MakeConcatHlo_run; eauto. congruence.
  - eexists. split; [apply extend_lookup_0 |].
    cbn [shape set_dimensions make_instruction element_type dimensions].
    split; [exact T1 | reflexivity].
  - intros env fuel F1 F2 Hfresh V1 V2.
    eapply has_value_concat with (o1 := o1) (o2 := o2) (ty := ty); eauto.
    + rewrite Z2Nat.id by lia. apply extend_lookup_0.
    + now apply has_shape_extend.
    + now apply has_shape_extend.
    + eapply has_value_extend; [| exact V1]. lia.
    + eapply has_value_extend; [| exact V2]. lia.
Qed.

(** ** [HaloDuplicateWithSlice] *)

(** [HaloDuplicateWithSlice] on activations with at least one batch row
    and a low padding within the split extent: it returns, the graph only
    extended, an instruction of the extent and with the elements of the
    three pieces. *)
Lemma HaloDuplicateWithSlice_value c activations act ty (D : list Z) bd sd B Sz
    obs low high halo osds pad_val :
  instructions c !! activations = Some act ->
  shape act = {| element_type := ty; dimensions := D |} ->
  at_index D bd = OK B -> at_index D sd = OK Sz -> bd <> sd ->
  Forall (fun d => 0 <= d) D ->
  (forall p, pad_val = Some p -> has_shape c p ty []) ->
  Z.abs (halo - low) <= Sz ->
  low <= Sz -> 1 <= B ->
  Int64.safe low -> Int64.safe halo -> Int64.safe Sz -> Int64.safe B ->
  let extent := first_slice_extent low + activations_extent Sz low halo
                + halo_region_extent low halo in
  exists r c',
    HaloDuplicateWithSlice activations sd bd obs low high halo osds pad_val c
    = OK (r, c') /\
    (exists news, c' = extend c news) /\
    has_shape c' r ty (<[Z.to_nat sd := extent]> D) /\
    forall env A P,
      env activations = Some A ->
      padding_value pad_val ty env = Some P ->
      (forall i, (length (instructions c) <= i)%nat -> env i = None) ->
      has_value 4 c' env r (<[Z.to_nat sd := extent]> D)
        (halo_duplicated (Z.to_nat bd) (Z.to_nat sd) B Sz low halo A (P [])).
Proof.
  intros Ha Hsh Hbd Hsd Hne Hpos Hpad Hpre Hlow HB Sl Sh SS SB extent.
  apply at_index_OK in Hbd as [Hbd0 Hbd]. apply at_index_OK in Hsd as [Hsd0 Hsd].
  assert (Hnen : Z.to_nat bd <> Z.to_nat sd) by lia.
  pose proof (bd_lt _ _ _ Hbd) as Hbl. pose proof (bd_lt _ _ _ Hsd) as Hsl.
  unfold HaloDuplicateWithSlice.
  rewrite (bind_OK _ _ _ _ _ (shape_of_OK _ _ _ Ha)). rewrite Hsh.
  cbn [dimensions element_type].
  rewrite !at_index_lookupZ. unfold lookupZ.
  destruct (Z.ltb_spec sd 0); [lia |]. destruct (Z.ltb_spec bd 0); [lia |].
  rewrite Hbd, Hsd, !bind_lift_OK.
  assert (HSz : 0 <= Sz) by (rewrite Forall_lookup in Hpos; eauto).
  rewrite (sub_exact halo low) by in_range_tac.
  rewrite wrap_in_range by in_range_tac.
  destruct (Z.leb_spec (Z.abs (halo - low)) Sz); [| lia].
  simpl CHECK. rewrite bind_lift_OK.
  change (rank {| element_type := ty; dimensions := D |})
    with (Z.of_nat (length D)).
  rewrite Nat2Z.id.
  (* the padding scalar *)
  match goal with
  | |- context [bind ?m ?k c] =>
      assert (exists p news0 pv,
                m c = OK (p, extend c news0) /\
                instructions (extend c news0) !! p = Some pv /\
                shape pv = {| element_type := ty; dimensions := [] |} /\
                forall env A P,
                  env activations = Some A ->
                  padding_value pad_val ty env = Some P ->
                  (forall i, (length (instructions c) <= i)%nat ->
                             env i = None) ->
                  halo_env (extend c news0) activations p env A P)
        as (p & news0 & pv & E0 & Lp & Sp & Henv)
  end.
  { destruct pad_val as [p |].
    - destruct (Hpad p eq_refl) as (pv & Lp & Tp & Dp).
      exists p, [], pv. rewrite extend_nil.
      split; [reflexivity | split; [exact Lp | split]].
      + destruct (shape pv); simpl in *; congruence.
      + intros env A P HA HP Hfresh. split; [exact HA | split; auto].
        intros fuel _. apply eval_env. exact HP.
    - eexists _, _, _. split; [apply AddInstruction_extend |].
      split; [apply extend_lookup_0 | split; [reflexivity |]].
      intros env A P HA HP Hfresh. split; [exact HA | split].
      + intros [| fuel] Hf; [lia |].
        erewrite eval_S; [| apply Hfresh; lia | apply extend_lookup_0].
        exact HP.
      + intros i Hi. rewrite extend_length in Hi. apply Hfresh. lia. }
  rewrite (bind_OK _ _ _ _ _ E0).
  set (c1 := extend c news0) in *.
  assert (La1 : instructions c1 !! activations = Some act)
    by now apply extend_lookup_old.
  (* the first slice *)
  match goal with
  | |- context [bind ?m ?k c1] =>
      assert (exists fs news1,
                m c1 = OK (fs, extend c1 news1) /\
                match fs with
                | Some i =>
                    0 < low /\
                    has_shape (extend c1 news1) i ty
                      (<[Z.to_nat sd := low]> D) /\
                    forall env A P, halo_env c1 activations p env A P ->
                      has_value 2 (extend c1 news1) env i
                        (<[Z.to_nat sd := low]> D)
                        (fun idx =>
                           if nth (Z.to_nat bd) idx 0 =? 0 then P []
                           else A (<[Z.to_nat sd :=
                                       Sz - low + nth (Z.to_nat sd) idx 0]>
                                     (<[Z.to_nat bd :=
                                          nth (Z.to_nat bd) idx 0 - 1]> idx)))
                | None => low <= 0
                end)
        as (fs & news1 & E1 & Q1)
  end.
  { destruct (Z.gtb_spec low 0) as [Hgt | Hle].
    - destruct (first_slice_phase c1 activations p act pv ty D bd sd B Sz
                  La1 Hsh Lp Sp Hbd0 Hsd0 Hbd Hsd Hnen Hpos HB SB SS low)
        as (sl & pd & E & Q); try lia; auto.
      eexists _, _. split; [exact E |]. split; [lia | exact Q].
    - exists None, []. rewrite extend_nil. split; [reflexivity | lia]. }
  rewrite (bind_OK _ _ _ _ _ E1).
  set (c2 := extend c1 news1) in *.
  assert (La2 : instructions c2 !! activations = Some act)
    by now apply extend_lookup_old.
  assert (Lp2 : instructions c2 !! p = Some pv)
    by now apply extend_lookup_old.
  (* the halo region *)
  match goal with
  | |- context [bind ?m ?k c2] =>
      assert (exists hr news2,
                m c2 = OK (hr, extend c2 news2) /\
                match hr with
                | Some i =>
                    0 < halo - low /\
                    has_shape (extend c2 news2) i ty
                      (<[Z.to_nat sd := halo - low]> D) /\
                    forall env A P, halo_env c2 activations p env A P ->
                      has_value 2 (extend c2 news2) env i
                        (<[Z.to_nat sd := halo - low]> D)
                        (fun idx =>
                           if nth (Z.to_nat bd) idx 0 =? B - 1 then P []
                           else A (<[Z.to_nat sd := nth (Z.to_nat sd) idx 0]>
                                     (<[Z.to_nat bd :=
                                          nth (Z.to_nat bd) idx 0 + 1]> idx)))
                | None => halo - low <= 0
                end)
        as (hr & news2 & E2 & Q2)
  end.
  { destruct (Z.gtb_spec (halo - low) 0) as [Hgt | Hle].
    - destruct (halo_region_phase c2 activations p act pv ty D bd sd B Sz
                  La2 Hsh Lp2 Sp Hbd0 Hsd0 Hbd Hsd Hnen Hpos HB (halo - low))
        as (sl & pd & E & Q); try lia; auto.
      eexists _, _. split; [exact E |]. split; [lia | exact Q].
    - exists None, []. rewrite extend_nil. split; [reflexivity | lia]. }
  rewrite (bind_OK _ _ _ _ _ E2).
  set (c3 := extend c2 news2) in *.
  assert (La3 : instructions c3 !! activations = Some act)
    by now apply extend_lookup_old.
  (* the activations, trimmed when no halo is needed *)
  destruct (activations_cut_phase c3 activations p act ty D bd sd B Sz
              La3 Hsh Hsd0 Hbd Hsd Hnen Hpos HB SS low halo)
    as (m & news3 & E3 & Sh3 & V3); try lia; auto.
  rewrite (bind_OK _ _ _ _ _ E3).
  set (c4 := extend c3 news3) in *.
  set (bdn := Z.to_nat bd) in *. set (sdn := Z.to_nat sd) in *.
  set (L := first_slice_extent low) in *.
  set (M := activations_extent Sz low halo) in *.
  set (Hx := halo_region_extent low halo) in *.
  set (skipped := if activations_trimmed low halo && (low <? 0)
                  then - low else 0) in *.
  assert (HM : 0 <= M).
  { subst M. unfold activations_extent, activations_trimmed.
    destruct (Z.eqb_spec halo 0); destruct (Z.eqb_spec low 0);
      cbn [andb negb]; lia. }
  assert (HL : 0 <= L)
    by (subst L; unfold first_slice_extent; destruct (Z.gtb_spec low 0); lia).
  assert (Hlen1 : (length (instructions c1) <= length (instructions c4))%nat).
  { subst c4 c3 c2. rewrite !extend_length. lia. }
  (* the first slice goes in front *)
  match goal with
  | |- context [bind ?m1 ?k c4] =>
      assert (exists r1 news4,
                m1 c4 = OK (r1, extend c4 news4) /\
                has_shape (extend c4 news4) r1 ty (<[sdn := L + M]> D) /\
                forall env A P, halo_env c1 activations p env A P ->
                  has_value 3 (extend c4 news4) env r1 (<[sdn := L + M]> D)
                    (fun idx =>
                       if nth sdn idx 0 <? L then
                         if nth bdn idx 0 =? 0 then P []
                         else A (<[sdn := Sz - low + nth sdn idx 0]>
                                   (<[bdn := nth bdn idx 0 - 1]> idx))
                       else A (<[sdn := nth sdn idx 0 - L + skipped]> idx)))
        as (r1 & news4 & E4 & Sh4 & V4)
  end.
  { destruct fs as [i |].
    - destruct Q1 as (Hgt & Sh1 & V1).
      assert (HLl : L = low)
        by (subst L; unfold first_slice_extent;
            destruct (Z.gtb_spec low 0); lia).
      rewrite HLl.
      destruct (concat_phase c4 i m ty D sd low M) as (x & E & Sh' & V');
        auto; try lia.
      { subst c4 c3. now do 2 apply has_shape_extend. }
      eexists _, _. split; [exact E | split; [exact Sh' |]].
      intros env A P Henv1.
      eapply has_value_ext; cycle 1.
      { apply V'.
        - destruct Henv1 as (_ & _ & Hfresh). apply Hfresh. lia.
        - subst c4 c3. do 2 (eapply has_value_extend; [reflexivity |]).
          apply V1, Henv1.
        - apply (V3 env A P). subst c3 c2. now do 2 apply halo_env_extend. }
      intros idx Hv. cbv beta. fold sdn.
      destruct (nth sdn idx 0 <? low); [reflexivity |].
      apply valid_index_length in Hv. rewrite length_insert in Hv.
      rewrite nth_insert_eq by (subst sdn; lia).
      rewrite list_insert_insert_eq. reflexivity.
    - assert (HLl : L = 0)
        by (subst L; unfold first_slice_extent;
            destruct (Z.gtb_spec low 0); lia).
      rewrite HLl. exists m, []. rewrite extend_nil.
      split; [reflexivity | split].
      + now rewrite Z.add_0_l.
      + intros env A P Henv1. rewrite Z.add_0_l.
        eapply has_value_ext; cycle 1.
        { eapply has_value_fuel; [| apply (V3 env A P)]; [lia |].
          subst c3 c2. now do 2 apply halo_env_extend. }
        intros idx Hv. cbv beta.
        destruct (valid_index_nth _ _ sdn M Hv) as [_ Hs].
        { apply list_lookup_insert_eq. subst sdn. lia. }
        destruct (Z.ltb_spec (nth sdn idx 0) 0); [lia |].
        now rewrite Z.sub_0_r. }
  rewrite (bind_OK _ _ _ _ _ E4).
  set (c5 := extend c4 news4) in *.
  assert (Hlen5 : (length (instructions c1) <= length (instructions c5))%nat).
  { subst c5. rewrite extend_length. lia. }
  (* the halo goes behind *)
  match goal with
  | |- context [bind ?m2 ?k c5] =>
      assert (exists r2 news5,
                m2 c5 = OK (r2, extend c5 news5) /\
                has_shape (extend c5 news5) r2 ty (<[sdn := extent]> D) /\
                forall env A P, halo_env c1 activations p env A P ->
                  has_value 4 (extend c5 news5) env r2 (<[sdn := extent]> D)
                    (halo_duplicated bdn sdn B Sz low halo A (P [])))
        as (r2 & news5 & E5 & Sh5 & V5)
  end.
  { destruct hr as [i |].
    - destruct Q2 as (Hgt & Sh2 & V2).
      assert (HHl : Hx = halo - low)
        by (subst Hx; unfold halo_region_extent;
            destruct (Z.gtb_spec (halo - low) 0); lia).
      subst extent. rewrite HHl.
      destruct (concat_phase c5 r1 i ty D sd (L + M) (halo - low))
        as (x & E & Sh' & V'); auto; try lia.
      { subst c5 c4. now do 2 apply has_shape_extend. }
      eexists _, _. split; [exact E | split; [exact Sh' |]].
      intros env A P Henv1.
      eapply has_value_ext; cycle 1.
      { apply V'.
        - destruct Henv1 as (_ & _ & Hfresh). apply Hfresh. lia.
        - apply (V4 env A P), Henv1.
        - subst c5 c4.
          eapply has_value_extend with (fuel := 2%nat); [lia |].
          eapply has_value_extend with (fuel := 2%nat); [lia |].
          apply (V2 env A P). subst c2. now apply halo_env_extend. }
      intros idx Hv. cbv beta. fold sdn. unfold halo_duplicated.
      fold L M skipped.
      pose proof (valid_index_length _ _ Hv) as Hlen.
      rewrite length_insert in Hlen.
      destruct (valid_index_nth _ _ sdn (L + M + (halo - low)) Hv) as [_ Hs].
      { apply list_lookup_insert_eq. subst sdn. lia. }
      destruct (Z.ltb_spec (nth sdn idx 0) (L + M)).
      + destruct (Z.ltb_spec (nth sdn idx 0) L); [reflexivity |].
        reflexivity.
      + destruct (Z.ltb_spec (nth sdn idx 0) L); [lia |].
        rewrite nth_insert_ne by (subst bdn sdn; lia).
        rewrite nth_insert_eq by (subst sdn; lia).
        destruct (nth bdn idx 0 =? B - 1); [reflexivity |].
        f_equal. rewrite list_insert_insert_ne by (subst bdn sdn; lia).
        rewrite list_insert_insert_eq.
        rewrite list_insert_insert_ne by (subst bdn sdn; lia).
        f_equal. lia.
    - assert (HHl : Hx = 0)
        by (subst Hx; unfold halo_region_extent;
            destruct (Z.gtb_spec (halo - low) 0); lia).
      subst extent. rewrite HHl, Z.add_0_r.
      exists r1, []. rewrite extend_nil.
      split; [reflexivity | split; [exact Sh4 |]].
      intros env A P Henv1.
      eapply has_value_ext; cycle 1.
      { eapply has_value_fuel; [| apply V4, Henv1]. lia. }
      intros idx Hv. cbv beta. unfold halo_duplicated.
      fold L M skipped.
      destruct (valid_index_nth _ _ sdn (L + M) Hv) as [_ Hs].
      { apply list_lookup_insert_eq. subst sdn. lia. }
      destruct (Z.ltb_spec (nth sdn idx 0) L); [reflexivity |].
      destruct (Z.ltb_spec (nth sdn idx 0) (L + M)); [reflexivity | lia]. }
  rewrite (bind_OK _ _ _ _ _ E5).
  eexists _, _. split; [reflexivity | split; [| split; [exact Sh5 |]]].
  - subst c5 c4 c3 c2 c1. rewrite !extend_extend. eexists. reflexivity.
  - intros env A P HA HP Hfresh. apply V5. now apply Henv.
Qed.





(** ** Running the members of the visitor *)

Lemma set_computation_id v : set_computation (computation_ v) v = v.
Proof. now destruct v. Qed.

Lemma on_graph_deref v i x :
  instructions (computation_ v) !! i = Some x ->
  on_graph (deref i) v = OK (x, v).
Proof.
  intros H. unfold on_graph, deref, instr. rewrite H.
  now rewrite set_computation_id.
Qed.

Lemma on_graph_deref_inv v i x v' :
  on_graph (deref i) v = OK (x, v') ->
  instructions (computation_ v) !! i = Some x /\ v' = v.
Proof.
  unfold on_graph, deref, instr.
  destruct (instructions (computation_ v) !! i); [| discriminate].
  intros [= <- <-]. now rewrite set_computation_id.
Qed.

Lemma on_graph_shape_of v i x :
  instructions (computation_ v) !! i = Some x ->
  on_graph (shape_of i) v = OK (shape x, v).
Proof.
  intros H. unfold on_graph. rewrite (shape_of_OK _ _ _ H).
  now rewrite set_computation_id.
Qed.

Lemma on_graph_shape_of_inv v i s v' :
  on_graph (shape_of i) v = OK (s, v') ->
  exists x, instructions (computation_ v) !! i = Some x /\ s = shape x /\
            v' = v.
Proof.
  unfold on_graph, shape_of, bind, deref, instr, ret.
  destruct (instructions (computation_ v) !! i) as [x |]; [| discriminate].
  intros [= <- <-]. exists x. now rewrite set_computation_id.
Qed.

Lemma dim_map_index_Some v k p :
  instr_to_dim_map_ v !! k = Some p -> dim_map_index k v = OK (p, v).
Proof. intros H. unfold dim_map_index. now rewrite H. Qed.

Lemma permute_map_index_Some v k p :
  instr_to_dim_permute_map_ v !! k = Some p ->
  permute_map_index k v = OK (p, v).
Proof. intros H. unfold permute_map_index. now rewrite H. Qed.

Lemma old_to_new_index_Some v k n :
  old_to_new_instrs_ v !! k = Some n -> old_to_new_index k v = OK (n, v).
Proof. intros H. unfold old_to_new_index. now rewrite H. Qed.

Lemma old_to_new_index_inv v k n v' :
  old_to_new_index k v = OK (n, v') ->
  old_to_new_instrs_ v !! k = Some n /\ v' = v.
Proof.
  unfold old_to_new_index. destruct (old_to_new_instrs_ v !! k);
    [| discriminate].
  now intros [= <- <-].
Qed.

Lemma lift_status_inv {S A} (m : StatusOr A) (s s' : S) a :
  lift_status m s = OK (a, s') -> m = OK a /\ s' = s.
Proof. unfold lift_status. destruct m; [| discriminate]. now intros [= <- <-]. Qed.

Lemma at_index_lookupZ_OK {A} (v : list A) i x :
  at_index v i = OK x <-> lookupZ v i = Some x.
Proof.
  rewrite at_index_lookupZ. destruct (lookupZ v i); split; congruence.
Qed.

Lemma wrap_rem e s :
  - 2 ^ 63 < e <= 2 ^ 63 - 1 -> s <> 0 ->
  Int64.wrap (Z.rem e s) = Z.rem e s.
Proof.
  intros He Hs. apply wrap_in_range.
  assert (Z.abs (Z.rem e s) <= Z.abs e).
  { rewrite <- Z.rem_abs by assumption.
    apply Z.rem_le; lia. }
  unfold Int64.in_range, Int64.min_signed, Int64.max_signed in *. lia.
Qed.

Lemma wrap_quot a b :
  - 2 ^ 63 < a <= 2 ^ 63 - 1 -> b <> 0 ->
  Int64.wrap (Z.quot a b) = Z.quot a b.
Proof.
  intros Ha Hb. apply wrap_in_range.
  assert (Z.abs (Z.quot a b) <= Z.abs a).
  { rewrite <- Z.quot_abs by assumption.
    rewrite Z.quot_div_nonneg by lia.
    apply Z.div_le_upper_bound; [lia |].
    assert (1 <= Z.abs b) by lia. nia. }
  unfold Int64.in_range, Int64.min_signed, Int64.max_signed in *. lia.
Qed.

Lemma extents_safe_lookup g i x axis e :
  extents_safe g -> instructions g !! i = Some x ->
  lookupZ (dimensions (shape x)) axis = Some e -> Int64.safe e.
Proof.
  intros Hs Hi He. unfold extents_safe in Hs.
  rewrite Forall_lookup in Hs. specialize (Hs _ _ Hi).
  rewrite Forall_lookup in Hs. unfold lookupZ in He.
  destruct (axis <? 0); [discriminate |]. eauto.
Qed.

Lemma lookupZ_nil {A} i : lookupZ (@nil A) i = None.
Proof. unfold lookupZ. now destruct (i <? 0). Qed.

(** Hypotheses in the form the statements use. *)
Ltac tidy :=
  repeat match goal with
  | H : at_index _ _ = OK _ |- _ => apply at_index_lookupZ_OK in H
  | H : lookupZ [] _ = Some _ |- _ => now rewrite lookupZ_nil in H
  | H : negb _ = false |- _ => apply negb_false_iff in H
  | H : negb _ = true |- _ => apply negb_true_iff in H
  | H : (_ =? _) = true |- _ => apply Z.eqb_eq in H
  | H : (_ =? _) = false |- _ => apply Z.eqb_neq in H
  | H : (_ >? _) = false |- _ => rewrite Z.gtb_ltb, Z.ltb_ge in H
  | H : (_ >? _) = true |- _ => rewrite Z.gtb_ltb, Z.ltb_lt in H
  | H : (_ <? _) = false |- _ => rewrite Z.ltb_ge in H
  | H : (_ <? _) = true |- _ => rewrite Z.ltb_lt in H
  | H : bool_decide _ = true |- _ => apply bool_decide_eq_true in H
  | H : bool_decide _ = false |- _ => apply bool_decide_eq_false in H
  | H : on_graph (shape_of _) _ = OK _ |- _ =>
      apply on_graph_shape_of_inv in H as (? & ? & -> & ->)
  | H : on_graph (deref _) _ = OK _ |- _ =>
      apply on_graph_deref_inv in H as (? & ->)
  end.

(** ** Readiness of a reduce-window or select-and-scatter consumer *)

Lemma lookupZ_0 {A} (l : list A) : lookupZ l 0 = l !! 0%nat.
Proof. reflexivity. Qed.

Lemma lookupZ_1 {A} (l : list A) : lookupZ l 1 = l !! 1%nat.
Proof. reflexivity. Qed.

Lemma windowed_opcode c :
  opcode c = kReduceWindow \/ opcode c = kSelectAndScatter ->
  IsTrivialElementwise c = false /\
  opcode_eqb (opcode c) kConvolution = false /\
  opcode_eqb (opcode c) kReduce = false /\
  opcode_eqb (opcode c) kReduceWindow
  || opcode_eqb (opcode c) kSelectAndScatter = true.
Proof.
  unfold IsTrivialElementwise, IsElementwise.
  intros [-> | ->]; repeat split; reflexivity.
Qed.

Lemma SupportedOpForPropagation_windowed_inv v consumer producer c v1 :
  instructions (computation_ v) !! consumer = Some c ->
  opcode c = kReduceWindow \/ opcode c = kSelectAndScatter ->
  extents_safe (computation_ v) ->
  SupportedOpForPropagation consumer producer v = OK (true, v1) ->
  v1 = v /\ window_ready v c.
Proof.
  intros Hc Hop Hsafe H.
  unfold SupportedOpForPropagation in H.
  rewrite (bind_OK _ _ _ _ _ (on_graph_deref _ _ _ Hc)) in H.
  destruct (windowed_opcode c Hop) as (E0 & E1 & E2 & E3).
  rewrite E0, E1, E2, E3 in H. clear E0 E1 E2 E3.
  cbv beta delta [bind lift_status operand dim_map_contains gets dim_map_index
    old_to_new_contains old_to_new_index permute_map_index DimLookUp
    rem64 ret] in H.
  repeat (case_match; simplify_eq; try discriminate).
  all: tidy.
  all: split; [reflexivity |].
  all: match goal with
       | H : instr_to_dim_map_ _ !! _ = Some ?p |- _ => destruct p as [bd sd]
       end.
  all: cbn [fst snd] in *.
  all: rewrite lookupZ_0 in *.
  - eexists _, bd, sd, _, _, _.
    unfold rewritten_operand, operand_dim_map, new_axis.
    repeat match goal with H : _ = Some _ |- _ => rewrite H end.
    cbn. repeat split; try eassumption; try reflexivity.
    intros _. eexists. unfold extent_of.
    repeat match goal with H : _ = Some _ |- _ => rewrite H end.
    cbn. repeat split; try eassumption; try reflexivity.
    rewrite wrap_rem in *; auto.
    eapply extents_safe_lookup in Hsafe; eauto.
    unfold Int64.safe in Hsafe. lia.
  - eexists _, bd, sd, _, _, _.
    unfold rewritten_operand, operand_dim_map, new_axis.
    repeat match goal with H : _ = Some _ |- _ => rewrite H end.
    cbn. repeat split; try eassumption; try reflexivity.
    intros ?. congruence.
Qed.

Lemma dim_map_contains_Some v k p :
  instr_to_dim_map_ v !! k = Some p -> dim_map_contains k v = OK (true, v).
Proof. intros H. unfold dim_map_contains, gets. now rewrite H. Qed.

Lemma old_to_new_contains_Some v k n :
  old_to_new_instrs_ v !! k = Some n ->
  old_to_new_contains k v = OK (true, v).
Proof. intros H. unfold old_to_new_contains, gets. now rewrite H. Qed.

Lemma permute_map_contains_Some v k p :
  instr_to_dim_permute_map_ v !! k = Some p ->
  permute_map_contains k v = OK (true, v).
Proof. intros H. unfold permute_map_contains, gets. now rewrite H. Qed.

Lemma at_index_Some {A} (l : list A) i x :
  lookupZ l i = Some x -> at_index l i = OK x.
Proof. apply at_index_lookupZ_OK. Qed.

Lemma SupportedOpForPropagation_windowed_ready v consumer producer c :
  instructions (computation_ v) !! consumer = Some c ->
  opcode c = kReduceWindow \/ opcode c = kSelectAndScatter ->
  extents_safe (computation_ v) ->
  window_ready v c ->
  SupportedOpForPropagation consumer producer v = OK (true, v).
Proof.
  intros Hc Hop Hsafe
    (n & bd & sd & wb & ws & nsd & Hn & Hd & Hwb & Hsz & Hws & Hlo & Hhi
     & Hax & Hst).
  unfold rewritten_operand, operand_dim_map, new_axis in *.
  destruct (operands c !! 0%nat) as [o |] eqn:Ho; [| discriminate].
  cbn in Hn, Hd.
  destruct (instr_to_dim_permute_map_ v !! n) as [perm |] eqn:Hperm;
    [| discriminate].
  cbn in Hax.
  unfold SupportedOpForPropagation.
  rewrite (bind_OK _ _ _ _ _ (on_graph_deref _ _ _ Hc)).
  destruct (windowed_opcode c Hop) as (E0 & E1 & E2 & E3).
  rewrite E0, E1, E2, E3. clear E0 E1 E2 E3.
  unfold operand. rewrite (at_index_Some (operands c) 0 o Ho), bind_lift_OK.
  rewrite (bind_OK _ _ _ _ _ (dim_map_contains_Some _ _ _ Hd)). cbn [negb].
  rewrite (bind_OK _ _ _ _ _ (dim_map_index_Some _ _ _ Hd)). cbn [fst snd].
  rewrite (at_index_Some _ _ _ Hwb), bind_lift_OK.
  rewrite Hsz. cbn [Z.eqb Pos.eqb negb].
  rewrite (at_index_Some _ _ _ Hws), bind_lift_OK.
  rewrite Hlo. cbn [Z.eqb negb].
  destruct (Z.gtb_spec (padding_high ws) (size ws)); [lia |].
  rewrite (bind_OK _ _ _ _ _ (old_to_new_contains_Some _ _ _ Hn)). cbn [negb].
  rewrite (bind_OK _ _ _ _ _ (old_to_new_index_Some _ _ _ Hn)).
  rewrite (bind_OK _ _ _ _ _ (permute_map_index_Some _ _ _ Hperm)).
  unfold DimLookUp. rewrite (at_index_Some _ _ _ Hax), bind_lift_OK.
  destruct (Z.eqb_spec (size ws) 1) as [E | E]; [reflexivity |].
  cbn [negb]. destruct (Hst E) as (extent & He & Hs0 & Hrem).
  unfold extent_of in He.
  destruct (instructions (computation_ v) !! n) as [x |] eqn:Hx;
    [| discriminate].
  cbn in He.
  rewrite (bind_OK _ _ _ _ _ (on_graph_shape_of _ _ _ Hx)).
  rewrite (at_index_Some _ _ _ He), bind_lift_OK.
  unfold rem64. destruct (Z.eqb_spec (stride ws) 0); [contradiction |].
  rewrite bind_lift_OK. rewrite wrap_rem, Hrem; auto.
  eapply extents_safe_lookup in Hsafe; eauto.
  unfold Int64.safe in Hsafe. lia.
Qed.

Lemma loop_first_operands v c n (len : nat) : forall start : nat,
  (start + len = length (operands c))%nat ->
  loop_while (map Z.of_nat (seq start len))
    (fun i =>
       old_producer <-! operand c i ;;
       rewritten <- old_to_new_contains old_producer ;;
       ret (negb ((i <? n) && negb rewritten)))%state v
  = OK (forallb (fun o => bool_decide (is_Some (old_to_new_instrs_ v !! o)))
          (take (Z.to_nat n - start) (drop start (operands c))), v).
Proof.
  induction len as [| len IH]; intros start Hlen.
  - simpl. rewrite drop_ge by lia. now rewrite take_nil.
  - cbn [seq map loop_while].
    destruct (lookup_lt_is_Some_2 (operands c) start) as [o Ho]; [lia |].
    unfold operand, at_index.
    destruct (Z.ltb_spec (Z.of_nat start) 0); [lia |].
    rewrite Nat2Z.id, Ho.
    unfold bind at 1. unfold bind at 1. cbn [lift_status].
    unfold bind at 1. unfold old_to_new_contains at 1, gets.
    unfold bind at 1. cbn [ret].
    rewrite (drop_S _ _ _ Ho).
    destruct (Z.ltb_spec (Z.of_nat start) n) as [Hlt | Hge].
    + replace (Z.to_nat n - start)%nat with (S (Z.to_nat n - S start)) by lia.
      cbn [take forallb andb].
      destruct (bool_decide (is_Some (old_to_new_instrs_ v !! o)));
        cbn [negb andb]; [| reflexivity].
      apply IH. lia.
    + cbn [andb negb]. rewrite IH by lia.
      replace (Z.to_nat n - start)%nat with 0%nat by lia.
      replace (Z.to_nat n - S start)%nat with 0%nat by lia.
      reflexivity.
Qed.

Lemma first_operands_rewritten_run v c n :
  first_operands_rewritten c n v
  = OK (forallb (fun o => bool_decide (is_Some (old_to_new_instrs_ v !! o)))
          (take (Z.to_nat n) (operands c)), v).
Proof.
  unfold first_operands_rewritten, range, operand_count.
  rewrite Nat2Z.id, loop_first_operands by reflexivity.
  now rewrite Nat.sub_0_r.
Qed.

Lemma windowed_opcode_2 c :
  opcode c = kReduceWindow \/ opcode c = kSelectAndScatter ->
  (opcode c = kReduceWindow /\
   opcode_eqb (opcode c) kReduceWindow || opcode_eqb (opcode c) kReduce
   = true /\
   opcode_eqb (opcode c) kSelectAndScatter = false) \/
  (opcode c = kSelectAndScatter /\
   opcode_eqb (opcode c) kReduceWindow || opcode_eqb (opcode c) kReduce
   = false /\
   opcode_eqb (opcode c) kSelectAndScatter = true).
Proof. intros [-> | ->]; [left | right]; repeat split; reflexivity. Qed.

Lemma window_values_safe_lookup c i w :
  window_values_safe c -> lookupZ (window c) i = Some w ->
  Int64.safe (stride w) /\ Int64.safe (padding_low w) /\
  Int64.safe (padding_high w).
Proof.
  intros Hs Hw. unfold window_values_safe in Hs.
  rewrite Forall_lookup in Hs. unfold lookupZ in Hw.
  destruct (i <? 0); [discriminate |]. eauto.
Qed.

Lemma scatter_quotient e hi lo st :
  Int64.safe e -> Int64.safe hi -> Int64.safe lo -> st <> 0 ->
  Int64.wrap (Z.quot (e + hi + lo)%i64 st) = Z.quot (e + hi + lo) st.
Proof.
  unfold Int64.safe. intros He Hhi Hlo Hst.
  rewrite (add_exact e hi) by in_range_tac.
  rewrite (add_exact (e + hi) lo) by in_range_tac.
  apply wrap_quot; lia.
Qed.

Lemma CanPropagate_windowed_inv v consumer producer c v1 dm :
  instructions (computation_ v) !! consumer = Some c ->
  opcode c = kReduceWindow \/ opcode c = kSelectAndScatter ->
  extents_safe (computation_ v) -> window_values_safe c ->
  operand_dim_map v c 0 = Some dm ->
  CanPropagate consumer producer v = OK (true, v1) ->
  v1 = v /\ (opcode c = kSelectAndScatter -> scatter_ready v c).
Proof.
  intros Hc Hop Hsafe Hwin Hdm H.
  unfold CanPropagate in H.
  rewrite (bind_OK _ _ _ _ _ (on_graph_deref _ _ _ Hc)) in H.
  destruct (windowed_opcode c Hop) as (E0 & E1 & _ & _).
  rewrite E0, E1 in H. clear E0 E1.
  destruct (windowed_opcode_2 c Hop) as [(Eo & E2 & E3) | (Eo & E2 & E3)];
    rewrite E2, E3 in H; clear E2 E3.
  - cbv beta delta [bind ret] in H. cbn [negb] in H.
    rewrite first_operands_rewritten_run in H.
    repeat (case_match; simplify_eq; try discriminate).
    split; [reflexivity | congruence].
  - unfold operand_dim_map in Hdm.
    cbv beta delta [bind lift_status operand dim_map_contains gets
      dim_map_index old_to_new_contains old_to_new_index permute_map_index
      DimLookUp div64 ret] in H.
    cbn [negb] in H.
    repeat (first [rewrite first_operands_rewritten_run in H | case_match];
            simplify_eq; try discriminate).
    all: tidy; simplify_eq; tidy.
    all: rewrite ?lookupZ_0, ?lookupZ_1 in *.
    all: try match goal with
         | H : operands _ !! 0%nat = Some _ |- _ =>
             rewrite H in Hdm; cbn in Hdm; congruence
         end.
    split; [reflexivity |]. intros _. split; [assumption |].
    match goal with
    | H : instr_to_dim_map_ _ !! _ = Some ?p |- _ => destruct p as [bd sd]
    end.
    cbn [fst snd] in *.
    match goal with
    | Hw : lookupZ (window _) sd = Some ?w |- _ =>
        destruct (window_values_safe_lookup _ _ _ Hwin Hw) as (? & ? & ?)
    end.
    match goal with
    | H0 : operands _ !! 0%nat = Some ?o0,
      H1 : operands _ !! 1%nat = Some ?o1,
      Hn0 : old_to_new_instrs_ _ !! ?o0 = Some ?n0,
      Hn1 : old_to_new_instrs_ _ !! ?o1 = Some ?n1,
      Hp0 : instr_to_dim_permute_map_ _ !! ?n0 = Some ?perm,
      Hp1 : instr_to_dim_permute_map_ _ !! ?n1 = Some ?perm,
      Hb : lookupZ ?perm bd = Some ?nbd,
      Hs : lookupZ ?perm sd = Some ?nsd,
      Hx0 : instructions _ !! ?n0 = Some ?x0,
      Hx1 : instructions _ !! ?n1 = Some ?x1,
      Hb0 : lookupZ (dimensions (shape ?x0)) ?nbd = Some ?b,
      Hb1 : lookupZ (dimensions (shape ?x1)) ?nbd = Some ?b,
      He0 : lookupZ (dimensions (shape ?x0)) ?nsd = Some ?e0,
      He1 : lookupZ (dimensions (shape ?x1)) ?nsd = Some _,
      Hw : lookupZ (window _) sd = Some ?w |- _ =>
        exists n0, n1, bd, sd, perm, nbd, nsd, w, b, e0;
        eexists;
        unfold rewritten_operand, operand_dim_map, extent_of;
        rewrite H0, H1, Hx0, Hx1; cbn;
        repeat match goal with |- _ /\ _ => split end;
        try eassumption; try reflexivity;
        rewrite <- scatter_quotient; auto;
        exact (extents_safe_lookup _ _ _ _ _ Hsafe Hx0 He0)
    end.
Qed.

Lemma take_1_lookup {A} (l : list A) x :
  l !! 0%nat = Some x -> take 1 l = [x].
Proof. destruct l; simpl; [discriminate |]. now intros [= ->]. Qed.

Lemma take_2_lookup {A} (l : list A) x y :
  l !! 0%nat = Some x -> l !! 1%nat = Some y -> take 2 l = [x; y].
Proof.
  destruct l as [| a [| b l]]; simpl; try discriminate.
  now intros [= ->] [= ->].
Qed.

Lemma CanPropagate_windowed_ready v consumer producer c n :
  instructions (computation_ v) !! consumer = Some c ->
  opcode c = kReduceWindow \/ opcode c = kSelectAndScatter ->
  extents_safe (computation_ v) -> window_values_safe c ->
  rewritten_operand v c 0 = Some n ->
  (opcode c = kSelectAndScatter -> scatter_ready v c) ->
  CanPropagate consumer producer v = OK (true, v).
Proof.
  intros Hc Hop Hsafe Hwin Hn Hsc.
  unfold CanPropagate.
  rewrite (bind_OK _ _ _ _ _ (on_graph_deref _ _ _ Hc)).
  destruct (windowed_opcode c Hop) as (E0 & E1 & _ & _).
  rewrite E0, E1. clear E0 E1.
  unfold bind at 1. cbn [ret negb].
  destruct (windowed_opcode_2 c Hop) as [(Eo & E2 & E3) | (Eo & E2 & E3)];
    rewrite E2, E3; clear E2 E3.
  - unfold rewritten_operand in Hn.
    destruct (operands c !! 0%nat) as [o |] eqn:Ho; [| discriminate].
    cbn in Hn.
    unfold bind at 1. rewrite first_operands_rewritten_run.
    change (Z.to_nat 1) with 1%nat. rewrite (take_1_lookup _ _ Ho).
    cbn [forallb]. rewrite Hn. reflexivity.
  - destruct (Hsc Eo) as
      (Hadd & n0 & n1 & bd & sd & perm & nbd & nsd & ws & b & e0 & e1
       & Hn0 & Hn1 & Hd & Hp0 & Hp1 & Hb & Hs & Hb0 & Hb1 & Hws & He0 & He1
       & Hst & Hq).
    unfold rewritten_operand, operand_dim_map, extent_of in *.
    destruct (operands c !! 0%nat) as [o0 |] eqn:Ho0; [| discriminate].
    destruct (operands c !! 1%nat) as [o1 |] eqn:Ho1; [| discriminate].
    cbn in Hn0, Hn1, Hd.
    destruct (instructions (computation_ v) !! n0) as [x0 |] eqn:Hx0;
      [| discriminate].
    destruct (instructions (computation_ v) !! n1) as [x1 |] eqn:Hx1;
      [| discriminate].
    cbn in Hb0, Hb1, He0, He1.
    unfold bind at 1. cbn [ret negb].
    rewrite Hadd. cbn [negb].
    unfold bind at 1. rewrite first_operands_rewritten_run.
    change (Z.to_nat 2) with 2%nat. rewrite (take_2_lookup _ _ _ Ho0 Ho1).
    cbn [forallb]. rewrite Hn0, Hn1. cbn [bool_decide andb negb].
    replace (bool_decide (is_Some (Some n0))) with true
      by (symmetry; apply bool_decide_eq_true; eauto).
    replace (bool_decide (is_Some (Some n1))) with true
      by (symmetry; apply bool_decide_eq_true; eauto).
    cbn [andb negb].
    unfold operand.
    rewrite (at_index_Some (operands c) 0 o0 Ho0), bind_lift_OK.
    rewrite (bind_OK _ _ _ _ _ (old_to_new_index_Some _ _ _ Hn0)).
    rewrite (bind_OK _ _ _ _ _ (dim_map_index_Some _ _ _ Hd)).
    rewrite (at_index_Some (operands c) 1 o1 Ho1), bind_lift_OK.
    rewrite (bind_OK _ _ _ _ _ (old_to_new_index_Some _ _ _ Hn1)).
    rewrite (bind_OK _ _ _ _ _ (permute_map_index_Some _ _ _ Hp0)).
    rewrite (bind_OK _ _ _ _ _ (permute_map_index_Some _ _ _ Hp1)).
    rewrite bool_decide_eq_true_2 by reflexivity. cbn [negb fst snd].
    unfold DimLookUp.
    rewrite (at_index_Some _ _ _ Hb), bind_lift_OK.
    rewrite (at_index_Some _ _ _ Hs), bind_lift_OK.
    rewrite (bind_OK _ _ _ _ _ (on_graph_shape_of _ _ _ Hx0)).
    rewrite (bind_OK _ _ _ _ _ (on_graph_shape_of _ _ _ Hx1)).
    rewrite (at_index_Some _ _ _ Hb0), bind_lift_OK.
    rewrite (at_index_Some _ _ _ Hb1), bind_lift_OK.
    rewrite Z.eqb_refl. cbn [negb].
    rewrite (at_index_Some _ _ _ Hws), bind_lift_OK.
    rewrite (at_index_Some _ _ _ He0), bind_lift_OK.
    rewrite (at_index_Some _ _ _ He1), bind_lift_OK.
    unfold div64. destruct (Z.eqb_spec (stride ws) 0); [contradiction |].
    rewrite bind_lift_OK.
    destruct (window_values_safe_lookup _ _ _ Hwin Hws) as (? & ? & ?).
    rewrite scatter_quotient, Hq, Z.eqb_refl; auto.
    exact (extents_safe_lookup _ n0 x0 _ _ Hsafe Hx0 He0).
Qed.

(** The two checks in sequence: a reduce-window or select-and-scatter
    consumer passes both exactly when its window and, for a
    select-and-scatter, its scatter are ready. *)
Lemma windowed_consumer_readiness v consumer producer c :
  instructions (computation_ v) !! consumer = Some c ->
  opcode c = kReduceWindow \/ opcode c = kSelectAndScatter ->
  extents_safe (computation_ v) -> window_values_safe c ->
  (exists v1 v2,
     SupportedOpForPropagation consumer producer v = OK (true, v1) /\
     CanPropagate consumer producer v1 = OK (true, v2))
  <-> window_ready v c /\
      (opcode c = kSelectAndScatter -> scatter_ready v c).
Proof.
  intros Hc Hop Hsafe Hwin. split.
  - intros (v1 & v2 & H1 & H2).
    destruct (SupportedOpForPropagation_windowed_inv _ _ _ _ _
                Hc Hop Hsafe H1) as [-> Hw].
    split; [exact Hw |].
    destruct Hw as (n & bd & sd & _ & _ & _ & _ & Hd & _).
    now destruct (CanPropagate_windowed_inv _ _ _ _ _ _
                    Hc Hop Hsafe Hwin Hd H2).
  - intros [Hw Hs]. exists v, v. split.
    + now apply SupportedOpForPropagation_windowed_ready with (c := c).
    + destruct Hw as (n & bd & sd & _ & _ & _ & Hn & _).
      now apply CanPropagate_windowed_ready with (c := c) (n := n).
Qed.





(** ** A lookup in the DimMap that misses *)

(** C10.  The pass run on a computation in which the rewritten convolution
    is operand 1 of a variadic reduce: [SupportedOpForPropagation] reads
    [instr_to_dim_map_] at operand 0 of the reduce, the parameter 3, which
    no rewrite site has recorded.  The lookup misses and leaves the
    value-initialized entry (0, 0) behind: at the end the DimMap has an
    entry for an instruction without OldToNew entry. *)
Theorem dim_map_lookup_misses_on_variadic_reduce :
  exists changed v,
    run_visitor 8 100 example_variadic_reduce = OK (changed, v) /\
    old_to_new_instrs_ v !! 3%nat = None /\
    instr_to_dim_map_ v !! 3%nat = Some (0, 0).
Proof.
  eexists _, _. split; [vm_compute; reflexivity |].
  split; vm_compute; reflexivity.
Qed.


(** ** Rules for [respects] *)

Section respects_rules.
Context {S : Type} (R : S -> S -> Prop).
Context {R_refl : Reflexive R} {R_trans : Transitive R}.

Lemma respects_ret {A} (a : A) : respects R (ret a).
Proof. intros s a' s' [= <- <-]. reflexivity. Qed.

Lemma respects_gets {A} (f : S -> A) : respects R (gets f).
Proof. intros s a' s' [= <- <-]. reflexivity. Qed.

Lemma respects_lift_status {A} (m : StatusOr A) : respects R (lift_status m).
Proof.
  intros s a s' H. apply lift_status_inv in H as [_ ->]. reflexivity.
Qed.

Lemma respects_bind {A B} (m : State S A) (k : A -> State S B) :
  respects R m -> (forall a, respects R (k a)) -> respects R (bind m k).
Proof.
  intros Hm Hk s b s'' H. apply bind_inv in H as (a & s' & H1 & H2).
  etransitivity; [eapply Hm | eapply Hk]; eassumption.
Qed.

Lemma respects_check_ok {A} (m : State S A) :
  respects R m -> respects R (check_ok m).
Proof.
  intros Hm s a s' H. unfold check_ok in H.
  destruct (m s) as [[a0 s0] | f] eqn:E.
  - injection H as <- <-. eapply Hm, E.
  - now destruct f.
Qed.

Lemma respects_for_each {A B} (body : A -> B -> State S B) l :
  (forall x acc, respects R (body x acc)) ->
  forall acc, respects R (for_each l acc body).
Proof.
  intros Hb. induction l as [| x l IH]; intros acc; cbn.
  - apply respects_ret.
  - apply respects_bind; [apply Hb | intros acc'; apply IH].
Qed.

Lemma respects_loop_while {A} (body : A -> State S bool) l :
  (forall x, respects R (body x)) -> respects R (loop_while l body).
Proof.
  intros Hb. induction l as [| x l IH]; cbn.
  - apply respects_ret.
  - apply respects_bind; [apply Hb |].
    intros [|]; [apply IH | apply respects_ret].
Qed.
End respects_rules.

#[global] Instance grows_refl : Reflexive grows.
Proof. intros c. exists []. now rewrite extend_nil. Qed.

#[global] Instance grows_trans : Transitive grows.
Proof.
  intros c1 c2 c3 [n1 ->] [n2 ->]. exists (n1 ++ n2). apply extend_extend.
Qed.

#[global] Instance frame_but_refl G K `{!Reflexive G} : Reflexive (frame_but G K).
Proof. intros v. repeat split; reflexivity. Qed.

#[global] Instance frame_but_trans G K `{!Transitive G} :
  Transitive (frame_but G K).
Proof.
  intros v1 v2 v3 (G1 & O1 & N1 & D1) (G2 & O2 & N2 & D2).
  repeat split.
  - etransitivity; eassumption.
  - congruence.
  - congruence.
  - intros k Hk. rewrite D2, D1 by assumption. reflexivity.
Qed.

Lemma respects_bind_lift {S A B} (R : S -> S -> Prop) (m : StatusOr A)
    (k : A -> State S B) :
  (forall a, m = OK a -> respects R (k a)) ->
  respects R (bind (lift_status m) k).
Proof.
  intros Hk s b s' H. apply bind_inv in H as (a & s0 & H1 & H2).
  apply lift_status_inv in H1 as [-> ->]. eapply Hk; eauto.
Qed.

(** The rules applied along the structure of a member. *)
Ltac side_conditions :=
  try match goal with
      | |- Reflexive _ => typeclasses eauto
      | |- Transitive _ => typeclasses eauto
      end.

Ltac respects_step :=
  lazymatch goal with
  | |- respects _ (ret _) => apply respects_ret
  | |- respects _ (gets _) => apply respects_gets
  | |- respects _ (lift_status _) => apply respects_lift_status
  | |- respects _ (bind (lift_status _) _) =>
      apply respects_bind_lift; intros ? ?
  | |- respects _ (bind _ _) =>
      apply respects_bind; [typeclasses eauto .. | | intros ?]
  | |- respects _ (check_ok _) => apply respects_check_ok
  | |- respects _ (for_each _ _ _) =>
      apply respects_for_each; [typeclasses eauto .. | intros ? ?]
  | |- respects _ (loop_while _ _) =>
      apply respects_loop_while; [typeclasses eauto .. | intros ?]
  | |- respects _ (if ?b then _ else _) => destruct b
  | |- respects _ (match ?x with _ => _ end) => destruct x
  | |- respects _ (let _ := _ in _) => cbv zeta
  end.

Ltac respects_tac := repeat (respects_step; side_conditions).

(** The graph builders only add instructions. *)
Lemma grows_AddInstruction i : respects grows (AddInstruction i).
Proof.
  intros c a c' [= <- <-]. exists [i]. reflexivity.
Qed.

Lemma grows_deref i : respects grows (deref i).
Proof.
  intros c a c' H. unfold deref in H. destruct (instr c i); [| discriminate].
  injection H as <- <-. reflexivity.
Qed.

Lemma grows_shape_of i : respects grows (shape_of i).
Proof. unfold shape_of. respects_tac. apply grows_deref. Qed.

Lemma grows_MakeReshapeHlo dims operand :
  respects grows (MakeReshapeHlo dims operand).
Proof.
  unfold MakeReshapeHlo.
  respects_tac; auto using grows_shape_of, grows_AddInstruction.
Qed.

Lemma grows_MakeSliceHlo operand starts limits strides :
  respects grows (MakeSliceHlo operand starts limits strides).
Proof.
  unfold MakeSliceHlo.
  respects_tac; auto using grows_shape_of, grows_AddInstruction.
Qed.

Lemma grows_MakeTransposeHlo operand dims :
  respects grows (MakeTransposeHlo operand dims).
Proof.
  unfold MakeTransposeHlo.
  respects_tac; auto using grows_shape_of, grows_AddInstruction.
Qed.

Lemma unchanged_deref i : respects eq (deref i).
Proof.
  intros c a c' H. unfold deref in H. destruct (instr c i); [| discriminate].
  now injection H as <- <-.
Qed.

Lemma unchanged_shape_of i : respects eq (shape_of i).
Proof. unfold shape_of. respects_tac. apply unchanged_deref. Qed.

(** ** The tables and the frame *)

Section frame_rules.
Context (G : HloComputation -> HloComputation -> Prop) (K : InstrId -> Prop).
Context {G_refl : Reflexive G}.

Lemma frame_on_graph {A} (m : State HloComputation A) :
  respects G m -> respects (frame_but G K) (on_graph m).
Proof.
  intros Hm v a v' H. unfold on_graph in H.
  destruct (m (computation_ v)) as [[a0 c] | f] eqn:E; [| discriminate].
  injection H as <- <-. repeat split; cbn. eapply Hm, E.
Qed.

Lemma frame_dim_map_index k : K k -> respects (frame_but G K) (dim_map_index k).
Proof.
  intros Hk v a v' H. unfold dim_map_index in H.
  destruct (instr_to_dim_map_ v !! k) eqn:E; injection H as <- <-.
  - reflexivity.
  - repeat split; cbn; [reflexivity |].
    intros k' Hk'. apply lookup_insert_ne. congruence.
Qed.

Lemma frame_permute_map_index k :
  respects (frame_but G K) (permute_map_index k).
Proof.
  intros v a v' H. unfold permute_map_index in H.
  destruct (instr_to_dim_permute_map_ v !! k); injection H as <- <-.
  - reflexivity.
  - repeat split; cbn; reflexivity.
Qed.

Lemma frame_old_to_new_index k : respects (frame_but G K) (old_to_new_index k).
Proof.
  intros v a v' H. apply old_to_new_index_inv in H as [_ ->]. reflexivity.
Qed.

Lemma frame_record_batch_to_space o n :
  respects (frame_but G K) (record_batch_to_space o n).
Proof.
  intros v a v' [= <- <-]. repeat split; cbn; reflexivity.
Qed.
End frame_rules.

(** The steps of a member that every frame allows. *)
Ltac frame_tac :=
  respects_tac;
  try first
    [ apply frame_on_graph;
      first [ apply unchanged_deref | apply unchanged_shape_of
            | apply grows_deref | apply grows_shape_of
            | apply grows_MakeReshapeHlo | apply grows_MakeSliceHlo
            | apply grows_MakeTransposeHlo | apply grows_AddInstruction ]
    | apply frame_permute_map_index
    | apply frame_old_to_new_index
    | apply frame_record_batch_to_space
    | apply respects_gets ];
  side_conditions.

(** A run of a member as an instance of what the member respects. *)
Ltac apply_respects H :=
  match type of H with
  | ?m ?v = OK (?b, ?v1) =>
      revert H; generalize v b v1;
      match goal with
      | |- forall s a s', m s = OK (a, s') -> ?R s s' => change (respects R m)
      end
  end.

Lemma IsBroadcastPropagatable_unchanged broadcast old_other_op v r v' :
  IsBroadcastPropagatable broadcast old_other_op v = OK (r, v') -> v' = v.
Proof.
  unfold IsBroadcastPropagatable. intros H.
  cbv beta delta [bind lift_status dim_map_contains gets dim_map_index CHECK
    ret] in H.
  repeat (case_match; simplify_eq; try discriminate).
  all: tidy; try reflexivity.
  all: match goal with
       | H : is_Some (?m !! ?k), E : ?m !! ?k = None |- _ =>
           rewrite E in H; now destruct H
       end.
Qed.

Lemma SupportedOpForPropagation_frame consumer producer v c b v1 :
  instructions (computation_ v) !! consumer = Some c ->
  SupportedOpForPropagation consumer producer v = OK (b, v1) ->
  frame_but eq (fun k => operand c 0 = OK k) v v1.
Proof.
  intros Hc H. unfold SupportedOpForPropagation in H.
  rewrite (bind_OK _ _ _ _ _ (on_graph_deref _ _ _ Hc)) in H.
  apply_respects H; cbv beta.
  frame_tac.
  - intros s r s' E. apply IsBroadcastPropagatable_unchanged in E as ->.
    reflexivity.
  - now apply frame_dim_map_index.
  - now apply frame_dim_map_index.
Qed.

Lemma BatchToSpace_frame old_instr :
  respects (frame_but grows (eq old_instr)) (BatchToSpace old_instr).
Proof.
  unfold BatchToSpace, old_to_new_contains, permute_map_contains.
  frame_tac.
  now apply frame_dim_map_index.
Qed.

(** ** The replacement of the operands of an unsupported user *)

Lemma set_operands_id u : set_operands (operands u) u = u.
Proof. now destruct u. Qed.

Lemma set_operands_twice o1 o2 u :
  set_operands o1 (set_operands o2 u) = set_operands o1 u.
Proof. reflexivity. Qed.

Lemma set_computation_twice c1 c2 v :
  set_computation c1 (set_computation c2 v) = set_computation c1 v.
Proof. reflexivity. Qed.

Lemma update_instruction_twice i x y c :
  update_instruction i x (update_instruction i y c) = update_instruction i x c.
Proof.
  unfold update_instruction. cbn. now rewrite list_insert_insert_eq.
Qed.

Lemma update_instruction_id i x c :
  instructions c !! i = Some x -> update_instruction i x c = c.
Proof.
  intros H. unfold update_instruction. rewrite list_insert_id by assumption.
  now destruct c.
Qed.

Lemma update_operands_shape c user u ops i x :
  instructions c !! user = Some u ->
  instructions c !! i = Some x ->
  exists y, instructions (update_instruction user (set_operands ops u) c) !! i
            = Some y /\ shape y = shape x.
Proof.
  intros Hu Hi. cbn. destruct (decide (i = user)) as [-> | Hne].
  - exists (set_operands ops u). split.
    + apply list_lookup_insert_eq. now apply lookup_lt_Some in Hu.
    + cbn. congruence.
  - exists x. split; [| reflexivity].
    rewrite list_lookup_insert_ne by congruence. assumption.
Qed.

Section replace_loop.
Variables (v : ConvolutionVisitor) (user node replacement : InstrId).
Variables (u n r : HloInstruction).
Hypothesis Hu : instructions (computation_ v) !! user = Some u.
Hypothesis Hn : instructions (computation_ v) !! node = Some n.
Hypothesis Hr : instructions (computation_ v) !! replacement = Some r.
Hypothesis Hshape : CompatibleIgnoringFpPrecision (shape n) (shape r) = true.

Lemma lookup_user ops :
  instructions (update_instruction user (set_operands ops u) (computation_ v))
    !! user = Some (set_operands ops u).
Proof. cbn. apply list_lookup_insert_eq. now apply lookup_lt_Some in Hu. Qed.

Lemma ReplaceOperandWith_user pre o rest :
  o = node ->
  on_graph (ReplaceOperandWith user (Z.of_nat (length pre)) replacement)
    (set_computation
       (update_instruction user (set_operands (pre ++ o :: rest) u)
          (computation_ v)) v)
  = OK (tt,
        set_computation
          (update_instruction user
             (set_operands (pre ++ replacement :: rest) u)
             (computation_ v)) v).
Proof.
  intros ->. unfold on_graph, ReplaceOperandWith. cbn [computation_ set_computation].
  rewrite (bind_OK _ _ _ _ _ (deref_OK _ _ _ (lookup_user _))).
  replace ((Z.of_nat (length pre) <? 0)
           || (operand_count (set_operands (pre ++ node :: rest) u)
               <=? Z.of_nat (length pre))) with false.
  2:{ symmetry. apply orb_false_iff. unfold operand_count. cbn.
      rewrite length_app. cbn. split; [apply Z.ltb_ge | apply Z.leb_gt]; lia. }
  assert (Ho : operand (set_operands (pre ++ node :: rest) u)
                 (Z.of_nat (length pre)) = OK node).
  { unfold operand. rewrite at_index_of_nat. cbn.
    now rewrite list_lookup_middle. }
  rewrite Ho, bind_lift_OK.
  destruct (update_operands_shape _ _ _ (pre ++ node :: rest) _ _ Hu Hn)
    as (n' & Hn' & Sn).
  destruct (update_operands_shape _ _ _ (pre ++ node :: rest) _ _ Hu Hr)
    as (r' & Hr' & Sr).
  rewrite (bind_OK _ _ _ _ _ (shape_of_OK _ _ _ Hn')).
  rewrite (bind_OK _ _ _ _ _ (shape_of_OK _ _ _ Hr')).
  rewrite Sn, Sr, Hshape. cbn [negb].
  unfold ReplaceOperandWithDifferentShape.
  rewrite (bind_OK _ _ _ _ _ (deref_OK _ _ _ (lookup_user _))).
  replace ((Z.of_nat (length pre) <? 0)
           || (operand_count (set_operands (pre ++ node :: rest) u)
               <=? Z.of_nat (length pre))) with false.
  2:{ symmetry. apply orb_false_iff. unfold operand_count. cbn.
      rewrite length_app. cbn. split; [apply Z.ltb_ge | apply Z.leb_gt]; lia. }
  unfold modify. rewrite update_instruction_twice, set_operands_twice.
  rewrite set_computation_twice. cbn [operands set_operands].
  rewrite Nat2Z.id.
  replace (<[length pre := replacement]> (pre ++ node :: rest))
    with (pre ++ replacement :: rest); [reflexivity |].
  symmetry. rewrite insert_app_r_alt by lia.
  now rewrite Nat.sub_diag.
Qed.

Lemma replace_loop rest : forall pre,
  for_each (map Z.of_nat (seq (length pre) (length rest))) tt
    (fun i _ =>
       (x <- on_graph (deref user) ;;
        operand_i <-! operand x i ;;
        if (operand_i =? node)%nat
        then check_ok (on_graph (ReplaceOperandWith user i replacement))
        else ret tt)%state)
    (set_computation
       (update_instruction user (set_operands (pre ++ rest) u)
          (computation_ v)) v)
  = OK (tt,
        set_computation
          (update_instruction user
             (set_operands (pre ++ map (redirected node replacement) rest) u)
             (computation_ v)) v).
Proof.
  induction rest as [| o rest IH]; intros pre.
  - reflexivity.
  - cbn [length seq map for_each].
    assert (Hd : on_graph (deref user)
              (set_computation
                 (update_instruction user
                    (set_operands (pre ++ o :: rest) u) (computation_ v)) v)
            = OK (set_operands (pre ++ o :: rest) u,
                  set_computation
                    (update_instruction user
                       (set_operands (pre ++ o :: rest) u) (computation_ v))
                    v)).
    { apply on_graph_deref. apply lookup_user. }
    assert (Ho : operand (set_operands (pre ++ o :: rest) u)
                   (Z.of_nat (length pre)) = OK o).
    { unfold operand. rewrite at_index_of_nat. cbn.
      now rewrite list_lookup_middle. }
    specialize (IH (pre ++ [o])) as IH1.
    specialize (IH (pre ++ [replacement])).
    rewrite length_app, Nat.add_1_r, <- !app_assoc in IH, IH1.
    cbn [app] in IH, IH1.
    assert (Er : redirected node replacement o
                 = if (o =? node)%nat then replacement else o)
      by reflexivity.
    rewrite Er. clear Er.
    destruct (o =? node)%nat eqn:E.
    + erewrite bind_OK; [exact IH |].
      rewrite (bind_OK _ _ _ _ _ Hd), Ho, bind_lift_OK, E.
      apply Nat.eqb_eq in E. unfold check_ok.
      now rewrite (ReplaceOperandWith_user pre o rest E).
    + erewrite bind_OK; [exact IH1 |].
      now rewrite (bind_OK _ _ _ _ _ Hd), Ho, bind_lift_OK, E.
Qed.
End replace_loop.

(** ** An unsupported user *)

(** C8.  [user] is a user of the popped worklist node [node] for which
    [SupportedOpForPropagation] answers false, and [BatchToSpace] of the
    node yields [b], of a shape the host accepts in the place of the node.
    Then the loop body succeeds; the user is not enqueued (the worklist is
    returned as it was); the computation is the one before, extended by
    the instructions of [BatchToSpace], in which the operands of [user]
    that were [node] are [b], and nothing else differs: every other
    instruction is as before; no OldToNew entry and no DimMap entry is
    made for the user, and the set of non-propagatable instructions is as
    before. *)
Theorem unsupported_user_is_rewired v node user worklist u v1 b v2 n r :
  instructions (computation_ v) !! user = Some u ->
  node ∈ operands u ->
  user ∉ operands u ->
  SupportedOpForPropagation user node v = OK (false, v1) ->
  BatchToSpace node v1 = OK (b, v2) ->
  instructions (computation_ v2) !! node = Some n ->
  instructions (computation_ v2) !! b = Some r ->
  CompatibleIgnoringFpPrecision (shape n) (shape r) = true ->
  exists news v',
    propagate_to_user node user worklist v = OK (worklist, v') /\
    computation_ v2 = extend (computation_ v) news /\
    computation_ v' =
      update_instruction user
        (set_operands (map (redirected node b) (operands u)) u)
        (extend (computation_ v) news) /\
    (forall i, i <> user ->
       (i < length (instructions (computation_ v)))%nat ->
       instructions (computation_ v') !! i
       = instructions (computation_ v) !! i) /\
    old_to_new_instrs_ v' = old_to_new_instrs_ v /\
    instr_to_dim_map_ v' !! user = instr_to_dim_map_ v !! user /\
    non_propagatable_instrs_ v' = non_propagatable_instrs_ v.
Proof.
  intros Hu Hnode Hself Hsup Hb2s Hn Hr Hshape.
  destruct (SupportedOpForPropagation_frame _ _ _ _ _ _ Hu Hsup)
    as (G1 & O1 & N1 & D1).
  destruct (BatchToSpace_frame _ _ _ _ Hb2s) as ([news G2] & O2 & N2 & D2).
  rewrite <- G1 in G2.
  assert (Hu2 : instructions (computation_ v2) !! user = Some u).
  { rewrite G2. now apply extend_lookup_old. }
  exists news.
  eexists. split; [| split; [exact G2 |]].
  - unfold propagate_to_user.
    rewrite (bind_OK _ _ _ _ _ Hsup). cbn [negb].
    rewrite (bind_OK _ _ _ _ _ Hb2s).
    rewrite (bind_OK _ _ _ _ _ (on_graph_deref _ _ _ Hu2)).
    erewrite bind_OK; [reflexivity |].
    unfold range, operand_count. rewrite Nat2Z.id.
    pose proof (replace_loop v2 user node b u n r Hu2 Hn Hr Hshape
                  (operands u) []) as L.
    cbn [app length] in L.
    rewrite set_operands_id, (update_instruction_id _ _ _ Hu2),
      set_computation_id in L.
    exact L.
  - cbn [computation_ set_computation]. rewrite <- G2.
    split; [reflexivity |]. split; [| split; [| split]].
    + intros i Hi Hlt. cbn. rewrite list_lookup_insert_ne by congruence.
      rewrite G2. destruct (lookup_lt_is_Some_2 _ _ Hlt) as [x Hx].
      rewrite Hx. now apply extend_lookup_old.
    + cbn. congruence.
    + cbn. rewrite D2, D1; [reflexivity | |].
      * intros Ho. apply Hself. unfold operand in Ho.
        apply at_index_lookupZ_OK in Ho. unfold lookupZ in Ho.
        destruct (0 <? 0); [discriminate |].
        eapply list_elem_of_lookup_2, Ho.
      * intros ->. contradiction.
    + cbn. congruence.
Qed.

Lemma unsupported_user_is_rewired_witness :
  exists news v',
    propagate_to_user 0%nat 3%nat [] example_transposed = OK ([], v') /\
    computation_ v' =
      update_instruction 3%nat
        (set_operands [7%nat]
           (set_dimensions [1; 0; 2]
              (make_instruction kTranspose (f32 [16; 2; 3]) [0%nat])))
        (extend (computation_ example_transposed) news).
Proof.
  destruct (unsupported_user_is_rewired example_transposed 0%nat 3%nat []
              (set_dimensions [1; 0; 2]
                 (make_instruction kTranspose (f32 [16; 2; 3]) [0%nat]))
              example_transposed 7%nat
              (match BatchToSpace 0%nat example_transposed with
               | OK (_, v2) => v2
               | Fail _ => example_transposed
               end)
              (make_instruction kParameter (f32 [2; 16; 3]) [])
              (set_dimensions [0; 1; 2]
                 (make_instruction kTranspose (f32 [2; 16; 3]) [6%nat])))
    as (news & v' & H & _ & Hc & _).
  - reflexivity.
  - apply list_elem_of_here.
  - intros H. apply list_elem_of_singleton in H. discriminate.
  - vm_compute. reflexivity.
  - vm_compute. reflexivity.
  - vm_compute. reflexivity.
  - vm_compute. reflexivity.
  - reflexivity.
  - exists news, v'. split; [exact H | exact Hc].
Defined.


(** ** The shape that comes back from batch to space *)

(** Scenario (a) of section 8 of the specification: the convolution is
    the root; the rewrite makes a convolution of batch 8 and the root
    becomes the inverse conversion, of the shape of the convolution. *)
Lemma scenario_a_restores_shape :
  exists v,
    run_visitor 8 100 example_computation = OK (true, v) /\
    (exists new_conv,
       old_to_new_instrs_ v !! 2%nat = Some new_conv /\
       extents (computation_ v) new_conv = Some [8; 4; 4]) /\
    batch_to_space_map_ v !! 2%nat = Some (root_instruction (computation_ v)) /\
    extents (computation_ v) (root_instruction (computation_ v))
    = extents example_computation 2%nat.
Proof.
  eexists. split; [vm_compute; reflexivity |].
  split; [eexists; split; vm_compute; reflexivity |].
  split; vm_compute; reflexivity.
Qed.

(** C4.  The pass on a convolution in the layout [batch, feature, height,
    width] followed by a 2x2 pooling, the root.  The convolution is
    rewritten, the reduce-window is accepted by the readiness checks and
    [Propagate] rewrites it; it has an OldToNew entry and its rewritten
    form a PermuteMap entry, and [BatchToSpace] of it is an instruction of
    extents [2, 2, 16, 8], where the reduce-window has [2, 4, 8, 8].  The
    replacement of the root by it is refused by the host and the pass
    aborts. *)
Theorem BatchToSpace_of_pooling_has_another_shape :
  exists v0 v1 v2 v3 v4 new_pooling batch_to_space,
    make_visitor 8 example_pooling = OK v0 /\
    space_to_batch_convolution 2%nat v0 = OK (tt, v1) /\
    SupportedOpForPropagation 4%nat 2%nat v1 = OK (true, v2) /\
    CanPropagate 4%nat 2%nat v2 = OK (true, v2) /\
    Propagate 4%nat 2%nat v2 = OK (true, v3) /\
    old_to_new_instrs_ v3 !! 4%nat = Some new_pooling /\
    instr_to_dim_permute_map_ v3 !! new_pooling = Some [1; 3; 0; 2] /\
    BatchToSpace 4%nat v3 = OK (batch_to_space, v4) /\
    extents (computation_ v4) batch_to_space = Some [2; 2; 16; 8] /\
    extents (computation_ v4) 4%nat = Some [2; 4; 8; 8] /\
    run_visitor 8 100 example_pooling = Fail CheckFailure.
Proof.
  eexists _, _, _, _, _, _, _.
  split; [vm_compute; reflexivity |].
  split; [vm_compute; reflexivity |].
  split; [vm_compute; reflexivity |].
  split; [vm_compute; reflexivity |].
  split; [vm_compute; reflexivity |].
  split; [vm_compute; reflexivity |].
  split; [vm_compute; reflexivity |].
  split; [vm_compute; reflexivity |].
  split; [vm_compute; reflexivity |].
  split; vm_compute; reflexivity.
Qed.


(** ** Rules for [hoare] and [keeps] *)

Section hoare_rules.
Context {S : Type}.

Lemma hoare_weaken {A} (P : S -> Prop) (m : State S A) (Q Q' : A -> S -> Prop) :
  hoare P m Q -> (forall a s, Q a s -> Q' a s) -> hoare P m Q'.
Proof. intros H HQ s a s' Hs E. eapply HQ, H; eassumption. Qed.

Lemma hoare_strengthen {A} (P P' : S -> Prop) (m : State S A) Q :
  hoare P m Q -> (forall s, P' s -> P s) -> hoare P' m Q.
Proof. intros H HP s a s' Hs E. eapply H; eauto. Qed.

Lemma hoare_bind {A B} (P : S -> Prop) (m : State S A) Q (k : A -> State S B) R :
  hoare P m Q -> (forall a, hoare (Q a) (k a) R) -> hoare P (bind m k) R.
Proof.
  intros Hm Hk s b s'' Hs E. apply bind_inv in E as (a & s' & E1 & E2).
  eapply Hk; [| exact E2]. eapply Hm; eassumption.
Qed.

Lemma keeps_hoare_bind {A B} (I : S -> Prop) (m : State S A) post
    (k : A -> State S B) Q :
  keeps I m post -> (forall a, post a -> hoare I (k a) Q) ->
  hoare I (bind m k) Q.
Proof.
  intros Hm Hk s b s'' Hs E. apply bind_inv in E as (a & s' & E1 & E2).
  destruct (Hm _ _ _ Hs E1) as [Hs' Ha]. eapply Hk; eassumption.
Qed.

Lemma lift_hoare_bind {A B} (P : S -> Prop) (m : StatusOr A)
    (k : A -> State S B) Q :
  (forall a, m = OK a -> hoare P (k a) Q) ->
  hoare P (bind (lift_status m) k) Q.
Proof.
  intros Hk s b s'' Hs E. apply bind_inv in E as (a & s' & E1 & E2).
  apply lift_status_inv in E1 as [-> ->]. eapply Hk; eauto.
Qed.

Lemma hoare_bind_assoc {A B C} (P : S -> Prop) (m : State S A)
    (k1 : A -> State S B) (k2 : B -> State S C) Q :
  hoare P (bind m (fun a => bind (k1 a) k2)) Q ->
  hoare P (bind (bind m k1) k2) Q.
Proof.
  intros H s c s' Hs E. eapply H; [exact Hs |].
  unfold bind in *. destruct (m s) as [[a s1] |]; [exact E | discriminate].
Qed.

Lemma hoare_bind_ret {A B} (P : S -> Prop) (a : A) (k : A -> State S B) Q :
  hoare P (k a) Q -> hoare P (bind (ret a) k) Q.
Proof. intros H s b s' Hs E. eapply H; eauto. Qed.

Lemma hoare_ret {A} (P : S -> Prop) (a : A) (Q : A -> S -> Prop) :
  (forall s, P s -> Q a s) -> hoare P (ret a) Q.
Proof. intros H s a' s' Hs [= <- <-]. auto. Qed.

Lemma hoare_lift_status {A} (P : S -> Prop) (m : StatusOr A)
    (Q : A -> S -> Prop) :
  (forall a s, m = OK a -> P s -> Q a s) -> hoare P (lift_status m) Q.
Proof.
  intros H s a s' Hs E. apply lift_status_inv in E as [-> ->]. auto.
Qed.

Lemma hoare_gets {A} (P : S -> Prop) (f : S -> A) (Q : A -> S -> Prop) :
  (forall s, P s -> Q (f s) s) -> hoare P (gets f) Q.
Proof. intros H s a s' Hs [= <- <-]. auto. Qed.

Lemma hoare_check_ok {A} (P : S -> Prop) (m : State S A) Q :
  hoare P m Q -> hoare P (check_ok m) Q.
Proof.
  intros Hm s a s' Hs E. unfold check_ok in E.
  destruct (m s) as [[a0 s0] | f] eqn:Em.
  - injection E as <- <-. eapply Hm; eassumption.
  - now destruct f.
Qed.

Lemma hoare_keeps {A} (I : S -> Prop) (m : State S A) post
    (Q : A -> S -> Prop) :
  keeps I m post -> (forall a s, I s -> post a -> Q a s) -> hoare I m Q.
Proof. intros Hm HQ s a s' Hs E. destruct (Hm _ _ _ Hs E). auto. Qed.

Lemma keeps_for_each {A B} (I : S -> Prop) (body : A -> B -> State S B)
    (post : B -> Prop) l :
  (forall x acc, post acc -> keeps I (body x acc) post) ->
  forall acc, post acc -> keeps I (for_each l acc body) post.
Proof.
  intros Hb. induction l as [| x l IH]; intros acc Hacc; cbn.
  - apply hoare_ret. auto.
  - eapply keeps_hoare_bind; [apply Hb, Hacc |]. intros acc' Hacc'.
    apply IH, Hacc'.
Qed.

Lemma keeps_loop_while {A} (I : S -> Prop) (body : A -> State S bool) l :
  (forall x, keeps I (body x) (fun _ => True)) ->
  keeps I (loop_while l body) (fun _ => True).
Proof.
  intros Hb. induction l as [| x l IH]; cbn.
  - apply hoare_ret. auto.
  - eapply keeps_hoare_bind; [apply Hb |].
    intros [|] _; [apply IH | apply hoare_ret; auto].
Qed.
End hoare_rules.

(** The rules applied along the structure of a member; the steps are
    looked up among the hints. *)
Create HintDb keeps discriminated.

#[global] Hint Extern 1 (_ <= _)%nat => lia : keeps.
#[global] Hint Extern 1 (_ < _)%nat => lia : keeps.
#[global] Hint Extern 1 True => exact Logic.I : keeps.

Ltac keeps_step_of m :=
  solve [ eauto 4 with keeps nocore ].

Ltac hoare_step :=
  lazymatch goal with
  | |- keeps _ _ _ => unfold keeps
  | |- hoare _ (bind (lift_status _) _) _ =>
      apply lift_hoare_bind; intros ? ?
  | |- hoare _ (bind (bind _ _) _) _ => apply hoare_bind_assoc
  | |- hoare _ (bind (ret _) _) _ => apply hoare_bind_ret; cbv beta
  | |- hoare _ (bind (let _ := _ in _) _) _ => cbv zeta
  | |- hoare _ (bind (if ?b then _ else _) _) _ => destruct b eqn:?
  | |- hoare _ (bind (match ?x with _ => _ end) _) _ => destruct x eqn:?
  | |- hoare _ (bind ?m _) _ =>
      eapply keeps_hoare_bind;
      [ keeps_step_of m | intros ? ?; cbv beta in * ]
  | |- hoare _ (if ?b then _ else _) _ => destruct b eqn:?
  | |- hoare _ (match ?x with _ => _ end) _ => destruct x eqn:?
  | |- hoare _ (let _ := _ in _) _ => cbv zeta
  | |- hoare _ (ret _) _ => apply hoare_ret; intros ? ?
  | |- hoare _ (lift_status _) _ =>
      apply hoare_lift_status; intros ? ? ? ?; try discriminate
  | |- hoare _ (check_ok _) _ => apply hoare_check_ok
  | |- hoare _ ?m _ =>
      eapply hoare_keeps; [ keeps_step_of m | cbv beta; intros ? ? ? ? ]
  end.

Ltac hoare_tac := repeat hoare_step.

(** ** Guarded instructions *)

Lemma guarded_other n0 u :
  IsTrivialElementwise u = false -> reads_first_operand u = false ->
  guarded n0 u = true.
Proof. intros H1 H2. unfold guarded. now rewrite H1, H2. Qed.

Lemma guarded_fresh n0 u o ops :
  operands u = o :: ops -> Forall (fun x => (n0 <= x)%nat) (o :: ops) ->
  guarded n0 u = true.
Proof.
  intros E H. unfold guarded. rewrite E.
  assert (forallb (Nat.leb n0) (o :: ops) = true) as ->.
  { apply forallb_forall. intros x Hx. apply Nat.leb_le.
    rewrite Forall_forall in H. apply H. now apply list_elem_of_In. }
  rewrite !orb_true_r. cbn.
  apply Forall_inv in H. apply Nat.leb_le in H. rewrite H.
  now rewrite orb_true_r.
Qed.

Lemma guarded_first n0 u o ops :
  IsTrivialElementwise u = false -> operands u = o :: ops -> (n0 <= o)%nat ->
  guarded n0 u = true.
Proof.
  intros E1 E H. unfold guarded. rewrite E, E1. cbn.
  apply Nat.leb_le in H. rewrite H. now rewrite orb_true_r.
Qed.

Lemma guarded_operands n0 u u' :
  opcode u' = opcode u -> operands u' = operands u ->
  guarded n0 u' = guarded n0 u.
Proof.
  intros E1 E2. unfold guarded, IsTrivialElementwise, IsElementwise,
    reads_first_operand. now rewrite E1, E2.
Qed.

Lemma guarded_insert n0 u k o :
  guarded n0 u = true -> (n0 <= o)%nat ->
  guarded n0 (set_operands (<[k := o]> (operands u)) u) = true.
Proof.
  unfold guarded, IsTrivialElementwise, IsElementwise, reads_first_operand.
  cbn [opcode operands set_operands]. intros H Ho.
  apply andb_true_iff in H as [H1 H2]. apply andb_true_iff. split.
  - apply orb_true_iff in H1 as [H1 | H1]; [now rewrite H1 |].
    apply orb_true_iff. right. apply forallb_forall. intros x Hx.
    apply list_elem_of_In, list_elem_of_lookup in Hx as [j Hj].
    destruct (decide (j = k)) as [-> | Hne].
    + assert (x = o) as ->; [| now apply Nat.leb_le].
      apply lookup_lt_Some in Hj as Hl. rewrite length_insert in Hl.
      rewrite list_lookup_insert_eq in Hj by assumption. congruence.
    + rewrite list_lookup_insert_ne in Hj by congruence.
      rewrite forallb_forall in H1. apply H1.
      apply list_elem_of_In. eapply list_elem_of_lookup_2, Hj.
  - apply orb_true_iff in H2 as [H2 | H2]; [now rewrite H2 |].
    apply orb_true_iff. right.
    destruct (operands u) as [| o0 ops]; [discriminate |].
    destruct k; cbn; [now apply Nat.leb_le | assumption].
Qed.

Lemma guarded_map n0 u (f : InstrId -> InstrId) :
  guarded n0 u = true ->
  (forall o, (n0 <= o)%nat -> (n0 <= f o)%nat) ->
  guarded n0 (set_operands (map f (operands u)) u) = true.
Proof.
  unfold guarded, IsTrivialElementwise, IsElementwise, reads_first_operand.
  cbn [opcode operands set_operands]. intros H Hf.
  apply andb_true_iff in H as [H1 H2]. apply andb_true_iff. split.
  - apply orb_true_iff in H1 as [H1 | H1]; [now rewrite H1 |].
    apply orb_true_iff. right. rewrite forallb_forall in *.
    intros x Hx. apply in_map_iff in Hx as (y & <- & Hy).
    apply Nat.leb_le, Hf, Nat.leb_le, H1, Hy.
  - apply orb_true_iff in H2 as [H2 | H2]; [now rewrite H2 |].
    apply orb_true_iff. right.
    destruct (operands u) as [| o0 ops]; [discriminate |].
    cbn. apply Nat.leb_le, Hf, Nat.leb_le, H2.
Qed.

(** ** The graph primitives keep the invariant *)

Section graph_rules.
Variable n0 : nat.
Variable X : InstrId -> Prop.
Variable F : HloComputation -> Prop.
Hypothesis F_stable : stable F.

Lemma keeps_deref i : keeps (graph_invariant n0 X F) (deref i) (fun _ => True).
Proof.
  intros c a c' Hc E. apply unchanged_deref in E as ->. auto.
Qed.

Lemma keeps_shape_of i : keeps (graph_invariant n0 X F) (shape_of i) (fun _ => True).
Proof.
  intros c a c' Hc E. apply unchanged_shape_of in E as ->. auto.
Qed.

Lemma keeps_AddInstruction x :
  guarded n0 x = true ->
  keeps (graph_invariant n0 X F) (AddInstruction x) (fun r => (n0 <= r)%nat).
Proof.
  intros Hx c a c' (Hl & Hg & HF) [= <- <-]. split; [| exact Hl].
  split; [| split].
  - cbn. rewrite length_app. lia.
  - cbn. intros i u Hi HX Hu.
    apply lookup_app_Some in Hu as [Hu | [_ Hu]].
    + eapply Hg; eassumption.
    + destruct (i - length (instructions c))%nat; [| discriminate].
      now injection Hu as <-.
  - apply (F_stable c [x] HF).
Qed.
End graph_rules.

#[global] Hint Resolve keeps_deref keeps_shape_of keeps_AddInstruction : keeps.

Ltac guarded_tac :=
  solve [ reflexivity
        | eapply guarded_fresh; [reflexivity | repeat constructor; lia]
        | eapply guarded_first; [reflexivity | reflexivity | lia] ].

#[global] Hint Extern 1 (guarded _ _ = true) => guarded_tac : keeps.
#[global] Hint Extern 1 (stable _) => eassumption : keeps.

(** ** The graph builders keep the invariant *)

Section builders.
Variable n0 : nat.
Variable X : InstrId -> Prop.
Variable F : HloComputation -> Prop.
Hypothesis F_stable : stable F.

Lemma keeps_MakeReshapeHlo dims operand :
  keeps (graph_invariant n0 X F) (MakeReshapeHlo dims operand)
    (fun r => (n0 <= r)%nat).
Proof. unfold MakeReshapeHlo. hoare_tac; auto. Qed.

Lemma keeps_MakeSliceHlo operand starts limits strides :
  keeps (graph_invariant n0 X F) (MakeSliceHlo operand starts limits strides)
    (fun r => (n0 <= r)%nat).
Proof. unfold MakeSliceHlo. hoare_tac; auto. Qed.

Lemma keeps_MakeTransposeHlo operand dims :
  keeps (graph_invariant n0 X F) (MakeTransposeHlo operand dims)
    (fun r => (n0 <= r)%nat).
Proof. unfold MakeTransposeHlo. hoare_tac; auto. Qed.

Lemma keeps_MakeBroadcastHlo operand dims bounds :
  keeps (graph_invariant n0 X F) (MakeBroadcastHlo operand dims bounds)
    (fun r => (n0 <= r)%nat).
Proof. unfold MakeBroadcastHlo. hoare_tac; auto. Qed.

Lemma keeps_MakePadHlo operand padding cfg :
  keeps (graph_invariant n0 X F) (MakePadHlo operand padding cfg)
    (fun r => (n0 <= r)%nat).
Proof. unfold MakePadHlo. hoare_tac; auto. Qed.

Lemma keeps_shapes_of ids :
  keeps (graph_invariant n0 X F) (shapes_of ids) (fun _ => True).
Proof.
  induction ids as [| i ids IH]; cbn [shapes_of]; hoare_tac; auto.
Qed.

Lemma keeps_MakeConcatHlo operands dimension :
  keeps (graph_invariant n0 X F) (MakeConcatHlo operands dimension)
    (fun r => (n0 <= r)%nat).
Proof.
  unfold MakeConcatHlo. pose proof keeps_shapes_of. hoare_tac; auto.
Qed.

Lemma keeps_MakeSelectHlo pred on_true on_false :
  (n0 <= pred)%nat -> (n0 <= on_true)%nat -> (n0 <= on_false)%nat ->
  keeps (graph_invariant n0 X F) (MakeSelectHlo pred on_true on_false)
    (fun r => (n0 <= r)%nat).
Proof. intros. unfold MakeSelectHlo. hoare_tac; auto. Qed.

Lemma keeps_MakeBinaryHlo opc lhs rhs :
  (n0 <= lhs)%nat -> (n0 <= rhs)%nat ->
  keeps (graph_invariant n0 X F) (MakeBinaryHlo opc lhs rhs)
    (fun r => (n0 <= r)%nat).
Proof. intros. unfold MakeBinaryHlo. hoare_tac; auto. Qed.

Lemma keeps_MakeCompareHlo direction lhs rhs :
  (n0 <= lhs)%nat -> (n0 <= rhs)%nat ->
  keeps (graph_invariant n0 X F) (MakeCompareHlo direction lhs rhs)
    (fun r => (n0 <= r)%nat).
Proof. intros. unfold MakeCompareHlo. hoare_tac; auto. Qed.

Lemma keeps_MakeConvolveHlo lhs rhs fgc bgc window dnums ty :
  (n0 <= lhs)%nat ->
  keeps (graph_invariant n0 X F)
    (MakeConvolveHlo lhs rhs fgc bgc window dnums ty)
    (fun r => (n0 <= r)%nat).
Proof. intros. unfold MakeConvolveHlo. hoare_tac; auto. Qed.
End builders.

#[global] Hint Resolve keeps_MakeReshapeHlo keeps_MakeSliceHlo
  keeps_MakeTransposeHlo keeps_MakeBroadcastHlo keeps_MakePadHlo
  keeps_MakeConcatHlo keeps_MakeSelectHlo keeps_MakeBinaryHlo
  keeps_MakeCompareHlo keeps_MakeConvolveHlo : keeps.

Section composite_builders.
Variable n0 : nat.
Variable X : InstrId -> Prop.
Variable F : HloComputation -> Prop.
Hypothesis F_stable : stable F.

Lemma keeps_HaloDuplicateWithSlice activations sd bd obs low high halo osds
    pad_val :
  (n0 <= activations)%nat ->
  keeps (graph_invariant n0 X F)
    (HaloDuplicateWithSlice activations sd bd obs low high halo osds pad_val)
    (fun r => (n0 <= r)%nat).
Proof. intros. unfold HaloDuplicateWithSlice. hoare_tac; auto. Qed.

Lemma keeps_SelectValidPortion new_instr old_instr select_val nbd nsd obd osd :
  (n0 <= new_instr)%nat ->
  keeps (graph_invariant n0 X F)
    (SelectValidPortion new_instr old_instr select_val nbd nsd obd osd)
    (fun r => (n0 <= r)%nat).
Proof. intros. unfold SelectValidPortion. hoare_tac; auto. Qed.

Lemma keeps_BringSpaceNextToBatch activations dnums sd bd :
  (n0 <= activations)%nat ->
  keeps (graph_invariant n0 X F)
    (BringSpaceNextToBatch activations dnums sd bd)
    (fun r => (n0 <= fst (fst (fst r)))%nat).
Proof. intros. unfold BringSpaceNextToBatch. hoare_tac; auto. Qed.

Lemma keeps_HaloDuplicateWithSlice_any activations sd bd obs low high halo
    osds pad_val :
  keeps (graph_invariant n0 X F)
    (HaloDuplicateWithSlice activations sd bd obs low high halo osds pad_val)
    (fun _ => True).
Proof. unfold HaloDuplicateWithSlice. hoare_tac; auto. Qed.

Lemma keeps_BringSpaceNextToBatch_any activations dnums sd bd :
  keeps (graph_invariant n0 X F)
    (BringSpaceNextToBatch activations dnums sd bd) (fun _ => True).
Proof. unfold BringSpaceNextToBatch. hoare_tac; auto. Qed.
End composite_builders.

#[global] Hint Resolve keeps_HaloDuplicateWithSlice keeps_SelectValidPortion
  keeps_BringSpaceNextToBatch : keeps.
#[global] Hint Resolve keeps_HaloDuplicateWithSlice_any
  keeps_BringSpaceNextToBatch_any | 8 : keeps.

(** ** The updates in place keep the invariant *)

Section updates.
Variable n0 : nat.
Variable X : InstrId -> Prop.

Lemma graph_invariant_update F c i x x' :
  graph_invariant n0 X F c ->
  instructions c !! i = Some x ->
  (guarded n0 x = true -> guarded n0 x' = true) ->
  F (update_instruction i x' c) ->
  graph_invariant n0 X F (update_instruction i x' c).
Proof.
  intros (Hl & Hg & _) Hi Hx HF. split; [| split; [| exact HF]].
  - cbn. now rewrite length_insert.
  - cbn. intros j u Hj HX Hu.
    destruct (decide (j = i)) as [-> | Hne].
    + apply lookup_lt_Some in Hi as Hlt.
      rewrite list_lookup_insert_eq in Hu by assumption.
      injection Hu as <-. eauto.
    + rewrite list_lookup_insert_ne in Hu by congruence. eauto.
Qed.

Lemma keeps_ReplaceOperandWithDifferentShape F user k new_operand :
  operand_stable F -> (n0 <= new_operand)%nat ->
  keeps (graph_invariant n0 X F)
    (ReplaceOperandWithDifferentShape user k new_operand) (fun _ => True).
Proof.
  intros HF Hn c a c' Hc E. unfold ReplaceOperandWithDifferentShape in E.
  apply bind_inv in E as (x & c1 & E1 & E2).
  pose proof (unchanged_deref _ _ _ _ E1) as <-.
  unfold deref, instr in E1.
  destruct (instructions c !! user) as [x0 |] eqn:Eu; [| discriminate].
  injection E1 as ->.
  destruct ((k <? 0) || (operand_count x <=? k)); [discriminate |].
  injection E2 as <- <-. split; [| exact Logic.I].
  eapply graph_invariant_update; [exact Hc | exact Eu | |].
  - intros Hg. now apply guarded_insert.
  - destruct Hc as (_ & _ & Hc). now apply HF.
Qed.

Lemma keeps_assign_shape F i s :
  update_stable F ->
  keeps (graph_invariant n0 X F) (assign_shape i s) (fun _ => True).
Proof.
  intros HF c a c' Hc E. unfold assign_shape in E.
  apply bind_inv in E as (x & c1 & E1 & E2).
  pose proof (unchanged_deref _ _ _ _ E1) as <-.
  unfold deref, instr in E1.
  destruct (instructions c !! i) as [x0 |] eqn:Eu; [| discriminate].
  injection E1 as ->. injection E2 as <- <-. split; [| exact Logic.I].
  eapply graph_invariant_update; [exact Hc | exact Eu | |].
  - intros Hg. now rewrite (guarded_operands n0 x (set_shape s x)).
  - destruct Hc as (_ & _ & Hc). now apply (HF c i x).
Qed.

Lemma keeps_assign_dimensions F i dims :
  update_stable F ->
  keeps (graph_invariant n0 X F) (assign_dimensions i dims) (fun _ => True).
Proof.
  intros HF c a c' Hc E. unfold assign_dimensions in E.
  apply bind_inv in E as (x & c1 & E1 & E2).
  pose proof (unchanged_deref _ _ _ _ E1) as <-.
  unfold deref, instr in E1.
  destruct (instructions c !! i) as [x0 |] eqn:Eu; [| discriminate].
  injection E1 as ->. injection E2 as <- <-. split; [| exact Logic.I].
  eapply graph_invariant_update; [exact Hc | exact Eu | |].
  - intros Hg. now rewrite (guarded_operands n0 x (set_dimensions dims x)).
  - destruct Hc as (_ & _ & Hc). now apply (HF c i x).
Qed.

Lemma keeps_ReplaceInstruction old_instruction new_instruction :
  (n0 <= new_instruction)%nat ->
  keeps (graph_invariant n0 X (fun _ => True))
    (ReplaceInstruction old_instruction new_instruction) (fun _ => True).
Proof.
  intros Hn c a c' Hc E. unfold ReplaceInstruction in E.
  apply bind_inv in E as (s1 & c1 & E1 & E).
  pose proof (unchanged_shape_of _ _ _ _ E1) as <-.
  apply bind_inv in E as (s2 & c2 & E2 & E).
  pose proof (unchanged_shape_of _ _ _ _ E2) as <-.
  destruct (negb (Compatible s1 s2)); [discriminate |].
  injection E as <- <-. split; [| exact Logic.I].
  destruct Hc as (Hl & Hg & _). split; [| split; [| exact Logic.I]].
  - cbn. now rewrite length_imap.
  - cbn. intros i u Hi HX Hu. rewrite list_lookup_imap in Hu.
    destruct (instructions c !! i) as [x |] eqn:Ex; [| discriminate].
    cbn in Hu. injection Hu as <-. specialize (Hg _ _ Hi HX Ex).
    unfold rewire. destruct (i =? new_instruction)%nat; [exact Hg |].
    apply guarded_map; [exact Hg |].
    intros o Ho. destruct (o =? old_instruction)%nat; lia.
Qed.
End updates.

#[global] Hint Resolve keeps_ReplaceOperandWithDifferentShape
  keeps_assign_shape keeps_assign_dimensions keeps_ReplaceInstruction : keeps.

Lemma operand_stable_True : operand_stable (fun _ => True).
Proof. intros c i x ops _ _. exact Logic.I. Qed.

Lemma stable_same_opcodes c0 : stable (same_opcodes c0).
Proof.
  intros c news H i x Hx. destruct (H i x Hx) as (y & Hy & E).
  exists y. split; [now apply extend_lookup_old | exact E].
Qed.

Lemma operand_stable_same_opcodes c0 : operand_stable (same_opcodes c0).
Proof.
  intros c i x ops H Hi j z Hz. destruct (H j z Hz) as (y & Hy & E).
  destruct (decide (j = i)) as [-> | Hne].
  - exists (set_operands ops x). split.
    + cbn. apply list_lookup_insert_eq. now apply lookup_lt_Some in Hi.
    + cbn. congruence.
  - exists y. split; [| exact E]. cbn.
    now rewrite list_lookup_insert_ne by congruence.
Qed.

Lemma same_opcodes_refl c : same_opcodes c c.
Proof. intros i x Hx. eauto. Qed.

#[global] Hint Resolve operand_stable_True stable_same_opcodes
  operand_stable_same_opcodes : keeps.
#[global] Hint Extern 1 (operand_stable _) => eassumption : keeps.

Lemma keeps_ReplaceOperandWith n0 X F user k new_operand :
  operand_stable F -> (n0 <= new_operand)%nat ->
  keeps (graph_invariant n0 X F)
    (ReplaceOperandWith user k new_operand) (fun _ => True).
Proof. intros. unfold ReplaceOperandWith. hoare_tac; auto with keeps. Qed.

#[global] Hint Resolve keeps_ReplaceOperandWith : keeps.

Lemma stable_True : stable (fun _ => True).
Proof. intros c news _. exact Logic.I. Qed.

Lemma update_stable_True : update_stable (fun _ => True).
Proof. intros c i x x' _ _ _ _. exact Logic.I. Qed.

Lemma stable_tracks n0 nc opc count k : stable (tracks n0 nc opc count k).
Proof.
  intros c news (u & Hu & H). exists u. split; [| exact H].
  now apply extend_lookup_old.
Qed.

Lemma update_stable_tracks n0 nc opc count k :
  update_stable (tracks n0 nc opc count k).
Proof.
  intros c i x x' (u & Hu & Ho & Hl & Hk) Hi E1 E2.
  destruct (decide (i = nc)) as [-> | Hne].
  - exists x'. rewrite Hu in Hi. injection Hi as <-. split.
    + cbn. apply list_lookup_insert_eq. now apply lookup_lt_Some in Hu.
    + rewrite E1, E2. auto.
  - exists u. split; [| auto]. cbn.
    rewrite list_lookup_insert_ne by congruence. exact Hu.
Qed.

#[global] Hint Resolve stable_True update_stable_True stable_tracks
  update_stable_tracks : keeps.
#[global] Hint Extern 1 (update_stable _) => eassumption : keeps.

(** ** The members of the visitor keep the invariant *)

Lemma keeps_gets {S A} (I : S -> Prop) (f : S -> A) :
  keeps I (gets f) (fun _ => True).
Proof. apply hoare_gets. auto. Qed.

Lemma keeps_modify {S} (I : S -> Prop) (f : S -> S) :
  (forall s, I s -> I (f s)) -> keeps I (modify f) (fun _ => True).
Proof. intros H s a s' Hs [= <- <-]. auto. Qed.

Lemma keeps_lift_status {S A} (I : S -> Prop) (m : StatusOr A) :
  keeps I (lift_status m) (fun a => m = OK a).
Proof. apply hoare_lift_status. auto. Qed.

Lemma keeps_check_ok {S A} (I : S -> Prop) (m : State S A) post :
  keeps I m post -> keeps I (check_ok m) post.
Proof. apply hoare_check_ok. Qed.

#[global] Hint Resolve keeps_lift_status keeps_check_ok : keeps.
#[global] Hint Resolve keeps_gets | 10 : keeps.

Section visitor_rules.
Variable n0 : nat.
Variable X : InstrId -> Prop.
Variable F : HloComputation -> Prop.

Lemma visitor_invariant_ext v v' :
  computation_ v' = computation_ v ->
  old_to_new_instrs_ v' = old_to_new_instrs_ v ->
  batch_to_space_map_ v' = batch_to_space_map_ v ->
  visitor_invariant n0 X F v -> visitor_invariant n0 X F v'.
Proof.
  intros E1 E2 E3 H. unfold visitor_invariant. now rewrite E1, E2, E3.
Qed.

Lemma keeps_on_graph {A} (m : State HloComputation A) post :
  keeps (graph_invariant n0 X F) m post ->
  keeps (visitor_invariant n0 X F) (on_graph m) post.
Proof.
  intros Hm v a v' (Hg & Ho & Hb) E. unfold on_graph in E.
  destruct (m (computation_ v)) as [[a0 c] |] eqn:Em; [| discriminate].
  injection E as <- <-. destruct (Hm _ _ _ Hg Em) as [Hc Ha].
  split; [| exact Ha]. split; [exact Hc |]. split; assumption.
Qed.

Lemma keeps_dim_map_index k :
  keeps (visitor_invariant n0 X F) (dim_map_index k) (fun _ => True).
Proof.
  intros v a v' Hv E. unfold dim_map_index in E.
  destruct (instr_to_dim_map_ v !! k); injection E as <- <-; auto.
Qed.

Lemma keeps_permute_map_index k :
  keeps (visitor_invariant n0 X F) (permute_map_index k) (fun _ => True).
Proof.
  intros v a v' Hv E. unfold permute_map_index in E.
  destruct (instr_to_dim_permute_map_ v !! k); injection E as <- <-; auto.
Qed.

Lemma keeps_dim_map_contains k :
  keeps (visitor_invariant n0 X F) (dim_map_contains k) (fun _ => True).
Proof. apply keeps_gets. Qed.

Lemma keeps_permute_map_contains k :
  keeps (visitor_invariant n0 X F) (permute_map_contains k) (fun _ => True).
Proof. apply keeps_gets. Qed.

Lemma keeps_old_to_new_contains k :
  keeps (visitor_invariant n0 X F) (old_to_new_contains k) (fun _ => True).
Proof. apply keeps_gets. Qed.

Lemma keeps_old_to_new_index k :
  keeps (visitor_invariant n0 X F) (old_to_new_index k)
    (fun n => (n0 <= n)%nat).
Proof.
  intros v a v' Hv E. apply old_to_new_index_inv in E as [E ->].
  split; [exact Hv |]. destruct Hv as (_ & Ho & _). now apply Ho in E.
Qed.

Lemma keeps_record_old_to_new k n :
  (k < n0)%nat -> (n0 <= n)%nat ->
  keeps (visitor_invariant n0 X F) (record_old_to_new k n) (fun _ => True).
Proof.
  intros Hk Hn. apply keeps_modify. intros v (Hg & Ho & Hb).
  split; [exact Hg |]. split; [| exact Hb].
  cbn. intros k' n' E. apply lookup_insert_Some in E as [[<- <-] | [_ E]];
    [split; assumption | eauto].
Qed.

Lemma keeps_record_dim_map k d :
  keeps (visitor_invariant n0 X F) (record_dim_map k d) (fun _ => True).
Proof. apply keeps_modify. intros v Hv. exact Hv. Qed.

Lemma keeps_record_permute_map k p :
  keeps (visitor_invariant n0 X F) (record_permute_map k p) (fun _ => True).
Proof. apply keeps_modify. intros v Hv. exact Hv. Qed.

Lemma keeps_record_batch_to_space k b :
  (n0 <= b)%nat ->
  keeps (visitor_invariant n0 X F) (record_batch_to_space k b)
    (fun _ => True).
Proof.
  intros Hn. apply keeps_modify. intros v (Hg & Ho & Hb).
  split; [exact Hg |]. split; [exact Ho |].
  cbn. intros k' b' E. apply lookup_insert_Some in E as [[<- <-] | [_ E]];
    [assumption | eauto].
Qed.

Lemma keeps_batch_to_space_lookup k :
  keeps (visitor_invariant n0 X F)
    (gets (fun v => batch_to_space_map_ v !! k))
    (fun r => forall b, r = Some b -> (n0 <= b)%nat).
Proof.
  apply hoare_gets. intros v Hv. split; [exact Hv |].
  destruct Hv as (_ & _ & Hb). eauto.
Qed.

Lemma keeps_erase_non_propagatable i :
  keeps (visitor_invariant n0 X F) (erase_non_propagatable i)
    (fun _ => True).
Proof. apply keeps_modify. intros v Hv. exact Hv. Qed.

Lemma keeps_insert_non_propagatable i :
  keeps (visitor_invariant n0 X F) (insert_non_propagatable i)
    (fun _ => True).
Proof. apply keeps_modify. intros v Hv. exact Hv. Qed.

Lemma keeps_set_changed b :
  keeps (visitor_invariant n0 X F) (modify (set_changed b)) (fun _ => True).
Proof. apply keeps_modify. intros v Hv. exact Hv. Qed.
End visitor_rules.

#[global] Hint Resolve keeps_dim_map_index keeps_permute_map_index
  keeps_dim_map_contains keeps_permute_map_contains
  keeps_old_to_new_contains keeps_old_to_new_index keeps_record_old_to_new
  keeps_record_dim_map keeps_record_permute_map keeps_record_batch_to_space
  keeps_erase_non_propagatable keeps_insert_non_propagatable
  keeps_set_changed : keeps.
#[global] Hint Resolve keeps_batch_to_space_lookup | 1 : keeps.

#[global] Hint Extern 2 (keeps (visitor_invariant _ _ _) (on_graph _) _) =>
  apply keeps_on_graph : keeps.

Lemma keeps_BatchToSpace n0 X F old_instr :
  stable F ->
  keeps (visitor_invariant n0 X F) (BatchToSpace old_instr)
    (fun r => (n0 <= r)%nat).
Proof.
  intros. unfold BatchToSpace. hoare_tac; auto with keeps.
Qed.

#[global] Hint Extern 3 (keeps (visitor_invariant _ _ _) (modify _) _) =>
  first [ apply keeps_record_old_to_new
        | apply keeps_record_dim_map
        | apply keeps_record_permute_map
        | apply keeps_modify; intros ? ?;
          eapply visitor_invariant_ext; [.. | eassumption]; reflexivity ]
  : keeps.

(** ** The rewrites of the propagation keep the invariant *)

Lemma keeps_PropagateOnConv n0 X convolution :
  (convolution < n0)%nat ->
  keeps (visitor_invariant n0 X (fun _ => True)) (PropagateOnConv convolution)
    (fun _ => True).
Proof.
  intros Hc. unfold PropagateOnConv. hoare_tac; auto with keeps.
Qed.

#[global] Hint Extern 4 (keeps _ (for_each _ _ _) _) =>
  eapply (keeps_for_each _ _ (fun _ => True));
  [ intros ? ? ?; solve [hoare_tac; auto with keeps] | exact Logic.I ]
  : keeps.

#[global] Hint Extern 4 (keeps _ (loop_while _ _) _) =>
  eapply keeps_loop_while; intros ?; solve [hoare_tac; auto with keeps]
  : keeps.

Lemma keeps_PropagateOnBackpropFilterConv n0 X convolution :
  (convolution < n0)%nat ->
  keeps (visitor_invariant n0 X (fun _ => True))
    (PropagateOnBackpropFilterConv convolution) (fun _ => True).
Proof.
  intros Hc. unfold PropagateOnBackpropFilterConv.
  hoare_tac; auto with keeps.
Qed.

Lemma keeps_reconcile_overlaps n0 X F new_consumer init_val nbd nsd nss halo :
  stable F -> (n0 <= new_consumer)%nat ->
  keeps (graph_invariant n0 X F)
    (reconcile_overlaps new_consumer init_val nbd nsd nss halo)
    (fun r => (n0 <= r)%nat).
Proof. intros. unfold reconcile_overlaps. hoare_tac; auto with keeps. Qed.

#[global] Hint Resolve keeps_reconcile_overlaps : keeps.

Lemma keeps_propagate_windowed n0 X consumer c :
  (consumer < n0)%nat ->
  keeps (visitor_invariant n0 X (fun _ => True))
    (propagate_windowed consumer c) (fun _ => True).
Proof.
  intros Hc. unfold propagate_windowed. hoare_tac; auto with keeps.
Qed.

(** ** A clone whose operands are being replaced *)

Lemma hoare_for_each_range {S} (I : nat -> S -> Prop)
    (body : Z -> unit -> State S unit) m : forall a,
  (forall k, (a <= k < a + m)%nat ->
             hoare (I k) (body (Z.of_nat k) tt) (fun _ => I (Datatypes.S k))) ->
  hoare (I a) (for_each (map Z.of_nat (seq a m)) tt body)
    (fun _ => I (a + m)%nat).
Proof.
  induction m as [| m IH]; intros a Hb; cbn [seq map for_each].
  - apply hoare_ret. intros s Hs. now rewrite Nat.add_0_r.
  - eapply hoare_bind; [apply Hb; lia |].
    intros []. replace (a + Datatypes.S m)%nat with (Datatypes.S a + m)%nat by lia.
    apply IH. intros k Hk. apply Hb. lia.
Qed.

Lemma elementwise_reads_no_first u :
  IsTrivialElementwise u = true -> reads_first_operand u = false.
Proof.
  unfold IsTrivialElementwise, IsElementwise, reads_first_operand.
  destruct (opcode u); cbn; congruence.
Qed.

Section clone.
Variable n0 : nat.
Variable X : InstrId -> Prop.

Lemma clone_enters consumer v nc v1 :
  visitor_invariant n0 X (fun _ => True) v ->
  on_graph (CloneInstruction consumer) v = OK (nc, v1) ->
  (n0 <= nc)%nat /\
  exists x, instructions (computation_ v) !! consumer = Some x /\
    visitor_invariant n0 (or_clone X nc)
      (tracks n0 nc (opcode x) (length (operands x)) 0) v1.
Proof.
  intros ((Hl & Hg & _) & Ho & Hb) E. unfold on_graph in E.
  destruct (CloneInstruction consumer (computation_ v)) as [[r c] |] eqn:Ec;
    [| discriminate].
  injection E as -> <-. unfold CloneInstruction in Ec.
  apply bind_inv in Ec as (x & c1 & E1 & E2).
  pose proof (unchanged_deref _ _ _ _ E1) as <-.
  unfold deref, instr in E1.
  destruct (instructions (computation_ v) !! consumer) as [x0 |] eqn:Ex;
    [| discriminate].
  injection E1 as ->. injection E2 as <- <-.
  split; [exact Hl |]. exists x. split; [reflexivity |].
  split; [| split; assumption]. cbn. split; [| split].
  - cbn. rewrite length_app. lia.
  - cbn. intros i u Hi HX Hu.
    apply lookup_app_Some in Hu as [Hu | [Hge Hu]].
    + apply (Hg i u Hi); [| exact Hu]. intros HXi. apply HX. now left.
    + destruct (i - length (instructions (computation_ v)))%nat eqn:Ei;
        [| discriminate].
      exfalso. apply HX. right. lia.
  - exists x. split.
    + cbn. rewrite lookup_app_r by lia. now rewrite Nat.sub_diag.
    + repeat split. intros j o Hj. lia.
Qed.

Lemma replace_in_clone nc opc count k new_operand :
  (n0 <= new_operand)%nat ->
  hoare
    (visitor_invariant n0 (or_clone X nc) (tracks n0 nc opc count k))
    (on_graph
       (ReplaceOperandWithDifferentShape nc (Z.of_nat k) new_operand))
    (fun _ =>
       visitor_invariant n0 (or_clone X nc)
         (tracks n0 nc opc count (Datatypes.S k))).
Proof.
  intros Hn.
  intros v a v' ((Hl & Hg & (u & Hu & Hop & Hc & Hk)) & Ho & Hb) E.
  unfold on_graph in E.
  destruct (ReplaceOperandWithDifferentShape nc (Z.of_nat k) new_operand
              (computation_ v)) as [[r c] |] eqn:Ec; [| discriminate].
  injection E as -> <-. unfold ReplaceOperandWithDifferentShape in Ec.
  apply bind_inv in Ec as (x & c1 & E1 & E2).
  pose proof (unchanged_deref _ _ _ _ E1) as <-.
  unfold deref, instr in E1. rewrite Hu in E1. injection E1 as <-.
  destruct ((Z.of_nat k <? 0) || (operand_count u <=? Z.of_nat k)) eqn:Eb;
    [discriminate |].
  injection E2 as <- <-. split; [| split; assumption].
  unfold modify. cbn [computation_ set_computation].
  split; [| split].
  - cbn [instructions update_instruction]. now rewrite length_insert.
  - cbn [instructions update_instruction]. intros i y Hi HX Hy.
    destruct (decide (i = nc)) as [-> | Hne].
    + exfalso. apply HX. now right.
    + rewrite list_lookup_insert_ne in Hy by congruence. eauto.
  - exists (set_operands (<[Z.to_nat (Z.of_nat k) := new_operand]> (operands u)) u).
    split; [| split; [| split]].
    + cbn [instructions update_instruction].
      apply list_lookup_insert_eq. now apply lookup_lt_Some in Hu.
    + exact Hop.
    + cbn [operands set_operands]. now rewrite length_insert.
    + cbn [operands set_operands]. rewrite Nat2Z.id. intros j o Hj Hjo.
      destruct (decide (j = k)) as [-> | Hne].
      * apply lookup_lt_Some in Hjo as Hlt. rewrite length_insert in Hlt.
        rewrite list_lookup_insert_eq in Hjo by assumption. congruence.
      * rewrite list_lookup_insert_ne in Hjo by congruence.
        apply (Hk j o); [lia | exact Hjo].
Qed.

Lemma clone_leaves nc opc count k v :
  visitor_invariant n0 (or_clone X nc) (tracks n0 nc opc count k) v ->
  (forall u, opcode u = opc -> IsTrivialElementwise u = true ->
             (count <= k)%nat) ->
  (forall u, opcode u = opc -> reads_first_operand u = true ->
             (1 <= k)%nat /\ (1 <= count)%nat) ->
  visitor_invariant n0 X (fun _ => True) v.
Proof.
  intros ((Hl & Hg & (u & Hu & Hop & Hc & Hk)) & Ho & Hb) He Hf.
  split; [| split; assumption]. split; [exact Hl |].
  split; [| exact Logic.I]. intros i y Hi HX Hy.
  destruct (decide (i = nc)) as [-> | Hne].
  - rewrite Hu in Hy. injection Hy as <-. unfold guarded.
    apply andb_true_iff. split.
    + destruct (IsTrivialElementwise u) eqn:Et; [| reflexivity]. cbn.
      apply forallb_forall. intros o Hin.
      apply list_elem_of_In, list_elem_of_lookup in Hin as [j Hj].
      apply Nat.leb_le. apply (Hk j o); [| exact Hj].
      apply lookup_lt_Some in Hj. specialize (He u Hop Et). lia.
    + destruct (reads_first_operand u) eqn:Er; [| reflexivity]. cbn.
      destruct (Hf u Hop Er) as [H1 H2].
      destruct (operands u) as [| o ops] eqn:Eo; [cbn in Hc; lia |].
      apply Nat.leb_le. apply (Hk 0%nat o); [lia | reflexivity].
  - apply (Hg i y Hi); [| exact Hy]. intros [HXi | ->]; contradiction.
Qed.
End clone.

(** A run as an instance of a triple. *)
Ltac by_hoare E P Q :=
  match type of E with
  | ?m ?s = OK (?a, ?s') =>
      let Hrun := fresh "Hrun" in
      cut (hoare P m Q);
      [ intros Hrun; apply (Hrun s a s');
        [first [assumption | exact Logic.I] | exact E]
      | cbv beta ]
  end.

Lemma keeps_propagate_reduce n0 X consumer c :
  (consumer < n0)%nat -> opcode c = kReduce ->
  hoare
    (fun v => visitor_invariant n0 X (fun _ => True) v /\
              instructions (computation_ v) !! consumer = Some c)
    (propagate_reduce consumer c)
    (fun _ => visitor_invariant n0 X (fun _ => True)).
Proof.
  intros Hlt Hop v a v' [Hv Hc] E. unfold propagate_reduce in E.
  apply bind_inv in E as (nc & v1 & E1 & E2).
  destruct (clone_enters _ _ _ _ _ _ Hv E1) as (Hnc & x & Hx & Hv1).
  assert (x = c) as -> by congruence. rewrite Hop in Hv1.
  by_hoare E2
    (visitor_invariant n0 (or_clone X nc)
       (tracks n0 nc kReduce (length (operands c)) 0))
    (fun (_ : bool) => visitor_invariant n0 X (fun _ => True)).
  hoare_tac.
  match goal with
  | H : operand c 0 = OK _ |- _ =>
      apply at_index_lookupZ_OK in H; rewrite lookupZ_0 in H;
      apply lookup_lt_Some in H
  end.
  eapply hoare_bind;
    [apply hoare_check_ok, (replace_in_clone n0 X nc kReduce _ 0); lia |].
  intros ?; cbv beta.
  eapply hoare_strengthen with (P := visitor_invariant n0 X (fun _ => True)).
  - hoare_tac. tauto.
  - intros s Hs. eapply clone_leaves; [exact Hs | |].
    + intros u Hu. unfold IsTrivialElementwise, IsElementwise.
      rewrite Hu. discriminate.
    + intros u _ _. split; lia.
Qed.

Lemma keeps_choose_producer n0 X F c producer :
  keeps (visitor_invariant n0 X F) (choose_producer c producer)
    (fun _ => True).
Proof. unfold choose_producer. hoare_tac; auto with keeps. Qed.

#[global] Hint Resolve keeps_choose_producer : keeps.

Lemma propagate_elementwise_operand_replaces n0 X c nc opc count producer k :
  hoare
    (visitor_invariant n0 (or_clone X nc) (tracks n0 nc opc count k))
    (propagate_elementwise_operand c nc producer (Z.of_nat k))
    (fun _ =>
       visitor_invariant n0 (or_clone X nc)
         (tracks n0 nc opc count (Datatypes.S k))).
Proof.
  unfold propagate_elementwise_operand. hoare_tac.
  all: apply replace_in_clone; assumption.
Qed.

Lemma keeps_propagate_elementwise n0 X consumer producer c :
  (consumer < n0)%nat -> IsTrivialElementwise c = true ->
  hoare
    (fun v => visitor_invariant n0 X (fun _ => True) v /\
              instructions (computation_ v) !! consumer = Some c)
    (propagate_elementwise consumer producer c)
    (fun _ => visitor_invariant n0 X (fun _ => True)).
Proof.
  intros Hlt Hop v a v' [Hv Hc] E. unfold propagate_elementwise in E.
  apply bind_inv in E as (dim_map_val & v0 & E0 & E).
  assert (Hv0 : visitor_invariant n0 X (fun _ => True) v0)
    by (eapply keeps_dim_map_index; eassumption).
  assert (Hc0 : instructions (computation_ v0) !! consumer = Some c).
  { unfold dim_map_index in E0.
    destruct (instr_to_dim_map_ v !! producer); injection E0 as <- <-;
      exact Hc. }
  apply bind_inv in E as (nc & v1 & E1 & E2).
  destruct (clone_enters _ _ _ _ _ _ Hv0 E1) as (Hnc & x & Hx & Hv1).
  assert (x = c) as -> by congruence.
  apply bind_inv in E2 as (producer' & v2 & E2 & E3).
  assert (Hv2 : visitor_invariant n0 (or_clone X nc)
                  (tracks n0 nc (opcode c) (length (operands c)) 0) v2).
  { destruct (IsElementwiseBinary c).
    - eapply keeps_choose_producer; eassumption.
    - now injection E2 as <- <-. }
  apply bind_inv in E3 as ([] & v3 & E3 & E4).
  assert (Hv3 : visitor_invariant n0 (or_clone X nc)
                  (tracks n0 nc (opcode c) (length (operands c))
                     (0 + length (operands c))) v3).
  { unfold range, operand_count in E3. rewrite Nat2Z.id in E3.
    eapply (hoare_for_each_range
              (fun k => visitor_invariant n0 (or_clone X nc)
                          (tracks n0 nc (opcode c) (length (operands c)) k)));
      [| exact Hv2 | exact E3].
    intros k _. apply propagate_elementwise_operand_replaces. }
  by_hoare E4
    (visitor_invariant n0 (or_clone X nc)
       (tracks n0 nc (opcode c) (length (operands c))
          (0 + length (operands c))))
    (fun (_ : bool) => visitor_invariant n0 X (fun _ => True)).
  hoare_tac.
  eapply clone_leaves; [eassumption | |].
  - intros u _ _. lia.
  - intros u Hu Hr. exfalso.
    assert (reads_first_operand c = true) as Hrc.
    { unfold reads_first_operand in *. now rewrite <- Hu. }
    rewrite (elementwise_reads_no_first c Hop) in Hrc. discriminate.
Qed.

#[global] Hint Resolve keeps_PropagateOnConv
  keeps_PropagateOnBackpropFilterConv keeps_propagate_windowed
  keeps_BatchToSpace : keeps.

Lemma keeps_Propagate n0 X consumer producer :
  (consumer < n0)%nat ->
  keeps (visitor_invariant n0 X (fun _ => True))
    (Propagate consumer producer) (fun _ => True).
Proof.
  intros Hlt v a v' Hv E. split; [| exact Logic.I].
  unfold Propagate in E. apply bind_inv in E as (c & v0 & E0 & E).
  apply on_graph_deref_inv in E0 as [Hc ->].
  destruct (IsTrivialElementwise c) eqn:Et.
  { eapply keeps_propagate_elementwise; [exact Hlt | exact Et | | exact E].
    split; assumption. }
  destruct (opcode_eqb (opcode c) kConvolution) eqn:Ec.
  { by_hoare E (visitor_invariant n0 X (fun _ => True))
      (fun (_ : bool) => visitor_invariant n0 X (fun _ => True)).
    hoare_tac; tauto. }
  destruct (opcode_eqb (opcode c) kReduce) eqn:Er.
  { apply opcode_eqb_eq in Er.
    eapply keeps_propagate_reduce; [exact Hlt | exact Er | | exact E].
    split; assumption. }
  destruct (opcode_eqb (opcode c) kReduceWindow
            || opcode_eqb (opcode c) kSelectAndScatter).
  { eapply keeps_propagate_windowed; eassumption. }
  apply lift_status_inv in E as [E _]. discriminate.
Qed.

#[global] Hint Resolve keeps_Propagate : keeps.

(** ** The readiness checks and the users the pass has made *)

Lemma keeps_IsBroadcastPropagatable n0 X F broadcast old_other_op :
  keeps (visitor_invariant n0 X F)
    (IsBroadcastPropagatable broadcast old_other_op) (fun _ => True).
Proof.
  intros v a v' Hv E. apply IsBroadcastPropagatable_unchanged in E as ->.
  auto.
Qed.

#[global] Hint Resolve keeps_IsBroadcastPropagatable : keeps.

Lemma keeps_SupportedOpForPropagation n0 X F consumer producer :
  keeps (visitor_invariant n0 X F)
    (SupportedOpForPropagation consumer producer) (fun _ => True).
Proof.
  unfold SupportedOpForPropagation. hoare_tac; auto with keeps.
Qed.

Lemma keeps_first_operands_rewritten n0 X F c n :
  keeps (visitor_invariant n0 X F) (first_operands_rewritten c n)
    (fun _ => True).
Proof.
  intros v a v' Hv E. rewrite first_operands_rewritten_run in E.
  injection E as <- <-. auto.
Qed.

#[global] Hint Resolve keeps_first_operands_rewritten : keeps.

Lemma keeps_elementwise_operands_ready n0 X F c producer ops :
  forall pivot,
  keeps (visitor_invariant n0 X F)
    (elementwise_operands_ready c producer ops pivot) (fun _ => True).
Proof.
  induction ops as [| o ops IH]; intros pivot;
    cbn [elementwise_operands_ready].
  - hoare_tac. tauto.
  - hoare_tac; auto with keeps.
Qed.

#[global] Hint Resolve keeps_elementwise_operands_ready : keeps.

Lemma keeps_CanPropagate n0 X F consumer producer :
  keeps (visitor_invariant n0 X F) (CanPropagate consumer producer)
    (fun _ => True).
Proof.
  unfold CanPropagate. hoare_tac; auto with keeps.
Qed.

#[global] Hint Resolve keeps_SupportedOpForPropagation keeps_CanPropagate
  : keeps.

Lemma keeps_propagate_to_user n0 X F node user worklist :
  stable F -> operand_stable F ->
  keeps (visitor_invariant n0 X F)
    (propagate_to_user node user worklist) (fun _ => True).
Proof.
  intros. unfold propagate_to_user. hoare_tac; auto with keeps.
Qed.

Lemma SupportedOpForPropagation_class consumer producer v u v1 :
  instructions (computation_ v) !! consumer = Some u ->
  SupportedOpForPropagation consumer producer v = OK (true, v1) ->
  IsTrivialElementwise u = true \/ reads_first_operand u = true.
Proof.
  intros Hu E. unfold SupportedOpForPropagation in E.
  rewrite (bind_OK _ _ _ _ _ (on_graph_deref _ _ _ Hu)) in E.
  unfold reads_first_operand.
  destruct (IsTrivialElementwise u); [now left | right].
  destruct (opcode_eqb (opcode u) kConvolution); [reflexivity |].
  destruct (opcode_eqb (opcode u) kReduce); [reflexivity |].
  destruct (opcode_eqb (opcode u) kReduceWindow
            || opcode_eqb (opcode u) kSelectAndScatter) eqn:Ew.
  - cbn. apply orb_true_iff in Ew as [-> | ->]; [reflexivity |].
    apply orb_true_r.
  - discriminate.
Qed.

Lemma old_to_new_contains_fresh n0 X F v o :
  visitor_invariant n0 X F v -> (n0 <= o)%nat ->
  old_to_new_instrs_ v !! o = None.
Proof.
  intros (_ & Ho & _) Hn.
  destruct (old_to_new_instrs_ v !! o) as [n |] eqn:E; [| reflexivity].
  apply Ho in E. lia.
Qed.

Lemma first_operands_rewritten_fresh n0 X F v u o ops n :
  visitor_invariant n0 X F v -> operands u = o :: ops -> (n0 <= o)%nat ->
  1 <= n ->
  first_operands_rewritten u n v = OK (false, v).
Proof.
  intros Hv Hu Ho Hn. rewrite first_operands_rewritten_run, Hu.
  replace (Z.to_nat n) with (S (Z.to_nat n - 1)) by lia.
  cbn [take forallb].
  now rewrite (old_to_new_contains_fresh _ _ _ _ _ Hv Ho).
Qed.

(** A user made by the pass is never found ready. *)
Lemma new_user_not_ready n0 F v user node u ready v2 :
  visitor_invariant n0 (fun _ => False) F v ->
  (n0 <= user)%nat ->
  instructions (computation_ v) !! user = Some u ->
  IsTrivialElementwise u = false -> reads_first_operand u = true ->
  CanPropagate user node v = OK (ready, v2) ->
  ready = false.
Proof.
  intros Hv Hn Hu Et Hr E.
  assert (Hg : guarded n0 u = true).
  { destruct Hv as ((_ & Hg & _) & _). apply (Hg user u Hn); auto. }
  unfold guarded in Hg. apply andb_true_iff in Hg as [Hg1 Hg2].
  rewrite Hr in Hg2. cbn in Hg2.
  destruct (operands u) as [| o ops] eqn:Eo; [discriminate |].
  apply Nat.leb_le in Hg2.
  pose proof (old_to_new_contains_fresh _ _ _ _ _ Hv Hg2) as Hnone.
  unfold CanPropagate in E.
  rewrite (bind_OK _ _ _ _ _ (on_graph_deref _ _ _ Hu)) in E.
  rewrite Et in E.
  rewrite (bind_OK _ _ _ _ _ (eq_refl : ret true v = OK (true, v))) in E.
  cbn [negb] in E.
  destruct (opcode_eqb (opcode u) kConvolution) eqn:Ec.
  { apply bind_inv in E as (limit & v0 & [= <- <-] & E).
    apply bind_inv in E as (computation & v0 & [= <- <-] & E).
    apply bind_inv in E as (suitable & v0 & E0 & E).
    apply lift_status_inv in E0 as [_ ->].
    destruct suitable.
    - rewrite (first_operands_rewritten_fresh n0 _ _ v u o ops 1 Hv Eo Hg2)
        in E by lia.
      now injection E as <- _.
    - apply bind_inv in E as (w & v0 & E0 & E).
      apply lift_status_inv in E0 as [_ ->].
      destruct (negb (stride w =? 1)); [now injection E as <- _ |].
      rewrite Eo in E. cbn [loop_while] in E.
      apply bind_inv in E as (batched & v0 & E1 & E).
      apply bind_inv in E1 as (go_on & v3 & E1 & E3).
      apply bind_inv in E1 as (rw & v4 & E1 & E4).
      unfold old_to_new_contains, gets in E1. injection E1 as <- <-.
      rewrite Hnone in E4.
      rewrite bool_decide_eq_false_2 in E4 by (intros [? ?]; discriminate).
      injection E4 as <- <-. injection E3 as <- <-.
      now injection E as <- _. }
  unfold reads_first_operand in Hr. rewrite Ec in Hr. cbn [orb] in Hr.
  destruct (opcode_eqb (opcode u) kReduceWindow
            || opcode_eqb (opcode u) kReduce) eqn:Erw.
  { rewrite (bind_OK _ _ _ _ _
               (first_operands_rewritten_fresh n0 _ _ v u o ops 1 Hv Eo Hg2
                  ltac:(lia))) in E.
    now injection E as <- _. }
  rewrite (bind_OK _ _ _ _ _ (eq_refl : ret true v = OK (true, v))) in E.
  cbn [negb] in E.
  apply orb_false_iff in Erw as [Erw Ered]. rewrite Ered, Erw in Hr.
  cbn [orb] in Hr. rewrite Hr in E.
  destruct (negb (MatchAddOfParameters (scatter u)));
    [now injection E as <- _ |].
  rewrite (bind_OK _ _ _ _ _
             (first_operands_rewritten_fresh n0 _ _ v u o ops 2 Hv Eo Hg2
                ltac:(lia))) in E.
  now injection E as <- _.
Qed.

Lemma IsTrivialElementwise_opcode x y :
  opcode y = opcode x -> IsTrivialElementwise y = IsTrivialElementwise x.
Proof.
  intros E. unfold IsTrivialElementwise, IsElementwise. now rewrite E.
Qed.

Lemma reads_first_operand_opcode x y :
  opcode y = opcode x -> reads_first_operand y = reads_first_operand x.
Proof. intros E. unfold reads_first_operand. now rewrite E. Qed.

(** What [propagate_to_user] does to the worklist: nothing, or it pushes
    the user, an instruction of the original computation. *)
Lemma propagate_to_user_pushes n0 c0 v node user x worklist worklist' v' :
  visitor_invariant n0 (fun _ => False) (same_opcodes c0) v ->
  instructions c0 !! user = Some x ->
  ((n0 <= user)%nat -> IsTrivialElementwise x = false) ->
  propagate_to_user node user worklist v = OK (worklist', v') ->
  visitor_invariant n0 (fun _ => False) (same_opcodes c0) v' /\
  (worklist' = worklist \/
   worklist' = worklist ++ [(user, node)] /\ (user < n0)%nat).
Proof.
  intros Hv Hx Hnew E. split.
  { eapply (keeps_propagate_to_user n0 _ (same_opcodes c0)); eauto with keeps. }
  unfold propagate_to_user in E.
  apply bind_inv in E as (supported & v1 & E1 & E2).
  destruct supported; cbn [negb] in E2.
  - apply bind_inv in E2 as (ready & v2 & E3 & E4). destruct ready.
    + apply bind_inv in E4 as (? & v3 & _ & E4). injection E4 as <- _.
      right. split; [reflexivity |].
      destruct (le_lt_dec n0 user) as [Hge | Hlt]; [exfalso | exact Hlt].
      destruct Hv as ((Hl & Hg & Hsame) & Ho & Hb) eqn:Ev.
      destruct (Hsame user x Hx) as (y & Hy & Eop).
      pose proof (SupportedOpForPropagation_class _ _ _ _ _ Hy E1) as Hclass.
      rewrite (IsTrivialElementwise_opcode x y Eop), (Hnew Hge) in Hclass.
      destruct Hclass as [? | Hr]; [discriminate |].
      destruct (SupportedOpForPropagation_frame _ _ _ _ _ _ Hy E1)
        as (G1 & _).
      assert (Hv1 : visitor_invariant n0 (fun _ => False) (same_opcodes c0) v1).
      { eapply (keeps_SupportedOpForPropagation n0 _ (same_opcodes c0));
          eassumption. }
      assert (Hy1 : instructions (computation_ v1) !! user = Some y)
        by now rewrite <- G1.
      assert (Et : IsTrivialElementwise y = false).
      { rewrite (IsTrivialElementwise_opcode x y Eop). auto. }
      pose proof (new_user_not_ready _ _ _ _ _ _ _ _ Hv1 Hge Hy1 Et Hr E3).
      discriminate.
    + apply bind_inv in E4 as (? & v3 & _ & E4). injection E4 as <- _.
      now left.
  - left.
    by_hoare E2 (fun _ : ConvolutionVisitor => True)
      (fun (r : list (InstrId * InstrId)) (_ : ConvolutionVisitor) =>
         r = worklist).
    eapply hoare_bind with (Q := fun _ _ => True);
      [intros ? ? ? ? ?; exact Logic.I |].
    intros ?. eapply hoare_bind with (Q := fun _ _ => True);
      [intros ? ? ? ? ?; exact Logic.I |].
    intros ?. eapply hoare_bind with (Q := fun _ _ => True);
      [intros ? ? ? ? ?; exact Logic.I |].
    intros ?. apply hoare_ret. reflexivity.
Qed.

Lemma visitor_invariant_weaken n0 X (F F' : HloComputation -> Prop) v :
  visitor_invariant n0 X F v -> F' (computation_ v) ->
  visitor_invariant n0 X F' v.
Proof.
  intros ((Hl & Hg & _) & Ho & Hb) HF.
  split; [split; [exact Hl | split; [exact Hg | exact HF]] |].
  split; assumption.
Qed.

Lemma users_loop_pushes n0 c0 node l : forall worklist v worklist' v',
  visitor_invariant n0 (fun _ => False) (same_opcodes c0) v ->
  Forall (fun user =>
            exists x, instructions c0 !! user = Some x /\
                      ((n0 <= user)%nat -> IsTrivialElementwise x = false)) l ->
  for_each l worklist (propagate_to_user node) v = OK (worklist', v') ->
  visitor_invariant n0 (fun _ => False) (same_opcodes c0) v' /\
  exists pushes,
    worklist' = worklist ++ pushes /\
    Forall (fun e => (fst e < n0)%nat) pushes /\
    (length pushes
     <= length (List.filter (fun u => (u <? n0)%nat) l))%nat.
Proof.
  induction l as [| user l IH]; intros worklist v worklist' v' Hv Hl E.
  - injection E as <- <-. split; [exact Hv |]. exists [].
    rewrite app_nil_r. split; [reflexivity |]. split; [constructor |].
    cbn. lia.
  - cbn [for_each] in E. apply bind_inv in E as (wl1 & v1 & E1 & E2).
    apply Forall_cons in Hl as [(x & Hx & Hnew) Hl].
    destruct (propagate_to_user_pushes _ _ _ _ _ _ _ _ _ Hv Hx Hnew E1)
      as [Hv1 Hpush].
    destruct (IH _ _ _ _ Hv1 Hl E2) as (Hv' & pushes & -> & Hold & Hlen).
    split; [exact Hv' |]. cbn [List.filter].
    destruct Hpush as [-> | [-> Hlt]].
    + exists pushes. split; [reflexivity |]. split; [assumption |].
      destruct (user <? n0)%nat; cbn [length]; lia.
    + exists ((user, node) :: pushes). rewrite <- app_assoc.
      split; [reflexivity |]. split; [constructor; assumption |].
      apply Nat.ltb_lt in Hlt as Hb. rewrite Hb. cbn [length]. lia.
Qed.

Lemma old_users_bound n0 (Q : nat -> bool) len : forall a,
  (length (List.filter (fun u => (u <? n0)%nat) (List.filter Q (seq a len)))
   <= n0 - a)%nat.
Proof.
  induction len as [| len IH]; intros a; cbn [seq List.filter].
  - cbn. lia.
  - specialize (IH (S a)). destruct (Q a); [| lia]. cbn [List.filter].
    destruct (Nat.ltb_spec a n0); cbn [length]; lia.
Qed.

Lemma users_facts n0 F v node :
  visitor_invariant n0 (fun _ => False) F v -> (node < n0)%nat ->
  Forall (fun user =>
            exists x, instructions (computation_ v) !! user = Some x /\
                      ((n0 <= user)%nat -> IsTrivialElementwise x = false))
    (users (computation_ v) node).
Proof.
  intros ((_ & Hg & _) & _) Hnode. apply Forall_forall. intros user Hin.
  unfold users in Hin. apply list_elem_of_In, filter_In in Hin as [_ Hu].
  unfold is_user in Hu.
  destruct (instructions (computation_ v) !! user) as [x |] eqn:Ex;
    [| discriminate].
  exists x. split; [reflexivity |]. intros Hge.
  specialize (Hg user x Hge (fun H => H) Ex). unfold guarded in Hg.
  apply andb_true_iff in Hg as [Hg _].
  destruct (IsTrivialElementwise x); [| reflexivity]. exfalso.
  cbn in Hg. rewrite forallb_forall in Hg.
  apply existsb_exists in Hu as (o & Ho & Eo). apply Nat.eqb_eq in Eo as <-.
  apply Hg, Nat.leb_le in Ho. lia.
Qed.

(** ** The table of the rewritten instructions only grows *)

#[global] Instance more_rewritten_refl : Reflexive more_rewritten.
Proof. intros v. unfold more_rewritten. set_solver. Qed.

#[global] Instance more_rewritten_trans : Transitive more_rewritten.
Proof. intros v1 v2 v3. unfold more_rewritten. set_solver. Qed.

Lemma more_rewritten_same v v' :
  old_to_new_instrs_ v' = old_to_new_instrs_ v -> more_rewritten v v'.
Proof. intros E. unfold more_rewritten. now rewrite E. Qed.

Lemma grows_on_graph {A} (m : State HloComputation A) :
  respects more_rewritten (on_graph m).
Proof.
  intros v a v' E. unfold on_graph in E.
  destruct (m (computation_ v)) as [[a0 c] |]; [| discriminate].
  injection E as <- <-. now apply more_rewritten_same.
Qed.

Lemma grows_dim_map_index k : respects more_rewritten (dim_map_index k).
Proof.
  intros v a v' E. unfold dim_map_index in E.
  destruct (instr_to_dim_map_ v !! k); injection E as <- <-;
    now apply more_rewritten_same.
Qed.

Lemma grows_permute_map_index k :
  respects more_rewritten (permute_map_index k).
Proof.
  intros v a v' E. unfold permute_map_index in E.
  destruct (instr_to_dim_permute_map_ v !! k); injection E as <- <-;
    now apply more_rewritten_same.
Qed.

Lemma grows_old_to_new_index k : respects more_rewritten (old_to_new_index k).
Proof.
  intros v a v' E. apply old_to_new_index_inv in E as [_ ->]. reflexivity.
Qed.

Lemma grows_modify (f : ConvolutionVisitor -> ConvolutionVisitor) :
  (forall v, more_rewritten v (f v)) -> respects more_rewritten (modify f).
Proof. intros H v a v' [= <- <-]. apply H. Qed.

Lemma grows_record_old_to_new k n :
  respects more_rewritten (record_old_to_new k n).
Proof.
  apply grows_modify. intros v. unfold more_rewritten. cbn.
  rewrite dom_insert. set_solver.
Qed.

Create HintDb rewritten discriminated.

#[global] Hint Resolve grows_on_graph grows_dim_map_index
  grows_permute_map_index grows_old_to_new_index grows_record_old_to_new
  : rewritten.

#[global] Hint Extern 1 (respects more_rewritten (dim_map_contains _)) =>
  apply respects_gets; typeclasses eauto : rewritten.
#[global] Hint Extern 1 (respects more_rewritten (permute_map_contains _)) =>
  apply respects_gets; typeclasses eauto : rewritten.
#[global] Hint Extern 1 (respects more_rewritten (old_to_new_contains _)) =>
  apply respects_gets; typeclasses eauto : rewritten.
#[global] Hint Extern 3 (respects more_rewritten (modify _)) =>
  first [ apply grows_record_old_to_new
        | apply grows_modify; intros ?; apply more_rewritten_same;
          reflexivity ] : rewritten.
#[global] Hint Extern 3 (respects more_rewritten (record_dim_map _ _)) =>
  apply grows_modify; intros ?; apply more_rewritten_same; reflexivity
  : rewritten.
#[global] Hint Extern 3 (respects more_rewritten (record_permute_map _ _)) =>
  apply grows_modify; intros ?; apply more_rewritten_same; reflexivity
  : rewritten.
#[global] Hint Extern 3
  (respects more_rewritten (record_batch_to_space _ _)) =>
  apply grows_modify; intros ?; apply more_rewritten_same; reflexivity
  : rewritten.
#[global] Hint Extern 3
  (respects more_rewritten (erase_non_propagatable _)) =>
  apply grows_modify; intros ?; apply more_rewritten_same; reflexivity
  : rewritten.
#[global] Hint Extern 3
  (respects more_rewritten (insert_non_propagatable _)) =>
  apply grows_modify; intros ?; apply more_rewritten_same; reflexivity
  : rewritten.

Ltac rewritten_tac := respects_tac; auto with rewritten.

Lemma grows_IsBroadcastPropagatable b o :
  respects more_rewritten (IsBroadcastPropagatable b o).
Proof. unfold IsBroadcastPropagatable. rewritten_tac. Qed.

#[global] Hint Resolve grows_IsBroadcastPropagatable : rewritten.

Lemma grows_SupportedOpForPropagation c p :
  respects more_rewritten (SupportedOpForPropagation c p).
Proof. unfold SupportedOpForPropagation. rewritten_tac. Qed.

Lemma grows_first_operands_rewritten c n :
  respects more_rewritten (first_operands_rewritten c n).
Proof. unfold first_operands_rewritten. rewritten_tac. Qed.

#[global] Hint Resolve grows_first_operands_rewritten : rewritten.

Lemma grows_elementwise_operands_ready c p ops : forall pivot,
  respects more_rewritten (elementwise_operands_ready c p ops pivot).
Proof.
  induction ops as [| o ops IH]; intros pivot;
    cbn [elementwise_operands_ready]; rewritten_tac.
Qed.

#[global] Hint Resolve grows_elementwise_operands_ready : rewritten.

Lemma grows_CanPropagate c p : respects more_rewritten (CanPropagate c p).
Proof. unfold CanPropagate. rewritten_tac. Qed.

Lemma grows_BatchToSpace i : respects more_rewritten (BatchToSpace i).
Proof. unfold BatchToSpace. rewritten_tac. Qed.

#[global] Hint Resolve grows_SupportedOpForPropagation grows_CanPropagate
  grows_BatchToSpace : rewritten.

Lemma grows_propagate_to_user node user wl :
  respects more_rewritten (propagate_to_user node user wl).
Proof. unfold propagate_to_user. rewritten_tac. Qed.

Lemma grows_PropagateOnConv c : respects more_rewritten (PropagateOnConv c).
Proof. unfold PropagateOnConv. rewritten_tac. Qed.

Lemma grows_PropagateOnBackpropFilterConv c :
  respects more_rewritten (PropagateOnBackpropFilterConv c).
Proof. unfold PropagateOnBackpropFilterConv. rewritten_tac. Qed.

Lemma grows_choose_producer c p :
  respects more_rewritten (choose_producer c p).
Proof. unfold choose_producer. rewritten_tac. Qed.

Lemma grows_propagate_elementwise_operand c nc p i :
  respects more_rewritten (propagate_elementwise_operand c nc p i).
Proof. unfold propagate_elementwise_operand. rewritten_tac. Qed.

#[global] Hint Resolve grows_choose_producer
  grows_propagate_elementwise_operand : rewritten.

Lemma grows_propagate_elementwise consumer p c :
  respects more_rewritten (propagate_elementwise consumer p c).
Proof. unfold propagate_elementwise. rewritten_tac. Qed.

Lemma grows_propagate_reduce consumer c :
  respects more_rewritten (propagate_reduce consumer c).
Proof. unfold propagate_reduce. rewritten_tac. Qed.

Lemma grows_propagate_windowed consumer c :
  respects more_rewritten (propagate_windowed consumer c).
Proof. unfold propagate_windowed. rewritten_tac. Qed.

#[global] Hint Resolve grows_propagate_to_user grows_PropagateOnConv
  grows_PropagateOnBackpropFilterConv grows_propagate_elementwise
  grows_propagate_reduce grows_propagate_windowed : rewritten.

Lemma grows_Propagate consumer producer :
  respects more_rewritten (Propagate consumer producer).
Proof. unfold Propagate. rewritten_tac. Qed.

(** ** A rewrite records the instruction it rewrites *)

Lemma records_then {A} consumer nc (k : State ConvolutionVisitor A) :
  respects more_rewritten k ->
  hoare (fun _ => True) (bind (record_old_to_new consumer nc) (fun _ => k))
    (fun _ v' => consumer ∈ dom (old_to_new_instrs_ v')).
Proof.
  intros Hk v a v' _ E. apply bind_inv in E as ([] & v1 & E1 & E2).
  injection E1 as <-. apply Hk in E2. apply E2. cbn.
  rewrite dom_insert. set_solver.
Qed.

Ltac records_step :=
  lazymatch goal with
  | |- hoare _ (bind (record_old_to_new _ _) _) _ =>
      apply records_then; rewritten_tac
  | |- hoare _ (bind (modify _) _) _ =>
      apply records_then; rewritten_tac
  | |- hoare _ (bind (lift_status _) _) _ =>
      apply lift_hoare_bind; intros ? ?
  | |- hoare _ (bind (bind _ _) _) _ => apply hoare_bind_assoc
  | |- hoare _ (bind (ret _) _) _ => apply hoare_bind_ret; cbv beta
  | |- hoare _ (bind (let _ := _ in _) _) _ => cbv zeta
  | |- hoare _ (bind (if ?b then _ else _) _) _ => destruct b
  | |- hoare _ (bind (match ?x with _ => _ end) _) _ => destruct x
  | |- hoare _ (bind _ _) _ =>
      eapply hoare_bind with (Q := fun _ _ => True);
      [ intros ? ? ? ? ?; exact Logic.I | intros ?; cbv beta ]
  | |- hoare _ (if ?b then _ else _) _ => destruct b
  | |- hoare _ (match ?x with _ => _ end) _ => destruct x
  | |- hoare _ (let _ := _ in _) _ => cbv zeta
  | |- hoare _ (lift_status _) _ =>
      apply hoare_lift_status; intros ? ? ? ?; discriminate
  end.

Ltac records_tac := repeat records_step.

Lemma PropagateOnConv_records c :
  hoare (fun _ => True) (PropagateOnConv c)
    (fun _ v' => c ∈ dom (old_to_new_instrs_ v')).
Proof. unfold PropagateOnConv. records_tac. Qed.

Lemma PropagateOnBackpropFilterConv_records c :
  hoare (fun _ => True) (PropagateOnBackpropFilterConv c)
    (fun _ v' => c ∈ dom (old_to_new_instrs_ v')).
Proof.
  unfold PropagateOnBackpropFilterConv. records_tac.
Qed.

Lemma propagate_elementwise_records consumer producer c :
  hoare (fun _ => True) (propagate_elementwise consumer producer c)
    (fun _ v' => consumer ∈ dom (old_to_new_instrs_ v')).
Proof. unfold propagate_elementwise. records_tac. Qed.

Lemma propagate_reduce_records consumer c :
  hoare (fun _ => True) (propagate_reduce consumer c)
    (fun _ v' => consumer ∈ dom (old_to_new_instrs_ v')).
Proof. unfold propagate_reduce. records_tac. Qed.

Lemma propagate_windowed_records consumer c :
  hoare (fun _ => True) (propagate_windowed consumer c)
    (fun _ v' => consumer ∈ dom (old_to_new_instrs_ v')).
Proof. unfold propagate_windowed. records_tac. Qed.

Lemma Propagate_records consumer producer :
  hoare (fun _ => True) (Propagate consumer producer)
    (fun _ v' => consumer ∈ dom (old_to_new_instrs_ v')).
Proof.
  unfold Propagate.
  eapply hoare_bind with (Q := fun _ _ => True);
    [intros ? ? ? ? ?; exact Logic.I |].
  intros c. cbv beta.
  destruct (IsTrivialElementwise c); [apply propagate_elementwise_records |].
  destruct (opcode_eqb (opcode c) kConvolution).
  { eapply hoare_bind with (Q := fun _ _ => True);
      [intros ? ? ? ? ?; exact Logic.I |].
    intros limit. eapply hoare_bind with (Q := fun _ _ => True);
      [intros ? ? ? ? ?; exact Logic.I |].
    intros computation. apply lift_hoare_bind. intros suitable _.
    destruct suitable.
    - eapply hoare_bind;
        [apply hoare_check_ok, PropagateOnConv_records |].
      intros ?. apply hoare_ret. auto.
    - eapply hoare_bind;
        [apply hoare_check_ok, PropagateOnBackpropFilterConv_records |].
      intros ?. apply hoare_ret. auto. }
  destruct (opcode_eqb (opcode c) kReduce);
    [apply propagate_reduce_records |].
  destruct (opcode_eqb (opcode c) kReduceWindow
            || opcode_eqb (opcode c) kSelectAndScatter);
    [apply propagate_windowed_records |].
  apply hoare_lift_status. intros ? ? ?. discriminate.
Qed.

(** ** One iteration of the worklist loop *)

Lemma rewritten_size n0 X F v :
  visitor_invariant n0 X F v -> (base.size (old_to_new_instrs_ v) <= n0)%nat.
Proof.
  intros (_ & Ho & _). rewrite <- size_dom.
  rewrite <- (size_set_seq (C := gset nat) 0 n0).
  apply subseteq_size. intros k Hk. apply elem_of_dom in Hk as [n Hn].
  apply Ho in Hn. apply elem_of_set_seq. lia.
Qed.

Lemma more_rewritten_size v v' :
  more_rewritten v v' ->
  (base.size (old_to_new_instrs_ v) <= base.size (old_to_new_instrs_ v'))%nat.
Proof. intros H. rewrite <- !size_dom. now apply subseteq_size. Qed.

Lemma more_rewritten_size_new v v' k :
  more_rewritten v v' ->
  old_to_new_instrs_ v !! k = None -> k ∈ dom (old_to_new_instrs_ v') ->
  (base.size (old_to_new_instrs_ v) + 1 <= base.size (old_to_new_instrs_ v'))%nat.
Proof.
  intros H Hk Hk'. rewrite <- !size_dom.
  assert (Hnot : k ∉ dom (old_to_new_instrs_ v)) by now apply not_elem_of_dom.
  rewrite Nat.add_comm, <- (size_singleton (C := gset nat) k).
  rewrite <- size_union by (apply disjoint_singleton_l; exact Hnot).
  apply subseteq_size. apply union_subseteq. split; [| exact H].
  now apply singleton_subseteq_l.
Qed.

Lemma keeps_replace_by_new n0 node :
  keeps (visitor_invariant n0 (fun _ => False) (fun _ => True))
    (new_node <- old_to_new_index node ;;
     check_ok (on_graph (ReplaceInstruction node new_node)))%state
    (fun _ => True).
Proof. hoare_tac; auto with keeps. Qed.

Lemma keeps_replace_by_batch_to_space n0 node :
  keeps (visitor_invariant n0 (fun _ => False) (fun _ => True))
    (batch_to_space <- BatchToSpace node ;;
     check_ok (on_graph (ReplaceInstruction node batch_to_space)))%state
    (fun _ => True).
Proof. hoare_tac; auto with keeps. Qed.

Lemma grows_replace_by_new node :
  respects more_rewritten
    (new_node <- old_to_new_index node ;;
     check_ok (on_graph (ReplaceInstruction node new_node)))%state.
Proof. rewritten_tac. Qed.

Lemma grows_replace_by_batch_to_space node :
  respects more_rewritten
    (batch_to_space <- BatchToSpace node ;;
     check_ok (on_graph (ReplaceInstruction node batch_to_space)))%state.
Proof. rewritten_tac. Qed.

Lemma grows_users_loop node l : forall wl,
  respects more_rewritten (for_each l wl (propagate_to_user node)).
Proof.
  intros wl. apply respects_for_each; [typeclasses eauto .. |].
  intros user acc. apply grows_propagate_to_user.
Qed.


(** ** The end of the worklist loop *)

Lemma wrap_small z : - 2 ^ 63 <= z <= 2 ^ 63 - 1 -> Int64.wrap z = z.
Proof.
  intros H. unfold Int64.wrap. rewrite Z.mod_small; lia.
Qed.

(** What the tail of an iteration does that replaces the node: the
    worklist is as it was. *)
Lemma replace_tail {A B C} n0 (m : State ConvolutionVisitor A)
    (k : A -> State ConvolutionVisitor B) (x : C) v r v' :
  keeps (visitor_invariant n0 (fun _ => False) (fun _ => True)) (bind m k)
    (fun _ => True) ->
  respects more_rewritten (bind m k) ->
  visitor_invariant n0 (fun _ => False) (fun _ => True) v ->
  (a <- m ;; k a ;;; ret x)%state v = OK (r, v') ->
  visitor_invariant n0 (fun _ => False) (fun _ => True) v' /\
  more_rewritten v v' /\ r = x.
Proof.
  intros Hk Hg Hv E. apply bind_inv in E as (a & v1 & E1 & E2).
  apply bind_inv in E2 as (b & v2 & E2 & E3). injection E3 as <- <-.
  assert (E : bind m k v = OK (b, v2)).
  { unfold bind at 1. rewrite E1. exact E2. }
  split; [exact (proj1 (Hk _ _ _ Hv E)) |].
  split; [exact (Hg _ _ _ E) | reflexivity].
Qed.

(** The number of the users of a node that the computation had at its
    start. *)
Lemma old_users_count n0 c node :
  (length (List.filter (fun u => (u <? n0)%nat) (users c node)) <= n0)%nat.
Proof.
  unfold users.
  pose proof (old_users_bound n0 (is_user c node)
                (length (instructions c)) 0%nat).
  lia.
Qed.

(** One iteration of the loop: the invariant is kept, the table of the
    rewritten instructions grows, the entries pushed are instructions the
    computation had at its start, and either the node was skipped or the
    count went up by one, and then, but for the first iteration, the node
    is a new entry of the table. *)
Lemma propagation_step_outcome n0 node parent wl count v wl' count' v' :
  visitor_invariant n0 (fun _ => False) (fun _ => True) v ->
  (node < n0)%nat ->
  propagation_step node parent wl count v = OK ((wl', count'), v') ->
  visitor_invariant n0 (fun _ => False) (fun _ => True) v' /\
  more_rewritten v v' /\
  exists pushes,
    wl' = wl ++ pushes /\
    Forall (fun e => (fst e < n0)%nat) pushes /\
    (length pushes <= n0)%nat /\
    ((count <> 0 /\ pushes = [] /\ count' = count /\ v' = v) \/
     (count' = (count + 1)%i64 /\
      (count <> 0 ->
       old_to_new_instrs_ v !! node = None /\
       node ∈ dom (old_to_new_instrs_ v')))).
Proof.
  intros Hv Hnode E. unfold propagation_step in E.
  apply bind_inv in E as (rewritten & v0 & E0 & E).
  injection E0 as <- <-.
  destruct (bool_decide (is_Some (old_to_new_instrs_ v !! node))
            && negb (count =? 0)) eqn:Eskip.
  { injection E as <- <- <-.
    apply andb_true_iff in Eskip as [_ Hc].
    apply negb_true_iff, Z.eqb_neq in Hc.
    split; [exact Hv |]. split; [reflexivity |]. exists [].
    rewrite app_nil_r. split; [reflexivity |]. split; [constructor |].
    split; [cbn; lia |]. left. tauto. }
  apply bind_inv in E as (further & v1 & E1 & E).
  assert (H1 : visitor_invariant n0 (fun _ => False) (fun _ => True) v1 /\
               more_rewritten v v1 /\
               (count <> 0 ->
                old_to_new_instrs_ v !! node = None /\
                node ∈ dom (old_to_new_instrs_ v1))).
  { destruct (Z.eqb_spec count 0) as [-> | Hc]; cbn [negb] in E1.
    - injection E1 as <- <-. split; [exact Hv |].
      split; [reflexivity |]. intros H. now contradiction H.
    - split; [exact (proj1 (keeps_Propagate n0 _ _ _ Hnode _ _ _ Hv E1)) |].
      split; [exact (grows_Propagate _ _ _ _ _ E1) |]. intros _.
      split; [| exact (Propagate_records _ _ _ _ _ Logic.I E1)].
      rewrite andb_false_iff in Eskip. destruct Eskip as [Hn | Hz].
      + apply bool_decide_eq_false in Hn.
        now apply eq_None_not_Some.
      + discriminate. }
  destruct H1 as (Hv1 & Hg1 & Hrec).
  apply bind_inv in E as (root & v2 & E2 & E). injection E2 as <- <-.
  assert (Hdone : forall pushes,
    visitor_invariant n0 (fun _ => False) (fun _ => True) v' ->
    more_rewritten v1 v' ->
    (wl', count') = (wl ++ pushes, (count + 1)%i64) ->
    Forall (fun e => (fst e < n0)%nat) pushes ->
    (length pushes <= n0)%nat ->
    visitor_invariant n0 (fun _ => False) (fun _ => True) v' /\
    more_rewritten v v' /\
    exists pushes,
      wl' = wl ++ pushes /\
      Forall (fun e => (fst e < n0)%nat) pushes /\
      (length pushes <= n0)%nat /\
      ((count <> 0 /\ pushes = [] /\ count' = count /\ v' = v) \/
       (count' = (count + 1)%i64 /\
        (count <> 0 ->
         old_to_new_instrs_ v !! node = None /\
         node ∈ dom (old_to_new_instrs_ v'))))).
  { intros pushes Hw Hg [= -> ->] Hold Hlen. split; [exact Hw |].
    split; [now transitivity v1 |]. exists pushes.
    split; [reflexivity |]. split; [exact Hold |]. split; [exact Hlen |].
    right. split; [reflexivity |]. intros Hc.
    destruct (Hrec Hc) as [Hnone Hin]. split; [exact Hnone |].
    exact (Hg _ Hin). }
  assert (Hnew : forall r,
    (new_node <- old_to_new_index node ;;
     check_ok (on_graph (ReplaceInstruction node new_node)) ;;;
     ret (wl, (count + 1)%i64))%state v1 = OK (r, v') ->
    visitor_invariant n0 (fun _ => False) (fun _ => True) v' /\
    more_rewritten v1 v' /\ r = (wl, (count + 1)%i64)).
  { intros r.
    exact (replace_tail n0 _ _ _ _ _ _ (keeps_replace_by_new n0 node)
             (grows_replace_by_new node) Hv1). }
  assert (Hb2s : forall r,
    (batch_to_space <- BatchToSpace node ;;
     check_ok (on_graph (ReplaceInstruction node batch_to_space)) ;;;
     ret (wl, (count + 1)%i64))%state v1 = OK (r, v') ->
    visitor_invariant n0 (fun _ => False) (fun _ => True) v' /\
    more_rewritten v1 v' /\ r = (wl, (count + 1)%i64)).
  { intros r.
    exact (replace_tail n0 _ _ _ _ _ _
             (keeps_replace_by_batch_to_space n0 node)
             (grows_replace_by_batch_to_space node) Hv1). }
  assert (Hnil : forall r, r = (wl, (count + 1)%i64) ->
                 r = (wl ++ [], (count + 1)%i64))
    by (intros r ->; now rewrite app_nil_r).
  destruct (root_instruction (computation_ v1) =? node)%nat;
    destruct further; cbn [negb] in E.
  - destruct (Hb2s _ E) as (Hw & Hg & Er).
    apply (Hdone []); auto using Hnil. cbn; lia.
  - destruct (Hnew _ E) as (Hw & Hg & Er).
    apply (Hdone []); auto using Hnil. cbn; lia.
  - apply bind_inv in E as (node_users & v2 & E2 & E).
    injection E2 as <- <-.
    apply bind_inv in E as (wl2 & v3 & E3 & E). injection E as <- <- <-.
    assert (Hv1' : visitor_invariant n0 (fun _ => False)
                     (same_opcodes (computation_ v1)) v1).
    { eapply visitor_invariant_weaken; [exact Hv1 |].
      apply same_opcodes_refl. }
    destruct (users_loop_pushes n0 _ node _ _ _ _ _ Hv1'
                (users_facts n0 _ _ _ Hv1 Hnode) E3)
      as (Hw & pushes & -> & Hold & Hlen).
    apply (Hdone pushes).
    + eapply visitor_invariant_weaken; [exact Hw | exact Logic.I].
    + exact (grows_users_loop _ _ _ _ _ _ E3).
    + reflexivity.
    + exact Hold.
    + pose proof (old_users_count n0 (computation_ v1) node). lia.
  - destruct (Hnew _ E) as (Hw & Hg & Er).
    apply (Hdone []); auto using Hnil. cbn; lia.
Qed.

(** The loop comes to its end: the iterations it needs are bounded by the
    entries of the worklist and by the instructions that are not rewritten
    yet, of which every iteration that does not skip its node takes one
    and pushes at most [n0] entries. *)
Lemma propagation_run_ends n0 : forall fuel wl count v,
  visitor_invariant n0 (fun _ => False) (fun _ => True) v ->
  Forall (fun e => (fst e < n0)%nat) wl ->
  Z.of_nat n0 < 2 ^ 62 ->
  count = 0 \/ 1 <= count <= Z.of_nat (base.size (old_to_new_instrs_ v)) + 1 ->
  (length wl + (n0 - base.size (old_to_new_instrs_ v)) * (n0 + 1)
   + (if (count =? 0)%Z then n0 + 1 else 0) <= fuel)%nat ->
  exists r,
    propagation_run fuel wl count v = Some r /\
    forall v', r = OK (tt, v') ->
      visitor_invariant n0 (fun _ => False) (fun _ => True) v' /\
      more_rewritten v v'.
Proof.
  induction fuel as [| fuel IH]; intros wl count v Hv Hwl Hn0 Hcount Hfuel.
  - destruct wl as [| [node parent] rest].
    + exists (OK (tt, v)). split; [reflexivity |]. intros v' [= <-].
      split; [exact Hv | reflexivity].
    + cbn [length] in Hfuel. lia.
  - destruct wl as [| [node parent] rest].
    { exists (OK (tt, v)). split; [reflexivity |]. intros v' [= <-].
      split; [exact Hv | reflexivity]. }
    cbn [propagation_run].
    destruct (propagation_step node parent rest count v)
      as [[[wl' count'] v1] | f] eqn:E.
    2: { exists (Fail f). split; [reflexivity |]. discriminate. }
    apply Forall_cons in Hwl as [Hnode Hrest]. cbn [fst] in Hnode.
    destruct (propagation_step_outcome _ _ _ _ _ _ _ _ _ Hv Hnode E)
      as (Hv1 & Hg & pushes & -> & Hold & Hlen & Hcase).
    pose proof (rewritten_size _ _ _ _ Hv) as Hs.
    pose proof (rewritten_size _ _ _ _ Hv1) as Hs1.
    pose proof (more_rewritten_size _ _ Hg) as Hss.
    cbn [length] in Hfuel.
    assert (Hmono : ((n0 - base.size (old_to_new_instrs_ v1)) * (n0 + 1)
                     <= (n0 - base.size (old_to_new_instrs_ v)) * (n0 + 1))%nat)
      by (apply Nat.mul_le_mono_r; lia).
    destruct (IH (rest ++ pushes) count' v1) as (r & Er & Hr).
    + exact Hv1.
    + apply Forall_app. split; assumption.
    + exact Hn0.
    + destruct Hcase as [(Hc & _ & -> & ->) | [-> Hrec]].
      { destruct Hcount as [? | ?]; [contradiction | now right]. }
      right. destruct (Z.eq_dec count 0) as [-> | Hc].
      { vm_compute (0 + 1)%i64. lia. }
      destruct Hcount as [? | Hcount]; [contradiction |].
      destruct (Hrec Hc) as [Hnone Hin].
      pose proof (more_rewritten_size_new _ _ _ Hg Hnone Hin).
      clear Hfuel Hmono. unfold Int64.add. rewrite wrap_small; lia.
    + rewrite length_app.
      assert (Hstrict :
        (base.size (old_to_new_instrs_ v) + 1
         <= base.size (old_to_new_instrs_ v1) ->
         (n0 - base.size (old_to_new_instrs_ v1)) * (n0 + 1) + (n0 + 1)
         <= (n0 - base.size (old_to_new_instrs_ v)) * (n0 + 1))%nat).
      { intros Hlt.
        replace (n0 - base.size (old_to_new_instrs_ v))%nat
          with (S (n0 - base.size (old_to_new_instrs_ v1) +
                   (base.size (old_to_new_instrs_ v1)
                    - base.size (old_to_new_instrs_ v) - 1)))%nat by lia.
        generalize (n0 - base.size (old_to_new_instrs_ v1))%nat
          (base.size (old_to_new_instrs_ v1)
           - base.size (old_to_new_instrs_ v) - 1)%nat.
        intros a b. cbn [Nat.mul]. rewrite Nat.mul_add_distr_r. lia. }
      clear IH.
      set (A1 := ((n0 - base.size (old_to_new_instrs_ v1)) * (n0 + 1))%nat)
        in *.
      set (A := ((n0 - base.size (old_to_new_instrs_ v)) * (n0 + 1))%nat)
        in *.
      clearbody A A1.
      destruct Hcase as [(Hc & -> & -> & ->) | [-> Hrec]].
      { cbn [length]. destruct (count =? 0); lia. }
      destruct (Z.eqb_spec count 0) as [-> | Hc].
      { change ((0 + 1)%i64 =? 0) with false.
        change (0 =? 0) with true in Hfuel.
        cbv iota in Hfuel |- *. lia. }
      destruct Hcount as [? | Hcount]; [contradiction |].
      destruct (Hrec Hc) as [Hnone Hin].
      pose proof (more_rewritten_size_new _ _ _ Hg Hnone Hin) as Hnew.
      assert (Hc' : ((count + 1)%i64 =? 0) = false).
      { apply Z.eqb_neq. unfold Int64.add. clear Hfuel Hmono Hstrict.
        rewrite wrap_small; lia. }
      rewrite Hc'. lia.
    + exists r. split; [exact Er |]. intros v' Ev'.
      destruct (Hr v' Ev') as [Hv' Hg']. split; [exact Hv' |].
      now transitivity v1.
Qed.

(** The loop on fuel is the run of its iterations: [Diverges] stands for
    the fuel that did not suffice. *)
Lemma propagation_loop_run : forall fuel wl count v,
  propagation_loop fuel wl count v =
  match propagation_run fuel wl count v with
  | Some r => r
  | None => Fail Diverges
  end.
Proof.
  induction fuel as [| fuel IH]; intros [| [node parent] rest] count v;
    try reflexivity.
  cbn [propagation_loop propagation_run]. unfold propagation_step, bind.
  repeat first
    [ rewrite IH; reflexivity
    | reflexivity
    | progress cbv beta iota
    | match goal with
      | |- match ?m ?s with OK _ => _ | Fail _ => _ end = _ =>
          destruct (m s) as [[? ?] | ?]
      | |- (if ?b then _ else _) _ = _ => destruct b
      end ].
Qed.

(** The invariant as it is computed and as it is stated. *)
Lemma propagation_invariant_spec n0 v :
  propagation_invariant n0 v = true <->
  visitor_invariant n0 (fun _ => False) (fun _ => True) v.
Proof.
  unfold propagation_invariant, visitor_invariant, graph_invariant.
  rewrite !andb_true_iff, !forallb_forall, Nat.leb_le.
  split.
  - intros (((Hl & Hg) & Ho) & Hb).
    split; [split; [exact Hl | split; [| exact Logic.I]] | split].
    + intros i u Hi _ Hu. apply Hg. apply list_elem_of_In.
      apply list_elem_of_lookup. exists (i - n0)%nat.
      rewrite lookup_drop. replace (n0 + (i - n0))%nat with i by lia.
      exact Hu.
    + intros k n Hk. apply elem_of_map_to_list in Hk.
      apply list_elem_of_In, Ho, andb_true_iff in Hk as [H1 H2].
      apply Nat.ltb_lt in H1. apply Nat.leb_le in H2. tauto.
    + intros k b Hk. apply elem_of_map_to_list in Hk.
      apply list_elem_of_In, Hb, Nat.leb_le in Hk. exact Hk.
  - intros ((Hl & Hg & _) & Ho & Hb).
    split; [split; [split; [exact Hl |] |] |].
    + intros u Hu. apply list_elem_of_In, list_elem_of_lookup in Hu
        as [j Hj].
      rewrite lookup_drop in Hj.
      apply (Hg (n0 + j)%nat u); [lia | tauto | exact Hj].
    + intros [k n] Hk. apply list_elem_of_In, elem_of_map_to_list in Hk.
      apply Ho in Hk. cbn [fst snd]. apply andb_true_iff.
      split; [apply Nat.ltb_lt | apply Nat.leb_le]; tauto.
    + intros [k b] Hk. apply list_elem_of_In, elem_of_map_to_list in Hk.
      apply Hb in Hk. cbn [snd]. now apply Nat.leb_le.
Qed.

(** More fuel does not change the outcome of a loop that has come to its
    end. *)
Lemma propagation_run_more : forall fuel fuel' wl count v r,
  (fuel <= fuel')%nat ->
  propagation_run fuel wl count v = Some r ->
  propagation_run fuel' wl count v = Some r.
Proof.
  induction fuel as [| fuel IH]; intros fuel' [| [node parent] rest] count v r
    Hle E; try (destruct fuel'; exact E); try discriminate.
  destruct fuel' as [| fuel']; [lia |]. cbn [propagation_run] in E |- *.
  destruct (propagation_step node parent rest count v)
    as [[[wl' count'] v1] | f]; [| exact E].
  apply (IH fuel'); [lia | exact E].
Qed.

(** The loop of [PropagateOnUsers] from its first entry. *)
Lemma worklist_loop_ends n0 fuel old_conv parent v :
  propagation_invariant n0 v = true ->
  (old_conv < n0)%nat ->
  Z.of_nat n0 < 2 ^ 62 ->
  ((n0 + 1) * (n0 + 1) < fuel)%nat ->
  exists r,
    propagation_run fuel [(old_conv, parent)] 0 v = Some r /\
    propagation_loop fuel [(old_conv, parent)] 0 v = r /\
    forall v', r = OK (tt, v') ->
      propagation_invariant n0 v' = true /\ more_rewritten v v'.
Proof.
  intros Hv Hlt Hn0 Hfuel. apply propagation_invariant_spec in Hv.
  destruct (propagation_run_ends n0 fuel [(old_conv, parent)] 0 v)
    as (r & Er & Hr).
  - exact Hv.
  - constructor; [exact Hlt | constructor].
  - exact Hn0.
  - now left.
  - cbn [length]. change (0 =? 0) with true. cbv iota.
    assert ((n0 - base.size (old_to_new_instrs_ v)) * (n0 + 1)
            <= n0 * (n0 + 1))%nat by (apply Nat.mul_le_mono_r; lia).
    lia.
  - exists r. split; [exact Er |].
    split; [rewrite propagation_loop_run, Er; reflexivity |].
    intros v' Ev'. destruct (Hr v' Ev') as [Hv' Hg].
    split; [now apply propagation_invariant_spec | exact Hg].
Qed.

(** ** The rewrite of a convolution keeps the invariant *)

Lemma keeps_space_to_batch_convolution n0 X convolution :
  (convolution < n0)%nat ->
  keeps (visitor_invariant n0 X (fun _ => True))
    (space_to_batch_convolution convolution) (fun _ => True).
Proof.
  intros Hc. unfold space_to_batch_convolution.
  hoare_tac; auto with keeps.
Qed.

(** ** [PropagateOnUsers] and the pass *)

Lemma check_ok_inv {S A} (m : State S A) s a s' :
  check_ok m s = OK (a, s') -> m s = OK (a, s').
Proof.
  unfold check_ok. destruct (m s) as [r | []]; congruence.
Qed.

Lemma PropagateOnUsers_outcome n0 fuel old_conv v v' :
  visitor_invariant n0 (fun _ => False) (fun _ => True) v ->
  (old_conv < n0)%nat ->
  Z.of_nat n0 < 2 ^ 62 ->
  PropagateOnUsers fuel old_conv v = OK (tt, v') ->
  visitor_invariant n0 (fun _ => False) (fun _ => True) v' /\
  more_rewritten v v'.
Proof.
  intros Hv Hlt Hn0 E. unfold PropagateOnUsers in E.
  apply bind_inv in E as (count & v0 & E0 & E). injection E0 as <- <-.
  destruct (user_count (computation_ v) old_conv =? 0).
  { destruct (replace_tail n0 _ _ _ _ _ _
                (keeps_replace_by_batch_to_space n0 old_conv)
                (grows_replace_by_batch_to_space old_conv) Hv E)
      as (? & ? & _).
    tauto. }
  apply bind_inv in E as (conv & v0 & E0 & E).
  apply on_graph_deref_inv in E0 as [_ ->].
  apply bind_inv in E as (operand_0 & v0 & E0 & E).
  apply lift_status_inv in E0 as [_ ->].
  rewrite propagation_loop_run in E.
  destruct (propagation_run fuel [(old_conv, operand_0)] 0 v) as [r |] eqn:Er;
    [subst r | discriminate].
  apply propagation_invariant_spec in Hv.
  destruct (worklist_loop_ends n0 (fuel + S ((n0 + 1) * (n0 + 1))) old_conv
              operand_0 v Hv Hlt Hn0
              (Nat.lt_lt_add_l _ _ _ (Nat.lt_succ_diag_r _)))
    as (r & Er' & _ & Hr).
  rewrite (propagation_run_more _ _ _ _ _ _ (Nat.le_add_r _ _) Er) in Er'.
  injection Er' as <-. destruct (Hr v' eq_refl) as [Hv' Hg].
  split; [now apply propagation_invariant_spec | exact Hg].
Qed.

Lemma PropagateOnUsers_fuel n0 fuel fuel' old_conv v :
  visitor_invariant n0 (fun _ => False) (fun _ => True) v ->
  (old_conv < n0)%nat ->
  Z.of_nat n0 < 2 ^ 62 ->
  ((n0 + 1) * (n0 + 1) < fuel)%nat ->
  ((n0 + 1) * (n0 + 1) < fuel')%nat ->
  PropagateOnUsers fuel old_conv v = PropagateOnUsers fuel' old_conv v.
Proof.
  intros Hv Hlt Hn0 Hf Hf'. unfold PropagateOnUsers, bind.
  unfold gets. cbv beta iota.
  destruct (user_count (computation_ v) old_conv =? 0); [reflexivity |].
  destruct (on_graph (deref old_conv) v) as [[conv v0] |] eqn:E0;
    [| reflexivity].
  apply on_graph_deref_inv in E0 as [_ ->].
  destruct (lift_status (operand conv 0) v) as [[operand_0 v0] |] eqn:E0;
    [| reflexivity].
  apply lift_status_inv in E0 as [_ ->].
  apply propagation_invariant_spec in Hv.
  destruct (worklist_loop_ends n0 fuel old_conv operand_0 v Hv Hlt Hn0 Hf)
    as (r & Er & <- & _).
  destruct (worklist_loop_ends n0 fuel' old_conv operand_0 v Hv Hlt Hn0 Hf')
    as (r' & Er' & <- & _).
  rewrite !propagation_loop_run, Er, Er'.
  destruct (le_ge_dec fuel fuel') as [Hle | Hge].
  - rewrite (propagation_run_more _ _ _ _ _ _ Hle Er) in Er'. congruence.
  - rewrite (propagation_run_more _ _ _ _ _ _ Hge Er') in Er. congruence.
Qed.

Lemma PerformSpaceToBatchOnConvolution_outcome n0 fuel convolution v v' :
  visitor_invariant n0 (fun _ => False) (fun _ => True) v ->
  (convolution < n0)%nat ->
  Z.of_nat n0 < 2 ^ 62 ->
  PerformSpaceToBatchOnConvolution fuel convolution v = OK (tt, v') ->
  visitor_invariant n0 (fun _ => False) (fun _ => True) v' /\
  convolution ∈ dom (old_to_new_instrs_ v').
Proof.
  intros Hv Hlt Hn0 E. unfold PerformSpaceToBatchOnConvolution in E.
  apply bind_inv in E as ([] & v1 & E1 & E).
  apply bind_inv in E as ([] & v2 & E2 & E). injection E as <-.
  apply check_ok_inv in E2.
  pose proof (proj1 (keeps_space_to_batch_convolution n0 _ _ Hlt _ _ _ Hv E1))
    as Hv1.
  destruct (PropagateOnUsers_outcome _ _ _ _ _ Hv1 Hlt Hn0 E2) as [Hv2 Hg].
  split.
  - eapply visitor_invariant_ext; [.. | exact Hv2]; reflexivity.
  - cbn. apply Hg.
    by_hoare E1 (fun _ : ConvolutionVisitor => True)
      (fun (_ : unit) v' => convolution ∈ dom (old_to_new_instrs_ v')).
    unfold space_to_batch_convolution.
    eapply hoare_bind with (Q := fun _ _ => True);
      [intros ? ? ? ? ?; exact Logic.I | intros ?; cbv beta].
    records_tac.
Qed.

Lemma keeps_for_each_Forall {S A B} (I : S -> Prop) (P : A -> Prop)
    (body : A -> B -> State S B) l :
  (forall x acc, P x -> keeps I (body x acc) (fun _ => True)) ->
  Forall P l ->
  forall acc, keeps I (for_each l acc body) (fun _ => True).
Proof.
  intros Hbody Hl. induction Hl as [| x l Hx Hl IH]; intros acc s a s' Hs E.
  - injection E as <- <-. split; [exact Hs | exact Logic.I].
  - cbn [for_each] in E. apply bind_inv in E as (acc' & s1 & E1 & E2).
    apply (IH acc' s1 a s'); [| exact E2].
    exact (proj1 (Hbody x acc Hx _ _ _ Hs E1)).
Qed.

Lemma for_each_agree {S A B} (I : S -> Prop) (P : A -> Prop)
    (body body' : A -> B -> State S B) l :
  (forall x acc s, P x -> I s -> body x acc s = body' x acc s) ->
  (forall x acc, P x -> keeps I (body x acc) (fun _ => True)) ->
  Forall P l ->
  forall acc s, I s -> for_each l acc body s = for_each l acc body' s.
Proof.
  intros Heq Hbody Hl. induction Hl as [| x l Hx Hl IH]; intros acc s Hs.
  - reflexivity.
  - cbn [for_each]. unfold bind. rewrite <- (Heq x acc s Hx Hs).
    destruct (body x acc s) as [[acc' s1] |] eqn:E1; [| reflexivity].
    apply IH. exact (proj1 (Hbody x acc Hx _ _ _ Hs E1)).
Qed.

Lemma keeps_restore_operands n0 X i :
  keeps (visitor_invariant n0 X (fun _ => True)) (restore_operands i)
    (fun _ => True).
Proof.
  unfold restore_operands.
  eapply keeps_hoare_bind; [solve [eauto 4 with keeps nocore] |].
  intros x _.
  eapply keeps_hoare_bind
    with (post := Forall (fun e : Z * InstrId => (n0 <= snd e)%nat)).
  { apply keeps_for_each; [| constructor]. intros k operand_map Hmap.
    hoare_tac; auto with keeps.
    split; [assumption |].
    apply Forall_app. split; [exact Hmap |]. constructor; [| constructor].
    cbn [snd]. assumption. }
  intros operand_map Hmap.
  eapply hoare_weaken;
    [apply (keeps_for_each_Forall _
              (fun e : Z * InstrId => (n0 <= snd e)%nat)); [| exact Hmap]
    | intros ? ? H; exact H].
  intros entry [] He. hoare_tac; auto with keeps.
Qed.

Lemma keeps_visit n0 fuel conv acc :
  (conv < n0)%nat -> Z.of_nat n0 < 2 ^ 62 ->
  keeps (visitor_invariant n0 (fun _ => False) (fun _ => True))
    (to_visit <- gets (fun v => bool_decide (conv ∈ convs_to_visit_ v)) ;;
     if to_visit
     then check_ok (PerformSpaceToBatchOnConvolution fuel conv)
     else ret acc)%state
    (fun _ => True).
Proof.
  intros Hlt Hn0 v a v' Hv E.
  apply bind_inv in E as (to_visit & v0 & E0 & E). injection E0 as <- <-.
  destruct (bool_decide (conv ∈ convs_to_visit_ v)).
  - apply check_ok_inv in E. destruct a.
    split; [| exact Logic.I].
    exact (proj1 (PerformSpaceToBatchOnConvolution_outcome _ _ _ _ _ Hv Hlt
                    Hn0 E)).
  - injection E as <- <-. split; [exact Hv | exact Logic.I].
Qed.

Lemma Run_outcome n0 fuel v changed v' :
  visitor_invariant n0 (fun _ => False) (fun _ => True) v ->
  Forall (fun conv => (conv < n0)%nat) (conv_visitor_list_ v) ->
  Z.of_nat n0 < 2 ^ 62 ->
  Run fuel v = OK (changed, v') ->
  visitor_invariant n0 (fun _ => False) (fun _ => True) v'.
Proof.
  intros Hv Hl Hn0 E. unfold Run in E.
  apply bind_inv in E as (convs & v0 & E0 & E). injection E0 as <- <-.
  apply bind_inv in E as ([] & v1 & E1 & E).
  assert (Hv1 : visitor_invariant n0 (fun _ => False) (fun _ => True) v1).
  { refine (proj1 (keeps_for_each_Forall _ (fun conv => (conv < n0)%nat) _ _
                     _ Hl tt _ _ _ Hv E1)).
    intros conv [] Hlt. now apply keeps_visit. }
  cut (keeps (visitor_invariant n0 (fun _ => False) (fun _ => True))
         (modify
            (fun v =>
               {| computation_ := computation_ v;
                  convs_to_visit_ := ∅;
                  conv_visitor_list_ := [];
                  non_propagatable_instrs_ := non_propagatable_instrs_ v;
                  batch_to_space_map_ := batch_to_space_map_ v;
                  old_to_new_instrs_ := old_to_new_instrs_ v;
                  instr_to_dim_map_ := instr_to_dim_map_ v;
                  instr_to_dim_permute_map_ := instr_to_dim_permute_map_ v;
                  changed_ := changed_ v;
                  limit_on_batch_size_ := limit_on_batch_size_ v |}) ;;;
          pending <-
            gets (fun v =>
                    members_in_order (non_propagatable_instrs_ v)
                                     (computation_ v)) ;;
          for_each pending tt (fun i _ => restore_operands i) ;;;
          modify (set_non_propagatable_instrs ∅) ;;;
          gets changed_)%state (fun _ => True)).
  { intros H. exact (proj1 (H _ _ _ Hv1 E)). }
  eapply keeps_hoare_bind.
  { apply keeps_modify. intros s Hs.
    eapply visitor_invariant_ext; [.. | exact Hs]; reflexivity. }
  intros ? _.
  eapply keeps_hoare_bind; [apply keeps_gets |]. intros pending _.
  eapply keeps_hoare_bind.
  { apply (keeps_for_each _ _ (fun _ => True)); [| exact Logic.I].
    intros i [] _. apply keeps_restore_operands. }
  intros ? _. eapply keeps_hoare_bind.
  { apply keeps_modify. intros s Hs.
    eapply visitor_invariant_ext; [.. | exact Hs]; reflexivity. }
  intros ? _. apply keeps_gets.
Qed.

(** ** The visitor at its construction *)

Lemma make_visitor_fold limit c l : forall v v',
  fold_status l v
    (fun i v =>
       (inst <- instr c i ;;
        if negb (opcode_eqb (opcode inst) kConvolution) then OK v else
        suitable <- IsConvSuitableForSpaceToBatch limit c inst ;;
        if negb suitable then OK v
        else
          OK {| computation_ := computation_ v;
                convs_to_visit_ := convs_to_visit_ v ∪ {[ i ]};
                conv_visitor_list_ := conv_visitor_list_ v ++ [i];
                non_propagatable_instrs_ := non_propagatable_instrs_ v;
                batch_to_space_map_ := batch_to_space_map_ v;
                old_to_new_instrs_ := old_to_new_instrs_ v;
                instr_to_dim_map_ := instr_to_dim_map_ v;
                instr_to_dim_permute_map_ := instr_to_dim_permute_map_ v;
                changed_ := changed_ v;
                limit_on_batch_size_ := limit_on_batch_size_ v |})%status)
  = OK v' ->
  v' = {| computation_ := computation_ v;
          convs_to_visit_ :=
            convs_to_visit_ v
            ∪ list_to_set (List.filter (is_suitable_convolution limit c) l);
          conv_visitor_list_ :=
            conv_visitor_list_ v
            ++ List.filter (is_suitable_convolution limit c) l;
          non_propagatable_instrs_ := non_propagatable_instrs_ v;
          batch_to_space_map_ := batch_to_space_map_ v;
          old_to_new_instrs_ := old_to_new_instrs_ v;
          instr_to_dim_map_ := instr_to_dim_map_ v;
          instr_to_dim_permute_map_ := instr_to_dim_permute_map_ v;
          changed_ := changed_ v;
          limit_on_batch_size_ := limit_on_batch_size_ v |}.
Proof.
  induction l as [| i l IH]; intros v v' E.
  - injection E as <-. cbn [List.filter list_to_set].
    rewrite app_nil_r, (right_id_L ∅ (∪)). now destruct v.
  - cbn [fold_status] in E. unfold bindS at 1 in E.
    unfold is_suitable_convolution at 1 2. cbn [List.filter].
    unfold instr in E at 1.
    fold (is_suitable_convolution limit c).
    destruct (instructions c !! i) as [inst |] eqn:Ei; [| discriminate].
    cbn [bindS] in E.
    destruct (opcode_eqb (opcode inst) kConvolution); cbn [negb andb] in *.
    + unfold bindS at 1 in E.
      destruct (IsConvSuitableForSpaceToBatch limit c inst) as [[|] | f];
        cbn [negb] in E; [| | discriminate].
      * apply IH in E. rewrite E. cbn [list_to_set].
        cbn [computation_ convs_to_visit_ conv_visitor_list_
             non_propagatable_instrs_ batch_to_space_map_ old_to_new_instrs_
             instr_to_dim_map_ instr_to_dim_permute_map_ changed_
             limit_on_batch_size_].
        rewrite <- app_assoc, (assoc_L (∪)). reflexivity.
      * now apply IH in E.
    + now apply IH in E.
Qed.

Lemma make_visitor_outcome limit c v :
  make_visitor limit c = OK v ->
  v = {| computation_ := c;
         convs_to_visit_ :=
           list_to_set
             (List.filter (is_suitable_convolution limit c)
                (seq 0 (length (instructions c))));
         conv_visitor_list_ :=
           List.filter (is_suitable_convolution limit c)
             (seq 0 (length (instructions c)));
         non_propagatable_instrs_ := ∅;
         batch_to_space_map_ := ∅;
         old_to_new_instrs_ := ∅;
         instr_to_dim_map_ := ∅;
         instr_to_dim_permute_map_ := ∅;
         changed_ := false;
         limit_on_batch_size_ := limit |}.
Proof.
  intros E. unfold make_visitor in E. apply make_visitor_fold in E.
  rewrite E. cbn. now rewrite (left_id_L ∅ (∪)).
Qed.

Lemma make_visitor_invariant limit c v :
  make_visitor limit c = OK v ->
  visitor_invariant (length (instructions c)) (fun _ => False)
    (fun _ => True) v /\
  Forall (fun conv => (conv < length (instructions c))%nat)
    (conv_visitor_list_ v).
Proof.
  intros E. apply make_visitor_outcome in E. subst v. split.
  - split; [split; [cbn; lia | split; [| exact Logic.I]] | split].
    + cbn. intros i u Hi _ Hu. apply lookup_lt_Some in Hu. lia.
    + cbn. intros k n Hk. rewrite lookup_empty in Hk. discriminate.
    + cbn. intros k b Hk. rewrite lookup_empty in Hk. discriminate.
  - cbn. apply Forall_forall. intros conv Hin.
    apply list_elem_of_In, filter_In in Hin as [Hin _].
    apply in_seq in Hin. lia.
Qed.

Lemma run_visitor_outcome limit fuel c changed v :
  Z.of_nat (length (instructions c)) < 2 ^ 62 ->
  run_visitor limit fuel c = OK (changed, v) ->
  propagation_invariant (length (instructions c)) v = true.
Proof.
  intros Hn0 E. unfold run_visitor in E. unfold bindS in E.
  destruct (make_visitor limit c) as [v0 |] eqn:E0; [| discriminate].
  destruct (make_visitor_invariant _ _ _ E0) as [Hv Hl].
  apply propagation_invariant_spec.
  exact (Run_outcome _ _ _ _ _ Hv Hl Hn0 E).
Qed.

(** The fuel of the worklist loops, once past the bound, has no part in
    the outcome. *)
Lemma PerformSpaceToBatchOnConvolution_fuel n0 fuel fuel' convolution v :
  visitor_invariant n0 (fun _ => False) (fun _ => True) v ->
  (convolution < n0)%nat ->
  Z.of_nat n0 < 2 ^ 62 ->
  ((n0 + 1) * (n0 + 1) < fuel)%nat ->
  ((n0 + 1) * (n0 + 1) < fuel')%nat ->
  PerformSpaceToBatchOnConvolution fuel convolution v =
  PerformSpaceToBatchOnConvolution fuel' convolution v.
Proof.
  intros Hv Hlt Hn0 Hf Hf'. unfold PerformSpaceToBatchOnConvolution.
  unfold bind at 1 3.
  destruct (space_to_batch_convolution convolution v) as [[[] v1] |] eqn:E1;
    [| reflexivity].
  pose proof (proj1 (keeps_space_to_batch_convolution n0 _ _ Hlt _ _ _ Hv E1))
    as Hv1.
  unfold bind, check_ok.
  now rewrite (PropagateOnUsers_fuel n0 fuel fuel' convolution v1).
Qed.

Lemma Run_fuel n0 fuel fuel' v :
  visitor_invariant n0 (fun _ => False) (fun _ => True) v ->
  Forall (fun conv => (conv < n0)%nat) (conv_visitor_list_ v) ->
  Z.of_nat n0 < 2 ^ 62 ->
  ((n0 + 1) * (n0 + 1) < fuel)%nat ->
  ((n0 + 1) * (n0 + 1) < fuel')%nat ->
  Run fuel v = Run fuel' v.
Proof.
  intros Hv Hl Hn0 Hf Hf'. unfold Run. unfold bind at 1 7.
  unfold gets at 1 5. cbv beta iota. unfold bind at 1 6.
  rewrite (for_each_agree
             (visitor_invariant n0 (fun _ => False) (fun _ => True))
             (fun conv => (conv < n0)%nat) _
             (fun conv _ =>
                to_visit <-
                  gets (fun v => bool_decide (conv ∈ convs_to_visit_ v)) ;;
                if to_visit
                then check_ok (PerformSpaceToBatchOnConvolution fuel' conv)
                else ret tt)%state _); [reflexivity | | | exact Hl | exact Hv].
  - intros conv [] s Hlt Hs. unfold bind, gets.
    destruct (bool_decide (conv ∈ convs_to_visit_ s)); [| reflexivity].
    unfold check_ok.
    now rewrite (PerformSpaceToBatchOnConvolution_fuel n0 fuel fuel' conv s).
  - intros conv [] Hlt. now apply keeps_visit.
Qed.


(** ** Back to space: the table of the results *)

Lemma hoare_after {S A B} (m : State S A) (k : A -> State S B)
    (Q : B -> S -> Prop) :
  (forall a, hoare (fun _ => True) (k a) Q) ->
  hoare (fun _ => True) (bind m k) Q.
Proof.
  intros Hk s b s' _ E. apply bind_inv in E as (a & s1 & _ & E).
  exact (Hk a s1 b s' Logic.I E).
Qed.

Ltac after_step :=
  lazymatch goal with
  | |- hoare _ (bind (record_batch_to_space _ _) _) _ => fail
  | |- hoare _ (bind (bind _ _) _) _ => apply hoare_bind_assoc
  | |- hoare _ (bind (let _ := _ in _) _) _ => cbv zeta
  | |- hoare _ (bind _ _) _ => apply hoare_after; intros ?; cbv beta
  | |- hoare _ (if ?b then _ else _) _ => destruct b
  | |- hoare _ (let _ := _ in _) _ => cbv zeta
  end.

Lemma BatchToSpace_caches old_instr :
  hoare (fun v => batch_to_space_map_ v !! old_instr = None)
    (BatchToSpace old_instr)
    (fun r v' => batch_to_space_map_ v' !! old_instr = Some r).
Proof.
  intros v r v' Hnone E. unfold BatchToSpace in E.
  apply bind_inv in E as (cached & v0 & E0 & E). injection E0 as <- <-.
  rewrite Hnone in E. revert E.
  generalize v. clear v Hnone. intros v E.
  by_hoare E (fun _ : ConvolutionVisitor => True)
    (fun r v' => batch_to_space_map_ v' !! old_instr = Some r).
  repeat after_step.
  intros s ? s' _ Es. apply bind_inv in Es as ([] & s1 & E1 & E2).
  injection E1 as <-. injection E2 as <- <-. cbn.
  apply lookup_insert_eq.
Qed.

Lemma BatchToSpace_cached old_instr v b :
  batch_to_space_map_ v !! old_instr = Some b ->
  BatchToSpace old_instr v = OK (b, v).
Proof. intros H. unfold BatchToSpace, bind, gets. now rewrite H. Qed.

Lemma BatchToSpace_again old_instr v b v' :
  BatchToSpace old_instr v = OK (b, v') ->
  BatchToSpace old_instr v' = OK (b, v').
Proof.
  intros E. apply BatchToSpace_cached.
  destruct (batch_to_space_map_ v !! old_instr) as [b0 |] eqn:Hb.
  - rewrite (BatchToSpace_cached _ _ _ Hb) in E. now injection E as <- <-.
  - exact (BatchToSpace_caches old_instr v b v' Hb E).
Qed.

Lemma BatchToSpace_needs_rewritten old_instr v r :
  batch_to_space_map_ v !! old_instr = None ->
  old_to_new_instrs_ v !! old_instr = None ->
  BatchToSpace old_instr v <> OK r.
Proof.
  intros Hb Ho E. destruct r as [b v']. unfold BatchToSpace in E.
  apply bind_inv in E as (cached & v0 & E0 & E). injection E0 as <- <-.
  rewrite Hb in E.
  apply bind_inv in E as (result & v1 & E1 & E).
  assert (Ho1 : old_to_new_instrs_ v1 !! old_instr = None).
  { unfold dim_map_index in E1.
    destruct (instr_to_dim_map_ v !! old_instr); injection E1 as _ <-;
      exact Ho. }
  cbv zeta in E.
  apply bind_inv in E as (old_shape & v2 & E2 & E).
  assert (Ho2 : old_to_new_instrs_ v2 !! old_instr = None).
  { unfold on_graph in E2.
    destruct (shape_of old_instr (computation_ v1)) as [[? ?] |];
      [| discriminate].
    injection E2 as _ <-. exact Ho1. }
  apply bind_inv in E as (old_batch_size & v3 & E3 & E).
  apply lift_status_inv in E3 as [_ ->].
  apply bind_inv in E as (rewritten & v3 & E3 & E). injection E3 as <- <-.
  rewrite Ho2 in E. apply bind_inv in E as (? & ? & E3 & _).
  rewrite bool_decide_eq_false_2 in E3 by (intros [? ?]; discriminate).
  discriminate.
Qed.

(** ** The search for a reduce-window *)

Lemma DoesConvolutionFeedReduceWindow_found depth c : forall i r,
  DoesConvolutionFeedReduceWindow depth c i = Some r ->
  exists path u,
    user_chain c i (path ++ [r]) /\
    (length path < depth)%nat /\
    Forall (searched_through c) path /\
    instructions c !! r = Some u /\ opcode u = kReduceWindow.
Proof.
  induction depth as [| depth IH]; intros i r E; [discriminate |].
  cbn [DoesConvolutionFeedReduceWindow] in E.
  assert (Hin : forall x, In x (users c i) -> In x (users c i)) by auto.
  revert Hin E. generalize (users c i) at 1 3. intros us.
  induction us as [| user us IHus]; intros Hin E; [discriminate |].
  assert (Hus : forall x, In x us -> In x (users c i))
    by (intros x Hx; apply Hin; now right).
  destruct (instructions c !! user) as [u |] eqn:Eu; [| exact (IHus Hus E)].
  destruct (opcode_eqb (opcode u) kReduceWindow) eqn:Erw.
  { injection E as <-. exists [], u. cbn.
    split; [split; [apply Hin; now left | exact Logic.I] |].
    split; [lia |]. split; [constructor |]. split; [exact Eu |].
    now apply opcode_eqb_eq. }
  destruct (opcode_eqb (opcode u) kConvolution) eqn:Ec;
    [exact (IHus Hus E) |].
  destruct (opcode_eqb (opcode u) kPad) eqn:Ep; [exact (IHus Hus E) |].
  destruct (opcode_eqb (opcode u) kTranspose) eqn:Et;
    [exact (IHus Hus E) |].
  cbn [orb] in E.
  destruct (DoesConvolutionFeedReduceWindow depth c user) as [r' |] eqn:Er.
  - injection E as <-.
    destruct (IH _ _ Er) as (path & w & Hchain & Hlen & Hpath & Hw & Hop).
    exists (user :: path), w. cbn [app user_chain length].
    split; [split; [apply Hin; now left | exact Hchain] |].
    split; [lia |].
    split; [constructor; [exists u; tauto | exact Hpath] |].
    split; assumption.
  - exact (IHus Hus E).
Qed.

(** ** Space next to batch *)

Lemma fold_status_invariant {A B} (I : B -> Prop)
    (body : A -> B -> StatusOr B) l : forall acc acc',
  (forall x acc acc', I acc -> body x acc = OK acc' -> I acc') ->
  I acc -> fold_status l acc body = OK acc' -> I acc'.
Proof.
  induction l as [| x l IH]; intros acc acc' Hbody Hacc E.
  - now injection E as <-.
  - cbn [fold_status] in E. unfold bindS in E.
    destruct (body x acc) as [acc1 |] eqn:E1; [| discriminate].
    exact (IH acc1 acc' Hbody (Hbody _ _ _ Hacc E1) E).
Qed.

Lemma MakeTransposeHlo_adds operand dims c r c' :
  MakeTransposeHlo operand dims c = OK (r, c') ->
  r = length (instructions c) /\
  exists t, c' = extend c [t] /\ opcode t = kTranspose /\
            operands t = [operand].
Proof.
  intros E. unfold MakeTransposeHlo in E.
  apply bind_inv in E as (s & c1 & E1 & E).
  pose proof (unchanged_shape_of _ _ _ _ E1) as <-.
  destruct (negb (IsPermutation dims)
            || negb (length dims =? length (dimensions s))%nat);
    [discriminate |].
  injection E as <- <-. split; [reflexivity |]. eexists.
  split; [reflexivity |]. split; reflexivity.
Qed.

Lemma BringSpaceNextToBatch_outcome activations dnums sd bd c
    a' numbers sd' bd' c' :
  BringSpaceNextToBatch activations dnums sd bd c
  = OK ((a', numbers, sd', bd'), c') ->
  sd' = (bd' + 1)%i64 /\
  input_batch_dimension numbers = bd' /\
  (if sd =? (bd + 1)%i64
   then a' = activations /\ c' = c /\ bd' = bd
   else a' = length (instructions c) /\
        exists t, c' = extend c [t] /\ opcode t = kTranspose /\
                  operands t = [activations]).
Proof.
  intros E. unfold BringSpaceNextToBatch in E.
  apply bind_inv in E as ([[[a1 n1] s1] b1] & c1 & E1 & E).
  injection E as <- <- <- <- <-.
  destruct (Z.eqb_spec sd (bd + 1)%i64) as [Hadj | Hadj]; cbn [negb] in E1.
  { injection E1 as <- <- <- <- <-. repeat split; assumption. }
  apply bind_inv in E1 as (shape & c2 & E2 & E1).
  pose proof (unchanged_shape_of _ _ _ _ E2) as <-. clear E2.
  apply bind_inv in E1 as (final & c2 & E2 & E1).
  apply lift_status_inv in E2 as [Efold ->].
  apply bind_inv in E1 as (batch_dim & c2 & E2 & E1).
  apply lift_status_inv in E2 as [Eb ->].
  apply bind_inv in E1 as (spatial_dim & c2 & E2 & E1).
  apply lift_status_inv in E2 as [Es ->].
  apply bind_inv in E1 as (t & c2 & E2 & E1).
  injection E1 as <- <- <- <- <-.
  apply MakeTransposeHlo_adds in E2 as [-> Ht].
  split; [| split; [reflexivity | split; [reflexivity | exact Ht]]].
  apply (fold_status_invariant
           (fun st =>
              match new_batch_dim st, new_spatial_dim st with
              | Some b, Some s => s = (b + 1)%i64
              | None, None => True
              | _, _ => False
              end)) in Efold.
  - destruct (new_batch_dim final), (new_spatial_dim final);
      try discriminate; try contradiction.
    injection Eb as <-. injection Es as <-. exact Efold.
  - clear. intros i st st' Hst Ebody.
    destruct (i =? bd); [now injection Ebody as <- |].
    unfold bindS in Ebody.
    match type of Ebody with
    | match ?m with _ => _ end = _ => destruct m; [| discriminate]
    end.
    injection Ebody as <-. cbn [new_batch_dim new_spatial_dim].
    destruct (i =? sd); cbn [new_batch_dim new_spatial_dim];
      [reflexivity | exact Hst].
  - exact Logic.I.
Qed.

(** ** The flag that a convolution was rewritten *)

#[global] Instance same_flag_refl : Reflexive same_flag.
Proof. intros v. reflexivity. Qed.

#[global] Instance same_flag_trans : Transitive same_flag.
Proof. intros v1 v2 v3. unfold same_flag. congruence. Qed.

Lemma flag_on_graph {A} (m : State HloComputation A) :
  respects same_flag (on_graph m).
Proof.
  intros v a v' E. unfold on_graph in E.
  destruct (m (computation_ v)) as [[a0 c] |]; [| discriminate].
  now injection E as <- <-.
Qed.

Lemma flag_dim_map_index k : respects same_flag (dim_map_index k).
Proof.
  intros v a v' E. unfold dim_map_index in E.
  destruct (instr_to_dim_map_ v !! k); now injection E as <- <-.
Qed.

Lemma flag_permute_map_index k : respects same_flag (permute_map_index k).
Proof.
  intros v a v' E. unfold permute_map_index in E.
  destruct (instr_to_dim_permute_map_ v !! k); now injection E as <- <-.
Qed.

Lemma flag_old_to_new_index k : respects same_flag (old_to_new_index k).
Proof.
  intros v a v' E. apply old_to_new_index_inv in E as [_ ->]. reflexivity.
Qed.

Lemma flag_record_batch_to_space k b :
  respects same_flag (record_batch_to_space k b).
Proof. now intros v a v' [= <- <-]. Qed.

Create HintDb flag discriminated.

#[global] Hint Resolve flag_on_graph flag_dim_map_index
  flag_permute_map_index flag_old_to_new_index flag_record_batch_to_space
  : flag.
#[global] Hint Extern 1 (respects same_flag (permute_map_contains _)) =>
  apply respects_gets; typeclasses eauto : flag.
#[global] Hint Extern 1 (respects same_flag (old_to_new_contains _)) =>
  apply respects_gets; typeclasses eauto : flag.

Lemma flag_BatchToSpace i : respects same_flag (BatchToSpace i).
Proof. unfold BatchToSpace. respects_tac; auto with flag. Qed.

#[global] Hint Resolve flag_BatchToSpace : flag.

Lemma flag_restore_operands i : respects same_flag (restore_operands i).
Proof. unfold restore_operands. respects_tac; auto with flag. Qed.

Lemma flag_visits fuel l : forall v v',
  for_each l tt
    (fun conv _ =>
       to_visit <- gets (fun v => bool_decide (conv ∈ convs_to_visit_ v)) ;;
       if to_visit
       then check_ok (PerformSpaceToBatchOnConvolution fuel conv)
       else ret tt)%state v = OK (tt, v') ->
  (changed_ v = true \/ exists conv, In conv l /\ conv ∈ convs_to_visit_ v) ->
  changed_ v' = true.
Proof.
  induction l as [| conv l IH]; intros v v' E H.
  - injection E as <-. destruct H as [H | (? & [] & _)]. exact H.
  - cbn [for_each] in E. apply bind_inv in E as ([] & v1 & E1 & E).
    apply (IH v1 v' E).
    apply bind_inv in E1 as (to_visit & v0 & E0 & E1).
    injection E0 as <- <-.
    destruct (bool_decide_reflect (conv ∈ convs_to_visit_ v)) as [Hin | Hnot].
    + left. apply check_ok_inv in E1.
      unfold PerformSpaceToBatchOnConvolution in E1.
      apply bind_inv in E1 as (? & ? & _ & E1).
      apply bind_inv in E1 as (? & ? & _ & E1). now injection E1 as <-.
    + injection E1 as <-.
      destruct H as [H | (conv' & [<- | Hin] & Hvisit)];
        [now left | contradiction | right; eauto].
Qed.

Lemma Run_flag fuel v changed v' :
  Run fuel v = OK (changed, v') ->
  (exists conv, In conv (conv_visitor_list_ v) /\ conv ∈ convs_to_visit_ v) ->
  changed = true.
Proof.
  intros E H. unfold Run in E.
  apply bind_inv in E as (convs & v0 & E0 & E). injection E0 as <- <-.
  apply bind_inv in E as ([] & v1 & E1 & E).
  pose proof (flag_visits _ _ _ _ E1 (or_intror H)) as Hflag.
  apply bind_inv in E as ([] & v2 & E2 & E). injection E2 as <-.
  apply bind_inv in E as (pending & v3 & E3 & E). injection E3 as <- <-.
  apply bind_inv in E as ([] & v3 & E3 & E).
  assert (H3 : forall pending,
                 respects same_flag
                   (for_each pending tt (fun i _ => restore_operands i))).
  { intros pending. apply respects_for_each; [typeclasses eauto .. |].
    intros i []. apply flag_restore_operands. }
  apply H3 in E3.
  apply bind_inv in E as ([] & v4 & E4 & E). injection E4 as <-.
  injection E as <- <-. unfold same_flag in E3. cbn in E3 |- *. congruence.
Qed.

Lemma Run_nothing fuel v :
  conv_visitor_list_ v = [] ->
  non_propagatable_instrs_ v = ∅ ->
  Run fuel v =
  OK (changed_ v,
      set_non_propagatable_instrs ∅
        {| computation_ := computation_ v;
           convs_to_visit_ := ∅;
           conv_visitor_list_ := [];
           non_propagatable_instrs_ := non_propagatable_instrs_ v;
           batch_to_space_map_ := batch_to_space_map_ v;
           old_to_new_instrs_ := old_to_new_instrs_ v;
           instr_to_dim_map_ := instr_to_dim_map_ v;
           instr_to_dim_permute_map_ := instr_to_dim_permute_map_ v;
           changed_ := changed_ v;
           limit_on_batch_size_ := limit_on_batch_size_ v |}).
Proof.
  intros Hl Hn. unfold Run, bind, gets, modify. rewrite Hl. cbn [for_each ret].
  cbn [non_propagatable_instrs_ computation_]. rewrite Hn.
  unfold members_in_order.
  replace (List.filter (fun i => bool_decide (i ∈ (∅ : gset nat)))
             (seq 0 (length (instructions (computation_ v))))) with (@nil nat).
  - reflexivity.
  - induction (seq 0 (length (instructions (computation_ v))))
      as [| i l IH]; [reflexivity |].
    cbn [List.filter]. rewrite bool_decide_eq_false_2 by set_solver.
    exact IH.
Qed.

Lemma run_visitor_flag limit fuel c changed v :
  run_visitor limit fuel c = OK (changed, v) ->
  changed = existsb (is_suitable_convolution limit c)
              (seq 0 (length (instructions c))) /\
  (changed = false -> v = new_visitor limit c).
Proof.
  intros E. unfold run_visitor, bindS in E.
  destruct (make_visitor limit c) as [v0 |] eqn:E0; [| discriminate].
  apply make_visitor_outcome in E0.
  destruct (List.filter (is_suitable_convolution limit c)
              (seq 0 (length (instructions c)))) as [| conv l] eqn:El.
  - rewrite Run_nothing in E by (subst v0; reflexivity).
    injection E as <- <-. subst v0. cbn. split; [| reflexivity].
    symmetry. apply not_true_is_false. intros Hex.
    apply existsb_exists in Hex as (i & Hi & Hs).
    assert (Hin : In i (List.filter (is_suitable_convolution limit c)
                          (seq 0 (length (instructions c)))))
      by (apply filter_In; tauto).
    rewrite El in Hin. destruct Hin.
  - assert (Hc : changed = true).
    { apply (Run_flag _ _ _ _ E). exists conv. subst v0. cbn.
      split; [now left | set_solver]. }
    subst changed. split; [| discriminate]. symmetry.
    apply existsb_exists. exists conv.
    apply (filter_In (is_suitable_convolution limit c)). rewrite El.
    now left.
Qed.

(** ** What [Propagate] answers *)

Ltac answer_step :=
  lazymatch goal with
  | |- hoare _ (bind (bind _ _) _) _ => apply hoare_bind_assoc
  | |- hoare _ (bind (let _ := _ in _) _) _ => cbv zeta
  | |- hoare _ (bind _ _) _ => apply hoare_after; intros ?; cbv beta
  | |- hoare _ (if ?b then _ else _) _ => destruct b
  | |- hoare _ (let _ := _ in _) _ => cbv zeta
  | |- hoare _ (ret _) _ => apply hoare_ret; intros ? ?; reflexivity
  end.

Lemma propagate_elementwise_answer consumer producer c :
  hoare (fun _ => True) (propagate_elementwise consumer producer c)
    (fun r _ => r = true).
Proof. unfold propagate_elementwise. repeat answer_step. Qed.

Lemma propagate_reduce_answer consumer c :
  hoare (fun _ => True) (propagate_reduce consumer c) (fun r _ => r = false).
Proof. unfold propagate_reduce. repeat answer_step. Qed.

Lemma propagate_windowed_answer consumer c :
  hoare (fun _ => True) (propagate_windowed consumer c) (fun r _ => r = true).
Proof. unfold propagate_windowed. repeat answer_step. Qed.

Lemma Propagate_answer consumer producer v r v' :
  Propagate consumer producer v = OK (r, v') ->
  exists c,
    instructions (computation_ v) !! consumer = Some c /\
    (IsTrivialElementwise c = true \/ reads_first_operand c = true) /\
    (r = false <->
     IsTrivialElementwise c = false /\
     (opcode c = kReduce \/
      opcode c = kConvolution /\
      IsConvSuitableForSpaceToBatch (limit_on_batch_size_ v) (computation_ v)
        c = OK false)).
Proof.
  intros E. unfold Propagate in E.
  apply bind_inv in E as (c & v0 & E0 & E).
  apply on_graph_deref_inv in E0 as [Hc ->]. exists c.
  split; [exact Hc |]. unfold reads_first_operand.
  destruct (IsTrivialElementwise c) eqn:Et.
  { rewrite (propagate_elementwise_answer _ _ _ _ _ _ Logic.I E).
    split; [now left |]. split; [discriminate | intros [? _]; discriminate]. }
  destruct (opcode_eqb (opcode c) kConvolution) eqn:Ec.
  { apply opcode_eqb_eq in Ec as Hop. split; [now right |].
    apply bind_inv in E as (limit & v0 & E0 & E). injection E0 as <- <-.
    apply bind_inv in E as (computation & v0 & E0 & E). injection E0 as <- <-.
    apply bind_inv in E as (suitable & v0 & E0 & E).
    apply lift_status_inv in E0 as [Es ->]. rewrite Es.
    destruct suitable.
    - apply bind_inv in E as (? & ? & _ & E). injection E as <- _.
      split; [discriminate |]. intros (_ & [Hr | [_ ?]]); [| discriminate].
      rewrite Hr in Hop. discriminate.
    - apply bind_inv in E as (? & ? & _ & E). injection E as <- _.
      split; [| reflexivity]. intros _. split; [reflexivity |]. now right. }
  destruct (opcode_eqb (opcode c) kReduce) eqn:Er.
  { apply opcode_eqb_eq in Er as Hop.
    rewrite (propagate_reduce_answer _ _ _ _ _ Logic.I E).
    split; [right; now rewrite orb_true_r |].
    split; [| reflexivity]. intros _. split; [reflexivity |]. now left. }
  destruct (opcode_eqb (opcode c) kReduceWindow
            || opcode_eqb (opcode c) kSelectAndScatter) eqn:Ew.
  { rewrite (propagate_windowed_answer _ _ _ _ _ Logic.I E).
    split; [right; cbn [orb]; exact Ew |].
    split; [discriminate |]. intros (_ & [Hop | [Hop _]]).
    - rewrite Hop in Er. discriminate.
    - rewrite Hop in Ec. discriminate. }
  apply lift_status_inv in E as [E _]. discriminate.
Qed.

Lemma Propagate_unsupported consumer producer v c :
  instructions (computation_ v) !! consumer = Some c ->
  IsTrivialElementwise c = false -> reads_first_operand c = false ->
  Propagate consumer producer v = Fail CheckFailure.
Proof.
  intros Hc Et Hr. unfold Propagate.
  rewrite (bind_OK _ _ _ _ _ (on_graph_deref _ _ _ Hc)). rewrite Et.
  unfold reads_first_operand in Hr.
  apply orb_false_iff in Hr as [Hr Hs]. apply orb_false_iff in Hr as [Hr Hw].
  apply orb_false_iff in Hr as [Hc' Hr]. rewrite Hc', Hr, Hw, Hs.
  reflexivity.
Qed.


(** ** The operands an elementwise rewrite looks up *)

#[global] Instance same_opcodes_reflexive : Reflexive same_opcodes.
Proof. intros c. apply same_opcodes_refl. Qed.

#[global] Instance same_opcodes_transitive : Transitive same_opcodes.
Proof.
  intros c1 c2 c3 H12 H23 i x Hx. destruct (H12 i x Hx) as (y & Hy & E).
  destruct (H23 i y Hy) as (z & Hz & E'). exists z. split; congruence.
Qed.

Lemma respects_weaken {S A} (R R' : S -> S -> Prop) (m : State S A) :
  (forall s s', R s s' -> R' s s') -> respects R m -> respects R' m.
Proof. intros H Hm s a s' E. apply H. exact (Hm s a s' E). Qed.

Lemma grows_same_opcodes c c' : grows c c' -> same_opcodes c c'.
Proof. intros [news ->]. apply stable_same_opcodes, same_opcodes_refl. Qed.

Lemma grows_MakeBroadcastHlo operand dims bounds :
  respects grows (MakeBroadcastHlo operand dims bounds).
Proof.
  unfold MakeBroadcastHlo.
  respects_tac; auto using grows_shape_of, grows_AddInstruction.
Qed.

Lemma grows_MakePadHlo operand value cfg :
  respects grows (MakePadHlo operand value cfg).
Proof.
  unfold MakePadHlo.
  respects_tac; auto using grows_shape_of, grows_AddInstruction.
Qed.

Lemma grows_CloneInstruction i : respects grows (CloneInstruction i).
Proof.
  unfold CloneInstruction.
  respects_tac; auto using grows_deref, grows_AddInstruction.
Qed.

Lemma opcodes_ReplaceOperandWithDifferentShape user k new_operand :
  respects same_opcodes (ReplaceOperandWithDifferentShape user k new_operand).
Proof.
  intros c a c' E. unfold ReplaceOperandWithDifferentShape in E.
  apply bind_inv in E as (x & c1 & E1 & E).
  pose proof (unchanged_deref _ _ _ _ E1) as <-.
  unfold deref, instr in E1.
  destruct (instructions c !! user) as [x' |] eqn:Ex; [| discriminate].
  injection E1 as <-.
  destruct ((k <? 0) || (operand_count x' <=? k)); [discriminate |].
  injection E as <- <-.
  apply operand_stable_same_opcodes; [apply same_opcodes_refl | exact Ex].
Qed.

Ltac opcodes_tac :=
  respects_tac;
  try first
    [ apply frame_on_graph;
      first [ apply opcodes_ReplaceOperandWithDifferentShape
            | apply (respects_weaken grows);
              [ exact grows_same_opcodes
              | first [ apply grows_deref | apply grows_shape_of
                      | apply grows_MakeReshapeHlo | apply grows_MakePadHlo
                      | apply grows_MakeBroadcastHlo
                      | apply grows_CloneInstruction
                      | apply grows_AddInstruction ] ] ]
    | apply frame_dim_map_index;
      first [exact Logic.I | typeclasses eauto]
    | apply frame_permute_map_index
    | apply frame_old_to_new_index
    | apply respects_gets ];
  side_conditions.

#[global] Instance frame_opcodes_reflexive :
  Reflexive (frame_but same_opcodes (fun _ => True)).
Proof. intros v. repeat split; reflexivity. Qed.

#[global] Instance frame_opcodes_transitive :
  Transitive (frame_but same_opcodes (fun _ => True)).
Proof.
  intros v1 v2 v3 (G1 & O1 & N1 & _) (G2 & O2 & N2 & _).
  split; [now transitivity (computation_ v2) |].
  split; [congruence |]. split; [congruence |]. intros k Hk.
  contradiction Hk. exact Logic.I.
Qed.

Lemma propagate_elementwise_operand_frame c nc producer i :
  respects (frame_but same_opcodes (fun _ => True))
    (propagate_elementwise_operand c nc producer i).
Proof. unfold propagate_elementwise_operand. opcodes_tac. Qed.

(** The operand is in the computation, it is no broadcast and it is not
    rewritten. *)
Lemma unrewritten_operand_kept o v v' :
  frame_but same_opcodes (fun _ => True) v v' ->
  old_to_new_instrs_ v !! o = None /\
  (exists x, instructions (computation_ v) !! o = Some x /\
             opcode_eqb (opcode x) kBroadcast = false) ->
  old_to_new_instrs_ v' !! o = None /\
  (exists x, instructions (computation_ v') !! o = Some x /\
             opcode_eqb (opcode x) kBroadcast = false).
Proof.
  intros (G & O & _) (Hnone & x & Hx & Hb). split; [now rewrite O |].
  destruct (G o x Hx) as (y & Hy & E). exists y. split; [exact Hy |].
  now rewrite E.
Qed.

Lemma propagate_elementwise_operand_checks c nc producer i o v r :
  operand c i = OK o ->
  old_to_new_instrs_ v !! o = None /\
  (exists x, instructions (computation_ v) !! o = Some x /\
             opcode_eqb (opcode x) kBroadcast = false) ->
  propagate_elementwise_operand c nc producer i v <> OK r.
Proof.
  intros Ho (Hnone & x & Hx & Hb) E. destruct r as [[] v'].
  unfold propagate_elementwise_operand in E. rewrite Ho in E.
  rewrite bind_lift_OK, (bind_OK _ _ _ _ _ (on_graph_deref _ _ _ Hx)), Hb in E.
  apply bind_inv in E as (rewritten & v0 & E0 & E). injection E0 as <- <-.
  rewrite Hnone, bool_decide_eq_false_2 in E
    by (intros [? ?]; discriminate).
  discriminate.
Qed.

Lemma propagate_elementwise_operands_check c nc producer i o l : forall v r,
  In i l -> operand c i = OK o ->
  old_to_new_instrs_ v !! o = None /\
  (exists x, instructions (computation_ v) !! o = Some x /\
             opcode_eqb (opcode x) kBroadcast = false) ->
  for_each l tt
    (fun i _ => propagate_elementwise_operand c nc producer i) v <> OK r.
Proof.
  induction l as [| j l IH]; intros v r Hin Ho Hv E; [destruct Hin |].
  destruct r as [[] v']. cbn [for_each] in E. apply bind_inv in E as ([] & v1 & E1 & E).
  destruct (Z.eq_dec j i) as [-> | Hne].
  - exact (propagate_elementwise_operand_checks _ _ _ _ _ _ _ Ho Hv E1).
  - destruct Hin as [? | Hin]; [contradiction |].
    apply (IH v1 (tt, v') Hin Ho); [| exact E].
    eapply unrewritten_operand_kept; [| exact Hv].
    exact (propagate_elementwise_operand_frame _ _ _ _ _ _ _ E1).
Qed.

Lemma choose_producer_frame c producer :
  respects (frame_but same_opcodes (fun _ => True))
    (choose_producer c producer).
Proof. unfold choose_producer. opcodes_tac. Qed.

Lemma operand_in_range c i o :
  operand c i = OK o -> In i (range (operand_count c)).
Proof.
  intros H. unfold operand in H. apply at_index_lookupZ_OK in H.
  unfold lookupZ in H. destruct (Z.ltb_spec i 0); [discriminate |].
  apply lookup_lt_Some in H. unfold range, operand_count.
  rewrite Nat2Z.id. apply in_map_iff. exists (Z.to_nat i).
  split; [lia |]. apply in_seq. lia.
Qed.

Lemma Propagate_checks_operands consumer producer v c i o x r :
  instructions (computation_ v) !! consumer = Some c ->
  IsTrivialElementwise c = true ->
  operand c i = OK o ->
  instructions (computation_ v) !! o = Some x ->
  opcode_eqb (opcode x) kBroadcast = false ->
  old_to_new_instrs_ v !! o = None ->
  Propagate consumer producer v <> OK r.
Proof.
  intros Hc Et Ho Hx Hb Hnone E. destruct r as [r v'].
  unfold Propagate in E.
  rewrite (bind_OK _ _ _ _ _ (on_graph_deref _ _ _ Hc)), Et in E.
  unfold propagate_elementwise in E.
  assert (H0 : old_to_new_instrs_ v !! o = None /\
               (exists x, instructions (computation_ v) !! o = Some x /\
                          opcode_eqb (opcode x) kBroadcast = false))
    by eauto.
  apply bind_inv in E as (dim_map_val & v1 & E1 & E).
  assert (H1 : frame_but same_opcodes (fun _ => True) v v1).
  { revert E1. generalize v dim_map_val v1.
    change (respects (frame_but same_opcodes (fun _ => True))
              (dim_map_index producer)).
    opcodes_tac. }
  apply (unrewritten_operand_kept o _ _ H1) in H0.
  apply bind_inv in E as (new_consumer & v2 & E2 & E).
  assert (H2 : frame_but same_opcodes (fun _ => True) v1 v2).
  { revert E2. generalize v1 new_consumer v2.
    change (respects (frame_but same_opcodes (fun _ => True))
              (on_graph (CloneInstruction consumer))).
    opcodes_tac. }
  apply (unrewritten_operand_kept o _ _ H2) in H0.
  apply bind_inv in E as (producer' & v3 & E3 & E).
  assert (H3 : frame_but same_opcodes (fun _ => True) v2 v3).
  { destruct (IsElementwiseBinary c).
    - exact (choose_producer_frame _ _ _ _ _ E3).
    - injection E3 as <- <-. reflexivity. }
  apply (unrewritten_operand_kept o _ _ H3) in H0.
  apply bind_inv in E as ([] & v4 & E4 & _).
  exact (propagate_elementwise_operands_check _ _ _ _ _ _ _ _
           (operand_in_range _ _ _ Ho) Ho H0 E4).
Qed.

(** ** Readiness needs a rewritten operand 0 *)

Lemma first_operands_rewritten_none v u o ops n :
  operands u = o :: ops -> old_to_new_instrs_ v !! o = None -> 1 <= n ->
  first_operands_rewritten u n v = OK (false, v).
Proof.
  intros Hu Ho Hn. rewrite first_operands_rewritten_run, Hu.
  replace (Z.to_nat n) with (S (Z.to_nat n - 1)) by lia.
  cbn [take forallb]. now rewrite Ho.
Qed.

Lemma CanPropagate_needs_operand_0 v consumer producer u o ops ready v2 :
  instructions (computation_ v) !! consumer = Some u ->
  IsTrivialElementwise u = false -> reads_first_operand u = true ->
  operands u = o :: ops ->
  old_to_new_instrs_ v !! o = None ->
  CanPropagate consumer producer v = OK (ready, v2) ->
  ready = false /\ v2 = v.
Proof.
  intros Hu Et Hr Eo Hnone E.
  unfold CanPropagate in E.
  rewrite (bind_OK _ _ _ _ _ (on_graph_deref _ _ _ Hu)) in E.
  rewrite Et in E.
  rewrite (bind_OK _ _ _ _ _ (eq_refl : ret true v = OK (true, v))) in E.
  cbn [negb] in E.
  destruct (opcode_eqb (opcode u) kConvolution) eqn:Ec.
  { apply bind_inv in E as (limit & v0 & [= <- <-] & E).
    apply bind_inv in E as (computation & v0 & [= <- <-] & E).
    apply bind_inv in E as (suitable & v0 & E0 & E).
    apply lift_status_inv in E0 as [_ ->].
    destruct suitable.
    - rewrite (first_operands_rewritten_none v u o ops 1 Eo Hnone) in E
        by lia.
      now injection E as <- <-.
    - apply bind_inv in E as (w & v0 & E0 & E).
      apply lift_status_inv in E0 as [_ ->].
      destruct (negb (stride w =? 1)); [now injection E as <- <- |].
      rewrite Eo in E. cbn [loop_while] in E.
      apply bind_inv in E as (batched & v0 & E1 & E).
      apply bind_inv in E1 as (go_on & v3 & E1 & E3).
      apply bind_inv in E1 as (rw & v4 & E1 & E4).
      unfold old_to_new_contains, gets in E1. injection E1 as <- <-.
      rewrite Hnone in E4.
      rewrite bool_decide_eq_false_2 in E4 by (intros [? ?]; discriminate).
      injection E4 as <- <-. injection E3 as <- <-.
      now injection E as <- <-. }
  unfold reads_first_operand in Hr. rewrite Ec in Hr. cbn [orb] in Hr.
  destruct (opcode_eqb (opcode u) kReduceWindow
            || opcode_eqb (opcode u) kReduce) eqn:Erw.
  { rewrite (bind_OK _ _ _ _ _
               (first_operands_rewritten_none v u o ops 1 Eo Hnone
                  ltac:(lia))) in E.
    now injection E as <- <-. }
  rewrite (bind_OK _ _ _ _ _ (eq_refl : ret true v = OK (true, v))) in E.
  cbn [negb] in E.
  apply orb_false_iff in Erw as [Erw Ered]. rewrite Ered, Erw in Hr.
  cbn [orb] in Hr. rewrite Hr in E.
  destruct (negb (MatchAddOfParameters (scatter u)));
    [now injection E as <- <- |].
  rewrite (bind_OK _ _ _ _ _
             (first_operands_rewritten_none v u o ops 2 Eo Hnone
                ltac:(lia))) in E.
  now injection E as <- <-.
Qed.

(** ** Readiness of an elementwise consumer *)

#[global] Instance frame_eq_reflexive :
  Reflexive (frame_but eq (fun _ => True)).
Proof. intros v. repeat split; reflexivity. Qed.

#[global] Instance frame_eq_transitive :
  Transitive (frame_but eq (fun _ => True)).
Proof.
  intros v1 v2 v3 (G1 & O1 & N1 & _) (G2 & O2 & N2 & _).
  split; [congruence |]. split; [congruence |]. split; [congruence |].
  intros k Hk. contradiction Hk. exact Logic.I.
Qed.

Ltac reads_tac :=
  respects_tac;
  try first
    [ apply frame_on_graph;
      first [ apply unchanged_deref | apply unchanged_shape_of ]
    | apply frame_dim_map_index;
      first [exact Logic.I | typeclasses eauto]
    | apply frame_permute_map_index
    | apply frame_old_to_new_index
    | apply respects_gets ];
  side_conditions.

Lemma IsBroadcastPropagatable_reads b o :
  respects (frame_but eq (fun _ => True)) (IsBroadcastPropagatable b o).
Proof. unfold IsBroadcastPropagatable. reads_tac. Qed.

Lemma elementwise_operands_ready_reads c producer ops : forall pivot,
  respects (frame_but eq (fun _ => True))
    (elementwise_operands_ready c producer ops pivot).
Proof.
  induction ops as [| o ops IH]; intros pivot;
    cbn [elementwise_operands_ready]; reads_tac;
    auto using IsBroadcastPropagatable_reads.
Qed.

Lemma respects_hoare {S A} (R : S -> S -> Prop) `{!Transitive R}
    (m : State S A) s0 :
  respects R m -> hoare (R s0) m (fun _ s => R s0 s).
Proof. intros Hm s a s' Hs E. transitivity s; [exact Hs | exact (Hm _ _ _ E)]. Qed.

Ltac sound_step :=
  lazymatch goal with
  | |- hoare _ (elementwise_operands_ready _ _ _ _) _ =>
      let Hw := fresh in let Ew := fresh in
      intros ? ? ? Hw Ew ?; subst;
      match goal with
      | Hrest : forall _ _ _, _ -> _ -> Forall _ _ |- _ =>
          exact (Hrest _ _ _ Hw Ew)
      end
  | |- hoare _ (bind (lift_status _) _) _ =>
      apply lift_hoare_bind; intros ? ?
  | |- hoare _ (bind _ _) _ =>
      eapply hoare_bind;
      [ apply respects_hoare; [typeclasses eauto | solve [reads_tac] ]
      | intros ?; cbv beta ]
  | |- hoare _ (if ?b then _ else _) _ => destruct b
  | |- hoare _ (match ?x with _ => _ end) _ => destruct x
  | |- hoare _ (ret false) _ =>
      apply hoare_ret; intros; discriminate
  end.

Lemma elementwise_operands_ready_sound c producer ops : forall pivot v v',
  elementwise_operands_ready c producer ops pivot v = OK (true, v') ->
  Forall (fun o =>
            is_Some (old_to_new_instrs_ v !! o) \/
            exists x, instructions (computation_ v) !! o = Some x /\
                      (opcode x = kConstant \/ opcode x = kBroadcast)) ops.
Proof.
  induction ops as [| o ops IH]; intros pivot v v' E; [constructor |].
  cbn [elementwise_operands_ready] in E.
  apply bind_inv in E as (op & v0 & E0 & E).
  apply on_graph_deref_inv in E0 as [Hop ->].
  apply bind_inv in E as (boc & v1 & E1 & E).
  assert (H1 : frame_but eq (fun _ => True) v v1).
  { destruct (opcode_eqb (opcode op) kConstant);
      [injection E1 as _ <-; reflexivity |].
    destruct (opcode_eqb (opcode op) kBroadcast);
      [| injection E1 as _ <-; reflexivity].
    exact (IsBroadcastPropagatable_reads _ _ _ _ _ E1). }
  assert (Hboc : boc = true ->
                 opcode op = kConstant \/ opcode op = kBroadcast).
  { intros ->.
    destruct (opcode_eqb (opcode op) kConstant) eqn:Ec;
      [left; now apply opcode_eqb_eq |].
    destruct (opcode_eqb (opcode op) kBroadcast) eqn:Eb;
      [right; now apply opcode_eqb_eq |].
    now injection E1. }
  clear E1.
  apply bind_inv in E as (rewritten & v0 & E0 & E). injection E0 as <- <-.
  destruct H1 as (G1 & O1 & _).
  assert (Hrest : forall pivot' w w',
    frame_but eq (fun _ => True) v1 w ->
    elementwise_operands_ready c producer ops pivot' w = OK (true, w') ->
    Forall (fun o =>
              is_Some (old_to_new_instrs_ v !! o) \/
              exists x, instructions (computation_ v) !! o = Some x /\
                        (opcode x = kConstant \/ opcode x = kBroadcast))
      ops).
  { intros pivot' w w' (G & O & _) Ew. apply IH in Ew.
    rewrite O, O1, <- G, <- G1 in Ew. exact Ew. }
  clear IH.
  constructor.
  { destruct (bool_decide_reflect (is_Some (old_to_new_instrs_ v1 !! o)))
      as [Hsome | Hnone]; [left; now rewrite <- O1 |].
    right. exists op. split; [exact Hop |]. apply Hboc.
    destruct boc; [reflexivity | discriminate]. }
  revert E.
  generalize (bool_decide (is_Some (old_to_new_instrs_ v1 !! o))).
  intros rewritten E.
  match type of E with
  | ?m v1 = _ =>
      cut (hoare (frame_but eq (fun _ => True) v1) m
             (fun r _ =>
                r = true ->
                Forall (fun o =>
                          is_Some (old_to_new_instrs_ v !! o) \/
                          exists x,
                            instructions (computation_ v) !! o = Some x /\
                            (opcode x = kConstant \/ opcode x = kBroadcast))
                  ops))
  end.
  { intros H. exact (H v1 true v' ltac:(reflexivity) E eq_refl). }
  repeat sound_step.
Qed.

Lemma CanPropagate_ready consumer producer v u v' :
  instructions (computation_ v) !! consumer = Some u ->
  CanPropagate consumer producer v = OK (true, v') ->
  (IsTrivialElementwise u = true ->
   Forall (fun o =>
             is_Some (old_to_new_instrs_ v !! o) \/
             exists x, instructions (computation_ v) !! o = Some x /\
                       (opcode x = kConstant \/ opcode x = kBroadcast))
     (operands u)) /\
  (IsTrivialElementwise u = false -> reads_first_operand u = true ->
   forall o ops, operands u = o :: ops ->
                 is_Some (old_to_new_instrs_ v !! o)).
Proof.
  intros Hu E. split.
  - intros Et. unfold CanPropagate in E.
    rewrite (bind_OK _ _ _ _ _ (on_graph_deref _ _ _ Hu)), Et in E.
    apply bind_inv in E as (ready & v1 & E1 & E).
    destruct ready; [| now injection E].
    exact (elementwise_operands_ready_sound _ _ _ _ _ _ E1).
  - intros Et Hr o ops Eo.
    destruct (old_to_new_instrs_ v !! o) as [n |] eqn:Hn; [now exists n |].
    destruct (CanPropagate_needs_operand_0 _ _ _ _ _ _ _ _ Hu Et Hr Eo Hn E).
    discriminate.
Qed.


(** * Further properties of the pass *)

(** ** The worklist of [PropagateOnUsers] *)

(** X1: the [while] loop of [PropagateOnUsers] comes to its end.  For a
    visitor whose tables keep to the instructions the computation had when
    the visitor was made ([n0] of them, fewer than 2^62) and a convolution
    among these, the loop started on the convolution empties its worklist
    within [(n0 + 1)^2 + 1] iterations: with that much fuel the run of the
    iterations has an outcome, the loop on fuel returns it, and a
    successful outcome leaves a visitor of the same kind in which every
    instruction that was rewritten still is. *)
Theorem worklist_comes_to_its_end n0 fuel old_conv parent v :
  propagation_invariant n0 v = true ->
  (old_conv < n0)%nat ->
  Z.of_nat n0 < 2 ^ 62 ->
  ((n0 + 1) * (n0 + 1) < fuel)%nat ->
  exists r,
    propagation_run fuel [(old_conv, parent)] 0 v = Some r /\
    propagation_loop fuel [(old_conv, parent)] 0 v = r /\
    forall v', r = OK (tt, v') ->
      propagation_invariant n0 v' = true /\ more_rewritten v v'.
Proof. apply worklist_loop_ends. Qed.

Lemma worklist_comes_to_its_end_witness :
  exists r,
    propagation_run 50 [(2%nat, 0%nat)] 0 example_rewritten = Some r /\
    propagation_loop 50 [(2%nat, 0%nat)] 0 example_rewritten = r /\
    forall v', r = OK (tt, v') ->
      propagation_invariant 6 v' = true /\ more_rewritten example_rewritten v'.
Proof.
  apply (worklist_comes_to_its_end 6 50 2 0 example_rewritten).
  - vm_compute. reflexivity.
  - lia.
  - lia.
  - cbn. lia.
Defined.

(** X2: a user of a node that the pass itself has made is never put on the
    worklist: for a node the computation had at the start and a user made
    since, [propagate_to_user] returns the worklist as it was. *)
Theorem pass_made_user_is_not_enqueued n0 v node user worklist worklist' v' :
  propagation_invariant n0 v = true ->
  (node < n0)%nat -> (n0 <= user)%nat ->
  is_user (computation_ v) node user = true ->
  propagate_to_user node user worklist v = OK (worklist', v') ->
  worklist' = worklist.
Proof.
  intros Hv Hnode Huser Hu E. apply propagation_invariant_spec in Hv.
  assert (Hin : In user (users (computation_ v) node)).
  { unfold users. apply filter_In. split; [| exact Hu]. apply in_seq.
    unfold is_user in Hu.
    destruct (instructions (computation_ v) !! user) eqn:Ex;
      [| discriminate].
    apply lookup_lt_Some in Ex. lia. }
  pose proof (users_facts n0 _ v node Hv Hnode) as Hfacts.
  rewrite Forall_forall in Hfacts.
  destruct (Hfacts user (proj2 (list_elem_of_In _ _) Hin)) as (x & Hx & Hnew).
  assert (Hv0 : visitor_invariant n0 (fun _ => False)
                  (same_opcodes (computation_ v)) v).
  { eapply visitor_invariant_weaken; [exact Hv | apply same_opcodes_refl]. }
  destruct (propagate_to_user_pushes n0 _ _ _ _ _ _ _ _ Hv0 Hx Hnew E)
    as [_ [-> | [_ Hlt]]]; [reflexivity | lia].
Qed.

Lemma pass_made_user_is_not_enqueued_witness :
  propagate_to_user 1 11 [(4%nat, 2%nat)] example_rewritten
  = OK ([(4%nat, 2%nat)],
        final_state (propagate_to_user 1 11 [(4%nat, 2%nat)] example_rewritten)
          example_rewritten) /\
  [(4%nat, 2%nat)] = [(4%nat, 2%nat)].
Proof.
  split; [vm_compute; reflexivity |].
  apply (pass_made_user_is_not_enqueued 6 example_rewritten 1 11
           [(4%nat, 2%nat)] [(4%nat, 2%nat)]
           (final_state
              (propagate_to_user 1 11 [(4%nat, 2%nat)] example_rewritten)
              example_rewritten)).
  - vm_compute. reflexivity.
  - lia.
  - lia.
  - vm_compute. reflexivity.
  - vm_compute. reflexivity.
Defined.

(** ** The visitor and its run *)

(** X3: the tables of the visitor keep to their sides of the computation.
    After a successful run of the visitor on a computation of [n0]
    instructions (fewer than 2^62), every instruction with a rewritten form
    in [old_to_new_instrs_] is one of these [n0], every rewritten form and
    every batch-to-space result is an instruction made by the pass, and of
    the instructions made by the pass an elementwise one has operands made
    by the pass only, and a convolution, reduce, reduce-window or
    select-and-scatter has an operand 0 made by the pass. *)
Theorem visitor_keeps_its_tables limit fuel computation changed v :
  Z.of_nat (length (instructions computation)) < 2 ^ 62 ->
  run_visitor limit fuel computation = OK (changed, v) ->
  propagation_invariant (length (instructions computation)) v = true.
Proof. apply run_visitor_outcome. Qed.

Lemma visitor_keeps_its_tables_witness :
  propagation_invariant (length (instructions example_unsupported_user))
    (final_state
       (run_visitor 8 50 example_unsupported_user)
       (new_visitor 8 example_unsupported_user)) = true.
Proof.
  apply (visitor_keeps_its_tables 8 50 example_unsupported_user true).
  - vm_compute. reflexivity.
  - vm_compute. reflexivity.
Defined.





(** X6: the visitor answers that it has changed the computation exactly
    when the computation has a convolution that
    [IsConvSuitableForSpaceToBatch] accepts; when it answers that it has
    not, it leaves the computation as it was and its tables empty. *)
Theorem visitor_changes_iff_a_convolution_is_suitable limit fuel computation
    changed v :
  run_visitor limit fuel computation = OK (changed, v) ->
  changed = existsb (is_suitable_convolution limit computation)
              (seq 0 (length (instructions computation))) /\
  (changed = false -> v = new_visitor limit computation).
Proof. apply run_visitor_flag. Qed.

Lemma visitor_changes_iff_a_convolution_is_suitable_witness :
  true = existsb (is_suitable_convolution 8 example_unsupported_user)
           (seq 0 (length (instructions example_unsupported_user))) /\
  (true = false ->
   final_state (run_visitor 8 50 example_unsupported_user)
     (new_visitor 8 example_unsupported_user)
   = new_visitor 8 example_unsupported_user).
Proof.
  apply (visitor_changes_iff_a_convolution_is_suitable 8 50
           example_unsupported_user).
  vm_compute. reflexivity.
Defined.

(** ** [Propagate] *)

(** X7: a successful [Propagate] records a rewritten form of its consumer
    in [old_to_new_instrs_] and takes no instruction out of that table. *)
Theorem Propagate_rewrites_its_consumer consumer producer v r v' :
  Propagate consumer producer v = OK (r, v') ->
  dom (old_to_new_instrs_ v) ∪ {[ consumer ]} ⊆ dom (old_to_new_instrs_ v').
Proof.
  intros E. apply union_subseteq. split.
  - exact (grows_Propagate _ _ _ _ _ E).
  - apply singleton_subseteq_l.
    exact (Propagate_records _ _ _ _ _ Logic.I E).
Qed.

Lemma Propagate_rewrites_its_consumer_witness :
  dom (old_to_new_instrs_ example_rewritten) ∪ {[ 4%nat ]}
  ⊆ dom (old_to_new_instrs_
           (final_state (Propagate 4 2 example_rewritten) example_rewritten)).
Proof.
  apply (Propagate_rewrites_its_consumer 4 2 example_rewritten true).
  vm_compute. reflexivity.
Defined.

(** X8: [Propagate] succeeds only on a consumer that is elementwise, a
    convolution, a reduce, a reduce-window or a select-and-scatter, and it
    answers that no further propagation is needed exactly for a reduce and
    for a convolution that [IsConvSuitableForSpaceToBatch] does not
    accept. *)
Theorem Propagate_answers consumer producer v r v' :
  Propagate consumer producer v = OK (r, v') ->
  exists c,
    instructions (computation_ v) !! consumer = Some c /\
    (IsTrivialElementwise c = true \/ reads_first_operand c = true) /\
    (r = false <->
     IsTrivialElementwise c = false /\
     (opcode c = kReduce \/
      opcode c = kConvolution /\
      IsConvSuitableForSpaceToBatch (limit_on_batch_size_ v) (computation_ v)
        c = OK false)).
Proof. apply Propagate_answer. Qed.

Lemma Propagate_answers_witness :
  exists c,
    instructions (computation_ example_rewritten) !! 4%nat = Some c /\
    (IsTrivialElementwise c = true \/ reads_first_operand c = true) /\
    (true = false <->
     IsTrivialElementwise c = false /\
     (opcode c = kReduce \/
      opcode c = kConvolution /\
      IsConvSuitableForSpaceToBatch (limit_on_batch_size_ example_rewritten)
        (computation_ example_rewritten) c = OK false)).
Proof.
  apply (Propagate_answers 4 2 example_rewritten true
           (final_state (Propagate 4 2 example_rewritten) example_rewritten)).
  vm_compute. reflexivity.
Defined.

(** X9: on a consumer of any other kind [Propagate] aborts. *)
Theorem Propagate_aborts_on_other_consumers consumer producer v c :
  instructions (computation_ v) !! consumer = Some c ->
  IsTrivialElementwise c = false -> reads_first_operand c = false ->
  Propagate consumer producer v = Fail CheckFailure.
Proof. apply Propagate_unsupported. Qed.

Lemma Propagate_aborts_on_other_consumers_witness :
  Propagate 3 2 example_rewritten = Fail CheckFailure.
Proof.
  apply (Propagate_aborts_on_other_consumers 3 2 example_rewritten
           (make_instruction kTranspose (f32 [14; 2; 4]) [2%nat])).
  - vm_compute. reflexivity.
  - reflexivity.
  - reflexivity.
Defined.

(** X10: [Propagate] does not succeed on an elementwise consumer that has
    an operand which is no broadcast and has no rewritten form in
    [old_to_new_instrs_]: the rewrite of the operands CHECKs the table for
    each of them.  A constant is such an operand, and [CanPropagate] lets
    it pass. *)
Theorem Propagate_aborts_on_an_operand_not_rewritten consumer producer v c i o
    x r :
  instructions (computation_ v) !! consumer = Some c ->
  IsTrivialElementwise c = true ->
  operand c i = OK o ->
  instructions (computation_ v) !! o = Some x ->
  opcode_eqb (opcode x) kBroadcast = false ->
  old_to_new_instrs_ v !! o = None ->
  Propagate consumer producer v <> OK r.
Proof. apply Propagate_checks_operands. Qed.

Lemma Propagate_aborts_on_an_operand_not_rewritten_witness :
  CanPropagate 4 2 (visitor_after_rewrite 8 example_constant_operand 2)
  = OK (true, visitor_after_rewrite 8 example_constant_operand 2) /\
  Propagate 4 2 (visitor_after_rewrite 8 example_constant_operand 2)
  <> OK (true, visitor_after_rewrite 8 example_constant_operand 2).
Proof.
  split; [vm_compute; reflexivity |].
  apply (Propagate_aborts_on_an_operand_not_rewritten 4 2
           (visitor_after_rewrite 8 example_constant_operand 2)
           (make_instruction kAdd (f32 [2; 14; 4]) [2%nat; 3%nat])
           1 3%nat (make_instruction kConstant (f32 [2; 14; 4]) [])).
  - vm_compute. reflexivity.
  - reflexivity.
  - reflexivity.
  - vm_compute. reflexivity.
  - reflexivity.
  - vm_compute. reflexivity.
Defined.

(** ** The readiness checks *)

(** X11: a consumer that [CanPropagate] finds ready has the rewritten
    operands its rewrite will look up: every operand of an elementwise
    consumer is rewritten, a constant or a broadcast, and operand 0 of a
    convolution, reduce, reduce-window or select-and-scatter is
    rewritten. *)
Theorem ready_consumer_has_rewritten_operands consumer producer v u v' :
  instructions (computation_ v) !! consumer = Some u ->
  CanPropagate consumer producer v = OK (true, v') ->
  (IsTrivialElementwise u = true ->
   Forall (fun o =>
             is_Some (old_to_new_instrs_ v !! o) \/
             exists x, instructions (computation_ v) !! o = Some x /\
                       (opcode x = kConstant \/ opcode x = kBroadcast))
     (operands u)) /\
  (IsTrivialElementwise u = false -> reads_first_operand u = true ->
   forall o ops, operands u = o :: ops ->
                 is_Some (old_to_new_instrs_ v !! o)).
Proof. apply CanPropagate_ready. Qed.

Lemma ready_consumer_has_rewritten_operands_witness :
  (IsTrivialElementwise (make_instruction kNegate (f32 [2; 14; 4]) [2%nat])
   = true ->
   Forall (fun o =>
             is_Some (old_to_new_instrs_ example_rewritten !! o) \/
             exists x,
               instructions (computation_ example_rewritten) !! o = Some x /\
               (opcode x = kConstant \/ opcode x = kBroadcast))
     (operands (make_instruction kNegate (f32 [2; 14; 4]) [2%nat]))) /\
  (IsTrivialElementwise (make_instruction kNegate (f32 [2; 14; 4]) [2%nat])
   = false ->
   reads_first_operand (make_instruction kNegate (f32 [2; 14; 4]) [2%nat])
   = true ->
   forall o ops,
     operands (make_instruction kNegate (f32 [2; 14; 4]) [2%nat]) = o :: ops ->
     is_Some (old_to_new_instrs_ example_rewritten !! o)).
Proof.
  apply (ready_consumer_has_rewritten_operands 4 2 example_rewritten
           (make_instruction kNegate (f32 [2; 14; 4]) [2%nat])
           example_rewritten).
  - vm_compute. reflexivity.
  - vm_compute. reflexivity.
Defined.

(** X12: [SupportedOpForPropagation] accepts no consumer but an
    elementwise one, a convolution, a reduce, a reduce-window or a
    select-and-scatter. *)
Theorem supported_consumers consumer producer v u v1 :
  instructions (computation_ v) !! consumer = Some u ->
  SupportedOpForPropagation consumer producer v = OK (true, v1) ->
  IsTrivialElementwise u = true \/ reads_first_operand u = true.
Proof. apply SupportedOpForPropagation_class. Qed.

Lemma supported_consumers_witness :
  IsTrivialElementwise (make_instruction kNegate (f32 [2; 14; 4]) [2%nat])
  = true \/
  reads_first_operand (make_instruction kNegate (f32 [2; 14; 4]) [2%nat])
  = true.
Proof.
  apply (supported_consumers 4 2 example_rewritten
           (make_instruction kNegate (f32 [2; 14; 4]) [2%nat])
           example_rewritten).
  - vm_compute. reflexivity.
  - vm_compute. reflexivity.
Defined.

(** X13: [SupportedOpForPropagation] leaves the computation, the rewritten
    instructions and the instructions marked as non-propagatable as they
    are; of the (batch, space) dimensions recorded it can touch those of
    operand 0 of the consumer only. *)
Theorem SupportedOpForPropagation_reads consumer producer v c b v1 :
  instructions (computation_ v) !! consumer = Some c ->
  SupportedOpForPropagation consumer producer v = OK (b, v1) ->
  frame_but eq (fun k => operand c 0 = OK k) v v1.
Proof. apply SupportedOpForPropagation_frame. Qed.

Lemma SupportedOpForPropagation_reads_witness :
  frame_but eq
    (fun k =>
       operand (make_instruction kTranspose (f32 [14; 2; 4]) [2%nat]) 0
       = OK k)
    example_rewritten example_rewritten.
Proof.
  apply (SupportedOpForPropagation_reads 3 2 example_rewritten
           (make_instruction kTranspose (f32 [14; 2; 4]) [2%nat]) false).
  - vm_compute. reflexivity.
  - vm_compute. reflexivity.
Defined.

(** ** [BatchToSpace] *)

(** X14: [BatchToSpace] changes no instruction of the computation, it only
    adds instructions at its end; it leaves the rewritten instructions and
    the instructions marked as non-propagatable as they are, and of the
    (batch, space) dimensions recorded it can touch those of its argument
    only. *)
Theorem BatchToSpace_only_adds old_instr v b v' :
  BatchToSpace old_instr v = OK (b, v') ->
  frame_but grows (eq old_instr) v v'.
Proof. apply BatchToSpace_frame. Qed.

Lemma BatchToSpace_only_adds_witness :
  frame_but grows (eq 2%nat) example_rewritten
    (final_state (BatchToSpace 2 example_rewritten) example_rewritten).
Proof.
  apply (BatchToSpace_only_adds 2 example_rewritten 20%nat).
  vm_compute. reflexivity.
Defined.

(** X15: [BatchToSpace] keeps its result: a second call for the same
    instruction returns the instruction that the first call returned, and
    changes nothing. *)
Theorem BatchToSpace_twice old_instr v b v' :
  BatchToSpace old_instr v = OK (b, v') ->
  BatchToSpace old_instr v' = OK (b, v').
Proof. apply BatchToSpace_again. Qed.

Lemma BatchToSpace_twice_witness :
  BatchToSpace 2
    (final_state (BatchToSpace 2 example_rewritten) example_rewritten)
  = OK (20%nat,
        final_state (BatchToSpace 2 example_rewritten) example_rewritten).
Proof.
  apply (BatchToSpace_twice 2 example_rewritten 20%nat).
  vm_compute. reflexivity.
Defined.

(** X16: [BatchToSpace] does not succeed for an instruction that has
    neither a batch-to-space result in [batch_to_space_map_] nor a
    rewritten form in [old_to_new_instrs_]. *)
Theorem BatchToSpace_needs_a_rewritten_instruction old_instr v r :
  batch_to_space_map_ v !! old_instr = None ->
  old_to_new_instrs_ v !! old_instr = None ->
  BatchToSpace old_instr v <> OK r.
Proof. apply BatchToSpace_needs_rewritten. Qed.

Lemma BatchToSpace_needs_a_rewritten_instruction_witness :
  BatchToSpace 4 example_rewritten <> OK (0%nat, example_rewritten).
Proof.
  apply (BatchToSpace_needs_a_rewritten_instruction 4 example_rewritten).
  - vm_compute. reflexivity.
  - vm_compute. reflexivity.
Defined.

(** ** The rewrite of a convolution *)

(** X17: what [DoesConvolutionFeedReduceWindow] finds is a reduce-window
    that the instruction feeds: it is reached from the instruction through
    a chain of users shorter than the depth of the search, and no user on
    the chain before it is a reduce-window, a convolution, a pad or a
    transpose. *)
Theorem reduce_window_found_is_fed depth c i r :
  DoesConvolutionFeedReduceWindow depth c i = Some r ->
  exists path u,
    user_chain c i (path ++ [r]) /\
    (length path < depth)%nat /\
    Forall (searched_through c) path /\
    instructions c !! r = Some u /\ opcode u = kReduceWindow.
Proof. apply DoesConvolutionFeedReduceWindow_found. Qed.

Lemma reduce_window_found_is_fed_witness :
  exists path u,
    user_chain example_pooling 2 (path ++ [4%nat]) /\
    (length path < 10)%nat /\
    Forall (searched_through example_pooling) path /\
    instructions example_pooling !! 4%nat = Some u /\
    opcode u = kReduceWindow.
Proof.
  apply (reduce_window_found_is_fed 10 example_pooling 2 4).
  vm_compute. reflexivity.
Defined.

(** X18: after [BringSpaceNextToBatch] the spatial dimension to split is
    the one after the batch dimension, and the dimension numbers have that
    batch dimension.  When the two were next to each other already, the
    activations and the computation are returned as they are; otherwise
    the activations returned are a transpose of the activations, the one
    instruction added to the computation. *)
Theorem space_is_brought_next_to_batch activations dnums sd bd c
    a' numbers sd' bd' c' :
  BringSpaceNextToBatch activations dnums sd bd c
  = OK ((a', numbers, sd', bd'), c') ->
  sd' = (bd' + 1)%i64 /\
  input_batch_dimension numbers = bd' /\
  (if sd =? (bd + 1)%i64
   then a' = activations /\ c' = c /\ bd' = bd
   else a' = length (instructions c) /\
        exists t, c' = extend c [t] /\ opcode t = kTranspose /\
                  operands t = [activations]).
Proof. apply BringSpaceNextToBatch_outcome. Qed.

Lemma space_is_brought_next_to_batch_witness :
  2 = (1 + 1)%i64 /\
  input_batch_dimension
    (set_input_batch_dimension 1
       (set_input_feature_dimension 0 dnums_bf01)) = 1 /\
  (if 2 =? (0 + 1)%i64
   then 5%nat = 0%nat /\
        final_state (BringSpaceNextToBatch 0 dnums_bf01 2 0 example_pooling)
          example_pooling = example_pooling /\ 1 = 0
   else 5%nat = length (instructions example_pooling) /\
        exists t,
          final_state (BringSpaceNextToBatch 0 dnums_bf01 2 0 example_pooling)
            example_pooling = extend example_pooling [t] /\
          opcode t = kTranspose /\ operands t = [0%nat]).
Proof.
  apply (space_is_brought_next_to_batch 0 dnums_bf01 2 0 example_pooling).
  vm_compute. reflexivity.
Defined.


(** ** The rewrites change no instruction that is there *)

Lemma kept_graph_refl c : kept_graph c c.
Proof. split; auto. Qed.

Lemma kept_graph_length c0 c :
  kept_graph c0 c -> (length (instructions c0) <= length (instructions c))%nat.
Proof.
  intros [_ H]. destruct (instructions c0) as [| x l] eqn:E using rev_ind;
    [cbn; lia |].
  specialize (H (length l) x). rewrite lookup_app_r, Nat.sub_diag in H by lia.
  specialize (H eq_refl). apply lookup_lt_Some in H.
  rewrite length_app. cbn. lia.
Qed.

Lemma kept_graph_extend c0 c news :
  kept_graph c0 c -> kept_graph c0 (extend c news).
Proof.
  intros [Hr H]. split; [exact Hr |]. intros i x Hx.
  now apply extend_lookup_old, H.
Qed.

Lemma kept_graph_update c0 c i x :
  kept_graph c0 c -> (length (instructions c0) <= i)%nat ->
  kept_graph c0 (update_instruction i x c).
Proof.
  intros [Hr H] Hi. split; [exact Hr |]. intros j y Hy. cbn.
  apply lookup_lt_Some in Hy as Hlt.
  rewrite list_lookup_insert_ne by lia. now apply H.
Qed.

Section kept_graph_rules.
Variable c0 : HloComputation.

Lemma kept_deref i : keeps (kept_graph c0) (deref i) (fun _ => True).
Proof. intros c a c' Hc E. apply unchanged_deref in E as ->. auto. Qed.

Lemma kept_shape_of i : keeps (kept_graph c0) (shape_of i) (fun _ => True).
Proof. intros c a c' Hc E. apply unchanged_shape_of in E as ->. auto. Qed.

Lemma kept_AddInstruction x :
  keeps (kept_graph c0) (AddInstruction x)
    (fun r => (length (instructions c0) <= r)%nat).
Proof.
  intros c a c' Hc [= <- <-]. split.
  - exact (kept_graph_extend c0 c [x] Hc).
  - now apply kept_graph_length.
Qed.

Lemma kept_update i (f : HloInstruction -> HloInstruction) :
  (length (instructions c0) <= i)%nat ->
  keeps (kept_graph c0)
    (x <- deref i ;; modify (update_instruction i (f x)))%state
    (fun _ => True).
Proof.
  intros Hi c a c' Hc E. apply bind_inv in E as (x & c1 & E1 & E).
  pose proof (unchanged_deref _ _ _ _ E1) as <-.
  injection E as <- <-. split; [| exact Logic.I].
  now apply kept_graph_update.
Qed.

Lemma kept_assign_shape i s :
  (length (instructions c0) <= i)%nat ->
  keeps (kept_graph c0) (assign_shape i s) (fun _ => True).
Proof. intros Hi. exact (kept_update i (set_shape s) Hi). Qed.

Lemma kept_assign_dimensions i dims :
  (length (instructions c0) <= i)%nat ->
  keeps (kept_graph c0) (assign_dimensions i dims) (fun _ => True).
Proof. intros Hi. exact (kept_update i (set_dimensions dims) Hi). Qed.

Lemma kept_ReplaceOperandWithDifferentShape user k new_operand :
  (length (instructions c0) <= user)%nat ->
  keeps (kept_graph c0)
    (ReplaceOperandWithDifferentShape user k new_operand) (fun _ => True).
Proof.
  intros Hi c a c' Hc E. unfold ReplaceOperandWithDifferentShape in E.
  apply bind_inv in E as (x & c1 & E1 & E).
  pose proof (unchanged_deref _ _ _ _ E1) as <-.
  destruct ((k <? 0) || (operand_count x <=? k)); [discriminate |].
  injection E as <- <-. split; [| exact Logic.I].
  now apply kept_graph_update.
Qed.
End kept_graph_rules.

#[global] Hint Resolve kept_deref kept_shape_of kept_AddInstruction
  kept_assign_shape kept_assign_dimensions
  kept_ReplaceOperandWithDifferentShape : keeps.

Section kept_builders.
Variable c0 : HloComputation.

Lemma kept_CloneInstruction i :
  keeps (kept_graph c0) (CloneInstruction i)
    (fun r => (length (instructions c0) <= r)%nat).
Proof. unfold CloneInstruction. hoare_tac; auto. Qed.

Lemma kept_MakeReshapeHlo dims operand :
  keeps (kept_graph c0) (MakeReshapeHlo dims operand)
    (fun r => (length (instructions c0) <= r)%nat).
Proof. unfold MakeReshapeHlo. hoare_tac; auto. Qed.

Lemma kept_MakeSliceHlo operand starts limits strides :
  keeps (kept_graph c0) (MakeSliceHlo operand starts limits strides)
    (fun r => (length (instructions c0) <= r)%nat).
Proof. unfold MakeSliceHlo. hoare_tac; auto. Qed.

Lemma kept_MakeTransposeHlo operand dims :
  keeps (kept_graph c0) (MakeTransposeHlo operand dims)
    (fun r => (length (instructions c0) <= r)%nat).
Proof. unfold MakeTransposeHlo. hoare_tac; auto. Qed.

Lemma kept_MakeBroadcastHlo operand dims bounds :
  keeps (kept_graph c0) (MakeBroadcastHlo operand dims bounds)
    (fun r => (length (instructions c0) <= r)%nat).
Proof. unfold MakeBroadcastHlo. hoare_tac; auto. Qed.

Lemma kept_MakePadHlo operand padding cfg :
  keeps (kept_graph c0) (MakePadHlo operand padding cfg)
    (fun r => (length (instructions c0) <= r)%nat).
Proof. unfold MakePadHlo. hoare_tac; auto. Qed.

Lemma kept_shapes_of ids :
  keeps (kept_graph c0) (shapes_of ids) (fun _ => True).
Proof.
  induction ids as [| i ids IH]; cbn [shapes_of]; hoare_tac; auto.
Qed.

Lemma kept_MakeConcatHlo operands dimension :
  keeps (kept_graph c0) (MakeConcatHlo operands dimension)
    (fun r => (length (instructions c0) <= r)%nat).
Proof.
  unfold MakeConcatHlo. pose proof kept_shapes_of. hoare_tac; auto.
Qed.

Lemma kept_MakeSelectHlo pred on_true on_false :
  keeps (kept_graph c0) (MakeSelectHlo pred on_true on_false)
    (fun r => (length (instructions c0) <= r)%nat).
Proof. unfold MakeSelectHlo. hoare_tac; auto. Qed.

Lemma kept_MakeBinaryHlo opc lhs rhs :
  keeps (kept_graph c0) (MakeBinaryHlo opc lhs rhs)
    (fun r => (length (instructions c0) <= r)%nat).
Proof. unfold MakeBinaryHlo. hoare_tac; auto. Qed.

Lemma kept_MakeCompareHlo direction lhs rhs :
  keeps (kept_graph c0) (MakeCompareHlo direction lhs rhs)
    (fun r => (length (instructions c0) <= r)%nat).
Proof. unfold MakeCompareHlo. hoare_tac; auto. Qed.

Lemma kept_MakeConvolveHlo lhs rhs fgc bgc window dnums ty :
  keeps (kept_graph c0) (MakeConvolveHlo lhs rhs fgc bgc window dnums ty)
    (fun r => (length (instructions c0) <= r)%nat).
Proof. unfold MakeConvolveHlo. hoare_tac; auto. Qed.
End kept_builders.

#[global] Hint Resolve kept_CloneInstruction kept_MakeReshapeHlo
  kept_MakeSliceHlo kept_MakeTransposeHlo kept_MakeBroadcastHlo
  kept_MakePadHlo kept_MakeConcatHlo kept_MakeSelectHlo kept_MakeBinaryHlo
  kept_MakeCompareHlo kept_MakeConvolveHlo : keeps.

Section kept_composites.
Variable c0 : HloComputation.

Lemma kept_HaloDuplicateWithSlice activations sd bd obs low high halo osds
    pad_val :
  keeps (kept_graph c0)
    (HaloDuplicateWithSlice activations sd bd obs low high halo osds pad_val)
    (fun _ => True).
Proof. unfold HaloDuplicateWithSlice. hoare_tac; auto. Qed.

Lemma kept_SelectValidPortion new_instr old_instr select_val nbd nsd obd osd :
  keeps (kept_graph c0)
    (SelectValidPortion new_instr old_instr select_val nbd nsd obd osd)
    (fun r => (length (instructions c0) <= r)%nat).
Proof. unfold SelectValidPortion. hoare_tac; auto. Qed.

Lemma kept_BringSpaceNextToBatch activations dnums sd bd :
  keeps (kept_graph c0) (BringSpaceNextToBatch activations dnums sd bd)
    (fun _ => True).
Proof. unfold BringSpaceNextToBatch. hoare_tac; auto. Qed.

Lemma kept_reconcile_overlaps new_consumer init_val nbd nsd nss halo :
  keeps (kept_graph c0)
    (reconcile_overlaps new_consumer init_val nbd nsd nss halo)
    (fun r => (length (instructions c0) <= r)%nat).
Proof. unfold reconcile_overlaps. hoare_tac; auto. Qed.
End kept_composites.

#[global] Hint Resolve kept_HaloDuplicateWithSlice kept_SelectValidPortion
  kept_BringSpaceNextToBatch kept_reconcile_overlaps : keeps.

Section kept_visitor_rules.
Variable c0 : HloComputation.

Lemma kept_on_graph {A} (m : State HloComputation A) post :
  keeps (kept_graph c0) m post -> keeps (kept c0) (on_graph m) post.
Proof.
  intros Hm v a v' Hv E. unfold on_graph in E.
  destruct (m (computation_ v)) as [[a0 c] |] eqn:Em; [| discriminate].
  injection E as <- <-. exact (Hm _ _ _ Hv Em).
Qed.

Lemma kept_dim_map_index k : keeps (kept c0) (dim_map_index k) (fun _ => True).
Proof.
  intros v a v' Hv E. unfold dim_map_index in E.
  destruct (instr_to_dim_map_ v !! k); injection E as <- <-;
    (split; [exact Hv | exact Logic.I]).
Qed.

Lemma kept_permute_map_index k :
  keeps (kept c0) (permute_map_index k) (fun _ => True).
Proof.
  intros v a v' Hv E. unfold permute_map_index in E.
  destruct (instr_to_dim_permute_map_ v !! k); injection E as <- <-;
    (split; [exact Hv | exact Logic.I]).
Qed.

Lemma kept_old_to_new_index k :
  keeps (kept c0) (old_to_new_index k) (fun _ => True).
Proof.
  intros v a v' Hv E. apply old_to_new_index_inv in E as [_ ->].
  split; [exact Hv | exact Logic.I].
Qed.

Lemma kept_modify (f : ConvolutionVisitor -> ConvolutionVisitor) :
  (forall v, computation_ (f v) = computation_ v) ->
  keeps (kept c0) (modify f) (fun _ => True).
Proof.
  intros Hf. apply keeps_modify. intros v Hv. unfold kept. now rewrite Hf.
Qed.
End kept_visitor_rules.

#[global] Hint Resolve kept_dim_map_index kept_permute_map_index
  kept_old_to_new_index : keeps.
#[global] Hint Extern 2 (keeps (kept _) (on_graph _) _) =>
  apply kept_on_graph; solve [eauto 4 with keeps nocore] : keeps.
#[global] Hint Extern 3 (keeps (kept _) (modify _) _) =>
  apply kept_modify; intros ?; reflexivity : keeps.
#[global] Hint Extern 3 (keeps (kept _) (record_old_to_new _ _) _) =>
  apply kept_modify; intros ?; reflexivity : keeps.
#[global] Hint Extern 3 (keeps (kept _) (record_dim_map _ _) _) =>
  apply kept_modify; intros ?; reflexivity : keeps.
#[global] Hint Extern 3 (keeps (kept _) (record_permute_map _ _) _) =>
  apply kept_modify; intros ?; reflexivity : keeps.
#[global] Hint Extern 3 (keeps (kept _) (record_batch_to_space _ _) _) =>
  apply kept_modify; intros ?; reflexivity : keeps.

Lemma kept_BatchToSpace c0 old_instr :
  keeps (kept c0) (BatchToSpace old_instr) (fun _ => True).
Proof. unfold BatchToSpace. hoare_tac; auto with keeps. Qed.

Lemma kept_PropagateOnConv c0 convolution :
  keeps (kept c0) (PropagateOnConv convolution) (fun _ => True).
Proof. unfold PropagateOnConv. hoare_tac; auto with keeps. Qed.

Lemma kept_PropagateOnBackpropFilterConv c0 convolution :
  keeps (kept c0) (PropagateOnBackpropFilterConv convolution) (fun _ => True).
Proof. unfold PropagateOnBackpropFilterConv. hoare_tac; auto with keeps. Qed.

Lemma kept_choose_producer c0 c producer :
  keeps (kept c0) (choose_producer c producer) (fun _ => True).
Proof. unfold choose_producer. hoare_tac; auto with keeps. Qed.

#[global] Hint Resolve kept_choose_producer : keeps.

Lemma kept_propagate_elementwise_operand c0 c nc producer i :
  (length (instructions c0) <= nc)%nat ->
  keeps (kept c0) (propagate_elementwise_operand c nc producer i)
    (fun _ => True).
Proof.
  intros. unfold propagate_elementwise_operand. hoare_tac; auto with keeps.
Qed.

#[global] Hint Resolve kept_propagate_elementwise_operand : keeps.

Lemma kept_propagate_elementwise c0 consumer producer c :
  keeps (kept c0) (propagate_elementwise consumer producer c) (fun _ => True).
Proof. unfold propagate_elementwise. hoare_tac; auto with keeps. Qed.

Lemma kept_propagate_reduce c0 consumer c :
  keeps (kept c0) (propagate_reduce consumer c) (fun _ => True).
Proof. unfold propagate_reduce. hoare_tac; auto with keeps. Qed.

Lemma kept_propagate_windowed c0 consumer c :
  keeps (kept c0) (propagate_windowed consumer c) (fun _ => True).
Proof. unfold propagate_windowed. hoare_tac; auto with keeps. Qed.

#[global] Hint Resolve kept_PropagateOnConv kept_PropagateOnBackpropFilterConv
  kept_propagate_elementwise kept_propagate_reduce kept_propagate_windowed
  kept_BatchToSpace : keeps.

Lemma kept_Propagate c0 consumer producer :
  keeps (kept c0) (Propagate consumer producer) (fun _ => True).
Proof. unfold Propagate. hoare_tac; auto with keeps. Qed.

Lemma kept_space_to_batch_convolution c0 convolution :
  keeps (kept c0) (space_to_batch_convolution convolution) (fun _ => True).
Proof. unfold space_to_batch_convolution. hoare_tac; auto with keeps. Qed.


(** ** The loops that choose the split size *)

Lemma while_negative_affine n e step (f : Z -> Z) :
  1 <= n <= 2 ^ 30 -> 1 <= step <= 2 ^ 30 -> - 2 ^ 30 <= e <= 2 ^ 30 ->
  (forall t, 0 <= t <= 2 ^ 31 -> f t = t * n + e) ->
  forall fuel s,
    0 <= s <= 2 ^ 31 -> (s <= 2 ^ 30 \/ (s - step) * n + e < 0) ->
    - (s * n + e) <= Z.of_nat fuel ->
    exists s',
      while_negative fuel f step s = OK s' /\
      0 <= s' * n + e /\
      (s' = s \/ (s' - step) * n + e < 0) /\
      exists k, 0 <= k /\ s' = s + k * step.
Proof.
  intros Hn Hstep He Hf. induction fuel as [| fuel IH]; intros s Hs Hfar Hfuel.
  - cbn [while_negative]. rewrite Hf by lia.
    destruct (Z.ltb_spec (s * n + e) 0) as [Hneg | Hpos]; [lia |].
    exists s. split; [reflexivity |]. split; [lia |]. split; [now left |].
    exists 0. lia.
  - cbn [while_negative]. rewrite Hf by lia.
    destruct (Z.ltb_spec (s * n + e) 0) as [Hneg | Hpos].
    + assert (Hsm : s < 2 ^ 30) by nia.
      assert (Hw : (s + step)%i64 = s + step).
      { unfold Int64.add. apply wrap_small. lia. }
      rewrite Hw.
      destruct (IH (s + step)) as (s' & E & Hcov & Hleast & k & Hk & Ek).
      * lia.
      * right. replace (s + step - step) with s by lia. exact Hneg.
      * nia.
      * exists s'. split; [exact E |]. split; [exact Hcov |].
        split.
        -- right. destruct Hleast as [-> | Hleast]; [| exact Hleast].
           replace (s + step - step) with s by lia. exact Hneg.
        -- exists (k + 1). split; [lia |]. lia.
    + exists s. split; [reflexivity |]. split; [lia |]. split; [now left |].
      exists 0. lia.
Qed.

Lemma grow_until_covered_first num_splits spatial_size stride s :
  1 <= num_splits <= 2 ^ 30 -> 1 <= stride <= 2 ^ 30 ->
  0 <= spatial_size <= 2 ^ 30 -> 0 <= s <= 2 ^ 30 ->
  exists s',
    grow_until_covered (fun s => (s * num_splits - spatial_size)%i64) stride s
    = OK s' /\
    0 <= s' * num_splits - spatial_size /\
    (s' = s \/ (s' - stride) * num_splits - spatial_size < 0) /\
    exists k, 0 <= k /\ s' = s + k * stride.
Proof.
  intros Hn Hstride Hsize Hs. unfold grow_until_covered.
  assert (Hf : forall t, 0 <= t <= 2 ^ 31 ->
                 (t * num_splits - spatial_size)%i64
                 = t * num_splits + - spatial_size).
  { intros t Ht. unfold Int64.sub, Int64.mul.
    rewrite (wrap_small (t * num_splits)) by nia.
    rewrite wrap_small by nia. lia. }
  destruct (while_negative_affine num_splits (- spatial_size) stride
              (fun s => (s * num_splits - spatial_size)%i64)
              Hn Hstride ltac:(lia) Hf
              (Z.to_nat (- (s * num_splits - spatial_size)%i64)) s)
    as (s' & E & Hcov & Hleast & Hk).
  - lia.
  - now left.
  - rewrite Hf by lia. lia.
  - exists s'. split; [exact E |]. split; [lia |]. split; [| exact Hk].
    destruct Hleast as [-> | H]; [now left | right; lia].
Qed.

Lemma quot_add_stride s stride j :
  0 <= s -> 1 <= stride -> 0 <= j ->
  Z.quot (s + j * stride) stride = Z.quot s stride + j.
Proof.
  intros Hs Hstride Hj. rewrite !Z.quot_div_nonneg by nia.
  rewrite Z.div_add by lia. reflexivity.
Qed.

Lemma while_misaligned_steps stride red :
  1 <= stride <= 2 ^ 30 -> 1 <= red <= 2 ^ 30 ->
  forall fuel s k,
    0 <= s -> 0 <= k -> k <= Z.of_nat fuel -> s + k * stride <= 2 ^ 61 ->
    (forall j, 0 <= j < k -> Z.rem (Z.quot (s + j * stride) stride) red <> 0) ->
    Z.rem (Z.quot (s + k * stride) stride) red = 0 ->
    while_misaligned fuel stride red s = OK (s + k * stride).
Proof.
  intros Hstride Hred. induction fuel as [| fuel IH];
    intros s k Hs Hk Hfuel Hbound Hbefore Hat.
  - assert (k = 0) by lia. subst k. rewrite Z.add_0_r in *.
    cbn [while_misaligned]. unfold div64, rem64, bindS.
    destruct (Z.eqb_spec stride 0); [lia |].
    destruct (Z.eqb_spec red 0); [lia |].
    rewrite (wrap_small (Z.quot s stride))
      by (rewrite Z.quot_div_nonneg by lia;
          pose proof (Z.div_pos s stride); pose proof (Z.div_le_upper_bound s stride s);
          nia).
    rewrite Hat. vm_compute (Int64.wrap 0 =? 0). reflexivity.
  - cbn [while_misaligned]. unfold div64, rem64, bindS.
    destruct (Z.eqb_spec stride 0); [lia |].
    destruct (Z.eqb_spec red 0); [lia |].
    assert (Hq : 0 <= Z.quot s stride <= s).
    { rewrite Z.quot_div_nonneg by lia. split; [apply Z.div_pos; lia |].
      apply Z.div_le_upper_bound; nia. }
    rewrite (wrap_small (Z.quot s stride)) by nia.
    assert (Hr : 0 <= Z.rem (Z.quot s stride) red < red)
      by (apply Z.rem_bound_pos; lia).
    rewrite (wrap_small (Z.rem _ _)) by lia.
    destruct (Z.eqb_spec (Z.rem (Z.quot s stride) red) 0) as [Hz | Hnz];
      cbn [negb].
    + destruct (Z.eq_dec k 0) as [-> | Hk0]; [now rewrite Z.add_0_r |].
      exfalso. apply (Hbefore 0); [lia |]. now rewrite Z.add_0_r.
    + destruct (Z.eq_dec k 0) as [-> | Hk0].
      { rewrite Z.add_0_r in Hat. contradiction. }
      assert (Hw : (s + stride)%i64 = s + stride).
      { unfold Int64.add. apply wrap_small. nia. }
      rewrite Hw.
      rewrite (IH (s + stride) (k - 1)); [f_equal; lia | lia | lia | lia | nia | |].
      * intros j Hj. specialize (Hbefore (j + 1) ltac:(lia)).
        replace (s + stride + j * stride) with (s + (j + 1) * stride) by lia.
        exact Hbefore.
      * replace (s + stride + (k - 1) * stride) with (s + k * stride) by lia.
        exact Hat.
Qed.

Lemma while_misaligned_aligns stride red s :
  1 <= stride <= 2 ^ 30 -> 1 <= red <= 2 ^ 30 -> 0 <= s <= 2 ^ 30 ->
  exists k,
    0 <= k < red /\
    while_misaligned (Z.to_nat (Z.abs red)) stride red s
    = OK (s + k * stride) /\
    Z.rem (Z.quot (s + k * stride) stride) red = 0 /\
    forall j, 0 <= j < k ->
              Z.rem (Z.quot (s + j * stride) stride) red <> 0.
Proof.
  intros Hstride Hred Hs.
  set (q := Z.quot s stride).
  assert (Hq : 0 <= q).
  { unfold q. rewrite Z.quot_div_nonneg by lia. apply Z.div_pos; lia. }
  set (k := (- q) mod red).
  assert (Hk : 0 <= k < red) by (apply Z.mod_pos_bound; lia).
  assert (Hat : forall j, 0 <= j ->
                  Z.rem (Z.quot (s + j * stride) stride) red
                  = (q + j) mod red).
  { intros j Hj. rewrite quot_add_stride by lia. fold q.
    apply Z.rem_mod_nonneg; lia. }
  assert (Hzero : (q + k) mod red = 0).
  { unfold k. rewrite Zplus_mod_idemp_r.
    replace (q + - q) with 0 by lia. apply Z.mod_0_l. lia. }
  assert (Hleast : forall j, 0 <= j < k -> (q + j) mod red <> 0).
  { intros j Hj Hj0.
    assert (Hd : (k - j) mod red = 0).
    { replace (k - j) with ((q + k) - (q + j)) by lia.
      rewrite Zminus_mod, Hzero, Hj0. apply Z.mod_0_l. lia. }
    rewrite Z.mod_small in Hd by lia. lia. }
  exists k. split; [exact Hk |]. split; [| split].
  - apply while_misaligned_steps; try lia.
    + nia.
    + intros j Hj. rewrite Hat by lia. now apply Hleast.
    + rewrite Hat by lia. exact Hzero.
  - rewrite Hat by lia. exact Hzero.
  - intros j Hj. rewrite Hat by lia. now apply Hleast.
Qed.

(** ** The readiness check reads *)

Lemma first_operands_rewritten_reads c n :
  respects (frame_but eq (fun _ => True)) (first_operands_rewritten c n).
Proof. unfold first_operands_rewritten. reads_tac. Qed.

Lemma CanPropagate_reads consumer producer :
  respects (frame_but eq (fun _ => True)) (CanPropagate consumer producer).
Proof.
  unfold CanPropagate. reads_tac;
    auto using elementwise_operands_ready_reads,
      first_operands_rewritten_reads.
Qed.

(** ** The builders of the pass only add instructions *)

Create HintDb grows discriminated.

#[global] Hint Resolve grows_AddInstruction grows_deref grows_shape_of
  grows_MakeReshapeHlo grows_MakeSliceHlo grows_MakeTransposeHlo
  grows_MakeBroadcastHlo grows_MakePadHlo grows_CloneInstruction : grows.

Ltac grows_tac := respects_tac; auto with grows.

Lemma grows_shapes_of ids : respects grows (shapes_of ids).
Proof. induction ids as [| i ids IH]; cbn [shapes_of]; grows_tac. Qed.

#[global] Hint Resolve grows_shapes_of : grows.

Lemma grows_MakeConcatHlo operands dimension :
  respects grows (MakeConcatHlo operands dimension).
Proof. unfold MakeConcatHlo. grows_tac. Qed.

Lemma grows_MakeSelectHlo pred on_true on_false :
  respects grows (MakeSelectHlo pred on_true on_false).
Proof. unfold MakeSelectHlo. grows_tac. Qed.

Lemma grows_MakeBinaryHlo opc lhs rhs :
  respects grows (MakeBinaryHlo opc lhs rhs).
Proof. unfold MakeBinaryHlo. grows_tac. Qed.

Lemma grows_MakeCompareHlo direction lhs rhs :
  respects grows (MakeCompareHlo direction lhs rhs).
Proof. unfold MakeCompareHlo. grows_tac. Qed.

Lemma grows_MakeConvolveHlo lhs rhs fgc bgc window dnums ty :
  respects grows (MakeConvolveHlo lhs rhs fgc bgc window dnums ty).
Proof. unfold MakeConvolveHlo. grows_tac. Qed.

#[global] Hint Resolve grows_MakeConcatHlo grows_MakeSelectHlo
  grows_MakeBinaryHlo grows_MakeCompareHlo grows_MakeConvolveHlo : grows.

Lemma grows_HaloDuplicateWithSlice activations sd bd obs low high halo osds
    pad_val :
  respects grows
    (HaloDuplicateWithSlice activations sd bd obs low high halo osds pad_val).
Proof. unfold HaloDuplicateWithSlice. grows_tac. Qed.

Lemma grows_SelectValidPortion new_instr old_instr select_val nbd nsd obd osd :
  respects grows
    (SelectValidPortion new_instr old_instr select_val nbd nsd obd osd).
Proof. unfold SelectValidPortion. grows_tac. Qed.

Lemma grows_BringSpaceNextToBatch activations dnums sd bd :
  respects grows (BringSpaceNextToBatch activations dnums sd bd).
Proof. unfold BringSpaceNextToBatch. grows_tac. Qed.

#[global] Hint Resolve grows_HaloDuplicateWithSlice grows_SelectValidPortion
  grows_BringSpaceNextToBatch : grows.

(** The relation of a visitor to one with a computation that has grown. *)
Lemma grown_on_graph {A} (m : State HloComputation A) :
  respects grows m ->
  respects (fun v v' => grows (computation_ v) (computation_ v')) (on_graph m).
Proof.
  intros Hm v a v' E. unfold on_graph in E.
  destruct (m (computation_ v)) as [[a0 c] |] eqn:Em; [| discriminate].
  injection E as <- <-. exact (Hm _ _ _ Em).
Qed.

#[global] Instance grown_refl : Reflexive grown.
Proof. intros v. unfold grown. reflexivity. Qed.

#[global] Instance grown_trans : Transitive grown.
Proof. intros v1 v2 v3. unfold grown. apply grows_trans. Qed.

Lemma grown_graph {A} (m : State HloComputation A) :
  respects grows m -> respects grown (on_graph m).
Proof. apply grown_on_graph. Qed.

Lemma grown_modify (f : ConvolutionVisitor -> ConvolutionVisitor) :
  (forall v, computation_ (f v) = computation_ v) ->
  respects grown (modify f).
Proof.
  intros Hf v a v' [= <- <-]. unfold grown. rewrite Hf. reflexivity.
Qed.

Ltac grown_tac :=
  respects_tac;
  try first
    [ apply grown_graph; solve [auto with grows]
    | apply grown_modify; intros ?; reflexivity
    | apply respects_gets; typeclasses eauto ];
  side_conditions.

Lemma grown_space_to_batch_convolution convolution :
  respects grown (space_to_batch_convolution convolution).
Proof. unfold space_to_batch_convolution. grown_tac. Qed.

Ltac hoare_to_records :=
  repeat lazymatch goal with
         | |- hoare _ (bind (record_old_to_new _ _) _) _ => fail
         | |- hoare _ (bind (modify _) _) _ => fail
         | |- _ => hoare_step
         end.

Lemma hoare_skip_modify {A} (I : ConvolutionVisitor -> Prop)
    (f : ConvolutionVisitor -> ConvolutionVisitor)
    (k : State ConvolutionVisitor A) Q :
  (forall v, I v -> I (f v)) -> hoare I k Q ->
  hoare I (modify f ;;; k)%state Q.
Proof.
  intros Hf Hk v a v' Hv E. apply bind_inv in E as ([] & v1 & E1 & E).
  injection E1 as <-. exact (Hk _ _ _ (Hf v Hv) E).
Qed.

Lemma space_to_batch_convolution_records c0 convolution :
  hoare (kept c0) (space_to_batch_convolution convolution)
    (fun _ v' =>
       exists new_conv,
         old_to_new_instrs_ v' !! convolution = Some new_conv /\
         (length (instructions c0) <= new_conv)%nat /\
         is_Some (instr_to_dim_map_ v' !! convolution) /\
         is_Some (instr_to_dim_permute_map_ v' !! new_conv)).
Proof.
  unfold space_to_batch_convolution.
  apply hoare_skip_modify; [intros v Hv; exact Hv |].
  hoare_to_records; auto with keeps.
  all: intros v [] v' _ E; injection E as <-; eexists;
    cbn; rewrite !lookup_insert_eq; (split; [reflexivity |]);
    (split; [eassumption |]); split; eexists; reflexivity.
Qed.

(** ** The tables after a rewrite *)

Ltac tables_tail :=
  let E := fresh "E" in
  intros ? ? ? _ E;
  cbv beta delta [bind record_old_to_new record_dim_map record_permute_map
    modify ret old_to_new_index permute_map_contains permute_map_index
    lift_status CHECK gets] in E;
  repeat (case_match; simplify_eq; try discriminate);
  eexists; cbn;
  repeat first [rewrite lookup_insert_eq | rewrite lookup_insert_ne by congruence];
  repeat match goal with |- _ /\ _ => split end;
  try reflexivity; try eassumption; try discriminate; try intros _; eauto.

Lemma propagate_elementwise_tables c0 consumer producer c :
  hoare (kept c0) (propagate_elementwise consumer producer c)
    (fun r v' =>
       exists new_consumer,
         old_to_new_instrs_ v' !! consumer = Some new_consumer /\
         (length (instructions c0) <= new_consumer)%nat /\
         is_Some (instr_to_dim_map_ v' !! consumer) /\
         (r = true ->
          is_Some (instr_to_dim_permute_map_ v' !! new_consumer))).
Proof.
  unfold propagate_elementwise. hoare_to_records; auto with keeps.
  all: tables_tail.
Qed.

Lemma propagate_reduce_tables c0 consumer c :
  hoare (kept c0) (propagate_reduce consumer c)
    (fun r v' =>
       exists new_consumer,
         old_to_new_instrs_ v' !! consumer = Some new_consumer /\
         (length (instructions c0) <= new_consumer)%nat /\
         is_Some (instr_to_dim_map_ v' !! consumer) /\
         (r = true ->
          is_Some (instr_to_dim_permute_map_ v' !! new_consumer))).
Proof.
  unfold propagate_reduce. hoare_to_records; auto with keeps.
  all: tables_tail.
Qed.

Lemma propagate_windowed_tables c0 consumer c :
  hoare (kept c0) (propagate_windowed consumer c)
    (fun r v' =>
       exists new_consumer,
         old_to_new_instrs_ v' !! consumer = Some new_consumer /\
         (length (instructions c0) <= new_consumer)%nat /\
         is_Some (instr_to_dim_map_ v' !! consumer) /\
         (r = true ->
          is_Some (instr_to_dim_permute_map_ v' !! new_consumer))).
Proof.
  unfold propagate_windowed. hoare_to_records; auto with keeps.
  all: tables_tail.
Qed.

Lemma PropagateOnConv_tables c0 convolution :
  hoare (kept c0) (PropagateOnConv convolution)
    (fun _ v' =>
       exists new_conv,
         old_to_new_instrs_ v' !! convolution = Some new_conv /\
         (length (instructions c0) <= new_conv)%nat /\
         is_Some (instr_to_dim_map_ v' !! convolution) /\
         (true = true ->
          is_Some (instr_to_dim_permute_map_ v' !! new_conv))).
Proof.
  unfold PropagateOnConv. hoare_to_records; auto with keeps.
  all: tables_tail.
Qed.

Lemma PropagateOnBackpropFilterConv_tables c0 convolution :
  hoare (kept c0) (PropagateOnBackpropFilterConv convolution)
    (fun _ v' =>
       exists new_conv,
         old_to_new_instrs_ v' !! convolution = Some new_conv /\
         (length (instructions c0) <= new_conv)%nat /\
         is_Some (instr_to_dim_map_ v' !! convolution) /\
         (false = true ->
          is_Some (instr_to_dim_permute_map_ v' !! new_conv))).
Proof.
  unfold PropagateOnBackpropFilterConv. hoare_to_records; auto with keeps.
  all: tables_tail.
Qed.

Lemma Propagate_tables consumer producer v r v' :
  Propagate consumer producer v = OK (r, v') ->
  kept (computation_ v) v' /\
  exists new_consumer,
    old_to_new_instrs_ v' !! consumer = Some new_consumer /\
    (length (instructions (computation_ v)) <= new_consumer)%nat /\
    is_Some (instr_to_dim_map_ v' !! consumer) /\
    (r = true -> is_Some (instr_to_dim_permute_map_ v' !! new_consumer)).
Proof.
  intros E.
  assert (Hv : kept (computation_ v) v) by apply kept_graph_refl.
  split; [exact (proj1 (kept_Propagate _ _ _ _ _ _ Hv E)) |].
  unfold Propagate in E. apply bind_inv in E as (c & v0 & E0 & E).
  apply on_graph_deref_inv in E0 as [Hc ->].
  destruct (IsTrivialElementwise c).
  { exact (propagate_elementwise_tables _ _ _ _ _ _ _ Hv E). }
  destruct (opcode_eqb (opcode c) kConvolution).
  { apply bind_inv in E as (limit & v0 & E0 & E). injection E0 as <- <-.
    apply bind_inv in E as (computation & v0 & E0 & E).
    injection E0 as <- <-.
    apply bind_inv in E as (suitable & v0 & E0 & E).
    apply lift_status_inv in E0 as [_ ->].
    destruct suitable.
    - apply bind_inv in E as ([] & v1 & E1 & E). injection E as <- <-.
      apply check_ok_inv in E1.
      exact (PropagateOnConv_tables _ _ _ _ _ Hv E1).
    - apply bind_inv in E as ([] & v1 & E1 & E). injection E as <- <-.
      apply check_ok_inv in E1.
      exact (PropagateOnBackpropFilterConv_tables _ _ _ _ _ Hv E1). }
  destruct (opcode_eqb (opcode c) kReduce).
  { exact (propagate_reduce_tables _ _ _ _ _ _ Hv E). }
  destruct (opcode_eqb (opcode c) kReduceWindow
            || opcode_eqb (opcode c) kSelectAndScatter).
  { exact (propagate_windowed_tables _ _ _ _ _ _ Hv E). }
  apply lift_status_inv in E as [E _]. discriminate.
Qed.

Lemma space_to_batch_convolution_outcome convolution v v' :
  space_to_batch_convolution convolution v = OK (tt, v') ->
  grown v v' /\
  exists new_conv,
    old_to_new_instrs_ v' !! convolution = Some new_conv /\
    (length (instructions (computation_ v)) <= new_conv)%nat /\
    is_Some (instr_to_dim_map_ v' !! convolution) /\
    is_Some (instr_to_dim_permute_map_ v' !! new_conv).
Proof.
  intros E. split; [exact (grown_space_to_batch_convolution _ _ _ _ E) |].
  exact (space_to_batch_convolution_records (computation_ v) _ _ _ _
           (kept_graph_refl _) E).
Qed.

(** ** The rewritten instructions stay rewritten *)

Lemma grows_propagation_loop fuel : forall wl count,
  respects more_rewritten (propagation_loop fuel wl count).
Proof.
  induction fuel as [| fuel IH]; intros [| [node parent] wl] count;
    cbn [propagation_loop]; rewritten_tac; auto using grows_Propagate.
Qed.

Lemma grows_PropagateOnUsers fuel old_conv :
  respects more_rewritten (PropagateOnUsers fuel old_conv).
Proof.
  unfold PropagateOnUsers. rewritten_tac. apply grows_propagation_loop.
Qed.

Lemma PerformSpaceToBatchOnConvolution_rewrites fuel convolution v v' :
  PerformSpaceToBatchOnConvolution fuel convolution v = OK (tt, v') ->
  changed_ v' = true /\
  convolution ∈ dom (old_to_new_instrs_ v').
Proof.
  intros E. unfold PerformSpaceToBatchOnConvolution in E.
  apply bind_inv in E as ([] & v1 & E1 & E).
  apply bind_inv in E as ([] & v2 & E2 & E). injection E as <-.
  apply check_ok_inv in E2. split; [reflexivity |].
  cbn. apply (grows_PropagateOnUsers _ _ _ _ _ E2).
  destruct (space_to_batch_convolution_outcome _ _ _ E1)
    as (_ & n & Hn & _).
  apply elem_of_dom. now exists n.
Qed.


(** ** Every convolution to visit ends rewritten *)

#[global] Instance more_visited_refl : Reflexive more_visited.
Proof. intros v. unfold more_visited. set_solver. Qed.

#[global] Instance more_visited_trans : Transitive more_visited.
Proof.
  intros v1 v2 v3 [D12 V12] [D23 V23]. split.
  - now transitivity (dom (old_to_new_instrs_ v2)).
  - intros k Hk. apply V12, elem_of_union in Hk as [Hk | Hk].
    + now apply V23.
    + apply elem_of_union_r. now apply D23.
Qed.

Lemma more_visited_same v v' :
  old_to_new_instrs_ v' = old_to_new_instrs_ v ->
  convs_to_visit_ v' = convs_to_visit_ v -> more_visited v v'.
Proof.
  intros E1 E2. unfold more_visited. rewrite E1, E2.
  split; [reflexivity | apply union_subseteq_l].
Qed.

Lemma visited_on_graph {A} (m : State HloComputation A) :
  respects more_visited (on_graph m).
Proof.
  intros v a v' E. unfold on_graph in E.
  destruct (m (computation_ v)) as [[a0 c] |]; [| discriminate].
  injection E as <- <-. now apply more_visited_same.
Qed.

Lemma visited_dim_map_index k : respects more_visited (dim_map_index k).
Proof.
  intros v a v' E. unfold dim_map_index in E.
  destruct (instr_to_dim_map_ v !! k); injection E as <- <-;
    now apply more_visited_same.
Qed.

Lemma visited_permute_map_index k :
  respects more_visited (permute_map_index k).
Proof.
  intros v a v' E. unfold permute_map_index in E.
  destruct (instr_to_dim_permute_map_ v !! k); injection E as <- <-;
    now apply more_visited_same.
Qed.

Lemma visited_old_to_new_index k :
  respects more_visited (old_to_new_index k).
Proof.
  intros v a v' E. apply old_to_new_index_inv in E as [_ ->]. reflexivity.
Qed.

Lemma visited_modify (f : ConvolutionVisitor -> ConvolutionVisitor) :
  (forall v, more_visited v (f v)) -> respects more_visited (modify f).
Proof. intros H v a v' [= <- <-]. apply H. Qed.

Lemma visited_record_old_to_new k n :
  respects more_visited (record_old_to_new k n).
Proof.
  apply visited_modify. intros v. unfold more_visited. cbn.
  rewrite dom_insert. split; [apply union_subseteq_r |].
  apply union_subseteq_l.
Qed.

Create HintDb visited discriminated.

#[global] Hint Resolve visited_on_graph visited_dim_map_index
  visited_permute_map_index visited_old_to_new_index
  visited_record_old_to_new : visited.
#[global] Hint Extern 1 (respects more_visited (dim_map_contains _)) =>
  apply respects_gets; typeclasses eauto : visited.
#[global] Hint Extern 1 (respects more_visited (permute_map_contains _)) =>
  apply respects_gets; typeclasses eauto : visited.
#[global] Hint Extern 1 (respects more_visited (old_to_new_contains _)) =>
  apply respects_gets; typeclasses eauto : visited.
#[global] Hint Extern 3 (respects more_visited (modify _)) =>
  first [ apply visited_record_old_to_new
        | apply visited_modify; intros ?; apply more_visited_same;
          reflexivity ] : visited.
#[global] Hint Extern 3 (respects more_visited (record_dim_map _ _)) =>
  apply visited_modify; intros ?; apply more_visited_same; reflexivity
  : visited.
#[global] Hint Extern 3 (respects more_visited (record_permute_map _ _)) =>
  apply visited_modify; intros ?; apply more_visited_same; reflexivity
  : visited.
#[global] Hint Extern 3
  (respects more_visited (record_batch_to_space _ _)) =>
  apply visited_modify; intros ?; apply more_visited_same; reflexivity
  : visited.
#[global] Hint Extern 3
  (respects more_visited (erase_non_propagatable _)) =>
  apply visited_modify; intros ?; apply more_visited_same; reflexivity
  : visited.
#[global] Hint Extern 3
  (respects more_visited (insert_non_propagatable _)) =>
  apply visited_modify; intros ?; apply more_visited_same; reflexivity
  : visited.

Ltac visited_tac := respects_tac; auto with visited.

Lemma visited_IsBroadcastPropagatable b o :
  respects more_visited (IsBroadcastPropagatable b o).
Proof. unfold IsBroadcastPropagatable. visited_tac. Qed.

#[global] Hint Resolve visited_IsBroadcastPropagatable : visited.

Lemma visited_SupportedOpForPropagation c p :
  respects more_visited (SupportedOpForPropagation c p).
Proof. unfold SupportedOpForPropagation. visited_tac. Qed.

Lemma visited_first_operands_rewritten c n :
  respects more_visited (first_operands_rewritten c n).
Proof. unfold first_operands_rewritten. visited_tac. Qed.

#[global] Hint Resolve visited_first_operands_rewritten : visited.

Lemma visited_elementwise_operands_ready c p ops : forall pivot,
  respects more_visited (elementwise_operands_ready c p ops pivot).
Proof.
  induction ops as [| o ops IH]; intros pivot;
    cbn [elementwise_operands_ready]; visited_tac.
Qed.

#[global] Hint Resolve visited_elementwise_operands_ready : visited.

Lemma visited_CanPropagate c p : respects more_visited (CanPropagate c p).
Proof. unfold CanPropagate. visited_tac. Qed.

Lemma visited_BatchToSpace i : respects more_visited (BatchToSpace i).
Proof. unfold BatchToSpace. visited_tac. Qed.

#[global] Hint Resolve visited_SupportedOpForPropagation visited_CanPropagate
  visited_BatchToSpace : visited.

Lemma visited_propagate_to_user node user wl :
  respects more_visited (propagate_to_user node user wl).
Proof. unfold propagate_to_user. visited_tac. Qed.

Lemma visited_PropagateOnBackpropFilterConv c :
  respects more_visited (PropagateOnBackpropFilterConv c).
Proof. unfold PropagateOnBackpropFilterConv. visited_tac. Qed.

Lemma visited_choose_producer c p :
  respects more_visited (choose_producer c p).
Proof. unfold choose_producer. visited_tac. Qed.

Lemma visited_propagate_elementwise_operand c nc p i :
  respects more_visited (propagate_elementwise_operand c nc p i).
Proof. unfold propagate_elementwise_operand. visited_tac. Qed.

#[global] Hint Resolve visited_choose_producer
  visited_propagate_elementwise_operand : visited.

Lemma visited_propagate_elementwise consumer p c :
  respects more_visited (propagate_elementwise consumer p c).
Proof. unfold propagate_elementwise. visited_tac. Qed.

Lemma visited_propagate_reduce consumer c :
  respects more_visited (propagate_reduce consumer c).
Proof. unfold propagate_reduce. visited_tac. Qed.

Lemma visited_propagate_windowed consumer c :
  respects more_visited (propagate_windowed consumer c).
Proof. unfold propagate_windowed. visited_tac. Qed.

#[global] Hint Resolve visited_propagate_to_user
  visited_PropagateOnBackpropFilterConv visited_propagate_elementwise
  visited_propagate_reduce visited_propagate_windowed : visited.

Section same_tables_rules.
Variable v0 : ConvolutionVisitor.

Lemma same_tables_on_graph {A} (m : State HloComputation A) :
  keeps (same_tables v0) (on_graph m) (fun _ => True).
Proof.
  intros v a v' Hv E. unfold on_graph in E.
  destruct (m (computation_ v)) as [[a0 c] |]; [| discriminate].
  injection E as <- <-. split; [exact Hv | exact Logic.I].
Qed.

Lemma same_tables_dim_map_index k :
  keeps (same_tables v0) (dim_map_index k) (fun _ => True).
Proof.
  intros v a v' Hv E. unfold dim_map_index in E.
  destruct (instr_to_dim_map_ v !! k); injection E as <- <-;
    (split; [exact Hv | exact Logic.I]).
Qed.

Lemma same_tables_permute_map_index k :
  keeps (same_tables v0) (permute_map_index k) (fun _ => True).
Proof.
  intros v a v' Hv E. unfold permute_map_index in E.
  destruct (instr_to_dim_permute_map_ v !! k); injection E as <- <-;
    (split; [exact Hv | exact Logic.I]).
Qed.

Lemma same_tables_old_to_new_index k :
  keeps (same_tables v0) (old_to_new_index k) (fun _ => True).
Proof.
  intros v a v' Hv E. apply old_to_new_index_inv in E as [_ ->].
  split; [exact Hv | exact Logic.I].
Qed.
End same_tables_rules.

#[global] Hint Resolve same_tables_on_graph same_tables_dim_map_index
  same_tables_permute_map_index same_tables_old_to_new_index : keeps.

Lemma visited_PropagateOnConv convolution :
  respects more_visited (PropagateOnConv convolution).
Proof.
  intros v0 a v' E.
  cut (hoare (same_tables v0) (PropagateOnConv convolution)
         (fun _ v' => more_visited v0 v')).
  { intros H. exact (H v0 a v' (conj eq_refl eq_refl) E). }
  clear E. unfold PropagateOnConv. hoare_to_records.
  all: intros v ? v1 [Ho Hc] E1;
    cbv beta delta [bind modify ret lift_status] in E1;
    repeat (case_match; simplify_eq; try discriminate);
    unfold more_visited; cbn; rewrite Ho, Hc, dom_insert;
    split; first [apply union_subseteq_r | idtac];
    intros k Hk; destruct (decide (k = convolution)) as [-> | Hne];
    first
      [ solve [apply elem_of_union_r, elem_of_union_l, elem_of_singleton;
               reflexivity]
      | apply elem_of_union_l, elem_of_difference; split;
        first [exact Hk | now rewrite elem_of_singleton] ].
Qed.

#[global] Hint Resolve visited_PropagateOnConv : visited.

Lemma visited_Propagate consumer producer :
  respects more_visited (Propagate consumer producer).
Proof. unfold Propagate. visited_tac. Qed.

#[global] Hint Resolve visited_Propagate : visited.

Lemma visited_propagation_loop fuel : forall wl count,
  respects more_visited (propagation_loop fuel wl count).
Proof.
  induction fuel as [| fuel IH]; intros [| [node parent] wl] count;
    cbn [propagation_loop]; visited_tac.
Qed.

Lemma visited_PropagateOnUsers fuel old_conv :
  respects more_visited (PropagateOnUsers fuel old_conv).
Proof.
  unfold PropagateOnUsers. visited_tac. apply visited_propagation_loop.
Qed.

Lemma visited_space_to_batch_convolution convolution :
  respects more_visited (space_to_batch_convolution convolution).
Proof. unfold space_to_batch_convolution. visited_tac. Qed.

Lemma visited_PerformSpaceToBatchOnConvolution fuel convolution :
  respects more_visited (PerformSpaceToBatchOnConvolution fuel convolution).
Proof.
  unfold PerformSpaceToBatchOnConvolution. visited_tac.
  - apply visited_space_to_batch_convolution.
  - apply visited_PropagateOnUsers.
Qed.

Lemma visited_restore_operands i : respects more_visited (restore_operands i).
Proof. unfold restore_operands. visited_tac. Qed.

(** The loop of [Run] over the convolutions: those it has gone through are
    rewritten. *)
Lemma Run_visits fuel l : forall v v',
  for_each l tt
    (fun conv _ =>
       to_visit <- gets (fun v => bool_decide (conv ∈ convs_to_visit_ v)) ;;
       if to_visit
       then check_ok (PerformSpaceToBatchOnConvolution fuel conv)
       else ret tt)%state v = OK (tt, v') ->
  more_visited v v' /\
  forall conv, In conv l ->
    conv ∈ convs_to_visit_ v ∪ dom (old_to_new_instrs_ v) ->
    conv ∈ dom (old_to_new_instrs_ v').
Proof.
  induction l as [| conv l IH]; intros v v' E.
  - injection E as <-. split; [reflexivity |]. intros ? [].
  - cbn [for_each] in E. apply bind_inv in E as ([] & v1 & E1 & E).
    destruct (IH _ _ E) as [H1 Hl]. clear IH.
    apply bind_inv in E1 as (to_visit & v0 & E0 & E1).
    injection E0 as <- <-.
    assert (Hstep : more_visited v v1 /\
                    (conv ∈ convs_to_visit_ v ∪ dom (old_to_new_instrs_ v) ->
                     conv ∈ dom (old_to_new_instrs_ v1))).
    { destruct (bool_decide_reflect (conv ∈ convs_to_visit_ v))
        as [Hin | Hnot].
      - apply check_ok_inv in E1. split.
        + exact (visited_PerformSpaceToBatchOnConvolution _ _ _ _ _ E1).
        + intros _.
          exact (proj2 (PerformSpaceToBatchOnConvolution_rewrites
                          _ _ _ _ E1)).
      - injection E1 as <-. split; [reflexivity |].
        intros Hc. apply elem_of_union in Hc as [Hc | Hc];
          [contradiction | exact Hc]. }
    destruct Hstep as [H01 Hconv].
    split; [now transitivity v1 |].
    intros k [<- | Hk] Hc.
    + apply (proj1 H1). now apply Hconv.
    + apply (Hl k Hk).
      apply elem_of_union in Hc as [Hc | Hc].
      * apply (proj2 H01). exact Hc.
      * apply elem_of_union_r. apply (proj1 H01). exact Hc.
Qed.

Lemma Run_rewrites fuel v changed v' :
  Run fuel v = OK (changed, v') ->
  forall conv, In conv (conv_visitor_list_ v) ->
    conv ∈ convs_to_visit_ v ∪ dom (old_to_new_instrs_ v) ->
    conv ∈ dom (old_to_new_instrs_ v').
Proof.
  intros E conv Hin Hc. unfold Run in E.
  apply bind_inv in E as (convs & v0 & E0 & E). injection E0 as <- <-.
  apply bind_inv in E as ([] & v1 & E1 & E).
  destruct (Run_visits _ _ _ _ E1) as [_ H1].
  specialize (H1 conv Hin Hc).
  apply bind_inv in E as ([] & v2 & E2 & E). injection E2 as <-.
  apply bind_inv in E as (pending & v3 & E3 & E). injection E3 as <- <-.
  apply bind_inv in E as ([] & v3 & E3 & E).
  assert (H3 : forall pending,
                 respects more_visited
                   (for_each pending tt (fun i _ => restore_operands i))).
  { intros l. apply respects_for_each; [typeclasses eauto .. |].
    intros i []. apply visited_restore_operands. }
  apply H3 in E3. apply bind_inv in E as ([] & v4 & E4 & E).
  injection E4 as <-. injection E as <- <-. cbn.
  apply (proj1 E3). exact H1.
Qed.

Lemma run_visitor_rewrites limit fuel c changed v i :
  run_visitor limit fuel c = OK (changed, v) ->
  is_suitable_convolution limit c i = true ->
  i ∈ dom (old_to_new_instrs_ v).
Proof.
  intros E Hi. unfold run_visitor, bindS in E.
  destruct (make_visitor limit c) as [v0 |] eqn:E0; [| discriminate].
  apply make_visitor_outcome in E0.
  assert (Hin : In i (List.filter (is_suitable_convolution limit c)
                        (seq 0 (length (instructions c))))).
  { apply filter_In. split; [| exact Hi]. apply in_seq.
    unfold is_suitable_convolution in Hi.
    destruct (instructions c !! i) eqn:Ei; [| discriminate].
    apply lookup_lt_Some in Ei. lia. }
  apply (Run_rewrites _ _ _ _ E i); subst v0; cbn.
  - exact Hin.
  - apply elem_of_union_l, elem_of_list_to_set, list_elem_of_In. exact Hin.
Qed.


(** ** What the rewrites leave alone *)

(** X19: [Propagate] changes no instruction that the computation has, and
    not its root: what it makes, and what it changes of it, are
    instructions at the end of the computation.  It records for its
    consumer a rewritten form, which is one of these, and (batch, space)
    dimensions; when it answers that further propagation is needed, it
    records the permutation of the rewritten form as well, the entries that
    [BatchToSpace] CHECKs. *)
Theorem Propagate_changes_no_instruction consumer producer v r v' :
  Propagate consumer producer v = OK (r, v') ->
  kept (computation_ v) v' /\
  exists new_consumer,
    old_to_new_instrs_ v' !! consumer = Some new_consumer /\
    (length (instructions (computation_ v)) <= new_consumer)%nat /\
    is_Some (instr_to_dim_map_ v' !! consumer) /\
    (r = true -> is_Some (instr_to_dim_permute_map_ v' !! new_consumer)).
Proof. apply Propagate_tables. Qed.

Lemma Propagate_changes_no_instruction_witness :
  kept (computation_ example_rewritten)
    (final_state (Propagate 4 2 example_rewritten) example_rewritten) /\
  exists new_consumer,
    old_to_new_instrs_
      (final_state (Propagate 4 2 example_rewritten) example_rewritten)
    !! 4%nat = Some new_consumer /\
    (length (instructions (computation_ example_rewritten))
     <= new_consumer)%nat /\
    is_Some
      (instr_to_dim_map_
         (final_state (Propagate 4 2 example_rewritten) example_rewritten)
       !! 4%nat) /\
    (true = true ->
     is_Some
       (instr_to_dim_permute_map_
          (final_state (Propagate 4 2 example_rewritten) example_rewritten)
        !! new_consumer)).
Proof.
  apply (Propagate_changes_no_instruction 4 2 example_rewritten true).
  vm_compute. reflexivity.
Defined.

(** X20: the first part of [PerformSpaceToBatchOnConvolution], up to the
    call of [PropagateOnUsers], changes no instruction: it adds
    instructions at the end of the computation.  It records for the
    convolution a rewritten form, one of the instructions added, the
    (batch, space) dimensions of the convolution and the permutation of the
    rewritten form. *)
Theorem rewrite_of_a_convolution_only_adds convolution v v' :
  space_to_batch_convolution convolution v = OK (tt, v') ->
  grown v v' /\
  exists new_conv,
    old_to_new_instrs_ v' !! convolution = Some new_conv /\
    (length (instructions (computation_ v)) <= new_conv)%nat /\
    is_Some (instr_to_dim_map_ v' !! convolution) /\
    is_Some (instr_to_dim_permute_map_ v' !! new_conv).
Proof. apply space_to_batch_convolution_outcome. Qed.

Lemma rewrite_of_a_convolution_only_adds_witness :
  grown (new_visitor 8 example_unsupported_user)
    (final_state
       (space_to_batch_convolution 2 (new_visitor 8 example_unsupported_user))
       (new_visitor 8 example_unsupported_user)) /\
  exists new_conv,
    old_to_new_instrs_
      (final_state
         (space_to_batch_convolution 2
            (new_visitor 8 example_unsupported_user))
         (new_visitor 8 example_unsupported_user)) !! 2%nat
    = Some new_conv /\
    (length (instructions
               (computation_ (new_visitor 8 example_unsupported_user)))
     <= new_conv)%nat /\
    is_Some
      (instr_to_dim_map_
         (final_state
            (space_to_batch_convolution 2
               (new_visitor 8 example_unsupported_user))
            (new_visitor 8 example_unsupported_user)) !! 2%nat) /\
    is_Some
      (instr_to_dim_permute_map_
         (final_state
            (space_to_batch_convolution 2
               (new_visitor 8 example_unsupported_user))
            (new_visitor 8 example_unsupported_user)) !! new_conv).
Proof.
  apply (rewrite_of_a_convolution_only_adds 2
           (new_visitor 8 example_unsupported_user)).
  vm_compute. reflexivity.
Defined.

(** X21: [CanPropagate] changes neither the computation nor the rewritten
    instructions nor the instructions marked as non-propagatable. *)
Theorem CanPropagate_changes_no_instruction consumer producer v ready v' :
  CanPropagate consumer producer v = OK (ready, v') ->
  frame_but eq (fun _ => True) v v'.
Proof. apply CanPropagate_reads. Qed.

Lemma CanPropagate_changes_no_instruction_witness :
  frame_but eq (fun _ => True) example_rewritten example_rewritten.
Proof.
  apply (CanPropagate_changes_no_instruction 4 2 example_rewritten true).
  vm_compute. reflexivity.
Defined.

(** X22: [SelectValidPortion] changes no instruction: it adds instructions
    at the end of the computation and returns one of them. *)
Theorem SelectValidPortion_only_adds new_instr old_instr select_val nbd nsd
    obd osd c r c' :
  SelectValidPortion new_instr old_instr select_val nbd nsd obd osd c
  = OK (r, c') ->
  grows c c' /\ (length (instructions c) <= r)%nat.
Proof.
  intros E. split; [exact (grows_SelectValidPortion _ _ _ _ _ _ _ _ _ _ E) |].
  exact (proj2 (kept_SelectValidPortion c _ _ _ _ _ _ _ _ _ _
                  (kept_graph_refl c) E)).
Qed.

Lemma SelectValidPortion_only_adds_witness :
  grows (computation_ example_rewritten)
    (final_state
       (SelectValidPortion 11 2 12 0 1 0 1 (computation_ example_rewritten))
       (computation_ example_rewritten)) /\
  (length (instructions (computation_ example_rewritten)) <= 22)%nat.
Proof.
  apply (SelectValidPortion_only_adds 11 2 12 0 1 0 1).
  vm_compute. reflexivity.
Defined.

(** X23: [HaloDuplicateWithSlice] changes no instruction: it adds
    instructions at the end of the computation. *)
Theorem HaloDuplicateWithSlice_only_adds activations sd bd obs low high halo
    osds pad_val c r c' :
  HaloDuplicateWithSlice activations sd bd obs low high halo osds pad_val c
  = OK (r, c') ->
  grows c c'.
Proof. apply grows_HaloDuplicateWithSlice. Qed.

Lemma HaloDuplicateWithSlice_only_adds_witness :
  grows (computation_ example_rewritten)
    (final_state
       (HaloDuplicateWithSlice 6 1 0 2 0 0 2 16 None
          (computation_ example_rewritten))
       (computation_ example_rewritten)).
Proof.
  apply (HaloDuplicateWithSlice_only_adds 6 1 0 2 0 0 2 16 None
           (computation_ example_rewritten) 21%nat).
  vm_compute. reflexivity.
Defined.

(** ** The split size *)

(** X24: the loop of [PerformSpaceToBatchOnConvolution] that raises the
    split size by the stride comes to its end, for sizes up to 2^30, with
    the first split size on its way that covers the space:
    [spatial_split_size * num_splits >= spatial_size]. *)
Theorem split_size_covers_the_space num_splits spatial_size stride s :
  1 <= num_splits <= 2 ^ 30 -> 1 <= stride <= 2 ^ 30 ->
  0 <= spatial_size <= 2 ^ 30 -> 0 <= s <= 2 ^ 30 ->
  exists s',
    grow_until_covered (fun s => (s * num_splits - spatial_size)%i64) stride s
    = OK s' /\
    0 <= s' * num_splits - spatial_size /\
    (s' = s \/ (s' - stride) * num_splits - spatial_size < 0) /\
    exists k, 0 <= k /\ s' = s + k * stride.
Proof. apply grow_until_covered_first. Qed.

Lemma split_size_covers_the_space_witness :
  exists s',
    grow_until_covered (fun s => (s * 4 - 18)%i64) 2 2 = OK s' /\
    0 <= s' * 4 - 18 /\
    (s' = 2 \/ (s' - 2) * 4 - 18 < 0) /\
    exists k, 0 <= k /\ s' = 2 + k * 2.
Proof.
  apply (split_size_covers_the_space 4 18 2 2); lia.
Defined.

(** X25: the loop of [PerformSpaceToBatchOnConvolution] that lines the
    split size up with the stride of a reduce-window comes to its end, for
    sizes up to 2^30, after fewer iterations than the stride of the
    reduce-window, with the first split size on its way whose quotient by
    the stride of the convolution is a multiple of that stride. *)
Theorem split_size_is_lined_up stride red_win_stride s :
  1 <= stride <= 2 ^ 30 -> 1 <= red_win_stride <= 2 ^ 30 ->
  0 <= s <= 2 ^ 30 ->
  exists k,
    0 <= k < red_win_stride /\
    while_misaligned (Z.to_nat (Z.abs red_win_stride)) stride red_win_stride s
    = OK (s + k * stride) /\
    Z.rem (Z.quot (s + k * stride) stride) red_win_stride = 0 /\
    forall j, 0 <= j < k ->
              Z.rem (Z.quot (s + j * stride) stride) red_win_stride <> 0.
Proof. apply while_misaligned_aligns. Qed.

Lemma split_size_is_lined_up_witness :
  exists k,
    0 <= k < 3 /\
    while_misaligned (Z.to_nat (Z.abs 3)) 2 3 4 = OK (4 + k * 2) /\
    Z.rem (Z.quot (4 + k * 2) 2) 3 = 0 /\
    forall j, 0 <= j < k -> Z.rem (Z.quot (4 + j * 2) 2) 3 <> 0.
Proof.
  apply (split_size_is_lined_up 2 3 4); lia.
Defined.

(** ** The convolutions of a run *)

(** X26: a successful [PerformSpaceToBatchOnConvolution] sets the flag
    [changed_] and leaves the convolution rewritten; it loses no rewritten
    instruction, and a convolution that it takes out of [convs_to_visit_]
    is one that is rewritten. *)
Theorem rewritten_convolution_sets_the_flag fuel convolution v v' :
  PerformSpaceToBatchOnConvolution fuel convolution v = OK (tt, v') ->
  changed_ v' = true /\
  convolution ∈ dom (old_to_new_instrs_ v') /\
  more_visited v v'.
Proof.
  intros E.
  destruct (PerformSpaceToBatchOnConvolution_rewrites _ _ _ _ E) as [H1 H2].
  split; [exact H1 |]. split; [exact H2 |].
  exact (visited_PerformSpaceToBatchOnConvolution _ _ _ _ _ E).
Qed.

Lemma rewritten_convolution_sets_the_flag_witness :
  changed_
    (final_state
       (PerformSpaceToBatchOnConvolution 50 2
          (new_visitor 8 example_unsupported_user))
       (new_visitor 8 example_unsupported_user)) = true /\
  2%nat ∈ dom (old_to_new_instrs_
                 (final_state
                    (PerformSpaceToBatchOnConvolution 50 2
                       (new_visitor 8 example_unsupported_user))
                    (new_visitor 8 example_unsupported_user))) /\
  more_visited (new_visitor 8 example_unsupported_user)
    (final_state
       (PerformSpaceToBatchOnConvolution 50 2
          (new_visitor 8 example_unsupported_user))
       (new_visitor 8 example_unsupported_user)).
Proof.
  apply (rewritten_convolution_sets_the_flag 50 2
           (new_visitor 8 example_unsupported_user)).
  vm_compute. reflexivity.
Defined.

(** X27: a successful run of the visitor leaves every convolution that
    [IsConvSuitableForSpaceToBatch] accepts with a rewritten form in
    [old_to_new_instrs_]. *)
Theorem every_suitable_convolution_is_rewritten limit fuel computation
    changed v i :
  run_visitor limit fuel computation = OK (changed, v) ->
  is_suitable_convolution limit computation i = true ->
  i ∈ dom (old_to_new_instrs_ v).
Proof. apply run_visitor_rewrites. Qed.

Lemma every_suitable_convolution_is_rewritten_witness :
  2%nat ∈ dom (old_to_new_instrs_
                 (final_state (run_visitor 8 50 example_unsupported_user)
                    (new_visitor 8 example_unsupported_user))).
Proof.
  apply (every_suitable_convolution_is_rewritten 8 50
           example_unsupported_user true).
  - vm_compute. reflexivity.
  - vm_compute. reflexivity.
Defined.

